(** * Induced suffix sorting (sfx-sain.c): a shallow embedding

    The C functions of the suffix sorter are embedded as functions over an
    explicit memory.  [unsigned long] is a 64-bit word kept as a [Z] in
    [0, 2^64) with its wrap-around written out; the [long *] view of the
    suffix table reads the same words as two's complement numbers.  Every
    array access is bounds-checked and every [gt_assert] is a check, so that a
    run either ends in [Ok] or in [Fail] with the reason. *)

From Stdlib Require Import String ZArith List Bool Lia.
Import ListNotations.
Local Open Scope Z_scope.

(** ** Machine words *)

Definition wordsize : Z := 2 ^ 64.

(** Wrap-around of [unsigned long] arithmetic. *)
Definition u64 (z : Z) : Z := z mod wordsize.

(** The value of a word read through a [long *]. *)
Definition s64 (z : Z) : Z :=
  let w := u64 z in if w <? 2 ^ 63 then w else w - wordsize.

(** [(GtUchar) x] *)
Definition u8 (z : Z) : Z := z mod 256.

Definition UCHAR_MAX : Z := 255.
Definition UINT16_MAX : Z := 65535.

(** [GT_MULT2], [GT_MULT4] and [GT_DIV2] are the shifts their names say. *)
Definition GT_MULT2 (x : Z) : Z := u64 (Z.shiftl x 1).
Definition GT_MULT4 (x : Z) : Z := u64 (Z.shiftl x 2).
Definition GT_DIV2 (x : Z) : Z := Z.shiftr x 1.

(** [~x] on a [long]. *)
Definition lnot (x : Z) : Z := - x - 1.

(** ** Memory, results and the monad *)

Inductive error : Type :=
  | OutOfBounds        (* access outside of an allocated array *)
  | Uninitialised      (* read of a gt_malloc'ed cell never written *)
  | AssertFailed       (* a gt_assert does not hold *)
  | ProgrammingError   (* exit(GT_EXIT_PROGRAMMING_ERROR) *)
  | OutOfFuel.

Definition block : Type := list Z.

(** Block 0 is the suffix table; later blocks are heap allocations. *)
Definition mem : Type := list block.

Record ptr : Type := Ptr { pblk : nat; poff : Z }.

Definition padd (p : ptr) (d : Z) : ptr := Ptr (pblk p) (poff p + d).

Inductive res (A : Type) : Type :=
  | Ok (a : A) (m : mem)
  | Fail (e : error).
Arguments Ok {A} a m.
Arguments Fail {A} e.

Definition M (A : Type) : Type := mem -> res A.

Definition ret {A} (a : A) : M A := fun m => Ok a m.

Definition bind {A B} (c : M A) (k : A -> M B) : M B :=
  fun m => match c m with
           | Ok a m' => k a m'
           | Fail e => Fail e
           end.

Definition fail {A} (e : error) : M A := fun _ => Fail e.

Declare Scope sain_scope.
Delimit Scope sain_scope with sain.
Notation "x <- c ;; k" := (bind c (fun x => k))
  (at level 61, c at next level, right associativity) : sain_scope.
Notation "c ;; k" := (bind c (fun _ => k))
  (at level 61, right associativity) : sain_scope.
Local Open Scope sain_scope.

Definition gt_assert (b : bool) : M unit :=
  if b then ret tt else fail AssertFailed.

(** A cell of a fresh [gt_malloc] block holds [-1], which no store can
    write: reading it is the read of an indeterminate value. *)
Definition poison : Z := -1.

Fixpoint upd (l : block) (n : nat) (v : Z) : block :=
  match l, n with
  | [], _ => []
  | _ :: t, O => v :: t
  | h :: t, S n' => h :: upd t n' v
  end.

Fixpoint updblk (m : mem) (b : nat) (f : block -> block) : mem :=
  match m, b with
  | [], _ => []
  | h :: t, O => f h :: t
  | h :: t, S b' => h :: updblk t b' f
  end.

(** Is [a] an index of the array [b]? *)
Definition inbounds (b : block) (a : Z) : bool :=
  (0 <=? a) && (a <? Z.of_nat (length b)).

Definition load (p : ptr) (i : Z) : M Z := fun m =>
  let a := poff p + i in
  let b := nth (pblk p) m [] in
  if inbounds b a then
    let v := nth (Z.to_nat a) b 0 in
    if v <? 0 then Fail Uninitialised else Ok v m
  else Fail OutOfBounds.

Definition store (p : ptr) (i : Z) (v : Z) : M unit := fun m =>
  let a := poff p + i in
  if inbounds (nth (pblk p) m []) a
  then Ok tt (updblk m (pblk p) (fun b => upd b (Z.to_nat a) (u64 v)))
  else Fail OutOfBounds.

Definition gt_malloc (n : Z) : M ptr := fun m =>
  Ok (Ptr (length m) 0) (m ++ [repeat poison (Z.to_nat n)]).

Definition gt_calloc (n : Z) : M ptr := fun m =>
  Ok (Ptr (length m) 0) (m ++ [repeat 0 (Z.to_nat n)]).

(** After [gt_free] the block is gone: any later access is out of bounds. *)
Definition gt_free (p : ptr) : M unit := fun m =>
  Ok tt (updblk m (pblk p) (fun _ => [])).

(** [for (i = start; <n times>; i++) body], threading the loop state. *)
Fixpoint for_up {S : Type} (n : nat) (i : Z) (body : Z -> S -> M S) (s : S)
  : M S :=
  match n with
  | O => ret s
  | Datatypes.S n' => s' <- body i s ;; for_up n' (i + 1) body s'
  end.

(** [for (i = start; <n times>; i--) body]. *)
Fixpoint for_down {S : Type} (n : nat) (i : Z) (body : Z -> S -> M S) (s : S)
  : M S :=
  match n with
  | O => ret s
  | Datatypes.S n' => s' <- body i s ;; for_down n' (i - 1) body s'
  end.

(** What the sorter prints on stdout.  The numbers printed through [%.2f]
    are quotients of the integers kept here. *)
Inductive event : Type :=
  | EvLevel (level totallength numofchars : Z)
  | EvUsedBuffer (buf_size : Z)
  | EvBucketsizeRequires (numofchars left : Z)
  | EvSstartype (countSstartype totallength : Z)
  | EvTimer (desc : string).

(** Computations that also print: the events come out in order, and those
    printed before a failure are kept. *)
Definition T (A : Type) : Type := mem -> list event * res A.

Definition retT {A} (a : A) : T A := fun m => ([], Ok a m).

Definition bindT {A B} (c : T A) (k : A -> T B) : T B :=
  fun m => match c m with
           | (ev, Ok a m') => let (ev', r) := k a m' in (ev ++ ev', r)
           | (ev, Fail e) => (ev, Fail e)
           end.

Definition lift {A} (c : M A) : T A := fun m => ([], c m).

Definition emit (ev : list event) : T unit := fun m => (ev, Ok tt m).

Notation "x <~ c ;; k" := (bindT c (fun x => k))
  (at level 61, c at next level, right associativity) : sain_scope.
Notation "c ;;; k" := (bindT c (fun _ => k))
  (at level 61, right associativity) : sain_scope.

(** The macro [GT_SAIN_SHOWTIMER(DESC)]; [timer] tells whether the timer is
    not [NULL]. *)
Definition GT_SAIN_SHOWTIMER (timer : bool) (desc : string) : T unit :=
  if timer then emit [EvTimer desc] else retT tt.

(** ** What the headers outside of this file provide *)

Inductive GtReadmode : Type :=
  | GT_READMODE_FORWARD
  | GT_READMODE_REVERSE
  | GT_READMODE_COMPL
  | GT_READMODE_REVCOMPL.

Definition GT_ISDIRREVERSE (r : GtReadmode) : bool :=
  match r with
  | GT_READMODE_REVERSE | GT_READMODE_REVCOMPL => true
  | _ => false
  end.

Definition GT_ISDIRCOMPLEMENT (r : GtReadmode) : bool :=
  match r with
  | GT_READMODE_COMPL | GT_READMODE_REVCOMPL => true
  | _ => false
  end.

(** Modelled from the spec: the encoded sequence is an external collaborator
    (total length, alphabet size, per-symbol counts, character access under a
    read mode, special ranges).  It is kept as the list of its stored codes,
    one [GtUchar] per position, and the number of ordinary symbols. *)
Record GtEncseq : Type := {
  enc_chars : list Z;
  enc_numofchars : Z
}.

(** The macros and constants that the sorter takes from headers that are not
    among the sources.  They are parameters of the development. *)
Class GtHeaders : Type := {
  GT_FIRSTTWOBITS : Z;
  GT_COMPAREOFFSET : Z;
  GT_UNIQUEINT : Z -> Z;
  GT_COMPLEMENTBASE : Z -> Z;
  ISSPECIAL : Z -> bool;
  gt_suftab_lightweightcheck : GtEncseq -> GtReadmode -> Z -> list Z -> bool
}.

(** Modelled from the spec: [gt_determinebitspervalue] comes from
    core/mathsupport.h; it is the number of bits needed to write its
    argument, which makes the write buffer hold about 2^18 bytes. *)
Definition gt_determinebitspervalue (n : Z) : Z :=
  if n <=? 0 then 0 else Z.log2 n + 1.

Section Sain.

Context {hd : GtHeaders}.

(** *** The encoded sequence *)

(** Modelled from the spec: [total_length()]. *)
Definition gt_encseq_total_length (e : GtEncseq) : Z :=
  Z.of_nat (length (enc_chars e)).

(** Modelled from the spec: [alphabet_size()]. *)
Definition gt_encseq_alphabetnumofchars (e : GtEncseq) : Z := enc_numofchars e.

(** Modelled from the spec: [char_count(symbol)], the number of positions
    that store the symbol. *)
Definition gt_encseq_charcount (e : GtEncseq) (c : Z) : Z :=
  Z.of_nat (count_occ Z.eq_dec (enc_chars e) c).

(** Modelled from the spec: [special_characters()]. *)
Definition gt_encseq_specialcharacters (e : GtEncseq) : Z :=
  Z.of_nat (length (filter ISSPECIAL (enc_chars e))).

(** Modelled from the spec: [has_special_ranges()]. *)
Definition gt_encseq_has_specialranges (e : GtEncseq) : bool :=
  existsb ISSPECIAL (enc_chars e).

(** Modelled from the spec: [get_encoded_char(pos, readmode)]; reverse reads
    position [N-1-pos], and a complement mode returns the complement base of
    an ordinary symbol. *)
Definition gt_encseq_get_encoded_char (e : GtEncseq) (pos : Z)
    (r : GtReadmode) : M Z :=
  if inbounds (enc_chars e) pos then
    let p := if GT_ISDIRREVERSE r then gt_encseq_total_length e - 1 - pos
             else pos in
    let cc := nth (Z.to_nat p) (enc_chars e) 0 in
    ret (if GT_ISDIRCOMPLEMENT r
         then (if ISSPECIAL cc then cc else u8 (GT_COMPLEMENTBASE cc))
         else cc)
  else fail OutOfBounds.

(** Maximal runs of special positions in [l], whose first position is
    [pos]; [open] is the start of the run that is being read. *)
Fixpoint special_runs (l : list Z) (pos : Z) (open : option Z)
  : list (Z * Z) :=
  match l with
  | [] => match open with Some s => [(s, pos)] | None => [] end
  | c :: t =>
      if ISSPECIAL c
      then special_runs t (pos + 1)
             (match open with Some s => Some s | None => Some pos end)
      else match open with
           | Some s => (s, pos) :: special_runs t (pos + 1) None
           | None => special_runs t (pos + 1) None
           end
  end.

(** Modelled from the spec: the special range iterator, yielding the maximal
    ranges [start, end) in ascending ([moveforward]) or descending order. *)
Definition gt_specialrangeiterator (e : GtEncseq) (moveforward : bool)
  : list (Z * Z) :=
  let rs := special_runs (enc_chars e) 0 None in
  if moveforward then rs else rev rs.

(** Modelled from the spec: [range_reverse(N, r)]. *)
Definition gt_range_reverse (totallength : Z) (r : Z * Z) : Z * Z :=
  (totallength - snd r, totallength - fst r).

(** *** The sequence view *)

Inductive GtSainSeqtype : Type :=
  | GT_SAIN_PLAINSEQ
  | GT_SAIN_INTSEQ
  | GT_SAIN_ENCSEQ.

(** The union [seq] of the C struct together with its tag [seqtype]. *)
Inductive GtSainSeqdata : Type :=
  | SeqEncseq (encseq : GtEncseq)
  | SeqPlain (plainseq : list Z)
  | SeqArray (array : ptr).

Record GtSainseq : Type := {
  totallength : Z;
  numofchars : Z;
  currentround : Z;
  bucketsize : ptr;
  bucketfillptr : ptr;
  sstarfirstcharcount : option ptr;
  roundtable : option ptr;
  seq : GtSainSeqdata;
  readmode : GtReadmode;
  bucketfillptrpoints2suftab : bool;
  bucketsizepoints2suftab : bool;
  roundtablepoints2suftab : bool
}.

Definition seqtype (s : GtSainseq) : GtSainSeqtype :=
  match seq s with
  | SeqEncseq _ => GT_SAIN_ENCSEQ
  | SeqPlain _ => GT_SAIN_PLAINSEQ
  | SeqArray _ => GT_SAIN_INTSEQ
  end.

Definition set_currentround (s : GtSainseq) (r : Z) : GtSainseq :=
  {| totallength := totallength s; numofchars := numofchars s;
     currentround := r;
     bucketsize := bucketsize s; bucketfillptr := bucketfillptr s;
     sstarfirstcharcount := sstarfirstcharcount s;
     roundtable := roundtable s; seq := seq s; readmode := readmode s;
     bucketfillptrpoints2suftab := bucketfillptrpoints2suftab s;
     bucketsizepoints2suftab := bucketsizepoints2suftab s;
     roundtablepoints2suftab := roundtablepoints2suftab s |}.

Definition set_roundtable (s : GtSainseq) (r : option ptr) : GtSainseq :=
  {| totallength := totallength s; numofchars := numofchars s;
     currentround := currentround s;
     bucketsize := bucketsize s; bucketfillptr := bucketfillptr s;
     sstarfirstcharcount := sstarfirstcharcount s;
     roundtable := r; seq := seq s; readmode := readmode s;
     bucketfillptrpoints2suftab := bucketfillptrpoints2suftab s;
     bucketsizepoints2suftab := bucketsizepoints2suftab s;
     roundtablepoints2suftab := roundtablepoints2suftab s |}.

Definition set_sstarfirstcharcount (s : GtSainseq) (r : option ptr)
  : GtSainseq :=
  {| totallength := totallength s; numofchars := numofchars s;
     currentround := currentround s;
     bucketsize := bucketsize s; bucketfillptr := bucketfillptr s;
     sstarfirstcharcount := r;
     roundtable := roundtable s; seq := seq s; readmode := readmode s;
     bucketfillptrpoints2suftab := bucketfillptrpoints2suftab s;
     bucketsizepoints2suftab := bucketsizepoints2suftab s;
     roundtablepoints2suftab := roundtablepoints2suftab s |}.

(** The suffix table is the first block of the memory. *)
Definition suftab0 : ptr := Ptr 0 0.

Definition gt_sain_decideforfastmethod (maxvalue len : Z) : bool :=
  (maxvalue <? GT_FIRSTTWOBITS) && (1024 <? len).

(** [a[i]++] *)
Definition incr (a : ptr) (i : Z) : M unit :=
  v <- load a i ;; store a i (v + 1).

Definition gt_sainseq_new_from_encseq (encseq : GtEncseq) (rm : GtReadmode)
  : M GtSainseq :=
  let tl := gt_encseq_total_length encseq in
  let nc := gt_encseq_alphabetnumofchars encseq in
  bsize <- gt_malloc nc ;;
  bfill <- gt_malloc nc ;;
  rt <- (if gt_sain_decideforfastmethod (u64 (tl + GT_COMPAREOFFSET)) tl
         then (p <- gt_malloc (GT_MULT2 nc) ;; ret (Some p))
         else ret None) ;;
  sfc <- gt_calloc nc ;;
  for_up (Z.to_nat nc) 0
    (fun idx (_ : unit) =>
       if GT_ISDIRCOMPLEMENT rm
       then store bsize idx
              (gt_encseq_charcount encseq (u8 (GT_COMPLEMENTBASE idx)))
       else store bsize idx (gt_encseq_charcount encseq (u8 idx))) tt ;;
  ret {| totallength := tl; numofchars := nc; currentround := 0;
         bucketsize := bsize; bucketfillptr := bfill;
         sstarfirstcharcount := Some sfc; roundtable := rt;
         seq := SeqEncseq encseq; readmode := rm;
         bucketfillptrpoints2suftab := false;
         bucketsizepoints2suftab := false;
         roundtablepoints2suftab := false |}.

(** [plainseq[i]] *)
Definition plain_get (plainseq : list Z) (i : Z) : M Z :=
  if inbounds plainseq i then ret (nth (Z.to_nat i) plainseq 0)
  else fail OutOfBounds.

(** [plainseq] is the byte array, [len] long. *)
Definition gt_sainseq_new_from_plainseq (plainseq : list Z) (len : Z)
  : M GtSainseq :=
  let nc := UCHAR_MAX + 1 in
  bsize <- gt_calloc nc ;;
  bfill <- gt_malloc nc ;;
  rt <- (if gt_sain_decideforfastmethod (u64 (len + 1)) len
         then (p <- gt_malloc (GT_MULT2 nc) ;; ret (Some p))
         else ret None) ;;
  sfc <- gt_calloc nc ;;
  for_up (Z.to_nat len) 0
    (fun i (_ : unit) => c <- plain_get plainseq i ;; incr bsize c) tt ;;
  ret {| totallength := len; numofchars := nc; currentround := 0;
         bucketsize := bsize; bucketfillptr := bfill;
         sstarfirstcharcount := Some sfc; roundtable := rt;
         seq := SeqPlain plainseq; readmode := GT_READMODE_FORWARD;
         bucketfillptrpoints2suftab := false;
         bucketsizepoints2suftab := false;
         roundtablepoints2suftab := false |}.

Definition gt_sainseq_new_from_array (arr : ptr) (len nc : Z)
    (suftab : ptr) (firstusable suftabentries : Z) : T GtSainseq :=
  lift (gt_assert (firstusable <? suftabentries)) ;;;
  let left := u64 (suftabentries - firstusable) in
  bs <~ (if nc <=? left
         then retT (padd suftab (suftabentries - nc), true)
         else (emit [EvBucketsizeRequires nc left] ;;;
               p <~ lift (gt_malloc nc) ;; retT (p, false))) ;;
  let '(bsize, bsize2suf) := bs in
  lift (
    bf <- (if GT_MULT2 nc <=? left
           then ret (padd suftab (suftabentries - GT_MULT2 nc), true)
           else (p <- gt_malloc nc ;; ret (p, false))) ;;
    let '(bfill, bfill2suf) := bf in
    rt <- (if gt_sain_decideforfastmethod (u64 (len + 1)) len
           then (if GT_MULT4 nc <=? left
                 then ret (Some (padd suftab (suftabentries - GT_MULT4 nc)),
                           true)
                 else (p <- gt_malloc (GT_MULT2 nc) ;; ret (Some p, false)))
           else ret (None, false)) ;;
    let '(rtab, rtab2suf) := rt in
    for_up (Z.to_nat nc) 0
      (fun charidx (_ : unit) => store bsize charidx 0) tt ;;
    for_up (Z.to_nat len) 0
      (fun i (_ : unit) => c <- load arr i ;; incr bsize c) tt ;;
    ret {| totallength := len; numofchars := nc; currentround := 0;
           bucketsize := bsize; bucketfillptr := bfill;
           sstarfirstcharcount := None; roundtable := rtab;
           seq := SeqArray arr; readmode := GT_READMODE_FORWARD;
           bucketfillptrpoints2suftab := bfill2suf;
           bucketsizepoints2suftab := bsize2suf;
           roundtablepoints2suftab := rtab2suf |}).

Definition gt_sainseq_delete (s : GtSainseq) : M unit :=
  (if bucketfillptrpoints2suftab s then ret tt
   else gt_free (bucketfillptr s)) ;;
  (if bucketsizepoints2suftab s then ret tt else gt_free (bucketsize s)) ;;
  (if roundtablepoints2suftab s then ret tt
   else match roundtable s with
        | Some p => gt_free p
        | None => ret tt
        end) ;;
  match seqtype s with
  | GT_SAIN_INTSEQ => ret tt
  | _ => match sstarfirstcharcount s with
         | Some p => gt_free p
         | None => ret tt
         end
  end.

Definition gt_sainseq_getchar (s : GtSainseq) (position : Z) : M Z :=
  match seq s with
  | SeqPlain plainseq => plain_get plainseq position
  | SeqArray array => load array position
  | SeqEncseq encseq =>
      cc <- gt_encseq_get_encoded_char encseq position (readmode s) ;;
      ret (if ISSPECIAL cc then GT_UNIQUEINT position else cc)
  end.

Definition gt_sain_endbuckets (s : GtSainseq) : M unit :=
  b0 <- load (bucketsize s) 0 ;;
  store (bucketfillptr s) 0 b0 ;;
  for_up (Z.to_nat (numofchars s - 1)) 1
    (fun charidx previous =>
       b <- load (bucketsize s) charidx ;;
       let previous := u64 (previous + b) in
       store (bucketfillptr s) charidx previous ;;
       ret previous) b0 ;;
  ret tt.

Definition gt_sain_startbuckets (s : GtSainseq) : M unit :=
  store (bucketfillptr s) 0 0 ;;
  for_up (Z.to_nat (numofchars s - 1)) 1
    (fun charidx previous =>
       b <- load (bucketsize s) (charidx - 1) ;;
       let previous := u64 (previous + b) in
       store (bucketfillptr s) charidx previous ;;
       ret previous) 0 ;;
  ret tt.

(** *** The write buffer *)

(** The field [size], a number of bytes that depends on the layout of the
    struct, is only printed and is left out. *)
Record GtSainbuffer : Type := {
  buf_size : Z;
  buf_numofchars : Z;
  cachesize : Z;
  values : ptr;
  buf_fillptr : ptr;
  buf_suftab : ptr;
  nextidx : ptr;
  log_bufsize : Z
}.

Definition gt_sainbuffer_new (suftab fillptr : ptr) (nc : Z)
  : T (option GtSainbuffer) :=
  if nc <=? UCHAR_MAX + 1 then
    let lb := 18 - 2 - gt_determinebitspervalue nc in
    let bsz := u64 (Z.shiftl 1 lb) in
    lift (gt_assert (bsz <=? UINT16_MAX)) ;;;
    let cs := u64 (Z.shiftl nc lb) in
    vals <~ lift (gt_malloc cs) ;;
    nidx <~ lift (gt_calloc nc) ;;
    emit [EvUsedBuffer bsz] ;;;
    retT (Some {| buf_size := bsz; buf_numofchars := nc; cachesize := cs;
                  values := vals; buf_fillptr := fillptr;
                  buf_suftab := suftab; nextidx := nidx;
                  log_bufsize := lb |})
  else retT None.

(** [while (readptr < readend) *(writeptr--) = *(readptr++)] with
    [writeptr = suftab + fill - 1] and [readptr = values + offset]. *)
Definition sainbuffer_copy (buf : GtSainbuffer) (offset fill : Z) (n : Z)
  : M unit :=
  for_up (Z.to_nat n) 0
    (fun k (_ : unit) =>
       v <- load (values buf) (offset + k) ;;
       store (buf_suftab buf) (fill - 1 - k) v) tt.

Definition gt_sainbuffer_update (buf : GtSainbuffer) (charidx value : Z)
  : M unit :=
  let offset := u64 (Z.shiftl charidx (log_bufsize buf)) in
  ni <- load (nextidx buf) charidx ;;
  store (values buf) (offset + ni) value ;;
  if ni <? buf_size buf - 1
  then store (nextidx buf) charidx (ni + 1)
  else
    fill <- load (buf_fillptr buf) charidx ;;
    sainbuffer_copy buf offset fill (buf_size buf) ;;
    store (nextidx buf) charidx 0 ;;
    store (buf_fillptr buf) charidx (fill - buf_size buf).

Definition gt_sainbuffer_flushall (b : option GtSainbuffer) : M unit :=
  match b with
  | None => ret tt
  | Some buf =>
      for_up (Z.to_nat (buf_numofchars buf)) 0
        (fun charidx (_ : unit) =>
           bufleft <- load (nextidx buf) charidx ;;
           if 0 <? bufleft then
             fill <- load (buf_fillptr buf) charidx ;;
             sainbuffer_copy buf (u64 (Z.shiftl charidx (log_bufsize buf)))
               fill bufleft ;;
             store (nextidx buf) charidx 0 ;;
             store (buf_fillptr buf) charidx (fill - bufleft)
           else ret tt) tt
  end.

Definition gt_sainbuffer_delete (b : option GtSainbuffer) : M unit :=
  match b with
  | None => ret tt
  | Some buf => gt_free (values buf) ;; gt_free (nextidx buf)
  end.

(** *** The scan that classifies the positions and seeds the Sstar suffixes *)

(** [currentcc < nextcc || (currentcc == nextcc && nextisStype)] *)
Definition isStype (currentcc nextcc : Z) (nextisStype : bool) : bool :=
  (currentcc <? nextcc) || ((currentcc =? nextcc) && nextisStype).

(** The state of the scan between two positions. *)
Record scanstate : Type := {
  sc_nextcc : Z;
  sc_nextisStype : bool;
  sc_countSstartype : Z
}.

(** The body of the [for] loop of [gt_saininfo_new] at [position]. *)
Definition saininfo_step (s : GtSainseq) (suftab : ptr)
    (sainbuffer : option GtSainbuffer) (position : Z) (st : scanstate)
  : M scanstate :=
  let nextcc := sc_nextcc st in
  currentcc <- gt_sainseq_getchar s position ;;
  let currentisStype := isStype currentcc nextcc (sc_nextisStype st) in
  count <- (if negb currentisStype && sc_nextisStype st then
              (match sstarfirstcharcount s with
               | Some sfc => incr sfc nextcc
               | None => ret tt
               end) ;;
              (match sainbuffer with
               | Some buf => gt_sainbuffer_update buf nextcc position
               | None =>
                   fill <- load (bucketfillptr s) nextcc ;;
                   store (bucketfillptr s) nextcc (fill - 1) ;;
                   store suftab (u64 (fill - 1)) position
               end) ;;
              ret (u64 (sc_countSstartype st + 1))
            else ret (sc_countSstartype st)) ;;
  ret {| sc_nextcc := currentcc; sc_nextisStype := currentisStype;
         sc_countSstartype := count |}.

(** [for (position = totallength-1; ; position--) { ...;
    if (position == 0) break; }] *)
Fixpoint saininfo_scan (fuel : nat) (s : GtSainseq) (suftab : ptr)
    (sainbuffer : option GtSainbuffer) (position : Z) (st : scanstate)
  : M scanstate :=
  match fuel with
  | O => fail OutOfFuel
  | S fuel' =>
      st' <- saininfo_step s suftab sainbuffer position st ;;
      if position =? 0 then ret st'
      else saininfo_scan fuel' s suftab sainbuffer (position - 1) st'
  end.

(** The result is the field [countSstartype] of the new [GtSaininfo]; its
    other field is the pointer to [s]. *)
Definition gt_saininfo_new (s : GtSainseq) (suftab : ptr) : T Z :=
  sainbuffer <~ gt_sainbuffer_new suftab (bucketfillptr s) (numofchars s) ;;
  lift (
    let nextcc := GT_UNIQUEINT (totallength s) in
    gt_sain_endbuckets s ;;
    st <- saininfo_scan (S (Z.to_nat (totallength s))) s suftab sainbuffer
            (u64 (totallength s - 1))
            {| sc_nextcc := nextcc; sc_nextisStype := true;
               sc_countSstartype := 0 |} ;;
    gt_sainbuffer_flushall sainbuffer ;;
    gt_sainbuffer_delete sainbuffer ;;
    gt_assert (GT_MULT2 (sc_countSstartype st) <=? totallength s) ;;
    ret (sc_countSstartype st)).

Definition gt_saininfo_show (countSstartype : Z) (s : GtSainseq)
  : list event :=
  [EvSstartype countSstartype (totallength s)].

Definition gt_sain_incrementfirstSstar (s : GtSainseq) (suftab : ptr)
  : M unit :=
  match roundtable s with
  | None => fail OutOfBounds
  | Some rt =>
      for_up (Z.to_nat (numofchars s)) 0
        (fun charidx sum =>
           b <- load (bucketsize s) charidx ;;
           let sum := u64 (sum + b) in
           f <- load (bucketfillptr s) charidx ;;
           gt_assert (f <=? sum) ;;
           (if f <? sum
            then v <- load suftab f ;; store suftab f (v + totallength s)
            else ret tt) ;;
           store rt charidx 0 ;;
           store rt (charidx + numofchars s) 0 ;;
           ret sum) 0 ;;
      ret tt
  end.

(** *** Induction of the L-type and S-type suffixes, before the naming *)

(** The locals [bucketptr] (an index into the suffix table, or [NULL]) and
    [lastupdatecc] of the induction loops, and the round counter they
    advance. *)
Record indstate : Type := {
  ind_round : Z;
  ind_bucketptr : option Z;
  ind_lastupdatecc : Z
}.

Definition isSome {A} (o : option A) : bool :=
  match o with Some _ => true | None => false end.

(** The macro [GT_SAINUPDATEBUCKETPTR(CURRENTCC)]; the result is the new
    [bucketptr] with the new [lastupdatecc]. *)
Definition GT_SAINUPDATEBUCKETPTR (s : GtSainseq) (bucketptr : option Z)
    (lastupdatecc currentcc : Z) : M (Z * Z) :=
  match bucketptr with
  | Some bp =>
      if negb (currentcc =? lastupdatecc) then
        store (bucketfillptr s) lastupdatecc bp ;;
        f <- load (bucketfillptr s) currentcc ;;
        ret (f, currentcc)
      else ret (bp, lastupdatecc)
  | None =>
      f <- load (bucketfillptr s) currentcc ;;
      ret (f, currentcc)
  end.

(** [if (position >= (long) totallength) { gt_assert(roundtable != NULL);
    currentround++; position -= (long) totallength; }] *)
Definition strip_roundtag (s : GtSainseq) (round position : Z) : M (Z * Z) :=
  if s64 (totallength s) <=? position then
    gt_assert (isSome (roundtable s)) ;;
    ret (u64 (round + 1), position - s64 (totallength s))
  else ret (round, position).

(** The round-table test of the first induction: [greater] tells which of
    the two neighbours the key bit compares ([leftcontextcc < currentcc] for
    L, [leftcontextcc > currentcc] for S); [needpositive] is the extra
    [currentcc > 0] of the assertion in the L pass. *)
Definition roundtable_tag (s : GtSainseq) (round currentcc : Z) (keybit : bool)
    (needpositive : bool) (position : Z) : M Z :=
  match roundtable s with
  | Some rt =>
      let t := Z.lor (u64 (Z.shiftl currentcc 1)) (if keybit then 1 else 0) in
      (if needpositive then gt_assert (0 <? currentcc) else ret tt) ;;
      r <- load rt t ;;
      gt_assert (r <=? round) ;;
      if r <? round then
        store rt t round ;;
        ret (position + s64 (totallength s))
      else ret position
  | None => ret position
  end.

(** The body of the first loop of [gt_sain_induceLtypesuffixes1] at
    [suftabptr = suftab + idx]. *)
Definition induceL1_step (s : GtSainseq) (suftab : ptr) (idx : Z)
    (st : indstate) : M indstate :=
  v <- load suftab idx ;;
  let position := s64 v in
  if 0 <? position then
    rp <- strip_roundtag s (ind_round st) position ;;
    let '(round, position) := rp in
    let st := {| ind_round := round; ind_bucketptr := ind_bucketptr st;
                 ind_lastupdatecc := ind_lastupdatecc st |} in
    currentcc <- gt_sainseq_getchar s (u64 position) ;;
    if currentcc <? numofchars s then
      if 0 <? position then
        gt_assert (0 <? position) ;;
        let position := position - 1 in
        leftcontextcc <- gt_sainseq_getchar s (u64 position) ;;
        position <- roundtable_tag s round currentcc
                      (leftcontextcc <? currentcc) true position ;;
        bl <- GT_SAINUPDATEBUCKETPTR s (ind_bucketptr st)
                (ind_lastupdatecc st) currentcc ;;
        let '(bucketptr, lastupdatecc) := bl in
        gt_assert (idx <? bucketptr) ;;
        store suftab bucketptr
          (if leftcontextcc <? currentcc then lnot position else position) ;;
        store suftab idx 0 ;;
        ret {| ind_round := round; ind_bucketptr := Some (bucketptr + 1);
               ind_lastupdatecc := lastupdatecc |}
      else ret st
    else
      store suftab idx 0 ;; ret st
  else
    (if position <? 0 then store suftab idx (lnot position) else ret tt) ;;
    ret st.

(** [while (nextgteq >= suftab && *nextgteq < (long) totallength)
    nextgteq--;] *)
Fixpoint find_nextgteq (fuel : nat) (s : GtSainseq) (suftab : ptr) (j : Z)
  : M Z :=
  match fuel with
  | O => fail OutOfFuel
  | S fuel' =>
      if j <? 0 then ret j
      else
        v <- load suftab j ;;
        if s64 v <? s64 (totallength s)
        then find_nextgteq fuel' s suftab (j - 1)
        else ret j
  end.

(** The second loop of [gt_sain_induceLtypesuffixes1], from
    [suftabptr = suftab + i] on. *)
Fixpoint induceL1_retag (fuel : nat) (s : GtSainseq) (suftab : ptr) (i : Z)
  : M unit :=
  match fuel with
  | O => fail OutOfFuel
  | S fuel' =>
      if i <? 0 then ret tt
      else
        v <- load suftab i ;;
        if (0 <? s64 v) && (s64 v <? s64 (totallength s)) then
          store suftab i (s64 v + s64 (totallength s)) ;;
          j <- find_nextgteq (S (Z.to_nat i)) s suftab (i - 1) ;;
          w <- load suftab j ;;
          (if s64 (totallength s) <=? s64 w
           then store suftab j (s64 w - s64 (totallength s))
           else ret tt) ;;
          induceL1_retag fuel' s suftab (j - 1)
        else induceL1_retag fuel' s suftab (i - 1)
  end.

Definition gt_sain_induceLtypesuffixes1 (s : GtSainseq) (suftab : ptr)
    (nonspecialentries : Z) : M GtSainseq :=
  st <- for_up (Z.to_nat nonspecialentries) 0 (induceL1_step s suftab)
          {| ind_round := 0; ind_bucketptr := None; ind_lastupdatecc := 0 |} ;;
  let s := set_currentround s (ind_round st) in
  match roundtable s with
  | None => ret s
  | Some _ =>
      induceL1_retag (S (Z.to_nat nonspecialentries)) s suftab
        (nonspecialentries - 1) ;;
      ret s
  end.

Definition gt_sain_special_singleSinduction1 (s : GtSainseq) (suftab : ptr)
    (position : Z) : M unit :=
  currentcc <- gt_sainseq_getchar s (u64 position) ;;
  if currentcc <? numofchars s then
    f <- load (bucketfillptr s) currentcc ;;
    let putidx := u64 (f - 1) in
    store (bucketfillptr s) currentcc putidx ;;
    gt_assert (0 <? position) ;;
    let position := position - 1 in
    leftcontextcc <- gt_sainseq_getchar s (u64 position) ;;
    position <- (match roundtable s with
                 | Some rt =>
                     let t := Z.lor (u64 (Z.shiftl currentcc 1))
                                (if currentcc <? leftcontextcc then 1 else 0) in
                     r <- load rt t ;;
                     gt_assert (r <=? currentround s) ;;
                     if r <? currentround s then
                       store rt t (currentround s) ;;
                       ret (position + s64 (totallength s))
                     else ret (position + s64 (totallength s))
                 | None => ret position
                 end) ;;
    store suftab putidx
      (if currentcc <? leftcontextcc then lnot (position + 1) else position)
  else ret tt.

(** The ranges of the iterator as its callers use them: each one is passed
    through [gt_range_reverse] when the read mode is a reverse one. *)
Definition readranges (encseq : GtEncseq) (rm : GtReadmode) (tl : Z)
    (moveforward : bool) : list (Z * Z) :=
  map (fun r => if GT_ISDIRREVERSE rm then gt_range_reverse tl r else r)
      (gt_specialrangeiterator encseq moveforward).

Fixpoint foreach_range (rs : list (Z * Z)) (body : Z * Z -> M unit) : M unit :=
  match rs with
  | [] => ret tt
  | r :: t => body r ;; foreach_range t body
  end.

Definition gt_sain_induceStypes1fromspecialranges (s : GtSainseq)
    (encseq : GtEncseq) (suftab : ptr) : M unit :=
  if gt_encseq_has_specialranges encseq then
    foreach_range (readranges encseq (readmode s) (totallength s)
                     (GT_ISDIRREVERSE (readmode s)))
      (fun range =>
         if 1 <? fst range
         then gt_sain_special_singleSinduction1 s suftab (fst range - 1)
         else ret tt)
  else ret tt.

(** The body of the loop of [gt_sain_induceStypesuffixes1]. *)
Definition induceS1_step (s : GtSainseq) (suftab : ptr) (idx : Z)
    (st : indstate) : M indstate :=
  v <- load suftab idx ;;
  let position := s64 v in
  if 0 <? position then
    rp <- strip_roundtag s (ind_round st) position ;;
    let '(round, position) := rp in
    let st := {| ind_round := round; ind_bucketptr := ind_bucketptr st;
                 ind_lastupdatecc := ind_lastupdatecc st |} in
    st' <- (if 0 <? position then
              currentcc <- gt_sainseq_getchar s (u64 position) ;;
              if currentcc <? numofchars s then
                let position := position - 1 in
                leftcontextcc <- gt_sainseq_getchar s (u64 position) ;;
                position <- roundtable_tag s round currentcc
                              (currentcc <? leftcontextcc) false position ;;
                bl <- GT_SAINUPDATEBUCKETPTR s (ind_bucketptr st)
                        (ind_lastupdatecc st) currentcc ;;
                let '(bucketptr, lastupdatecc) := bl in
                gt_assert (bucketptr - 1 <? idx) ;;
                store suftab (bucketptr - 1)
                  (if currentcc <? leftcontextcc
                   then lnot (position + 1) else position) ;;
                ret {| ind_round := round;
                       ind_bucketptr := Some (bucketptr - 1);
                       ind_lastupdatecc := lastupdatecc |}
              else ret st
            else ret st) ;;
    store suftab idx 0 ;;
    ret st'
  else ret st.

Definition gt_sain_induceStypesuffixes1 (s : GtSainseq) (suftab : ptr)
    (nonspecialentries : Z) : M GtSainseq :=
  gt_sain_special_singleSinduction1 s suftab (s64 (totallength s - 1)) ;;
  (match seq s with
   | SeqEncseq encseq => gt_sain_induceStypes1fromspecialranges s encseq suftab
   | _ => ret tt
   end) ;;
  if nonspecialentries =? 0 then ret s
  else
    st <- for_down (Z.to_nat nonspecialentries) (nonspecialentries - 1)
            (induceS1_step s suftab)
            {| ind_round := currentround s; ind_bucketptr := None;
               ind_lastupdatecc := 0 |} ;;
    ret (set_currentround s (ind_round st)).

(** *** Moving the sorted Sstar suffixes to the front and naming them *)

(** [for (readidx = 0; (position = suftab[readidx]) < 0; readidx++)] of the
    two [moveSstar2front] functions; [tagged] is the test that the simple
    variant counts in [namecount]. *)
Fixpoint moveSstar_lead (fuel : nat) (suftab : ptr) (tagged : Z -> bool)
    (n readidx namecount : Z) : M (Z * Z) :=
  match fuel with
  | O => fail OutOfFuel
  | S fuel' =>
      v <- load suftab readidx ;;
      if s64 v <? 0 then
        let position := lnot (s64 v) in
        let namecount := if tagged position then u64 (namecount + 1)
                         else namecount in
        store suftab readidx position ;;
        gt_assert (readidx + 1 <? n) ;;
        moveSstar_lead fuel' suftab tagged n (readidx + 1) namecount
      else ret (readidx, namecount)
  end.

(** [for (writeidx = readidx, readidx++; ; readidx++)] of the same
    functions. *)
Fixpoint moveSstar_rest (fuel : nat) (suftab : ptr) (tagged : Z -> bool)
    (countSstartype n readidx writeidx namecount : Z) : M (Z * Z) :=
  match fuel with
  | O => fail OutOfFuel
  | S fuel' =>
      gt_assert (readidx <? n) ;;
      v <- load suftab readidx ;;
      if s64 v <? 0 then
        let position := lnot (s64 v) in
        let namecount := if tagged position then u64 (namecount + 1)
                         else namecount in
        gt_assert (writeidx <? readidx) ;;
        store suftab writeidx position ;;
        store suftab readidx 0 ;;
        if writeidx + 1 =? countSstartype then ret (writeidx + 1, namecount)
        else moveSstar_rest fuel' suftab tagged countSstartype n
               (readidx + 1) (writeidx + 1) namecount
      else
        store suftab readidx 0 ;;
        moveSstar_rest fuel' suftab tagged countSstartype n
          (readidx + 1) writeidx namecount
  end.

Definition moveSstar2front_gen (suftab : ptr) (tagged : Z -> bool)
    (countSstartype n : Z) : M Z :=
  rn <- moveSstar_lead (S (Z.to_nat n)) suftab tagged n 0 0 ;;
  let '(readidx, namecount) := rn in
  wn <- (if readidx <? countSstartype
         then moveSstar_rest (S (Z.to_nat n)) suftab tagged countSstartype n
                (readidx + 1) readidx namecount
         else ret (readidx, namecount)) ;;
  let '(writeidx, namecount) := wn in
  gt_assert (writeidx =? countSstartype) ;;
  ret namecount.

Definition gt_sain_moveSstar2front (countSstartype : Z) (suftab : ptr)
    (nonspecialentries : Z) : M unit :=
  moveSstar2front_gen suftab (fun _ => false) countSstartype
    nonspecialentries ;;
  ret tt.

Definition gt_sain_simple_moveSstar2front (s : GtSainseq)
    (countSstartype : Z) (suftab : ptr) (nonspecialentries : Z) : M Z :=
  gt_assert (isSome (roundtable s)) ;;
  moveSstar2front_gen suftab (fun position => s64 (totallength s) <=? position)
    countSstartype nonspecialentries.

Definition gt_sain_simple_assignSstarnames (s : GtSainseq)
    (countSstartype : Z) (suftab : ptr) (numberofnames nonspecialentries : Z)
  : M unit :=
  let secondhalf := padd suftab countSstartype in
  if numberofnames <? countSstartype then
    for_down (Z.to_nat nonspecialentries) (nonspecialentries - 1)
      (fun i currentname =>
         position <- load suftab i ;;
         pc <- (if totallength s <=? position then
                  gt_assert (0 <? currentname) ;;
                  ret (position - totallength s, currentname - 1)
                else ret (position, currentname)) ;;
         let '(position, currentname) := pc in
         (if currentname <=? numberofnames
          then store secondhalf (GT_DIV2 position) currentname
          else ret tt) ;;
         ret currentname) (u64 (numberofnames + 1)) ;;
    ret tt
  else
    for_up (Z.to_nat nonspecialentries) 0
      (fun i (_ : unit) =>
         v <- load suftab i ;;
         if totallength s <=? v then store suftab i (v - totallength s)
         else ret tt) tt.

(** *** Induction of the L-type and S-type suffixes, after the naming *)

(** [position > 0 && getchar(position-1) < currentcc] and
    [position == 0 || getchar(position-1) > currentcc]. *)
Definition leftcontext_smaller (s : GtSainseq) (position currentcc : Z)
  : M bool :=
  if 0 <? position then
    lc <- gt_sainseq_getchar s (u64 (position - 1)) ;; ret (lc <? currentcc)
  else ret false.

Definition leftcontext_greater (s : GtSainseq) (position currentcc : Z)
  : M bool :=
  if position =? 0 then ret true
  else lc <- gt_sainseq_getchar s (u64 (position - 1)) ;; ret (currentcc <? lc).

(** The loops of the second induction keep [bucketptr] and [lastupdatecc]. *)
Definition induceL2_step (s : GtSainseq) (suftab : ptr) (idx : Z)
    (st : option Z * Z) : M (option Z * Z) :=
  v <- load suftab idx ;;
  let position := s64 v in
  store suftab idx (lnot position) ;;
  if 0 <? position then
    let position := position - 1 in
    currentcc <- gt_sainseq_getchar s (u64 position) ;;
    if currentcc <? numofchars s then
      gt_assert (0 <? currentcc) ;;
      bl <- GT_SAINUPDATEBUCKETPTR s (fst st) (snd st) currentcc ;;
      let '(bucketptr, lastupdatecc) := bl in
      gt_assert (idx <? bucketptr) ;;
      lt <- leftcontext_smaller s position currentcc ;;
      store suftab bucketptr (if lt then lnot position else position) ;;
      ret (Some (bucketptr + 1), lastupdatecc)
    else ret st
  else ret st.

Definition gt_sain_induceLtypesuffixes2 (s : GtSainseq) (suftab : ptr)
    (nonspecialentries : Z) : M unit :=
  for_up (Z.to_nat nonspecialentries) 0 (induceL2_step s suftab) (None, 0) ;;
  ret tt.

Definition gt_sain_special_singleSinduction2 (s : GtSainseq) (suftab : ptr)
    (position nonspecialentries : Z) : M unit :=
  let position := position - 1 in
  currentcc <- gt_sainseq_getchar s (u64 position) ;;
  if currentcc <? numofchars s then
    f <- load (bucketfillptr s) currentcc ;;
    let putidx := u64 (f - 1) in
    store (bucketfillptr s) currentcc putidx ;;
    gt_assert (putidx <? nonspecialentries) ;;
    gt <- leftcontext_greater s position currentcc ;;
    store suftab putidx (if gt then lnot position else position)
  else ret tt.

Definition gt_sain_induceStypes2fromspecialranges (s : GtSainseq)
    (encseq : GtEncseq) (suftab : ptr) (nonspecialentries : Z) : M unit :=
  if gt_encseq_has_specialranges encseq then
    foreach_range (readranges encseq (readmode s) (totallength s)
                     (GT_ISDIRREVERSE (readmode s)))
      (fun range =>
         if 0 <? fst range
         then gt_sain_special_singleSinduction2 s suftab (fst range)
                nonspecialentries
         else ret tt)
  else ret tt.

Definition induceS2_step (s : GtSainseq) (suftab : ptr) (idx : Z)
    (st : option Z * Z) : M (option Z * Z) :=
  v <- load suftab idx ;;
  let position := s64 v in
  if 0 <? position then
    let position := position - 1 in
    currentcc <- gt_sainseq_getchar s (u64 position) ;;
    if currentcc <? numofchars s then
      bl <- GT_SAINUPDATEBUCKETPTR s (fst st) (snd st) currentcc ;;
      let '(bucketptr, lastupdatecc) := bl in
      gt_assert (bucketptr - 1 <? idx) ;;
      gt <- leftcontext_greater s position currentcc ;;
      store suftab (bucketptr - 1) (if gt then lnot position else position) ;;
      ret (Some (bucketptr - 1), lastupdatecc)
    else ret st
  else
    store suftab idx (lnot position) ;; ret st.

Definition gt_sain_induceStypesuffixes2 (s : GtSainseq) (suftab : ptr)
    (nonspecialentries : Z) : M unit :=
  gt_sain_special_singleSinduction2 s suftab (s64 (totallength s))
    nonspecialentries ;;
  (match seq s with
   | SeqEncseq encseq =>
       gt_sain_induceStypes2fromspecialranges s encseq suftab
         nonspecialentries
   | _ => ret tt
   end) ;;
  if nonspecialentries =? 0 then ret tt
  else
    for_down (Z.to_nat nonspecialentries) (nonspecialentries - 1)
      (induceS2_step s suftab) (None, 0) ;;
    ret tt.

(** *** Comparing Sstar substrings and suffixes *)

(** The [while (start1 < end1)] loop of [gt_sain_compare_Sstarstrings]. *)
Fixpoint compare_Sstarstrings_loop (fuel : nat) (s : GtSainseq)
    (start1 start2 end1 : Z) : M Z :=
  match fuel with
  | O => fail OutOfFuel
  | S fuel' =>
      if start1 <? end1 then
        if start1 =? totallength s then
          gt_assert (start2 <? start1) ;; ret 1
        else if start2 =? totallength s then
          gt_assert (start1 <? start2) ;; ret (-1)
        else
          cc1 <- gt_sainseq_getchar s start1 ;;
          cc2 <- gt_sainseq_getchar s start2 ;;
          if cc1 <? cc2 then ret (-1)
          else if cc2 <? cc1 then ret 1
          else compare_Sstarstrings_loop fuel' s (start1 + 1) (start2 + 1) end1
      else ret 0
  end.

Definition gt_sain_compare_Sstarstrings (s : GtSainseq) (start1 start2 len : Z)
  : M Z :=
  let end1 := u64 (start1 + len) in
  gt_assert ((start1 <=? totallength s) && (start2 <=? totallength s)
             && negb (start1 =? start2)) ;;
  compare_Sstarstrings_loop (S (Z.to_nat len)) s start1 start2 end1.

(** The [while (true)] loop of [gt_sain_compare_suffixes]. *)
Fixpoint compare_suffixes_loop (fuel : nat) (s : GtSainseq) (start1 start2 : Z)
  : M Z :=
  match fuel with
  | O => fail OutOfFuel
  | S fuel' =>
      if start1 =? totallength s then
        gt_assert (start2 <? start1) ;; ret 1
      else if start2 =? totallength s then
        gt_assert (start1 <? start2) ;; ret (-1)
      else
        cc1 <- gt_sainseq_getchar s start1 ;;
        cc2 <- gt_sainseq_getchar s start2 ;;
        if cc1 <? cc2 then ret (-1)
        else if cc2 <? cc1 then ret 1
        else compare_suffixes_loop fuel' s (start1 + 1) (start2 + 1)
  end.

Definition gt_sain_compare_suffixes (s : GtSainseq) (start1 start2 : Z) : M Z :=
  gt_assert ((start1 <=? totallength s) && (start2 <=? totallength s)
             && negb (start1 =? start2)) ;;
  compare_suffixes_loop (S (S (Z.to_nat (totallength s)))) s start1 start2.

Definition gt_sain_setundefined (fwd : bool) (suftab : ptr) (start end_ : Z)
  : M unit :=
  if fwd
  then for_up (Z.to_nat (end_ - start + 1)) start
         (fun i (_ : unit) => store suftab i 0) tt
  else for_down (Z.to_nat (end_ - start + 1)) end_
         (fun i (_ : unit) => store suftab i 0) tt.

(** *** Naming by comparison *)

(** The locals of the scan of [gt_sain_assignSstarlength]. *)
Record lenstate : Type := {
  ln_nextcc : Z;
  ln_nextisStype : bool;
  ln_nextSstartypepos : Z
}.

Definition assignSstarlength_step (s : GtSainseq) (lentab : ptr)
    (position : Z) (st : lenstate) : M lenstate :=
  currentcc <- gt_sainseq_getchar s position ;;
  let currentisStype :=
    isStype currentcc (ln_nextcc st) (ln_nextisStype st) in
  nextpos <- (if negb currentisStype && ln_nextisStype st then
                gt_assert (position <? ln_nextSstartypepos st) ;;
                store lentab (GT_DIV2 (u64 (position + 1)))
                  (ln_nextSstartypepos st - position) ;;
                ret (u64 (position + 1))
              else ret (ln_nextSstartypepos st)) ;;
  ret {| ln_nextcc := currentcc; ln_nextisStype := currentisStype;
         ln_nextSstartypepos := nextpos |}.

Fixpoint assignSstarlength_scan (fuel : nat) (s : GtSainseq) (lentab : ptr)
    (position : Z) (st : lenstate) : M unit :=
  match fuel with
  | O => fail OutOfFuel
  | S fuel' =>
      st' <- assignSstarlength_step s lentab position st ;;
      if position =? 0 then ret tt
      else assignSstarlength_scan fuel' s lentab (position - 1) st'
  end.

Definition gt_sain_assignSstarlength (s : GtSainseq) (lentab : ptr) : M unit :=
  assignSstarlength_scan (S (Z.to_nat (totallength s))) s lentab
    (u64 (totallength s - 1))
    {| ln_nextcc := GT_UNIQUEINT (totallength s); ln_nextisStype := true;
       ln_nextSstartypepos := totallength s |}.

(** The loop state of [gt_sain_assignSstarnames]:
    [(previouspos, previouslen, currentname)]. *)
Definition assignSstarnames_step (s : GtSainseq) (suftab secondhalf : ptr)
    (i : Z) (st : Z * Z * Z) : M (Z * Z * Z) :=
  let '(previouspos, previouslen, currentname) := st in
  position <- load suftab i ;;
  currentlen <- load secondhalf (GT_DIV2 position) ;;
  cmp <- (if previouslen =? currentlen then
            c <- gt_sain_compare_Sstarstrings s previouspos position
                   currentlen ;;
            gt_assert (negb (c =? 1)) ;;
            ret c
          else ret (-1)) ;;
  let currentname := if cmp =? -1 then u64 (currentname + 1)
                     else currentname in
  store secondhalf (GT_DIV2 position) currentname ;;
  ret (position, currentlen, currentname).

Definition gt_sain_assignSstarnames (s : GtSainseq) (countSstartype : Z)
    (suftab : ptr) : M Z :=
  let secondhalf := padd suftab countSstartype in
  previouspos <- load suftab 0 ;;
  previouslen <- load secondhalf (GT_DIV2 previouspos) ;;
  store secondhalf (GT_DIV2 previouspos) 1 ;;
  st <- for_up (Z.to_nat (countSstartype - 1)) 1
          (assignSstarnames_step s suftab secondhalf)
          (previouspos, previouslen, 1) ;;
  ret (snd st).

Definition gt_sain_movenames2front (suftab : ptr)
    (numberofsuffixes tl : Z) : M unit :=
  wptr <- for_up (Z.to_nat (GT_DIV2 tl + 1)) numberofsuffixes
            (fun rptr wptr =>
               position <- load suftab rptr ;;
               if 0 <? position then
                 store suftab wptr (position - 1) ;; ret (wptr + 1)
               else ret wptr) numberofsuffixes ;;
  gt_assert (wptr =? GT_MULT2 numberofsuffixes).

(** A failed comparison prints on stderr and exits. *)
Definition gt_sain_checkorder (s : GtSainseq) (suftab : ptr) (start end_ : Z)
  : M unit :=
  for_up (Z.to_nat (end_ - start)) (start + 1)
    (fun idx (_ : unit) =>
       a <- load suftab (idx - 1) ;;
       b <- load suftab idx ;;
       cmp <- gt_sain_compare_suffixes s a b ;;
       if cmp =? -1 then ret tt else fail ProgrammingError) tt.

(** *** Back from the recursion *)

(** The locals of the scan of [gt_sain_expandorder2original]. *)
Record expstate : Type := {
  ex_nextcc : Z;
  ex_nextisStype : bool;
  ex_writeidx : Z
}.

Definition expandorder_step (s : GtSainseq) (sstarsuffixes : ptr)
    (sfc bsize : option ptr) (position : Z) (st : expstate) : M expstate :=
  let nextcc := ex_nextcc st in
  currentcc <- gt_sainseq_getchar s position ;;
  let currentisStype := isStype currentcc nextcc (ex_nextisStype st) in
  writeidx <- (if negb currentisStype && ex_nextisStype st then
                 (match sfc with
                  | Some a => incr a nextcc
                  | None => ret tt
                  end) ;;
                 store sstarsuffixes (ex_writeidx st) (position + 1) ;;
                 ret (u64 (ex_writeidx st - 1))
               else ret (ex_writeidx st)) ;;
  (match bsize with
   | Some a => incr a currentcc
   | None => ret tt
   end) ;;
  ret {| ex_nextcc := currentcc; ex_nextisStype := currentisStype;
         ex_writeidx := writeidx |}.

Fixpoint expandorder_scan (fuel : nat) (s : GtSainseq) (sstarsuffixes : ptr)
    (sfc bsize : option ptr) (position : Z) (st : expstate) : M unit :=
  match fuel with
  | O => fail OutOfFuel
  | S fuel' =>
      st' <- expandorder_step s sstarsuffixes sfc bsize position st ;;
      if position =? 0 then ret tt
      else expandorder_scan fuel' s sstarsuffixes sfc bsize (position - 1) st'
  end.

(** [for (charidx = 0; charidx < numofchars; charidx++)
    { sstarfirstcharcount[charidx] = 0; bucketsize[charidx] = 0; }] *)
Definition reset_counts (s : GtSainseq) (sfc : ptr) : M unit :=
  for_up (Z.to_nat (numofchars s)) 0
    (fun charidx (_ : unit) =>
       store sfc charidx 0 ;; store (bucketsize s) charidx 0) tt.

(** The result is the sequence view with its field [sstarfirstcharcount]
    as the function leaves it. *)
Definition gt_sain_expandorder2original (s : GtSainseq)
    (numberofsuffixes : Z) (suftab : ptr) : M GtSainseq :=
  let sstarsuffixes := padd suftab numberofsuffixes in
  sl <- (match seq s with
         | SeqArray _ =>
             gt_assert (negb (isSome (sstarfirstcharcount s))) ;;
             reset_counts s (bucketfillptr s) ;;
             ret (set_sstarfirstcharcount s (Some (bucketfillptr s)),
                  Some (bucketfillptr s), Some (bucketsize s))
         | _ => ret (s, None, None)
         end) ;;
  let '(s, sfc, bsize) := sl in
  expandorder_scan (S (Z.to_nat (totallength s))) s sstarsuffixes sfc bsize
    (u64 (totallength s - 1))
    {| ex_nextcc := GT_UNIQUEINT (totallength s); ex_nextisStype := true;
       ex_writeidx := u64 (numberofsuffixes - 1) |} ;;
  for_up (Z.to_nat numberofsuffixes) 0
    (fun i (_ : unit) =>
       v <- load suftab i ;;
       w <- load sstarsuffixes v ;;
       store suftab i w) tt ;;
  ret s.

(** [for (seqptr = array + totallength - 1; seqptr >= array; seqptr--)] *)
Definition gt_sain_determineSstarfirstchardist (s : GtSainseq) : M unit :=
  match seq s, sstarfirstcharcount s with
  | SeqArray array, Some sfc =>
      for_down (Z.to_nat (totallength s)) (totallength s - 1)
        (fun i (st : Z * bool) =>
           let '(nextcc, nextisStype) := st in
           currentcc <- load array i ;;
           let currentisStype := isStype currentcc nextcc nextisStype in
           (if negb currentisStype && nextisStype then incr sfc nextcc
            else ret tt) ;;
           incr (bucketsize s) currentcc ;;
           ret (currentcc, currentisStype))
        (GT_UNIQUEINT (totallength s), true) ;;
      ret tt
  | SeqArray _, None => fail OutOfBounds
  | _, _ => fail AssertFailed
  end.

(** [for (offset = 0; offset < sstarfirstcharcount[cc]; offset++)] *)
Fixpoint insertsorted_move (fuel : nat) (suftab sfc : ptr)
    (cc putidx readidx offset : Z) : M unit :=
  match fuel with
  | O => fail OutOfFuel
  | S fuel' =>
      c <- load sfc cc ;;
      if offset <? c then
        v <- load suftab (u64 (readidx - offset)) ;;
        store suftab (u64 (putidx - offset)) v ;;
        store suftab (u64 (readidx - offset)) 0 ;;
        insertsorted_move fuel' suftab sfc cc putidx readidx (offset + 1)
      else ret tt
  end.

(** [for (cc = numofchars - 1; ; cc--) { ...; if (cc == 0) break; }] *)
Fixpoint insertsorted_loop (fuel : nat) (s : GtSainseq) (suftab sfc : ptr)
    (nonspecialentries cc readidx fillidx : Z) : M unit :=
  match fuel with
  | O => fail OutOfFuel
  | S fuel' =>
      c <- load sfc cc ;;
      (if 0 <? c then
         let putidx := u64 (fillidx - 1) in
         gt_assert (readidx <=? putidx) ;;
         if readidx <? putidx
         then insertsorted_move (S (Z.to_nat nonspecialentries)) suftab sfc
                cc putidx readidx 0
         else ret tt
       else ret tt) ;;
      b <- load (bucketsize s) cc ;;
      gt_assert (b <=? fillidx) ;;
      let fillidx := fillidx - b in
      b <- load (bucketsize s) cc ;;
      c <- load sfc cc ;;
      gt_assert (c <=? b) ;;
      (if c <? b
       then gt_sain_setundefined false suftab fillidx
              (u64 (fillidx + b - c - 1))
       else ret tt) ;;
      c <- load sfc cc ;;
      let readidx := u64 (readidx - c) in
      if cc =? 0 then ret tt
      else insertsorted_loop fuel' s suftab sfc nonspecialentries
             (cc - 1) readidx fillidx
  end.

Definition gt_sain_insertsortedSstarsuffixes (s : GtSainseq) (suftab : ptr)
    (readidx nonspecialentries : Z) : M unit :=
  match sstarfirstcharcount s with
  | None => fail OutOfBounds
  | Some sfc =>
      insertsorted_loop (S (Z.to_nat (numofchars s))) s suftab sfc
        nonspecialentries (u64 (numofchars s - 1)) readidx nonspecialentries
  end.

(** *** The tail of the special positions *)

(** [for (idx = range.start; idx < range.end; idx++)] *)
Definition filltail_range (suftabtail : ptr) (specialcharacters tl : Z)
    (range : Z * Z) (countspecial : Z) : M Z :=
  for_up (Z.to_nat (snd range - fst range)) (fst range)
    (fun idx countspecial =>
       gt_assert ((countspecial <? specialcharacters) && (idx <? tl)) ;;
       store suftabtail countspecial idx ;;
       ret (countspecial + 1)) countspecial.

Fixpoint filltail_ranges (suftabtail : ptr) (specialcharacters tl : Z)
    (rs : list (Z * Z)) (countspecial : Z) : M Z :=
  match rs with
  | [] => ret countspecial
  | r :: t =>
      c <- filltail_range suftabtail specialcharacters tl r countspecial ;;
      filltail_ranges suftabtail specialcharacters tl t c
  end.

Definition gt_sain_filltailsuffixes (suftabtail : ptr) (encseq : GtEncseq)
    (rm : GtReadmode) : M unit :=
  let specialcharacters := gt_encseq_specialcharacters encseq in
  let tl := gt_encseq_total_length encseq in
  (if gt_encseq_has_specialranges encseq then
     countspecial <- filltail_ranges suftabtail specialcharacters tl
                       (readranges encseq rm tl
                          (if GT_ISDIRREVERSE rm then false else true)) 0 ;;
     gt_assert (countspecial =? specialcharacters)
   else ret tt) ;;
  store suftabtail specialcharacters tl.

(** *** One level of the recursion and the entry points *)

Definition failT {A} (e : error) : T A := fun _ => ([], Fail e).

(** The two ways of naming the Sstar substrings: by comparison when there is
    no round table, from the round tags when there is one.  The result is the
    sequence view (its round table may have been freed) and
    [numberofnames]. *)
Definition names_by_comparison (s : GtSainseq) (countSstartype : Z)
    (suftab : ptr) (nonspecialentries : Z) (timer : bool)
  : T (GtSainseq * Z) :=
  GT_SAIN_SHOWTIMER timer "moverStar2front" ;;;
  lift (gt_sain_moveSstar2front countSstartype suftab nonspecialentries) ;;;
  GT_SAIN_SHOWTIMER timer "assignSstarlength" ;;;
  lift (gt_sain_assignSstarlength s (padd suftab countSstartype)) ;;;
  GT_SAIN_SHOWTIMER timer "assignSstarnames" ;;;
  numberofnames <~ lift (gt_sain_assignSstarnames s countSstartype suftab) ;;
  retT (s, numberofnames).

Definition names_by_roundtable (s : GtSainseq) (rt : ptr)
    (countSstartype : Z) (suftab : ptr) (nonspecialentries : Z)
    (timer : bool) : T (GtSainseq * Z) :=
  GT_SAIN_SHOWTIMER timer "simple_moverStar2front" ;;;
  numberofnames <~ lift (gt_sain_simple_moveSstar2front s countSstartype
                           suftab nonspecialentries) ;;
  s <~ (if negb (roundtablepoints2suftab s)
        then lift (gt_free rt) ;;; retT (set_roundtable s None)
        else retT s) ;;
  lift (gt_sain_simple_assignSstarnames s countSstartype suftab
          numberofnames nonspecialentries) ;;;
  retT (s, numberofnames).

Definition assign_names (s : GtSainseq) (countSstartype : Z) (suftab : ptr)
    (nonspecialentries : Z) (timer : bool) : T (GtSainseq * Z) :=
  match roundtable s with
  | None => names_by_comparison s countSstartype suftab nonspecialentries timer
  | Some rt =>
      names_by_roundtable s rt countSstartype suftab nonspecialentries timer
  end.

(** The call of the order-check oracle on the suffix table: it aborts on a
    violation. *)
Definition suftab_lightweightcheck (encseq : GtEncseq) (rm : GtReadmode)
    (tl : Z) (suftab : ptr) : M unit :=
  fun m =>
    if gt_suftab_lightweightcheck encseq rm tl (nth (pblk suftab) m [])
    then Ok tt m else Fail ProgrammingError.

(** What follows the recursion on the way back: the sorted Sstar suffixes
    are put into their buckets and the two inductions give the order. *)
Definition finish_level (s : GtSainseq) (countSstartype : Z) (suftab : ptr)
    (nonspecialentries : Z) (intermediatecheck finalcheck timer : bool)
  : T unit :=
  (if intermediatecheck && (0 <? countSstartype)
   then lift (gt_sain_checkorder s suftab 0 (countSstartype - 1))
   else retT tt) ;;;
  GT_SAIN_SHOWTIMER timer "insert sorted Sstar suffixes" ;;;
  (if 0 <? countSstartype
   then lift (gt_sain_insertsortedSstarsuffixes s suftab (countSstartype - 1)
                nonspecialentries)
   else retT tt) ;;;
  lift (gt_sain_startbuckets s) ;;;
  GT_SAIN_SHOWTIMER timer "induce L suffixes" ;;;
  lift (gt_sain_induceLtypesuffixes2 s suftab nonspecialentries) ;;;
  lift (gt_sain_endbuckets s) ;;;
  GT_SAIN_SHOWTIMER timer "induce S suffixes" ;;;
  lift (gt_sain_induceStypesuffixes2 s suftab nonspecialentries) ;;;
  if 0 <? nonspecialentries then
    (if intermediatecheck
     then lift (gt_sain_checkorder s suftab 0 (nonspecialentries - 1))
     else retT tt) ;;;
    match seq s with
    | SeqEncseq encseq =>
        if finalcheck then
          GT_SAIN_SHOWTIMER timer "fill tail suffixes" ;;;
          lift (gt_sain_filltailsuffixes (padd suftab nonspecialentries)
                  encseq (readmode s)) ;;;
          GT_SAIN_SHOWTIMER timer "check suffix order" ;;;
          lift (suftab_lightweightcheck encseq (readmode s) (totallength s)
                  suftab)
        else retT tt
    | _ => retT tt
    end
  else retT tt.

(** The result is the sequence view as the call leaves the struct behind
    [sainseq]. *)
Fixpoint gt_sain_rec_sortsuffixes (fuel : nat) (level : Z) (s : GtSainseq)
    (suftab : ptr) (firstusable nonspecialentries suftabentries : Z)
    (intermediatecheck finalcheck verbose timer : bool) : T GtSainseq :=
  match fuel with
  | O => failT OutOfFuel
  | S fuel' =>
      emit [EvLevel level (totallength s) (numofchars s)] ;;;
      GT_SAIN_SHOWTIMER timer "insert Sstar suffixes" ;;;
      countSstartype <~ gt_saininfo_new s suftab ;;
      (if verbose then emit (gt_saininfo_show countSstartype s)
       else retT tt) ;;;
      s <~ (if 0 <? countSstartype then
              (if isSome (roundtable s)
               then lift (gt_sain_incrementfirstSstar s suftab)
               else retT tt) ;;;
              lift (gt_sain_startbuckets s) ;;;
              GT_SAIN_SHOWTIMER timer "induce L suffixes" ;;;
              s <~ lift (gt_sain_induceLtypesuffixes1 s suftab
                           nonspecialentries) ;;
              lift (gt_sain_endbuckets s) ;;;
              GT_SAIN_SHOWTIMER timer "induce S suffixes" ;;;
              s <~ lift (gt_sain_induceStypesuffixes1 s suftab
                           nonspecialentries) ;;
              sn <~ assign_names s countSstartype suftab nonspecialentries
                      timer ;;
              let '(s, numberofnames) := sn in
              lift (gt_assert (numberofnames <=? countSstartype)) ;;;
              if numberofnames <? countSstartype then
                let subseq := padd suftab countSstartype in
                GT_SAIN_SHOWTIMER timer "movenames2front" ;;;
                lift (gt_sain_setundefined true suftab 0
                        (countSstartype - 1)) ;;;
                lift (gt_sain_movenames2front suftab countSstartype
                        (totallength s)) ;;;
                let firstusable := if level =? 0 then GT_MULT2 countSstartype
                                   else firstusable in
                sainseq_rec <~ gt_sainseq_new_from_array subseq countSstartype
                                 numberofnames suftab firstusable
                                 suftabentries ;;
                sainseq_rec <~ gt_sain_rec_sortsuffixes fuel' (level + 1)
                                 sainseq_rec suftab firstusable countSstartype
                                 suftabentries intermediatecheck finalcheck
                                 verbose timer ;;
                lift (gt_sainseq_delete sainseq_rec) ;;;
                GT_SAIN_SHOWTIMER timer "expandorder2original" ;;;
                lift (gt_sain_expandorder2original s countSstartype suftab)
              else
                match seq s with
                | SeqArray _ =>
                    lift (gt_assert (negb (isSome (sstarfirstcharcount s)))) ;;;
                    let s := set_sstarfirstcharcount s
                               (Some (bucketfillptr s)) in
                    lift (reset_counts s (bucketfillptr s)) ;;;
                    lift (gt_sain_determineSstarfirstchardist s) ;;;
                    retT s
                | _ => retT s
                end
            else retT s) ;;
      finish_level s countSstartype suftab nonspecialentries
        intermediatecheck finalcheck timer ;;;
      retT s
  end.

(** The levels at least halve, so that this many nested calls are enough. *)
Definition levels (len : Z) : nat := S (S (Z.to_nat (Z.log2 len))).

(** The contents of the suffix table. *)
Definition read_suftab (suftab : ptr) : M (list Z) :=
  fun m => Ok (nth (pblk suftab) m []) m.

(** The two entry points run on an empty heap.  They return nothing in C and
    free the suffix table at their end; the result here is the suffix table
    as it is when it is freed. *)
Definition gt_sain_encseq_sortsuffixes (encseq : GtEncseq) (rm : GtReadmode)
    (intermediatecheck finalcheck verbose timer : bool)
  : list event * res (list Z) :=
  (let tl := gt_encseq_total_length encseq in
   let nonspecialentries := u64 (tl - gt_encseq_specialcharacters encseq) in
   let suftabentries := u64 (tl + 1) in
   suftab <~ lift (gt_calloc suftabentries) ;;
   sainseq <~ lift (gt_sainseq_new_from_encseq encseq rm) ;;
   sainseq <~ gt_sain_rec_sortsuffixes (levels tl) 0 sainseq suftab 0
                nonspecialentries suftabentries intermediatecheck finalcheck
                verbose timer ;;
   lift (gt_sainseq_delete sainseq) ;;;
   result <~ lift (read_suftab suftab) ;;
   lift (gt_free suftab) ;;;
   retT result) [].

Definition gt_sain_plain_sortsuffixes (plainseq : list Z) (len : Z)
    (intermediatecheck verbose timer : bool) : list event * res (list Z) :=
  (let suftabentries := u64 (len + 1) in
   suftab <~ lift (gt_calloc suftabentries) ;;
   sainseq <~ lift (gt_sainseq_new_from_plainseq plainseq len) ;;
   sainseq <~ gt_sain_rec_sortsuffixes (levels len) 0 sainseq suftab 0
                (totallength sainseq) suftabentries intermediatecheck false
                verbose timer ;;
   lift (gt_sainseq_delete sainseq) ;;;
   result <~ lift (read_suftab suftab) ;;
   lift (gt_free suftab) ;;;
   retT result) [].

End Sain.

(** Modelled from the spec: the headers as the spec words them, for a
    sequence of [n] positions over [sigma] symbols.  FIRSTTWOBITS is the
    largest value with the top two bits clear, a special position [i] reads
    as [n - i + sigma], a stored code outside of the alphabet marks a special
    position, and the complement mirrors the alphabet.  The spec gives no
    comparison offset; it is taken to be [sigma], which makes the first
    argument of the fast-method test on the encoded backend the largest
    value [GT_UNIQUEINT] can return.  The order-check oracle accepts every
    table, so that a run shows the sorter alone. *)
Definition spec_headers (n sigma : Z) : GtHeaders := {|
  GT_FIRSTTWOBITS := 2 ^ 62 - 1;
  GT_COMPAREOFFSET := sigma;
  GT_UNIQUEINT := fun position => n - position + sigma;
  GT_COMPLEMENTBASE := fun base => sigma - 1 - base;
  ISSPECIAL := fun cc => sigma <=? cc;
  gt_suftab_lightweightcheck := fun _ _ _ _ => true
|}.

(** The bytes of a string literal. *)
Definition bytes_of (str : string) : list Z :=
  map (fun a => Z.of_nat (Ascii.nat_of_ascii a)) (list_ascii_of_string str).

(** The plain entry point on a string literal, with the headers of the
    spec. *)
Definition sort_plain (str : string) (intermediatecheck verbose timer : bool)
  : list event * res (list Z) :=
  let plainseq := bytes_of str in
  let len := Z.of_nat (length plainseq) in
  @gt_sain_plain_sortsuffixes (spec_headers len 256) plainseq len
    intermediatecheck verbose timer.

(** [SUF[0..n)] of a result. *)
Definition prefix_of (n : nat) (r : list event * res (list Z))
  : option (list Z) :=
  match snd r with
  | Ok suf _ => Some (firstn n suf)
  | Fail _ => None
  end.

(** * Notions of the statements *)

(** The contents of the cell [p[i]], if there is one. *)
Definition cell (m : mem) (p : ptr) (i : Z) : option Z :=
  let b := nth (pblk p) m [] in
  if inbounds b (poff p + i) then Some (nth (Z.to_nat (poff p + i)) b 0)
  else None.

(** A computation that leaves the block [b] of the memory as it is. *)
Definition preserves_block (b : nat) {A} (c : M A) : Prop :=
  forall m a m', c m = Ok a m' -> nth b m' [] = nth b m [].

(** A computation that does not change the memory. *)
Definition reads_only {A} (c : M A) : Prop :=
  forall m a m', c m = Ok a m' -> m' = m.

(** The order that the sorter works with: lexicographic, and a suffix that
    ends where the other one goes on is the greater of the two, as if the
    sequence ended in a symbol greater than all others. *)
Inductive lex_lt_endmax : list Z -> list Z -> Prop :=
  | lt_endmax_end x xs : lex_lt_endmax (x :: xs) []
  | lt_endmax_head x xs y ys : x < y -> lex_lt_endmax (x :: xs) (y :: ys)
  | lt_endmax_tail x xs ys :
      lex_lt_endmax xs ys -> lex_lt_endmax (x :: xs) (x :: ys).

(** The usual lexicographic order, in which a proper prefix is smaller, as
    if the sequence ended in a symbol smaller than all others. *)
Inductive lex_lt : list Z -> list Z -> Prop :=
  | lex_lt_end y ys : lex_lt [] (y :: ys)
  | lex_lt_head x xs y ys : x < y -> lex_lt (x :: xs) (y :: ys)
  | lex_lt_tail x xs ys : lex_lt xs ys -> lex_lt (x :: xs) (x :: ys).

(** The suffix of [l] that starts at position [p]. *)
Definition suffix (l : list Z) (p : Z) : list Z := skipn (Z.to_nat p) l.




(** What a level may change in the struct of its sequence view: the round
    counter, the round table, which may be freed and set to [NULL], and,
    when the sequence is an integer array, [sstarfirstcharcount]. *)
Definition view_rel (s s' : GtSainseq) : Prop :=
  totallength s' = totallength s /\
  numofchars s' = numofchars s /\
  seq s' = seq s /\
  readmode s' = readmode s /\
  bucketsize s' = bucketsize s /\
  bucketfillptr s' = bucketfillptr s /\
  bucketfillptrpoints2suftab s' = bucketfillptrpoints2suftab s /\
  bucketsizepoints2suftab s' = bucketsizepoints2suftab s /\
  roundtablepoints2suftab s' = roundtablepoints2suftab s /\
  (roundtable s' = roundtable s \/ roundtable s' = None) /\
  ((exists a, seq s = SeqArray a) \/
   sstarfirstcharcount s' = sstarfirstcharcount s).

(** The invariant of the scan after [k >= 1] steps: two Sstar positions are
    never found in two consecutive steps. *)
Definition scan_inv (k : Z) (st : scanstate) : Prop :=
  0 <= sc_countSstartype st /\
  (if sc_nextisStype st
   then 2 * sc_countSstartype st + 1 <= k
   else 2 * sc_countSstartype st <= k).

Section Notions.

Context {hd : GtHeaders}.

(** The symbols of the encoded sequence as they are read under a read
    mode, position by position. *)
Definition read_symbols (encseq : GtEncseq) (rm : GtReadmode) : list Z :=
  map (fun p => match gt_encseq_get_encoded_char encseq (Z.of_nat p) rm []
                with
                | Ok cc _ => cc
                | Fail _ => 0
                end)
      (List.seq 0 (length (enc_chars encseq))).

(** [l] is the sequence as [gt_sainseq_getchar] reads it, independently of
    the memory. *)
Definition reads (s : GtSainseq) (l : list Z) : Prop :=
  totallength s = Z.of_nat (length l) /\
  forall p m, 0 <= p < Z.of_nat (length l) ->
              gt_sainseq_getchar s p m = Ok (nth (Z.to_nat p) l 0) m.

(** The encoded sequence as the sorter reads it under a read mode: a
    special position [p] shows [GT_UNIQUEINT(p)]. *)
Definition encseq_symbols (encseq : GtEncseq) (rm : GtReadmode) : list Z :=
  map (fun p =>
         let cc := nth p (read_symbols encseq rm) 0 in
         if ISSPECIAL cc then GT_UNIQUEINT (Z.of_nat p) else cc)
      (List.seq 0 (length (enc_chars encseq))).

End Notions.

(** * Inputs at which the theorems are applied *)

(** The suffix table after the scan of [gt_saininfo_new] alone. *)
Definition seeds_of (str : string) : option (list Z) :=
  let plainseq := bytes_of str in
  let len := Z.of_nat (length plainseq) in
  let hd := spec_headers len 256 in
  match (suftab <~ lift (gt_calloc (len + 1)) ;;
         s <~ lift (gt_sainseq_new_from_plainseq plainseq len) ;;
         gt_saininfo_new s suftab ;;;
         lift (read_suftab suftab))%sain [] with
  | (_, Ok suf _) => Some suf
  | (_, Fail _) => None
  end.

(** What a run returned, or a default when it failed. *)
Definition value_of {A} (r : res A) (d : A) : A :=
  match r with Ok a _ => a | Fail _ => d end.

Definition mem_of {A} (r : res A) : mem :=
  match r with Ok _ m => m | Fail _ => [] end.

Definition no_view : GtSainseq :=
  {| totallength := 0; numofchars := 0; currentround := 0;
     bucketsize := suftab0; bucketfillptr := suftab0;
     sstarfirstcharcount := None; roundtable := None;
     seq := SeqPlain []; readmode := GT_READMODE_FORWARD;
     bucketfillptrpoints2suftab := false;
     bucketsizepoints2suftab := false;
     roundtablepoints2suftab := false |}.

(** The byte sequence "aba" with its suffix table of four zeros, after the
    constructor and the reset of the fill pointers to the bucket ends. *)
Definition aba_setup : res GtSainseq :=
  let hd := spec_headers 3 256 in
  (suftab <- gt_calloc 4 ;;
   s <- gt_sainseq_new_from_plainseq (bytes_of "aba") 3 ;;
   gt_sain_endbuckets s ;;
   ret s) [].

Definition aba_view : GtSainseq := Eval vm_compute in value_of aba_setup no_view.
Definition aba_mem : mem := Eval vm_compute in mem_of aba_setup.

Definition aba_start : scanstate :=
  {| sc_nextcc := 3 - 3 + 256; sc_nextisStype := true;
     sc_countSstartype := 0 |}.

(** The whole scan of "aba". *)
Definition aba_scan : res scanstate :=
  @saininfo_scan (spec_headers 3 256) 4 aba_view suftab0 None 2 aba_start
    aba_mem.

Definition aba_end : scanstate :=
  Eval vm_compute in value_of aba_scan aba_start.
Definition aba_mem_end : mem := Eval vm_compute in mem_of aba_scan.

(** A DNA sequence with a wildcard at its end, read as the reverse
    complement. *)
Definition acttn : GtEncseq := {| enc_chars := [0; 1; 3; 3; 4];
                                  enc_numofchars := 4 |}.

Definition acttn_new : res GtSainseq :=
  @gt_sainseq_new_from_encseq (spec_headers 5 4) acttn GT_READMODE_REVCOMPL [].

Definition acttn_view : GtSainseq :=
  Eval vm_compute in value_of acttn_new no_view.
Definition acttn_mem : mem := Eval vm_compute in mem_of acttn_new.

(** The checked sort of "banana". *)
Definition banana_run : list event * res (list Z) :=
  Eval vm_compute in
    @gt_sain_plain_sortsuffixes (spec_headers 6 256) (bytes_of "banana")
      (Z.of_nat (length (bytes_of "banana"))) true false false.



(** * Notions of the further properties *)

(** The sum [f 0 + ... + f (n-1)]. *)
Fixpoint sum_below (f : Z -> Z) (n : nat) : Z :=
  match n with
  | O => 0
  | S k => sum_below f k + f (Z.of_nat k)
  end.

(** The arrays [bucketsize] and [bucketfillptr] of a sequence view do not
    share a cell: they are two allocations or two parts of the suffix
    table. *)
Definition buckets_apart (s : GtSainseq) : Prop :=
  forall c c', 0 <= c < numofchars s -> 0 <= c' < numofchars s ->
    pblk (bucketsize s) <> pblk (bucketfillptr s) \/
    poff (bucketsize s) + c <> poff (bucketfillptr s) + c'.

(** [l] is the sequence as [gt_sainseq_getchar] reads it in the memory [m].
    This covers the three kinds of sequences: the integer sequence of a
    recursive level lies in the memory, within the suffix table. *)
Definition reads_in {hd : GtHeaders} (m : mem) (s : GtSainseq) (l : list Z)
  : Prop :=
  totallength s = Z.of_nat (length l) /\
  forall p, 0 <= p < Z.of_nat (length l) ->
            gt_sainseq_getchar s p m = Ok (nth (Z.to_nat p) l 0) m.

(** No cell [q[j]] with [W j] is a cell of the sequence: this says
    something when the sequence is an integer array. *)
Definition seq_apart (s : GtSainseq) (q : ptr) (W : Z -> Prop) : Prop :=
  forall a, seq s = SeqArray a ->
  forall p j, 0 <= p < totallength s -> W j ->
    pblk a <> pblk q \/ poff a + p <> poff q + j.

(** The order of the sorter as a test. *)
Fixpoint ltb_endmax (a b : list Z) : bool :=
  match a, b with
  | [], _ => false
  | _ :: _, [] => true
  | x :: xs, y :: ys => (x <? y) || ((x =? y) && ltb_endmax xs ys)
  end.

(** Position [q] is of type S when its suffix is below the next one, and it
    is an Sstar position when moreover its left neighbour is of type L. *)
Definition is_Stype (l : list Z) (q : Z) : bool :=
  ltb_endmax (suffix l q) (suffix l (q + 1)).

Definition is_Sstar (l : list Z) (q : Z) : bool :=
  is_Stype l q && negb (is_Stype l (q - 1)).

(** The positions [lo+1, ..., length l - 1]. *)
Definition positions_above (l : list Z) (lo : nat) : list Z :=
  map Z.of_nat (List.seq (S lo) (length l - S lo)).

Definition Sstar_positions (l : list Z) : list Z :=
  filter (is_Sstar l) (positions_above l 0).

(** The Sstar positions above position [p], in ascending order. *)
Definition Sstar_above (l : list Z) (p : nat) : list Z :=
  filter (is_Sstar l) (positions_above l p).

(** What the scan knows after the step at position [p]. *)
Definition scan_knows (l : list Z) (p : nat) (st : scanstate) : Prop :=
  sc_nextcc st = nth p l 0 /\
  sc_nextisStype st = is_Stype l (Z.of_nat p) /\
  sc_countSstartype st
  = Z.of_nat (length (filter (is_Sstar l) (positions_above l p))).


(** What the scan of [gt_sain_expandorder2original] has done after the step
    at position [p], for [count] Sstar positions: it knows the type of
    position [p], and the Sstar positions above [p] are at the end of
    [sstarsuffixes = suftab + count]. *)
Definition expand_knows (l : list Z) (count : Z) (suftab : ptr) (m : mem)
    (p : nat) (st : expstate) (mk : mem) : Prop :=
  let n := Z.of_nat (length (Sstar_above l p)) in
  ex_nextcc st = nth p l 0 /\
  ex_nextisStype st = is_Stype l (Z.of_nat p) /\
  ex_writeidx st = u64 (count - 1 - n) /\
  (forall k, (k < length (Sstar_above l p))%nat ->
     cell mk suftab (count + (count - n) + Z.of_nat k)
     = Some (nth k (Sstar_above l p) 0)) /\
  (forall q j, pblk q <> pblk suftab \/
               ~ (count + (count - n) <= poff q + j - poff suftab < 2 * count) ->
               cell mk q j = cell m q j).

(** The positions [start, ..., end - 1] of a range. *)
Definition range_positions (r : Z * Z) : list Z :=
  map (fun k => fst r + Z.of_nat k) (List.seq 0 (Z.to_nat (snd r - fst r))).

(** The indices [i] in [lo, hi) at which [V] is positive, in ascending
    order. *)
Definition positive_below (V : Z -> Z) (lo hi : Z) : list Z :=
  filter (fun i => 0 <? V i)
    (map (fun j => lo + Z.of_nat j) (List.seq 0 (Z.to_nat (hi - lo)))).

(** The symbols [A 0, ..., A (n-1)] of an integer sequence. *)
Definition symbols_of (A : Z -> Z) (n : nat) : list Z :=
  map (fun i => A (Z.of_nat i)) (List.seq 0 n).

(** What an allocation leaves as it is. *)
Definition extends (m m' : mem) : Prop :=
  (length m <= length m')%nat /\
  forall q j, (pblk q < length m)%nat -> cell m' q j = cell m q j.

(** Two printing computations with the same result on every memory. *)
Definition same_result {A} (c1 c2 : T A) : Prop :=
  forall m, snd (c1 m) = snd (c2 m).

(** Whenever the first computation succeeds, the second one succeeds with the
    same result and memory. *)
Definition succeeds_as {A} (c1 c2 : T A) : Prop :=
  forall m a m', snd (c1 m) = Ok a m' -> snd (c2 m) = Ok a m'.

(** The sizes of the blocks of a memory; a freed block has size 0. *)
Definition shape (m : mem) : list nat := map (@length Z) m.

(** A computation that neither allocates nor frees. *)
Definition keeps_shape {A} (c : M A) : Prop :=
  forall m a m', c m = Ok a m' -> shape m' = shape m.

(** The shape once block [b] is freed. *)
Fixpoint zero (b : nat) (sh : list nat) : list nat :=
  match sh, b with
  | [], _ => []
  | _ :: t, O => O :: t
  | h :: t, S b' => h :: zero b' t
  end.

(** The shape once [gt_sainseq_delete] has released the arrays of the
    view. *)
Definition release (s : GtSainseq) (sh : list nat) : list nat :=
  let sh := if bucketfillptrpoints2suftab s then sh
            else zero (pblk (bucketfillptr s)) sh in
  let sh := if bucketsizepoints2suftab s then sh
            else zero (pblk (bucketsize s)) sh in
  let sh := if roundtablepoints2suftab s then sh
            else match roundtable s with
                 | Some p => zero (pblk p) sh
                 | None => sh
                 end in
  match seqtype s with
  | GT_SAIN_INTSEQ => sh
  | _ => match sstarfirstcharcount s with
         | Some p => zero (pblk p) sh
         | None => sh
         end
  end.

(** A printing computation after which the memory has its old blocks, of
    the old sizes, and new blocks that are all freed. *)
Definition grows {A} (c : T A) : Prop :=
  forall m ev a m', c m = (ev, Ok a m') ->
    exists k, shape m' = shape m ++ repeat O k.

(** The same once the arrays of the view are released: of the view [s]
    before and of the view in the result after. *)
Definition releases {A} (view : A -> GtSainseq) (s : GtSainseq) (c : T A)
  : Prop :=
  forall m ev a m', c m = (ev, Ok a m') ->
    exists k, release (view a) (shape m') = release s (shape m) ++ repeat O k.

(** What the scan of [gt_sain_assignSstarlength] has done after the step at
    position [p]: it knows the type of position [p] and the first Sstar
    position above it, and the entry of [lentab] at half of each Sstar
    position above [p] is the distance to the next one (or to the end of the
    sequence), plus one. *)
Definition length_knows (l : list Z) (lentab : ptr) (m : mem) (p : nat)
    (st : lenstate) (mk : mem) : Prop :=
  let sa := Sstar_above l p in
  let n := Z.of_nat (length l) in
  ln_nextcc st = nth p l 0 /\
  ln_nextisStype st = is_Stype l (Z.of_nat p) /\
  ln_nextSstartypepos st = nth 0 sa n /\
  (forall k, (k < length sa)%nat ->
     cell mk lentab (GT_DIV2 (nth k sa 0))
     = Some (nth (S k) sa n - nth k sa 0 + 1)) /\
  (forall q j, pblk q <> pblk lentab \/
               ~ (exists x, In x sa /\
                            poff q + j = poff lentab + GT_DIV2 x) ->
               cell mk q j = cell m q j).

(** The Sstar positions above position [p] that carry the symbol [c]. *)
Definition Sstar_with (l : list Z) (c : Z) (p : nat) : list Z :=
  filter (fun q => nth (Z.to_nat q) l 0 =? c) (Sstar_above l p).

(** The indices below [hi] whose entry is negative as a [long], in
    ascending order. *)
Definition negative_below (V : Z -> Z) (hi : Z) : list Z :=
  filter (fun i => s64 (V i) <? 0) (map Z.of_nat (List.seq 0 (Z.to_nat hi))).

(** What the loops of [gt_sain_moveSstar2front] have done when [readidx] is
    [r], [writeidx] is [w] and [namecount] is [nc]: the complements of the
    negative entries below [r] are at the front, in their order. *)
Definition moved (suftab : ptr) (tagged : Z -> bool) (V : Z -> Z) (n : Z)
    (m : mem) (r w nc : Z) (mk : mem) : Prop :=
  let done := negative_below V r in
  Z.of_nat (length done) = w /\
  (forall k, (k < length done)%nat ->
     cell mk suftab (Z.of_nat k) = Some (lnot (s64 (V (nth k done 0))))) /\
  nc = Z.of_nat (length (filter (fun i => tagged (lnot (s64 (V i)))) done)) /\
  (forall i, r <= i < n -> cell mk suftab i = Some (V i)) /\
  (forall q j, pblk q <> pblk suftab \/
               ~ (0 <= poff q + j - poff suftab < r) ->
               cell mk q j = cell m q j).

(** What [gt_sain_moveSstar2front] leaves behind, from the entries [V] of
    the table: the complements of the first [count] negative entries are at
    the front in their order, [namecount] of them satisfy [tagged], the
    entries behind them are zero up to the place of the last one moved, and
    nothing else has changed. *)
Definition Sstar_at_front (suftab : ptr) (tagged : Z -> bool) (count n : Z)
    (V : Z -> Z) (m : mem) (namecount : Z) (m' : mem) : Prop :=
  let first := firstn (Z.to_nat count) (negative_below V n) in
  Z.of_nat (length first) = count /\
  (forall k, (k < length first)%nat ->
     cell m' suftab (Z.of_nat k) = Some (lnot (s64 (V (nth k first 0))))) /\
  namecount
  = Z.of_nat (length (filter (fun i => tagged (lnot (s64 (V i)))) first)) /\
  (forall i, count <= i <= last first 0 -> cell m' suftab i = Some 0) /\
  (forall q j, pblk q <> pblk suftab \/
               ~ (0 <= poff q + j - poff suftab <= last first 0) ->
               cell m' q j = cell m q j).

(** Are the windows of [len] symbols at [a] and at [b] both within the
    sequence and equal? *)
Definition window_eqb (l : list Z) (a b len : Z) : bool :=
  (a + len <=? Z.of_nat (length l)) && (b + len <=? Z.of_nat (length l)) &&
  forallb (fun k => nth (Z.to_nat (a + k)) l 0 =? nth (Z.to_nat (b + k)) l 0)
    (map Z.of_nat (List.seq 0 (Z.to_nat len))).

(** The name of the [i]-th of the sorted Sstar substrings, which start at
    the positions [P 0, P 1, ...] and have the lengths [L 0, L 1, ...]: the
    first name is 1, and the name goes up by one where a substring differs
    from the one before it. *)
Fixpoint name_of (l : list Z) (P L : Z -> Z) (i : nat) : Z :=
  match i with
  | O => 1
  | S k =>
      name_of l P L k
      + (if (L (Z.of_nat k) =? L (Z.of_nat (S k)))
            && window_eqb l (P (Z.of_nat k)) (P (Z.of_nat (S k)))
                 (L (Z.of_nat (S k)))
         then 0 else 1)
  end.

(** The entries of the table while [offset] of the [cnt] suffixes at
    [.. readidx] have been moved to [.. putidx]: the moved ones are at their
    new places, their old places are zero unless they are new places, and
    every other entry below [n] is as [C] has it.  Cells outside of the
    first [n] entries are as in [m]. *)
Definition moving (suftab : ptr) (n : Z) (C : Z -> Z) (m : mem)
    (putidx readidx offset : Z) (mk : mem) : Prop :=
  (forall j, 0 <= j < n ->
     (putidx - offset < j <= putidx ->
      cell mk suftab j = Some (C (j - (putidx - readidx)))) /\
     (~ (putidx - offset < j <= putidx) -> readidx - offset < j <= readidx ->
      cell mk suftab j = Some 0) /\
     (~ (putidx - offset < j <= putidx) ->
      ~ (readidx - offset < j <= readidx) ->
      cell mk suftab j = Some (C j))) /\
  (forall q j, pblk q <> pblk suftab \/
               ~ (0 <= poff q + j - poff suftab < n) ->
               cell mk q j = cell m q j).

(** What [gt_sain_insertsortedSstarsuffixes] has done when the buckets
    above [cc] are filled: with the bucket sizes [B], the numbers [F] of
    Sstar suffixes per first symbol and the sorted Sstar suffixes [S] at the
    front, the suffixes of the symbols up to [cc] are still at the front,
    those of each symbol [c] above [cc] are at the end of the bucket of [c],
    and the start of that bucket is zero. *)
Definition inserted (suftab : ptr) (n nc : Z) (F B S : Z -> Z) (m : mem)
    (cc : Z) (mk : mem) : Prop :=
  let lo := n - sum_below B (Z.to_nat nc) in
  (forall k, 0 <= k < sum_below F (Z.to_nat (cc + 1)) ->
     cell mk suftab k = Some (S k)) /\
  (forall c k, cc < c < nc -> 0 <= k < F c ->
     cell mk suftab (lo + sum_below B (Z.to_nat (c + 1)) - 1 - k)
     = Some (S (sum_below F (Z.to_nat (c + 1)) - 1 - k))) /\
  (forall c j, cc < c < nc ->
     lo + sum_below B (Z.to_nat c) <= j
     < lo + sum_below B (Z.to_nat (c + 1)) - F c ->
     cell mk suftab j = Some 0) /\
  (forall j, 0 <= j < n ->
     exists v, cell mk suftab j = Some v /\ 0 <= v < wordsize) /\
  (forall q j, pblk q <> pblk suftab \/
               ~ (0 <= poff q + j - poff suftab < n) ->
               cell mk q j = cell m q j).

(** Two arrays [p[0..a)] and [q[0..b)] share no cell. *)
Definition apart (p : ptr) (a : Z) (q : ptr) (b : Z) : Prop :=
  forall i j, 0 <= i < a -> 0 <= j < b ->
    pblk p <> pblk q \/ poff p + i <> poff q + j.

(** The arrays that [gt_saininfo_new] works on share no cell: the fill
    pointers share none with the bucket sizes, with the first [n] entries of
    the suffix table, with the counters of the Sstar suffixes (when they are
    kept) and with the sequence (when it is an integer array, which lies in
    the memory); nor do the table, the counters and the sequence among each
    other.  The arrays may well be parts of one block, as they are when a
    recursive level reclaims them from the suffix table. *)
Definition scan_apart (s : GtSainseq) (suftab : ptr) (n : Z) : Prop :=
  let nc := numofchars s in
  let fp := bucketfillptr s in
  apart fp nc (bucketsize s) nc /\
  apart fp nc suftab n /\
  (forall sfc, sstarfirstcharcount s = Some sfc ->
     apart sfc nc suftab n /\ apart sfc nc fp nc) /\
  (forall a, seq s = SeqArray a ->
     apart a (totallength s) suftab n /\
     apart a (totallength s) fp nc /\
     (forall sfc, sstarfirstcharcount s = Some sfc ->
        apart a (totallength s) sfc nc)).

(** The number of Sstar positions above [p] that carry the symbol [c]. *)
Definition Sstar_count (l : list Z) (c : Z) (p : nat) : Z :=
  Z.of_nat (length (Sstar_with l c p)).

(** The end of the bucket of [c] for the bucket sizes [B]: the value that
    [gt_sain_endbuckets] gives the fill pointer of [c]. *)
Definition bucket_end (B : Z -> Z) (c : Z) : Z :=
  sum_below B (S (Z.to_nat c)).

(** The fill pointer of the bucket of its symbol once it is decremented for
    the Sstar position [q]: as often as there are Sstar positions with this
    symbol from [q] on. *)
Definition seed_index (l : list Z) (B : Z -> Z) (q : Z) : Z :=
  let c := nth (Z.to_nat q) l 0 in
  bucket_end B c - 1 - Sstar_count l c (Z.to_nat q).

(** The seeds of the symbol [c] when the scan has passed the positions above
    [p] and [cnt] of them wait in the ring of [c] in the write buffer, whose
    rings have [bsz] slots in [vals]: the fill pointer of [c] is decremented
    for the others, which are at their places in the suffix table.  Without
    a write buffer [cnt] is 0. *)
Definition ring_state (s : GtSainseq) (suftab vals : ptr) (bsz : Z)
    (l : list Z) (B : Z -> Z) (c : Z) (p : nat) (cnt : Z) (mk : mem)
  : Prop :=
  let flushed := Sstar_count l c p - cnt in
  0 <= cnt <= Sstar_count l c p /\
  cell mk (bucketfillptr s) c = Some (bucket_end B c - flushed) /\
  forall q, In q (Sstar_with l c p) ->
    let r := Sstar_count l c (Z.to_nat q) in
    (r < flushed -> cell mk suftab (bucket_end B c - 1 - r) = Some (q - 1)) /\
    (flushed <= r -> cell mk vals (c * bsz + (r - flushed)) = Some (q - 1)).

(** The cells of the memory [m] that the scan leaves as they are: those
    outside of the fill pointers, of the first [n] entries of the suffix
    table and of the counters of the Sstar suffixes. *)
Definition scan_frame (s : GtSainseq) (suftab : ptr) (n : Z) (m mk : mem)
  : Prop :=
  forall q j, (pblk q < length m)%nat ->
    (pblk q <> pblk (bucketfillptr s) \/
     ~ (0 <= poff q + j - poff (bucketfillptr s) < numofchars s)) ->
    (pblk q <> pblk suftab \/ ~ (0 <= poff q + j - poff suftab < n)) ->
    (forall sfc, sstarfirstcharcount s = Some sfc ->
       pblk q <> pblk sfc \/
       ~ (0 <= poff q + j - poff sfc < numofchars s)) ->
    cell mk q j = cell m q j.

(** The seeds of every symbol when the scan has passed the positions above
    [p].  With a write buffer ([buffered]) the number of seeds in the ring
    of a symbol is its entry of [nextidx], below the number of slots. *)
Definition rings_at (s : GtSainseq) (suftab vals nidx : ptr) (bsz : Z)
    (buffered : bool) (l : list Z) (B : Z -> Z) (p : nat) (mk : mem)
  : Prop :=
  forall c, 0 <= c < numofchars s ->
    exists cnt, ring_state s suftab vals bsz l B c p cnt mk /\
      if buffered then cell mk nidx c = Some cnt /\ cnt < bsz
      else cnt = 0.

(** The counters of the Sstar suffixes, when they are kept, once the scan
    has passed the positions above [p]: they started from [F0]. *)
Definition counted_at (s : GtSainseq) (l : list Z) (F0 : Z -> Z) (p : nat)
    (mk : mem) : Prop :=
  forall sfc, sstarfirstcharcount s = Some sfc ->
  forall c, 0 <= c < numofchars s ->
    cell mk sfc c = Some (u64 (F0 c + Sstar_count l c p)).

(** What the scan of [gt_saininfo_new] has done after the step at position
    [p], with a write buffer or without one. *)
Definition seeds_inv (s : GtSainseq) (suftab vals nidx : ptr) (bsz : Z)
    (buffered : bool) (l : list Z) (B F0 : Z -> Z) (n : Z) (m : mem)
    (p : nat) (st : scanstate) (mk : mem) : Prop :=
  scan_knows l p st /\
  rings_at s suftab vals nidx bsz buffered l B p mk /\
  counted_at s l F0 p mk /\
  scan_frame s suftab n m mk.

(** * Further inputs at which the theorems are applied *)

(** The view of "aba" as its constructor leaves it. *)
Definition aba_new : res GtSainseq :=
  @gt_sainseq_new_from_plainseq (spec_headers 3 256) (bytes_of "aba") 3 [].

Definition aba_new_view : GtSainseq :=
  Eval vm_compute in value_of aba_new no_view.
Definition aba_new_mem : mem := Eval vm_compute in mem_of aba_new.

(** Three buckets of sizes 2, 1 and 3, with the fill pointers in a block of
    their own. *)
Definition three_view : GtSainseq :=
  {| totallength := 6; numofchars := 3; currentround := 0;
     bucketsize := Ptr 0 0; bucketfillptr := Ptr 1 0;
     sstarfirstcharcount := None; roundtable := None;
     seq := SeqPlain []; readmode := GT_READMODE_FORWARD;
     bucketfillptrpoints2suftab := false;
     bucketsizepoints2suftab := false;
     roundtablepoints2suftab := false |}.

Definition three_mem : mem := [[2; 1; 3]; [0; 0; 0]].

Definition three_sizes (c : Z) : Z := nth (Z.to_nat c) [2; 1; 3] 0.

Definition three_end_mem : mem :=
  Eval vm_compute in mem_of (gt_sain_endbuckets three_view three_mem).
Definition three_start_mem : mem :=
  Eval vm_compute in mem_of (gt_sain_startbuckets three_view three_mem).

(** The suffixes of "aba" in the order of the sorter, as a suffix table. *)
Definition aba_sorted_mem : mem := [[0; 2; 1; 3]].

Definition aba_sorted (idx : Z) : Z := nth (Z.to_nat idx) [0; 2; 1; 3] 0.

(** The tail of the suffix table of the sequence with the wildcard. *)
Definition acttn_tail : res unit :=
  @gt_sain_filltailsuffixes (spec_headers 5 4) (Ptr 0 4) acttn
    GT_READMODE_FORWARD [[0; 0; 0; 0; 0; 0]].

Definition acttn_tail_mem : mem := Eval vm_compute in mem_of acttn_tail.

(** Two names, 1 and 2, among the three entries behind two suffixes. *)
Definition names_mem : mem := [[0; 0; 1; 0; 2; 0]].

Definition names_at (i : Z) : Z := nth (Z.to_nat i) [0; 0; 1; 0; 2; 0] 0.

Definition names_front_mem : mem :=
  Eval vm_compute in mem_of (gt_sain_movenames2front suftab0 2 5 names_mem).

(** The one Sstar suffix of "aba" on the way back from the naming. *)
Definition aba_expand : res GtSainseq :=
  @gt_sain_expandorder2original (spec_headers 3 256) aba_view 1 suftab0
    aba_mem.

Definition aba_expand_mem : mem := Eval vm_compute in mem_of aba_expand.

(** The lengths of the Sstar substrings of "aba", written behind the one
    Sstar suffix. *)
Definition aba_lengths : res unit :=
  @gt_sain_assignSstarlength (spec_headers 3 256) aba_view (Ptr 0 1) aba_mem.

Definition aba_lengths_mem : mem := Eval vm_compute in mem_of aba_lengths.

(** A sequence of two names at entries 2 and 3 of a suffix table of twelve
    entries, of which the first four are in use. *)
Definition sub_mem : mem := [[0; 0; 1; 0; 0; 0; 0; 0; 0; 0; 0; 0]].

Definition sub_symbols (i : Z) : Z := nth (Z.to_nat i) [1; 0] 0.

Definition sub_new : list event * res GtSainseq :=
  @gt_sainseq_new_from_array (spec_headers 2 2) (Ptr 0 2) 2 2 suftab0 4 12
    sub_mem.

Definition sub_view : GtSainseq :=
  Eval vm_compute in value_of (snd sub_new) no_view.
Definition sub_new_mem : mem := Eval vm_compute in mem_of (snd sub_new).

(** A recursive level: the integer sequence 1 0 1 0 over two symbols at the
    entries 4 to 7 of a suffix table of twelve entries, with the table of the
    level in front of it and its counters at the end. *)
Definition deep_mem : mem := [[0; 0; 0; 0; 1; 0; 1; 0; 0; 0; 0; 0]].

Definition deep_new : list event * res GtSainseq :=
  @gt_sainseq_new_from_array (spec_headers 4 2) (Ptr 0 4) 4 2 suftab0 8 12
    deep_mem.

Definition deep_view : GtSainseq :=
  Eval vm_compute in value_of (snd deep_new) no_view.

Definition deep_symbols : list Z := [1; 0; 1; 0].

(** The same level with its suffixes in the order of the sorter. *)
Definition deep_sorted_mem : mem := [[1; 3; 0; 2; 1; 0; 1; 0; 0; 0; 2; 2]].

Definition deep_sorted (i : Z) : Z := nth (Z.to_nat i) [1; 3; 0; 2] 0.

(** The same level with its two Sstar positions and their lengths. *)
Definition deep_named_mem : mem := [[1; 3; 3; 2; 1; 0; 1; 0; 0; 0; 2; 2]].

Definition deep_Sstar (i : Z) : Z := nth (Z.to_nat i) [1; 3] 0.

Definition deep_lengths (i : Z) : Z := nth (Z.to_nat i) [3; 2] 0.

Definition deep_names : res Z :=
  @gt_sain_assignSstarnames (spec_headers 4 2) deep_view 2 suftab0
    deep_named_mem.

Definition deep_names_mem : mem := Eval vm_compute in mem_of deep_names.

(** The integer sequence 1 0 1 0 over two symbols, with its counters in two
    blocks of their own. *)
Definition int_view : GtSainseq :=
  {| totallength := 4; numofchars := 2; currentround := 0;
     bucketsize := Ptr 1 0; bucketfillptr := Ptr 2 0;
     sstarfirstcharcount := Some (Ptr 2 0); roundtable := None;
     seq := SeqArray suftab0; readmode := GT_READMODE_FORWARD;
     bucketfillptrpoints2suftab := false;
     bucketsizepoints2suftab := false;
     roundtablepoints2suftab := false |}.

Definition int_mem : mem := [[1; 0; 1; 0]; [0; 0]; [0; 0]].

Definition int_symbols (i : Z) : Z := nth (Z.to_nat i) [1; 0; 1; 0] 0.

Definition int_counts : res unit :=
  @gt_sain_determineSstarfirstchardist (spec_headers 4 2) int_view int_mem.

Definition int_counts_mem : mem := Eval vm_compute in mem_of int_counts.

(** Two marked suffixes, 3 and 5, at the places 0 and 2 of a table of six
    entries. *)
Definition front_mem : mem :=
  Eval vm_compute in [[u64 (lnot 3); 0; u64 (lnot 5); 0; 0; 0]].

Definition front_at (i : Z) : Z := nth (Z.to_nat i) (nth 0 front_mem []) 0.

Definition front_moved_mem : mem :=
  Eval vm_compute in mem_of (gt_sain_moveSstar2front 2 suftab0 6 front_mem).

(** The Sstar suffixes 1, 3 and 5 of "banana" in their order, with the
    lengths 3, 3 and 2 of their substrings behind them. *)
Definition banana_view : GtSainseq :=
  Eval vm_compute in
    value_of (@gt_sainseq_new_from_plainseq (spec_headers 6 256)
                (bytes_of "banana") 6 []) no_view.

Definition banana_named_mem : mem := [[1; 3; 5; 3; 3; 2; 0]].

Definition banana_Sstar (i : Z) : Z := nth (Z.to_nat i) [1; 3; 5] 0.

Definition banana_lengths (i : Z) : Z := nth (Z.to_nat i) [3; 3; 2] 0.

Definition banana_names : res Z :=
  @gt_sain_assignSstarnames (spec_headers 6 256) banana_view 3 suftab0
    banana_named_mem.

Definition banana_names_mem : mem := Eval vm_compute in mem_of banana_names.

(** Two sorted Sstar suffixes, one per symbol, at the front of a table of
    five entries, with buckets of sizes 2 and 3. *)
Definition ins_mem : mem := [[10; 20; 0; 0; 0]; [2; 3]; [1; 1]].

Definition ins_sizes (c : Z) : Z := nth (Z.to_nat c) [2; 3] 0.

Definition ins_counts (c : Z) : Z := nth (Z.to_nat c) [1; 1] 0.

Definition ins_sorted (k : Z) : Z := nth (Z.to_nat k) [10; 20] 0.

Definition ins_run : res unit :=
  gt_sain_insertsortedSstarsuffixes int_view suftab0 1 5 ins_mem.

Definition ins_done_mem : mem := Eval vm_compute in mem_of ins_run.

(** The byte sequence "aba" with its suffix table of four zeros, as the
    entry point hands them to the first level. *)
Definition aba_fresh : res GtSainseq :=
  let hd := spec_headers 3 256 in
  (suftab <- gt_calloc 4 ;;
   gt_sainseq_new_from_plainseq (bytes_of "aba") 3) [].

Definition aba_fresh_view : GtSainseq :=
  Eval vm_compute in value_of aba_fresh no_view.
Definition aba_fresh_mem : mem := Eval vm_compute in mem_of aba_fresh.

Definition aba_sizes (c : Z) : Z :=
  Z.of_nat (count_occ Z.eq_dec (bytes_of "aba") c).

(** The scan of "aba", which goes through the write buffer. *)
Definition aba_seeds : list event * res Z :=
  @gt_saininfo_new (spec_headers 3 256) aba_fresh_view suftab0 aba_fresh_mem.

Definition aba_seeds_mem : mem := Eval vm_compute in mem_of (snd aba_seeds).

(** The recursive level after its constructor, and its scan. *)
Definition deep_new_mem : mem := Eval vm_compute in mem_of (snd deep_new).

Definition deep_sizes (c : Z) : Z :=
  Z.of_nat (count_occ Z.eq_dec deep_symbols c).

Definition deep_seeds : list event * res Z :=
  @gt_saininfo_new (spec_headers 4 2) deep_view suftab0 deep_new_mem.

Definition deep_seeds_mem : mem := Eval vm_compute in mem_of (snd deep_seeds).

(** * Properties *)

(** ** Reasoning about the monads *)

Lemma bind_ok {A B} (c : M A) (k : A -> M B) m b m' :
  bind c k m = Ok b m' ->
  exists a m1, c m = Ok a m1 /\ k a m1 = Ok b m'.
Proof.
  unfold bind. destruct (c m) as [a m1|e]; [eauto | discriminate].
Qed.

Lemma ret_ok {A} (a b : A) m m' : ret a m = Ok b m' -> a = b /\ m = m'.
Proof. unfold ret. intros H. inversion H. auto. Qed.

Lemma gt_assert_ok b m u m' : gt_assert b m = Ok u m' -> b = true /\ m = m'.
Proof.
  unfold gt_assert. destruct b; cbn; intros H; inversion H; auto.
Qed.

(** Takes a successful run apart, bind by bind: the steps become [Hrun],
    [Hrun0], ... and [H] is what is left at the end. *)
Ltac subst_eq E :=
  try (match type of E with
       | ?x = ?y => first [subst x | subst y]
       end).

Ltac monad_leaf H :=
  lazymatch type of H with
  | ret _ _ = Ok _ _ =>
      let E1 := fresh "E" in
      let E2 := fresh "E" in
      apply ret_ok in H; destruct H as [E1 E2]; subst_eq E1; subst_eq E2
  | gt_assert _ _ = Ok _ _ =>
      let E1 := fresh "Hassert" in
      let E2 := fresh "E" in
      apply gt_assert_ok in H; destruct H as [E1 E2]; subst_eq E2
  | fail _ _ = Ok _ _ => discriminate H
  | _ => idtac
  end.

Ltac monad_inv H :=
  lazymatch type of H with
  | bind _ _ _ = Ok _ _ =>
      let a := fresh "a" in
      let m1 := fresh "m" in
      let H1 := fresh "Hrun" in
      apply bind_ok in H; destruct H as (a & m1 & H1 & H);
      monad_leaf H1; monad_inv H
  | _ => monad_leaf H
  end.

(** ** Loops with an invariant *)

Lemma for_up_inv {S} (body : Z -> S -> M S) (I : Z -> S -> mem -> Prop) n :
  forall i s m s' m',
    (forall k t mk t' mk', i <= k < i + Z.of_nat n -> I k t mk ->
        body k t mk = Ok t' mk' -> I (k + 1) t' mk') ->
    I i s m ->
    for_up n i body s m = Ok s' m' ->
    I (i + Z.of_nat n) s' m'.
Proof.
  induction n as [|n IH]; intros i s m s' m' Hstep Hi Hrun.
  - cbn [for_up] in Hrun. monad_inv Hrun.
    replace (i + Z.of_nat 0) with i by lia. exact Hi.
  - cbn [for_up] in Hrun. apply bind_ok in Hrun.
    destruct Hrun as (t & mt & Hb & Hrun).
    replace (i + Z.of_nat (Datatypes.S n)) with (i + 1 + Z.of_nat n) by lia.
    eapply IH; [|eapply Hstep; [|exact Hi|exact Hb]; lia|exact Hrun].
    intros k t0 mk t' mk' Hk. apply Hstep. lia.
Qed.

Lemma for_down_inv {S} (body : Z -> S -> M S) (I : Z -> S -> mem -> Prop) n :
  forall i s m s' m',
    (forall k t mk t' mk', i - Z.of_nat n < k <= i -> I k t mk ->
        body k t mk = Ok t' mk' -> I (k - 1) t' mk') ->
    I i s m ->
    for_down n i body s m = Ok s' m' ->
    I (i - Z.of_nat n) s' m'.
Proof.
  induction n as [|n IH]; intros i s m s' m' Hstep Hi Hrun.
  - cbn [for_down] in Hrun. monad_inv Hrun.
    replace (i - Z.of_nat 0) with i by lia. exact Hi.
  - cbn [for_down] in Hrun. apply bind_ok in Hrun.
    destruct Hrun as (t & mt & Hb & Hrun).
    replace (i - Z.of_nat (Datatypes.S n)) with (i - 1 - Z.of_nat n) by lia.
    eapply IH; [|eapply Hstep; [|exact Hi|exact Hb]; lia|exact Hrun].
    intros k t0 mk t' mk' Hk. apply Hstep. lia.
Qed.

Lemma u64_small z : 0 <= z < wordsize -> u64 z = z.
Proof. intros H. unfold u64. apply Z.mod_small. exact H. Qed.

Lemma u64_range z : 0 <= u64 z < wordsize.
Proof. unfold u64. apply Z.mod_pos_bound. reflexivity. Qed.

Lemma u64_add_l a b : u64 (u64 a + b) = u64 (a + b).
Proof. unfold u64. apply Zplus_mod_idemp_l. Qed.

(** ** Reasoning about the memory *)

Lemma load_ok p i m v m' :
  load p i m = Ok v m' -> m' = m /\ cell m p i = Some v /\ 0 <= v.
Proof.
  unfold load, cell. destruct (inbounds _ _); [|discriminate].
  destruct (Z.ltb_spec (nth (Z.to_nat (poff p + i)) (nth (pblk p) m []) 0) 0)
    as [Hneg|Hpos]; [discriminate|].
  intros H. inversion H. subst. auto.
Qed.

Lemma cell_load p i m v : cell m p i = Some v -> 0 <= v -> load p i m = Ok v m.
Proof.
  unfold load, cell. destruct (inbounds _ _); [|discriminate].
  intros H Hv. inversion H. subst.
  destruct (Z.ltb_spec (nth (Z.to_nat (poff p + i)) (nth (pblk p) m []) 0) 0)
    as [Hneg|Hpos]; [lia|reflexivity].
Qed.

Lemma upd_length l n v : length (upd l n v) = length l.
Proof.
  revert n. induction l as [|h t IH]; intros [|n]; cbn; auto.
Qed.

Lemma upd_nth_same l n v d : (n < length l)%nat -> nth n (upd l n v) d = v.
Proof.
  revert n. induction l as [|h t IH]; intros [|n] Hn; cbn in *;
    try lia; auto. apply IH. lia.
Qed.

Lemma upd_nth_other l n k v d : n <> k -> nth k (upd l n v) d = nth k l d.
Proof.
  revert n k. induction l as [|h t IH]; intros [|n] [|k] Hne; cbn;
    try reflexivity; try contradiction. apply IH. congruence.
Qed.

Lemma updblk_length m b f : length (updblk m b f) = length m.
Proof.
  revert b. induction m as [|h t IH]; intros [|b]; cbn; auto.
Qed.

Lemma updblk_nth_same m b f :
  (b < length m)%nat -> nth b (updblk m b f) [] = f (nth b m []).
Proof.
  revert b. induction m as [|h t IH]; intros [|b] Hb; cbn in *;
    try lia; auto. apply IH. lia.
Qed.

Lemma updblk_nth_other m b k f : b <> k -> nth k (updblk m b f) [] = nth k m [].
Proof.
  revert b k. induction m as [|h t IH]; intros [|b] [|k] Hne; cbn;
    try reflexivity; try contradiction. apply IH. congruence.
Qed.

Lemma inbounds_block m b a : inbounds (nth b m []) a = true -> (b < length m)%nat.
Proof.
  intros H. destruct (Nat.lt_ge_cases b (length m)) as [Hlt|Hge]; [exact Hlt|].
  rewrite nth_overflow in H by exact Hge.
  unfold inbounds in H. cbn in H. lia.
Qed.

Lemma inbounds_spec b a :
  inbounds b a = true <-> 0 <= a < Z.of_nat (length b).
Proof. unfold inbounds. lia. Qed.

Lemma store_ok p i v m u m' :
  store p i v m = Ok u m' ->
  inbounds (nth (pblk p) m []) (poff p + i) = true /\
  m' = updblk m (pblk p) (fun b => upd b (Z.to_nat (poff p + i)) (u64 v)).
Proof.
  unfold store. destruct (inbounds _ _); [|discriminate].
  intros H. inversion H. auto.
Qed.

(** A store is read back, and leaves the other cells as they are. *)
Lemma store_cell_same p i v m u m' :
  store p i v m = Ok u m' -> cell m' p i = Some (u64 v).
Proof.
  intros H. apply store_ok in H. destruct H as [Hin ->].
  unfold cell. pose proof (inbounds_block _ _ _ Hin) as Hb.
  rewrite updblk_nth_same by exact Hb.
  apply inbounds_spec in Hin.
  assert (Hin' : inbounds (upd (nth (pblk p) m [])
                          (Z.to_nat (poff p + i)) (u64 v)) (poff p + i) = true).
  { apply inbounds_spec. rewrite upd_length. exact Hin. }
  rewrite Hin'. f_equal. apply upd_nth_same. lia.
Qed.

Lemma store_block_other p i v m u m' b :
  store p i v m = Ok u m' -> b <> pblk p -> nth b m' [] = nth b m [].
Proof.
  intros H Hne. apply store_ok in H. destruct H as [_ ->].
  apply updblk_nth_other. congruence.
Qed.

Lemma store_cell_other p i v m u m' q j :
  store p i v m = Ok u m' ->
  pblk q <> pblk p \/ poff q + j <> poff p + i ->
  cell m' q j = cell m q j.
Proof.
  intros H Hne.
  destruct (Nat.eq_dec (pblk q) (pblk p)) as [Eb|Nb].
  - destruct Hne as [Hne|Hne]; [contradiction|].
    apply store_ok in H. destruct H as [Hin ->].
    unfold cell. rewrite Eb.
    rewrite updblk_nth_same by (eapply inbounds_block; exact Hin).
    unfold inbounds. rewrite upd_length.
    destruct ((0 <=? poff q + j)
              && (poff q + j <? Z.of_nat (length (nth (pblk p) m []))))
      eqn:E; [|reflexivity].
    f_equal. apply upd_nth_other.
    apply inbounds_spec in Hin. lia.
  - unfold cell. rewrite (store_block_other _ _ _ _ _ _ _ H Nb). reflexivity.
Qed.

Lemma store_length p i v m u m' : store p i v m = Ok u m' -> length m' = length m.
Proof.
  intros H. apply store_ok in H. destruct H as [_ ->]. apply updblk_length.
Qed.

Lemma incr_ok a i m u m' :
  incr a i m = Ok u m' ->
  exists v, cell m a i = Some v /\ cell m' a i = Some (u64 (v + 1)) /\
    (forall q j, pblk q <> pblk a \/ poff q + j <> poff a + i ->
                 cell m' q j = cell m q j).
Proof.
  unfold incr. intros H. monad_inv H.
  apply load_ok in Hrun. destruct Hrun as (-> & Hc & _).
  exists a0. split; [exact Hc|]. split.
  - eapply store_cell_same. exact H.
  - intros q j Hne. eapply store_cell_other; eauto.
Qed.

Lemma preserves_ret b {A} (a : A) : preserves_block b (ret a).
Proof. intros m x m' H. apply ret_ok in H. destruct H as [_ ->]. reflexivity. Qed.

Lemma preserves_fail b {A} e : preserves_block b (@fail A e).
Proof. intros m x m' H. discriminate. Qed.

Lemma preserves_bind b {A B} (c : M A) (k : A -> M B) :
  preserves_block b c -> (forall a, preserves_block b (k a)) ->
  preserves_block b (bind c k).
Proof.
  intros Hc Hk m x m' H. apply bind_ok in H. destruct H as (a & m1 & H1 & H2).
  rewrite (Hk _ _ _ _ H2). eapply Hc. exact H1.
Qed.

Lemma preserves_load b p i : preserves_block b (load p i).
Proof. intros m x m' H. apply load_ok in H. destruct H as [-> _]. reflexivity. Qed.

Lemma preserves_store b p i v : b <> pblk p -> preserves_block b (store p i v).
Proof. intros Hne m x m' H. eapply store_block_other; eauto. Qed.

Lemma preserves_assert b c : preserves_block b (gt_assert c).
Proof.
  intros m x m' H. apply gt_assert_ok in H. destruct H as [_ ->]. reflexivity.
Qed.

Lemma preserves_incr b p i : b <> pblk p -> preserves_block b (incr p i).
Proof.
  intros Hne. unfold incr. apply preserves_bind.
  - apply preserves_load.
  - intros v. apply preserves_store. exact Hne.
Qed.

Lemma preserves_for_up b {S} (body : Z -> S -> M S) :
  (forall i s, preserves_block b (body i s)) ->
  forall n i s, preserves_block b (for_up n i body s).
Proof.
  intros Hb n. induction n as [|n IH]; intros i s; cbn [for_up].
  - apply preserves_ret.
  - apply preserves_bind; [apply Hb|]. intros s'. apply IH.
Qed.

Lemma preserves_for_down b {S} (body : Z -> S -> M S) :
  (forall i s, preserves_block b (body i s)) ->
  forall n i s, preserves_block b (for_down n i body s).
Proof.
  intros Hb n. induction n as [|n IH]; intros i s; cbn [for_down].
  - apply preserves_ret.
  - apply preserves_bind; [apply Hb|]. intros s'. apply IH.
Qed.

Lemma preserves_cell b {A} (c : M A) m a m' p i :
  preserves_block b c -> c m = Ok a m' -> pblk p = b ->
  cell m' p i = cell m p i.
Proof.
  intros Hc Hrun Hp. unfold cell. rewrite Hp, (Hc _ _ _ Hrun). reflexivity.
Qed.

Lemma reads_only_ret {A} (a : A) : reads_only (ret a).
Proof. intros m x m' H. apply ret_ok in H. destruct H as [_ ->]. reflexivity. Qed.

Lemma reads_only_fail {A} e : reads_only (@fail A e).
Proof. intros m x m' H. discriminate. Qed.

Lemma reads_only_bind {A B} (c : M A) (k : A -> M B) :
  reads_only c -> (forall a, reads_only (k a)) -> reads_only (bind c k).
Proof.
  intros Hc Hk m x m' H. apply bind_ok in H. destruct H as (a & m1 & H1 & H2).
  rewrite (Hk _ _ _ _ H2). eapply Hc. exact H1.
Qed.

Lemma reads_only_load p i : reads_only (load p i).
Proof. intros m x m' H. apply load_ok in H. tauto. Qed.

Lemma reads_only_assert c : reads_only (gt_assert c).
Proof.
  intros m x m' H. apply gt_assert_ok in H. destruct H as [_ ->]. reflexivity.
Qed.

Lemma reads_only_for_up {S} (body : Z -> S -> M S) :
  (forall i s, reads_only (body i s)) ->
  forall n i s, reads_only (for_up n i body s).
Proof.
  intros Hb n. induction n as [|n IH]; intros i s; cbn [for_up].
  - apply reads_only_ret.
  - apply reads_only_bind; [apply Hb|]. intros s'. apply IH.
Qed.

Section ScanProperties.

Context {hd : GtHeaders}.

Lemma getchar_mem s position m c m' :
  gt_sainseq_getchar s position m = Ok c m' -> m' = m.
Proof.
  unfold gt_sainseq_getchar. destruct (seq s) as [e|l|a].
  - intros H. monad_inv H. unfold gt_encseq_get_encoded_char in Hrun.
    destruct (inbounds _ _); [|discriminate]. monad_inv Hrun. reflexivity.
  - unfold plain_get. destruct (inbounds _ _); [|discriminate].
    intros H. monad_inv H. reflexivity.
  - intros H. apply load_ok in H. tauto.
Qed.

Lemma preserves_getchar b s position :
  preserves_block b (gt_sainseq_getchar s position).
Proof. intros m c m' H. apply getchar_mem in H. subst. reflexivity. Qed.

Lemma preserves_sainbuffer_copy b buf offset fill n :
  b <> pblk (buf_suftab buf) ->
  preserves_block b (sainbuffer_copy buf offset fill n).
Proof.
  intros Hne. unfold sainbuffer_copy. apply preserves_for_up.
  intros i []. apply preserves_bind; [apply preserves_load|].
  intros v. apply preserves_store. exact Hne.
Qed.

Lemma preserves_sainbuffer_update b buf charidx value :
  ~ In b [pblk (values buf); pblk (nextidx buf); pblk (buf_fillptr buf);
          pblk (buf_suftab buf)] ->
  preserves_block b (gt_sainbuffer_update buf charidx value).
Proof.
  cbn [In]. intros Hb. unfold gt_sainbuffer_update.
  apply preserves_bind; [apply preserves_load|]. intros ni.
  apply preserves_bind; [apply preserves_store; intuition congruence|].
  intros _. destruct (ni <? buf_size buf - 1).
  - apply preserves_store. intuition congruence.
  - apply preserves_bind; [apply preserves_load|]. intros fill.
    apply preserves_bind;
      [apply preserves_sainbuffer_copy; intuition congruence|].
    intros _. apply preserves_bind;
      apply preserves_store || (intros _; apply preserves_store);
      intuition congruence.
Qed.

(** What one step of the classification scan does to the scan state. *)
Lemma saininfo_step_state s suftab buf position st m st' m' :
  saininfo_step s suftab buf position st m = Ok st' m' ->
  exists currentcc m1,
    gt_sainseq_getchar s position m = Ok currentcc m1 /\
    sc_nextcc st' = currentcc /\
    sc_nextisStype st' =
      isStype currentcc (sc_nextcc st) (sc_nextisStype st) /\
    sc_countSstartype st' =
      if negb (isStype currentcc (sc_nextcc st) (sc_nextisStype st))
         && sc_nextisStype st
      then u64 (sc_countSstartype st + 1)
      else sc_countSstartype st.
Proof.
  unfold saininfo_step. intros H. monad_inv H.
  exists a, m0. split; [exact Hrun|].
  destruct (negb (isStype a (sc_nextcc st) (sc_nextisStype st))
            && sc_nextisStype st) eqn:Ev.
  - monad_inv Hrun0. cbn. auto.
  - monad_inv Hrun0. cbn. auto.
Qed.

Lemma u64_le z : 0 <= z -> 0 <= u64 z <= z.
Proof.
  intros Hz. unfold u64, wordsize. split.
  - apply Z.mod_pos_bound. lia.
  - apply Z.mod_le; lia.
Qed.

Lemma scan_inv_step s suftab buf position st m st' m' k :
  scan_inv k st ->
  saininfo_step s suftab buf position st m = Ok st' m' ->
  scan_inv (k + 1) st'.
Proof.
  intros [Hc Hk] Hstep.
  apply saininfo_step_state in Hstep.
  destruct Hstep as (cc & m1 & _ & _ & HS & HC).
  unfold scan_inv. rewrite HS, HC.
  destruct (sc_nextisStype st) eqn:En;
    destruct (isStype cc (sc_nextcc st) _) eqn:Ec; cbn [negb andb];
    try (pose proof (u64_le (sc_countSstartype st + 1) ltac:(lia)));
    lia.
Qed.

Lemma scan_inv_rest s suftab buf fuel :
  forall position st m st' m' k,
    0 <= position ->
    scan_inv k st ->
    saininfo_scan fuel s suftab buf position st m = Ok st' m' ->
    scan_inv (k + position + 1) st'.
Proof.
  induction fuel as [|fuel IH]; intros position st m st' m' k Hp Hinv Hrun.
  - discriminate.
  - cbn [saininfo_scan] in Hrun. monad_inv Hrun.
    pose proof (scan_inv_step _ _ _ _ _ _ _ _ _ Hinv Hrun0) as Hinv'.
    destruct (position =? 0) eqn:E0.
    + apply Z.eqb_eq in E0. monad_inv Hrun. subst.
      replace (k + 0 + 1) with (k + 1) by lia. exact Hinv'.
    + apply Z.eqb_neq in E0.
      apply (IH _ _ _ _ _ (k + 1)) in Hrun; [|lia|exact Hinv'].
      replace (k + position + 1) with (k + 1 + (position - 1) + 1) by lia.
      exact Hrun.
Qed.

(** The first step of the scan finds no Sstar position when the last symbol
    does not exceed the sentinel: the last position is of type S. *)
Lemma scan_inv_first s suftab buf position m st' m' :
  (forall c m1, gt_sainseq_getchar s position m = Ok c m1 ->
                c <= GT_UNIQUEINT (totallength s)) ->
  saininfo_step s suftab buf position
    {| sc_nextcc := GT_UNIQUEINT (totallength s); sc_nextisStype := true;
       sc_countSstartype := 0 |} m = Ok st' m' ->
  scan_inv 1 st'.
Proof.
  intros Hlast Hstep.
  apply saininfo_step_state in Hstep.
  destruct Hstep as (cc & m1 & Hget & _ & HS & HC).
  apply Hlast in Hget. cbn in HS, HC.
  assert (E : isStype cc (GT_UNIQUEINT (totallength s)) true = true).
  { unfold isStype. destruct (Z.ltb_spec cc (GT_UNIQUEINT (totallength s)));
      [reflexivity|].
    cbn. rewrite andb_true_r. apply Z.eqb_eq. lia. }
  rewrite E in HS, HC. cbn in HC.
  unfold scan_inv. rewrite HS, HC. lia.
Qed.

(** C9.  At every level of the recursion the scan of [gt_saininfo_new], run
    over a non-empty sequence whose last symbol does not exceed the sentinel
    [GT_UNIQUEINT(totallength)], counts at most [totallength / 2] Sstar
    positions: [2 * countSstartype <= totallength].  This is the count
    before the assertion at the end of [gt_saininfo_new] looks at it. *)
Theorem lms_count_bound s suftab buf m st m' :
  0 < totallength s < wordsize ->
  (forall c m1, gt_sainseq_getchar s (totallength s - 1) m = Ok c m1 ->
                c <= GT_UNIQUEINT (totallength s)) ->
  saininfo_scan (S (Z.to_nat (totallength s))) s suftab buf
    (u64 (totallength s - 1))
    {| sc_nextcc := GT_UNIQUEINT (totallength s); sc_nextisStype := true;
       sc_countSstartype := 0 |} m = Ok st m' ->
  2 * sc_countSstartype st <= totallength s.
Proof.
  intros Hn Hlast Hrun.
  assert (Ep : u64 (totallength s - 1) = totallength s - 1).
  { unfold u64. apply Z.mod_small. lia. }
  rewrite Ep in Hrun.
  cbn [saininfo_scan] in Hrun. monad_inv Hrun.
  pose proof (scan_inv_first _ _ _ _ _ _ _ Hlast Hrun0) as Hinv.
  destruct (totallength s - 1 =? 0) eqn:E0.
  - apply Z.eqb_eq in E0. monad_inv Hrun.
    destruct Hinv as [H0 H1]. destruct (sc_nextisStype st); lia.
  - apply Z.eqb_neq in E0.
    apply (scan_inv_rest _ _ _ _ _ _ _ _ _ 1) in Hrun; [|lia|exact Hinv].
    destruct Hrun as [H0 H1]. destruct (sc_nextisStype st); lia.
Qed.

End ScanProperties.

Section EncseqConstructor.

Context {hd : GtHeaders}.

Lemma gt_malloc_ok n m p m' :
  gt_malloc n m = Ok p m' ->
  p = Ptr (length m) 0 /\ m' = m ++ [repeat poison (Z.to_nat n)].
Proof. unfold gt_malloc. intros H. inversion H. auto. Qed.

Lemma gt_calloc_ok n m p m' :
  gt_calloc n m = Ok p m' ->
  p = Ptr (length m) 0 /\ m' = m ++ [repeat 0 (Z.to_nat n)].
Proof. unfold gt_calloc. intros H. inversion H. auto. Qed.

Lemma for_up_ext {S} (body1 body2 : Z -> S -> M S) :
  (forall i s m, body1 i s m = body2 i s m) ->
  forall n i s m, for_up n i body1 s m = for_up n i body2 s m.
Proof.
  intros Hb n. induction n as [|n IH]; intros i s m; cbn [for_up];
    [reflexivity|].
  unfold bind. rewrite Hb. destruct (body2 i s m); [apply IH|reflexivity].
Qed.

(** A loop that stores [f idx] at every index writes just that. *)
Lemma for_up_store p (f : Z -> Z) n :
  forall i m u m',
    for_up n i (fun idx (_ : unit) => store p idx (f idx)) tt m = Ok u m' ->
    (forall k, i <= k < i + Z.of_nat n -> cell m' p k = Some (u64 (f k))) /\
    (forall q j, pblk q <> pblk p \/
                 ~ (i <= poff q + j - poff p < i + Z.of_nat n) ->
                 cell m' q j = cell m q j).
Proof.
  induction n as [|n IH]; intros i m u m' H.
  - cbn [for_up] in H. monad_inv H. split; [intros k Hk; lia|reflexivity].
  - cbn [for_up] in H. monad_inv H. destruct a.
    destruct (IH _ _ _ _ H) as [Hin Hout]. split.
    + intros k Hk. destruct (Z.eq_dec k i) as [->|Hne].
      * rewrite Hout by (right; lia).
        eapply store_cell_same. exact Hrun.
      * apply Hin. lia.
    + intros q j Hq. rewrite Hout by (destruct Hq; [left; auto|right; lia]).
      eapply store_cell_other; [exact Hrun|].
      destruct Hq as [Hq|Hq]; [left; exact Hq|right; lia].
Qed.

Lemma map_nth_seq (l : list Z) :
  map (fun p => nth p l 0) (List.seq 0 (length l)) = l.
Proof.
  apply (nth_ext _ _ 0 0).
  - rewrite length_map, length_seq. reflexivity.
  - rewrite length_map, length_seq. intros n Hn.
    rewrite (nth_indep _ _ (nth 0 l 0))
      by (rewrite length_map, length_seq; exact Hn).
    change (nth 0 l 0) with ((fun p => nth p l 0) 0%nat).
    rewrite map_nth, seq_nth by exact Hn. reflexivity.
Qed.

Lemma map_nth_seq_rev (l : list Z) :
  map (fun p => nth (length l - 1 - p) l 0) (List.seq 0 (length l)) = rev l.
Proof.
  apply (nth_ext _ _ 0 0).
  - rewrite length_map, length_seq, length_rev. reflexivity.
  - rewrite length_map, length_seq. intros n Hn.
    rewrite (nth_indep _ _ (nth (length l - 1 - 0) l 0))
      by (rewrite length_map, length_seq; exact Hn).
    change (nth (length l - 1 - 0) l 0)
      with ((fun p => nth (length l - 1 - p) l 0) 0%nat).
    rewrite map_nth, seq_nth by exact Hn.
    rewrite rev_nth by exact Hn. f_equal. lia.
Qed.

(** The symbols read are the stored codes, reversed in a reverse mode and
    complemented, where they are not special, in a complement mode. *)
Lemma read_symbols_eq encseq rm :
  read_symbols encseq rm =
  map (fun cc => if GT_ISDIRCOMPLEMENT rm
                 then (if ISSPECIAL cc then cc else u8 (GT_COMPLEMENTBASE cc))
                 else cc)
      (if GT_ISDIRREVERSE rm then rev (enc_chars encseq)
       else enc_chars encseq).
Proof.
  unfold read_symbols.
  set (g := fun cc => if GT_ISDIRCOMPLEMENT rm
                      then (if ISSPECIAL cc then cc
                            else u8 (GT_COMPLEMENTBASE cc))
                      else cc).
  set (l := enc_chars encseq).
  transitivity (map (fun p => g (nth (if GT_ISDIRREVERSE rm
                                      then (length l - 1 - p)%nat else p)
                                   l 0))
                  (List.seq 0 (length l))).
  - apply map_ext_in. intros p Hp. apply in_seq in Hp.
    unfold gt_encseq_get_encoded_char, gt_encseq_total_length. fold l.
    assert (Hin : inbounds l (Z.of_nat p) = true)
      by (apply inbounds_spec; lia).
    rewrite Hin. unfold ret, g.
    destruct (GT_ISDIRREVERSE rm).
    + replace (Z.to_nat (Z.of_nat (length l) - 1 - Z.of_nat p))
        with (length l - 1 - p)%nat by lia.
      reflexivity.
    + rewrite Nat2Z.id. reflexivity.
  - destruct (GT_ISDIRREVERSE rm).
    + rewrite <- map_nth_seq_rev, map_map. reflexivity.
    + rewrite <- (map_nth_seq l) at 2. rewrite map_map. reflexivity.
Qed.

Lemma count_occ_map_inv (g : Z -> Z) (l : list Z) (c c' : Z) :
  (forall x, In x l -> (g x = c <-> x = c')) ->
  count_occ Z.eq_dec (map g l) c = count_occ Z.eq_dec l c'.
Proof.
  induction l as [|h t IH]; intros Hg; [reflexivity|].
  cbn [map count_occ].
  rewrite IH by (intros x Hx; apply Hg; right; exact Hx).
  specialize (Hg h (or_introl eq_refl)).
  destruct (Z.eq_dec (g h) c) as [E|E], (Z.eq_dec h c') as [E'|E'];
    tauto.
Qed.

Lemma charcount_bounds encseq c :
  0 <= gt_encseq_charcount encseq c <= gt_encseq_total_length encseq.
Proof.
  unfold gt_encseq_charcount, gt_encseq_total_length.
  pose proof (count_occ_bound Z.eq_dec c (enc_chars encseq)). lia.
Qed.

(** C10.  The constructor for the encoded sequence fills [bucketsize] in a
    complement read mode with the counts of the complement bases and in the
    other modes with the counts of the symbols themselves; either way
    [bucketsize[c]] is the number of positions at which the sequence, read
    under the read mode, shows the symbol [c].  The symbols are codes of
    type [GtUchar], and a complement mode is for an alphabet on which
    [GT_COMPLEMENTBASE] is an involution, whose symbols are not special and
    outside of which every stored code is special. *)
Theorem encseq_bucketsize encseq rm m s m' c :
  gt_encseq_total_length encseq < wordsize ->
  gt_encseq_alphabetnumofchars encseq <= UCHAR_MAX + 1 ->
  (GT_ISDIRCOMPLEMENT rm = true ->
   (forall x, In x (enc_chars encseq) ->
              ISSPECIAL x = true \/
              0 <= x < gt_encseq_alphabetnumofchars encseq) /\
   (forall b, 0 <= b < gt_encseq_alphabetnumofchars encseq ->
              ISSPECIAL b = false /\
              0 <= GT_COMPLEMENTBASE b < gt_encseq_alphabetnumofchars encseq /\
              GT_COMPLEMENTBASE (GT_COMPLEMENTBASE b) = b)) ->
  gt_sainseq_new_from_encseq encseq rm m = Ok s m' ->
  0 <= c < gt_encseq_alphabetnumofchars encseq ->
  cell m' (bucketsize s) c =
    Some (gt_encseq_charcount encseq
            (if GT_ISDIRCOMPLEMENT rm then GT_COMPLEMENTBASE c else c)) /\
  cell m' (bucketsize s) c =
    Some (Z.of_nat (count_occ Z.eq_dec (read_symbols encseq rm) c)).
Proof.
  intros Hlen Hsigma Hcompl Hnew Hc.
  unfold gt_sainseq_new_from_encseq in Hnew. monad_inv Hnew.
  cbn [bucketsize].
  rename a into bsize, Hrun3 into Hloop.
  set (f := fun idx => if GT_ISDIRCOMPLEMENT rm
                       then gt_encseq_charcount encseq
                              (u8 (GT_COMPLEMENTBASE idx))
                       else gt_encseq_charcount encseq (u8 idx)).
  rewrite (for_up_ext _ (fun idx (_ : unit) => store bsize idx (f idx)))
    in Hloop
    by (intros i u0 mx; unfold f; destruct (GT_ISDIRCOMPLEMENT rm);
        reflexivity).
  apply for_up_store in Hloop. destruct Hloop as [Hcells _].
  assert (Hcell : cell m' bsize c = Some (u64 (f c))).
  { apply Hcells. unfold gt_encseq_alphabetnumofchars in *. lia. }
  assert (Hu8 : forall b, 0 <= b < gt_encseq_alphabetnumofchars encseq ->
                          u8 b = b).
  { intros b Hb. unfold u8. apply Z.mod_small. unfold UCHAR_MAX in *. lia. }
  assert (Hu64 : forall b, u64 (gt_encseq_charcount encseq b)
                           = gt_encseq_charcount encseq b).
  { intros b. unfold u64. apply Z.mod_small.
    pose proof (charcount_bounds encseq b). lia. }
  assert (Hfirst : cell m' bsize c =
                   Some (gt_encseq_charcount encseq
                           (if GT_ISDIRCOMPLEMENT rm
                            then GT_COMPLEMENTBASE c else c))).
  { rewrite Hcell. unfold f.
    destruct (GT_ISDIRCOMPLEMENT rm) eqn:Ec; rewrite Hu64.
    - destruct (Hcompl eq_refl) as [_ Hinv].
      destruct (Hinv c Hc) as (_ & Hrange & _). rewrite Hu8 by exact Hrange.
      reflexivity.
    - rewrite Hu8 by exact Hc. reflexivity. }
  split; [exact Hfirst|].
  rewrite Hfirst. f_equal. unfold gt_encseq_charcount. f_equal.
  rewrite read_symbols_eq.
  assert (Hrev : forall x,
             count_occ Z.eq_dec
               (if GT_ISDIRREVERSE rm then rev (enc_chars encseq)
                else enc_chars encseq) x
             = count_occ Z.eq_dec (enc_chars encseq) x).
  { intros x. destruct (GT_ISDIRREVERSE rm); [apply count_occ_rev|reflexivity]. }
  rewrite <- Hrev. symmetry. apply count_occ_map_inv.
  intros x Hx.
  assert (Hx' : In x (enc_chars encseq)).
  { destruct (GT_ISDIRREVERSE rm); [apply in_rev in Hx|]; exact Hx. }
  destruct (GT_ISDIRCOMPLEMENT rm) eqn:Ec; [|tauto].
  destruct (Hcompl eq_refl) as [Hwf Hinv].
  destruct (Hinv c Hc) as (Hns & Hrange & Hcc).
  destruct (Hinv _ Hrange) as (Hns' & _ & _).
  destruct (ISSPECIAL x) eqn:Ex.
  - split; intros E; subst x; congruence.
  - destruct (Hwf x Hx') as [Hs|Hxr]; [congruence|].
    destruct (Hinv x Hxr) as (_ & Hxrange & Hxx).
    rewrite Hu8 by exact Hxrange.
    split; intros E; [rewrite <- E; auto | rewrite E; auto].
Qed.

End EncseqConstructor.

(** ** What is printed *)

Section Printing.

Context {hd : GtHeaders}.














Lemma bindT_ok {A B} (c : T A) (k : A -> T B) m ev b m' :
  bindT c k m = (ev, Ok b m') ->
  exists ev1 a m1 ev2,
    c m = (ev1, Ok a m1) /\ k a m1 = (ev2, Ok b m') /\ ev = ev1 ++ ev2.
Proof.
  unfold bindT. destruct (c m) as [ev1 [a m1|e]]; [|discriminate].
  destruct (k a m1) as [ev2 r] eqn:Ek. intros H. inversion H. subst.
  exists ev1, a, m1, ev2. auto.
Qed.

Lemma lift_ok {A} (c : M A) m ev a m' :
  lift c m = (ev, Ok a m') -> ev = [] /\ c m = Ok a m'.
Proof. unfold lift. intros H. inversion H. auto. Qed.

Lemma retT_ok {A} (a b : A) m ev m' :
  retT a m = (ev, Ok b m') -> ev = [] /\ a = b /\ m = m'.
Proof. unfold retT. intros H. inversion H. auto. Qed.








Lemma new_from_plainseq_fields plainseq len m s m' :
  gt_sainseq_new_from_plainseq plainseq len m = Ok s m' ->
  totallength s = len /\ numofchars s = UCHAR_MAX + 1 /\
  seq s = SeqPlain plainseq /\
  bucketsize s = Ptr (length m) 0 /\
  bucketfillptr s = Ptr (S (length m)) 0 /\
  bucketfillptrpoints2suftab s = false /\
  bucketsizepoints2suftab s = false /\
  roundtablepoints2suftab s = false /\
  (forall p, roundtable s = Some p -> (length m < pblk p)%nat) /\
  (forall p, sstarfirstcharcount s = Some p -> (length m < pblk p)%nat) /\
  isSome (roundtable s) = gt_sain_decideforfastmethod (u64 (len + 1)) len.
Proof.
  unfold gt_sainseq_new_from_plainseq. intros H. monad_inv H.
  cbn [totallength numofchars seq bucketsize bucketfillptr roundtable
       sstarfirstcharcount bucketfillptrpoints2suftab
       bucketsizepoints2suftab roundtablepoints2suftab].
  apply gt_calloc_ok in Hrun. destruct Hrun as [-> ->].
  apply gt_malloc_ok in Hrun0. destruct Hrun0 as [-> ->].
  rewrite length_app. cbn [length].
  replace (length m + 1)%nat with (S (length m)) by lia.
  repeat (split; [reflexivity|]).
  destruct (gt_sain_decideforfastmethod (u64 (len + 1)) len).
  - monad_inv Hrun1. apply gt_malloc_ok in Hrun. destruct Hrun as [-> ->].
    apply gt_calloc_ok in Hrun2. destruct Hrun2 as [-> ->].
    repeat split.
    + intros p Hp. inversion Hp. cbn. rewrite !length_app. cbn. lia.
    + intros p Hp. inversion Hp. cbn. rewrite !length_app. cbn. lia.
  - monad_inv Hrun1.
    apply gt_calloc_ok in Hrun2. destruct Hrun2 as [-> ->].
    repeat split.
    + intros p Hp. discriminate.
    + intros p Hp. inversion Hp. cbn. rewrite !length_app. cbn. lia.
Qed.

Lemma new_from_encseq_fields encseq rm m s m' :
  gt_sainseq_new_from_encseq encseq rm m = Ok s m' ->
  totallength s = gt_encseq_total_length encseq /\
  numofchars s = gt_encseq_alphabetnumofchars encseq /\
  seq s = SeqEncseq encseq /\ readmode s = rm /\
  bucketsize s = Ptr (length m) 0 /\
  bucketfillptr s = Ptr (S (length m)) 0 /\
  bucketfillptrpoints2suftab s = false /\
  bucketsizepoints2suftab s = false /\
  roundtablepoints2suftab s = false /\
  (forall p, roundtable s = Some p -> (length m < pblk p)%nat) /\
  (forall p, sstarfirstcharcount s = Some p -> (length m < pblk p)%nat) /\
  isSome (roundtable s) =
    gt_sain_decideforfastmethod
      (u64 (gt_encseq_total_length encseq + GT_COMPAREOFFSET))
      (gt_encseq_total_length encseq).
Proof.
  unfold gt_sainseq_new_from_encseq. intros H. monad_inv H.
  cbn [totallength numofchars seq readmode bucketsize bucketfillptr roundtable
       sstarfirstcharcount bucketfillptrpoints2suftab
       bucketsizepoints2suftab roundtablepoints2suftab].
  apply gt_malloc_ok in Hrun. destruct Hrun as [-> ->].
  apply gt_malloc_ok in Hrun0. destruct Hrun0 as [-> ->].
  rewrite length_app. cbn [length].
  replace (length m + 1)%nat with (S (length m)) by lia.
  repeat (split; [reflexivity|]).
  destruct (gt_sain_decideforfastmethod _ _).
  - monad_inv Hrun1. apply gt_malloc_ok in Hrun. destruct Hrun as [-> ->].
    apply gt_calloc_ok in Hrun2. destruct Hrun2 as [-> ->].
    repeat split.
    + intros p Hp. inversion Hp. cbn. rewrite !length_app. cbn. lia.
    + intros p Hp. inversion Hp. cbn. rewrite !length_app. cbn. lia.
  - monad_inv Hrun1.
    apply gt_calloc_ok in Hrun2. destruct Hrun2 as [-> ->].
    repeat split.
    + intros p Hp. discriminate.
    + intros p Hp. inversion Hp. cbn. rewrite !length_app. cbn. lia.
Qed.




End Printing.

(** ** The choice of the fast method *)

Section FastMethod.

Context {hd : GtHeaders}.




End FastMethod.

(** ** The order of the suffixes *)

Section Order.

Context {hd : GtHeaders}.

Lemma suffix_cons l p :
  0 <= p < Z.of_nat (length l) ->
  suffix l p = nth (Z.to_nat p) l 0 :: suffix l (p + 1).
Proof.
  intros Hp. unfold suffix.
  replace (Z.to_nat (p + 1)) with (S (Z.to_nat p)) by lia.
  assert (Hn : (Z.to_nat p < length l)%nat) by lia.
  revert Hn. generalize (Z.to_nat p). clear Hp p.
  induction l as [|h t IH]; intros n Hn; cbn [length] in Hn; [lia|].
  destruct n as [|n]; [reflexivity|].
  cbn [skipn nth]. rewrite IH by lia. reflexivity.
Qed.

Lemma suffix_end l : suffix l (Z.of_nat (length l)) = [].
Proof. unfold suffix. rewrite Nat2Z.id. apply skipn_all. Qed.

(** When the comparison of two suffixes answers [-1], the first is below the
    second in the order of the sorter. *)
Lemma compare_suffixes_loop_lt s l fuel :
  reads s l ->
  forall start1 start2 m m',
    0 <= start1 <= totallength s -> 0 <= start2 <= totallength s ->
    compare_suffixes_loop fuel s start1 start2 m = Ok (-1) m' ->
    lex_lt_endmax (suffix l start1) (suffix l start2).
Proof.
  intros [Htl Hget].
  induction fuel as [|fuel IH]; intros start1 start2 m m' H1 H2 Hrun;
    [discriminate|].
  cbn [compare_suffixes_loop] in Hrun.
  destruct (Z.eqb_spec start1 (totallength s)) as [E1|N1].
  { monad_inv Hrun. discriminate. }
  destruct (Z.eqb_spec start2 (totallength s)) as [E2|N2].
  { monad_inv Hrun. rewrite E2, Htl, suffix_end.
    rewrite suffix_cons by lia. constructor. }
  monad_inv Hrun.
  rewrite Hget in Hrun0 by lia. inversion Hrun0. subst a m0. clear Hrun0.
  rewrite Hget in Hrun1 by lia. inversion Hrun1. subst a0 m1. clear Hrun1.
  rewrite (suffix_cons l start1), (suffix_cons l start2) by lia.
  destruct (Z.ltb_spec (nth (Z.to_nat start1) l 0) (nth (Z.to_nat start2) l 0))
    as [Hlt|Hge].
  { apply lt_endmax_head. exact Hlt. }
  destruct (Z.ltb_spec (nth (Z.to_nat start2) l 0) (nth (Z.to_nat start1) l 0))
    as [Hgt|Hle].
  { monad_inv Hrun. discriminate. }
  assert (E : nth (Z.to_nat start1) l 0 = nth (Z.to_nat start2) l 0) by lia.
  rewrite E. apply lt_endmax_tail.
  eapply IH; [| |exact Hrun]; lia.
Qed.

Lemma compare_suffixes_lt s l start1 start2 m m' :
  reads s l ->
  0 <= start1 -> 0 <= start2 ->
  gt_sain_compare_suffixes s start1 start2 m = Ok (-1) m' ->
  lex_lt_endmax (suffix l start1) (suffix l start2).
Proof.
  intros Hr H1 H2 Hrun. unfold gt_sain_compare_suffixes in Hrun.
  monad_inv Hrun.
  apply andb_prop in Hassert. destruct Hassert as [Hassert _].
  apply andb_prop in Hassert. destruct Hassert as [Ha Hb].
  eapply compare_suffixes_loop_lt; [exact Hr| | |exact Hrun]; lia.
Qed.

Lemma reads_only_getchar s position :
  reads_only (gt_sainseq_getchar s position).
Proof. intros m c m' H. eapply getchar_mem. exact H. Qed.

Lemma reads_only_compare_suffixes_loop s fuel :
  forall start1 start2,
    reads_only (compare_suffixes_loop fuel s start1 start2).
Proof.
  induction fuel as [|fuel IH]; intros start1 start2;
    cbn [compare_suffixes_loop]; [apply reads_only_fail|].
  destruct (start1 =? totallength s).
  { apply reads_only_bind;
      [apply reads_only_assert|intros _; apply reads_only_ret]. }
  destruct (start2 =? totallength s).
  { apply reads_only_bind;
      [apply reads_only_assert|intros _; apply reads_only_ret]. }
  apply reads_only_bind; [apply reads_only_getchar|intros cc1].
  apply reads_only_bind; [apply reads_only_getchar|intros cc2].
  destruct (cc1 <? cc2); [apply reads_only_ret|].
  destruct (cc2 <? cc1); [apply reads_only_ret|apply IH].
Qed.

(** The comparison only reads. *)
Lemma compare_suffixes_mem s start1 start2 m c m' :
  gt_sain_compare_suffixes s start1 start2 m = Ok c m' -> m' = m.
Proof.
  revert m c m'.
  change (reads_only (gt_sain_compare_suffixes s start1 start2)).
  unfold gt_sain_compare_suffixes.
  apply reads_only_bind; [apply reads_only_assert|intros _].
  apply reads_only_compare_suffixes_loop.
Qed.

(** The order check passes only when each entry of the interval is below
    its successor, and it only reads. *)
Lemma checkorder_ok s suftab start end_ m u m' :
  gt_sain_checkorder s suftab start end_ m = Ok u m' ->
  m' = m /\
  forall idx, start + 1 <= idx <= end_ ->
    exists a b, cell m suftab (idx - 1) = Some a /\ 0 <= a /\
                cell m suftab idx = Some b /\ 0 <= b /\
                gt_sain_compare_suffixes s a b m = Ok (-1) m.
Proof.
  unfold gt_sain_checkorder.
  assert (Hgen : forall n i m u m',
             for_up n i
               (fun idx (_ : unit) =>
                  a <- load suftab (idx - 1) ;;
                  b <- load suftab idx ;;
                  cmp <- gt_sain_compare_suffixes s a b ;;
                  if cmp =? -1 then ret tt else fail ProgrammingError) tt m
             = Ok u m' ->
             m' = m /\
             forall idx, i <= idx < i + Z.of_nat n ->
               exists a b, cell m suftab (idx - 1) = Some a /\ 0 <= a /\
                           cell m suftab idx = Some b /\ 0 <= b /\
                           gt_sain_compare_suffixes s a b m = Ok (-1) m).
  { clear. induction n as [|n IH]; intros i m u m' H.
    - cbn [for_up] in H. monad_inv H. split; [reflexivity|]. intros; lia.
    - cbn [for_up] in H.
      apply bind_ok in H. destruct H as (u1 & m1 & Hbody & H).
      apply bind_ok in Hbody. destruct Hbody as (a & ma & Ha & Hbody).
      apply load_ok in Ha. destruct Ha as (-> & Ha & Ha0).
      apply bind_ok in Hbody. destruct Hbody as (b & mb & Hb & Hbody).
      apply load_ok in Hb. destruct Hb as (-> & Hb & Hb0).
      apply bind_ok in Hbody. destruct Hbody as (cmp & mc & Hcmp & Hbody).
      pose proof (compare_suffixes_mem _ _ _ _ _ _ Hcmp) as ->.
      revert Hbody Hcmp.
      destruct (Z.eqb_spec cmp (-1)) as [E|Hne]; intros Hbody Hcmp;
        [subst cmp|discriminate].
      apply ret_ok in Hbody. destruct Hbody as [_ <-]. destruct u1.
      destruct (IH _ _ _ _ H) as [-> Hrest]. split; [reflexivity|].
      intros idx Hidx. destruct (Z.eq_dec idx i) as [->|Hni].
      + exists a, b. auto.
      + apply Hrest. lia. }
  intros H. apply Hgen in H. destruct H as [-> H]. split; [reflexivity|].
  intros idx Hidx. apply H. lia.
Qed.

Lemma view_rel_refl s : view_rel s s.
Proof. unfold view_rel. intuition. Qed.

Lemma view_rel_trans s1 s2 s3 :
  view_rel s1 s2 -> view_rel s2 s3 -> view_rel s1 s3.
Proof.
  unfold view_rel.
  intros (A1 & A2 & A3 & A4 & A5 & A6 & A7 & A8 & A9 & A10 & A11)
         (B1 & B2 & B3 & B4 & B5 & B6 & B7 & B8 & B9 & B10 & B11).
  repeat split; try congruence.
  - destruct B10 as [B10|B10]; [destruct A10 as [A10|A10]|];
      [left|right|right]; congruence.
  - destruct A11 as [A11|A11]; [left; exact A11|].
    destruct B11 as [[a B11]|B11]; [left; exists a; congruence|].
    right. congruence.
Qed.

Lemma view_rel_currentround s r : view_rel s (set_currentround s r).
Proof. unfold view_rel. cbn. intuition. Qed.

Lemma view_rel_roundtable_null s : view_rel s (set_roundtable s None).
Proof. unfold view_rel. cbn. intuition. Qed.

Lemma view_rel_sstarfirstcharcount s a p :
  seq s = SeqArray a -> view_rel s (set_sstarfirstcharcount s p).
Proof. unfold view_rel. cbn. intuition eauto. Qed.

Lemma induceLtypesuffixes1_view s suftab n m s' m' :
  gt_sain_induceLtypesuffixes1 s suftab n m = Ok s' m' -> view_rel s s'.
Proof.
  unfold gt_sain_induceLtypesuffixes1. intros H. monad_inv H.
  destruct (roundtable (set_currentround s (ind_round a))); monad_inv H;
    apply view_rel_currentround.
Qed.

Lemma induceStypesuffixes1_view s suftab n m s' m' :
  gt_sain_induceStypesuffixes1 s suftab n m = Ok s' m' -> view_rel s s'.
Proof.
  unfold gt_sain_induceStypesuffixes1. intros H. monad_inv H.
  destruct (n =? 0); monad_inv H;
    [apply view_rel_refl|apply view_rel_currentround].
Qed.

Lemma expandorder2original_view s c suftab m s' m' :
  gt_sain_expandorder2original s c suftab m = Ok s' m' -> view_rel s s'.
Proof.
  unfold gt_sain_expandorder2original. intros H. monad_inv H.
  destruct a as [[s1 sfc] bsize]. monad_inv H.
  destruct (seq s) as [e|l|arr] eqn:Es; monad_inv Hrun.
  - inversion E. apply view_rel_refl.
  - inversion E. apply view_rel_refl.
  - inversion E. eapply view_rel_sstarfirstcharcount. exact Es.
Qed.

(** Taking a printing computation apart. *)
Ltac monadT_inv H :=
  lazymatch type of H with
  | bindT _ _ _ = (_, Ok _ _) =>
      let ev1 := fresh "ev" in
      let a := fresh "a" in
      let m1 := fresh "m" in
      let ev2 := fresh "ev" in
      let H1 := fresh "Hrun" in
      let E := fresh "Eev" in
      apply bindT_ok in H;
      destruct H as (ev1 & a & m1 & ev2 & H1 & H & E);
      monadT_leaf H1; monadT_inv H
  | _ => monadT_leaf H
  end
with monadT_leaf H :=
  lazymatch type of H with
  | lift _ _ = (_, Ok _ _) =>
      let E := fresh "Eev" in
      apply lift_ok in H; destruct H as [E H]
  | retT _ _ = (_, Ok _ _) =>
      let E := fresh "Eev" in
      let E1 := fresh "E" in
      let E2 := fresh "E" in
      apply retT_ok in H; destruct H as (E & E1 & E2);
      subst_eq E1; subst_eq E2
  | _ => idtac
  end.

Lemma showtimer_ok timer desc m ev u m' :
  GT_SAIN_SHOWTIMER timer desc m = (ev, Ok u m') -> m' = m.
Proof.
  unfold GT_SAIN_SHOWTIMER, emit, retT. destruct timer; intros H;
    inversion H; reflexivity.
Qed.

Lemma assign_names_view s c suftab n timer m ev s' names m' :
  assign_names s c suftab n timer m = (ev, Ok (s', names) m') ->
  view_rel s s'.
Proof.
  unfold assign_names, names_by_comparison, names_by_roundtable.
  destruct (roundtable s) as [rt|]; intros H; monadT_inv H.
  - inversion E. subst.
    destruct (negb (roundtablepoints2suftab s)); monadT_inv Hrun1.
    + apply view_rel_roundtable_null.
    + apply view_rel_refl.
  - inversion E. apply view_rel_refl.
Qed.

(** The tail filler writes at [suftabtail] and after it only. *)
Lemma filltail_range_frame suftabtail sc tl n :
  forall i countspecial m c' m',
    0 <= countspecial ->
    for_up n i
      (fun idx countspecial =>
         gt_assert ((countspecial <? sc) && (idx <? tl)) ;;
         store suftabtail countspecial idx ;;
         ret (countspecial + 1)) countspecial m = Ok c' m' ->
    0 <= c' /\
    forall q j, pblk q = pblk suftabtail -> poff q + j < poff suftabtail ->
                cell m' q j = cell m q j.
Proof.
  induction n as [|n IH]; intros i countspecial m c' m' H0 H.
  - cbn [for_up] in H. monad_inv H. split; [lia|reflexivity].
  - cbn [for_up] in H.
    apply bind_ok in H. destruct H as (c1 & m1 & Hbody & H).
    monad_inv Hbody.
    apply IH in H; [|lia]. destruct H as [Hc' Hframe].
    split; [exact Hc'|]. intros q j Hq Hj.
    rewrite Hframe by assumption.
    eapply store_cell_other; [eassumption|]. right. lia.
Qed.

Lemma filltail_ranges_frame suftabtail sc tl rs :
  forall countspecial m c' m',
    0 <= countspecial ->
    filltail_ranges suftabtail sc tl rs countspecial m = Ok c' m' ->
    0 <= c' /\
    forall q j, pblk q = pblk suftabtail -> poff q + j < poff suftabtail ->
                cell m' q j = cell m q j.
Proof.
  induction rs as [|r rs IH]; intros countspecial m c' m' H0 H.
  - cbn [filltail_ranges] in H. monad_inv H. split; [lia|reflexivity].
  - cbn [filltail_ranges] in H.
    apply bind_ok in H. destruct H as (c1 & m1 & Hr & H).
    unfold filltail_range in Hr.
    apply filltail_range_frame in Hr; [|exact H0].
    destruct Hr as [Hc1 Hf1].
    apply IH in H; [|exact Hc1]. destruct H as [Hc' Hf].
    split; [exact Hc'|]. intros q j Hq Hj.
    rewrite Hf, Hf1 by assumption. reflexivity.
Qed.

Lemma filltailsuffixes_frame suftabtail encseq rm m u m' :
  gt_sain_filltailsuffixes suftabtail encseq rm m = Ok u m' ->
  forall q j, pblk q = pblk suftabtail -> poff q + j < poff suftabtail ->
              cell m' q j = cell m q j.
Proof.
  unfold gt_sain_filltailsuffixes. intros H.
  apply bind_ok in H. destruct H as (u1 & m1 & Hfill & Hlast).
  intros q j Hq Hj.
  rewrite (store_cell_other _ _ _ _ _ _ q j Hlast).
  2:{ right. unfold gt_encseq_specialcharacters. lia. }
  destruct (gt_encseq_has_specialranges encseq).
  - monad_inv Hfill.
    apply filltail_ranges_frame in Hrun; [|lia].
    destruct Hrun as [_ Hf]. apply Hf; assumption.
  - monad_inv Hfill. reflexivity.
Qed.

(** With the intermediate check, a level that succeeds has seen the order
    check pass on its first [n] entries, and these are what it leaves. *)
Lemma finish_level_checked s c suftab n fc timer m ev u m' :
  0 < n ->
  finish_level s c suftab n true fc timer m = (ev, Ok u m') ->
  exists mc,
    gt_sain_checkorder s suftab 0 (n - 1) mc = Ok tt mc /\
    forall i, 0 <= i < n -> cell m' suftab i = cell mc suftab i.
Proof.
  intros Hn H. unfold finish_level in H.
  apply Z.ltb_lt in Hn. rewrite Hn in H.
  monadT_inv H.
  match goal with
  | Hc : gt_sain_checkorder s suftab 0 (n - 1) ?mc = Ok ?a ?mc' |- _ =>
      destruct a;
      pose proof (checkorder_ok _ _ _ _ _ _ _ Hc) as [E _]; subst mc';
      exists mc; split; [exact Hc|]
  end.
  intros i Hi.
  destruct (seq s) as [encseq|plainseq|arr]; [destruct fc|..];
    monadT_inv H; try reflexivity.
  repeat match goal with
         | Ht : GT_SAIN_SHOWTIMER _ _ _ = _ |- _ =>
             apply showtimer_ok in Ht; subst
         end.
  assert (Em : reads_only (suftab_lightweightcheck encseq (readmode s)
                             (totallength s) suftab)).
  { intros mx x mx'. unfold suftab_lightweightcheck.
    destruct (gt_suftab_lightweightcheck _ _ _ _); intros Hx; inversion Hx.
    reflexivity. }
  apply Em in H. subst.
  match goal with
  | Hf : gt_sain_filltailsuffixes _ _ _ _ = Ok _ _ |- _ =>
      eapply filltailsuffixes_frame; [exact Hf|reflexivity|]
  end.
  cbn [padd poff]. lia.
Qed.

Lemma rec_view fuel level s suftab fu n se ic fc verbose timer m ev s' m' :
  gt_sain_rec_sortsuffixes (S fuel) level s suftab fu n se ic fc verbose
    timer m = (ev, Ok s' m') ->
  view_rel s s' /\
  exists c mf evf,
    finish_level s' c suftab n ic fc timer mf = (evf, Ok tt m').
Proof.
  cbn [gt_sain_rec_sortsuffixes]. intros H. monadT_inv H.
  match goal with
  | Hf : finish_level ?s1 ?c suftab n ic fc timer ?mf = (?evf, Ok ?u _) |- _ =>
      destruct u; split; [|exists c, mf, evf; exact Hf]; clear Hf
  end.
  match goal with
  | Hb : (if 0 <? ?c then _ else retT s) _ = (_, Ok s' _) |- _ =>
      destruct (0 <? c); [|monadT_inv Hb; apply view_rel_refl];
      rename Hb into Hbody
  end.
  monadT_inv Hbody.
  match goal with
  | HL : gt_sain_induceLtypesuffixes1 s suftab n _ = Ok ?sa _,
    HS : gt_sain_induceStypesuffixes1 ?sa suftab n _ = Ok ?sb _,
    HN : assign_names ?sb _ suftab n timer _ = (_, Ok ?sn _) |- _ =>
      apply induceLtypesuffixes1_view in HL;
      apply induceStypesuffixes1_view in HS;
      destruct sn as [sc names];
      apply assign_names_view in HN;
      assert (Hsc : view_rel s sc)
        by (eapply view_rel_trans; [exact HL|];
            eapply view_rel_trans; [exact HS|exact HN])
  end.
  monadT_inv Hbody.
  destruct (names <? _).
  - monadT_inv Hbody.
    apply expandorder2original_view in Hbody.
    eapply view_rel_trans; [exact Hsc|exact Hbody].
  - destruct (seq sc) as [e|l|arr] eqn:Es.
    + monadT_inv Hbody. exact Hsc.
    + monadT_inv Hbody. exact Hsc.
    + monadT_inv Hbody.
      eapply view_rel_trans; [exact Hsc|].
      eapply view_rel_sstarfirstcharcount. exact Es.
Qed.

Lemma preserves_free b p : b <> pblk p -> preserves_block b (gt_free p).
Proof.
  intros Hne m u m' H. unfold gt_free in H. inversion H.
  apply updblk_nth_other. congruence.
Qed.

Lemma preserves_sainseq_delete b s :
  pblk (bucketfillptr s) <> b -> pblk (bucketsize s) <> b ->
  (forall p, roundtable s = Some p -> pblk p <> b) ->
  (forall p, sstarfirstcharcount s = Some p -> pblk p <> b) ->
  preserves_block b (gt_sainseq_delete s).
Proof.
  intros Hf Hs Hr Hc. unfold gt_sainseq_delete.
  apply preserves_bind.
  { destruct (bucketfillptrpoints2suftab s);
      [apply preserves_ret|apply preserves_free; congruence]. }
  intros _. apply preserves_bind.
  { destruct (bucketsizepoints2suftab s);
      [apply preserves_ret|apply preserves_free; congruence]. }
  intros _. apply preserves_bind.
  { destruct (roundtablepoints2suftab s); [apply preserves_ret|].
    destruct (roundtable s) as [p|] eqn:E; [|apply preserves_ret].
    apply preserves_free. specialize (Hr p eq_refl). congruence. }
  intros _. destruct (seqtype s); try apply preserves_ret;
    (destruct (sstarfirstcharcount s) as [p|] eqn:E; [|apply preserves_ret];
     apply preserves_free; specialize (Hc p eq_refl); congruence).
Qed.

Lemma cell_nth m p i v :
  cell m p i = Some v -> nth (Z.to_nat (poff p + i)) (nth (pblk p) m []) 0 = v.
Proof.
  unfold cell. destruct (inbounds _ _); [|discriminate].
  intros H. inversion H. reflexivity.
Qed.

Lemma reads_plain s plainseq :
  seq s = SeqPlain plainseq ->
  totallength s = Z.of_nat (length plainseq) ->
  reads s plainseq.
Proof.
  intros Es Ht. split; [exact Ht|]. intros p m Hp.
  unfold gt_sainseq_getchar, plain_get. rewrite Es.
  assert (E : inbounds plainseq p = true) by (apply inbounds_spec; lia).
  rewrite E. reflexivity.
Qed.

Lemma nth_map_seq (f : nat -> Z) n len d :
  (n < len)%nat -> nth n (map f (List.seq 0 len)) d = f n.
Proof.
  intros Hn.
  rewrite (nth_indep _ d (f 0%nat)) by (rewrite length_map, length_seq; exact Hn).
  rewrite map_nth, seq_nth by exact Hn. reflexivity.
Qed.

Lemma reads_encseq s encseq :
  seq s = SeqEncseq encseq ->
  totallength s = gt_encseq_total_length encseq ->
  reads s (encseq_symbols encseq (readmode s)).
Proof.
  intros Es Ht. unfold reads, encseq_symbols.
  rewrite length_map, length_seq. split; [exact Ht|].
  intros p m Hp.
  unfold gt_sainseq_getchar. rewrite Es.
  assert (Hn : (Z.to_nat p < length (enc_chars encseq))%nat) by lia.
  rewrite nth_map_seq by exact Hn. cbv zeta.
  unfold read_symbols. rewrite nth_map_seq by exact Hn.
  replace (Z.of_nat (Z.to_nat p)) with p by lia.
  unfold gt_encseq_get_encoded_char.
  assert (E : inbounds (enc_chars encseq) p = true)
    by (apply inbounds_spec; lia).
  rewrite E. unfold bind, ret. reflexivity.
Qed.

(** The common part of the two entry points: after a checked sort of [n > 0]
    entries and the deletion of the sequence view, consecutive entries of
    the suffix table are in the order of the sorter. *)
Lemma checked_sort_sorted s l fuel fu n se fc verbose timer m ev s' m3 u m4 :
  (forall s1, view_rel s s1 -> reads s1 l) ->
  pblk (bucketfillptr s) <> 0%nat -> pblk (bucketsize s) <> 0%nat ->
  (forall p, roundtable s = Some p -> pblk p <> 0%nat) ->
  (forall p, sstarfirstcharcount s = Some p -> pblk p <> 0%nat) ->
  (forall a, seq s <> SeqArray a) ->
  gt_sain_rec_sortsuffixes (S fuel) 0 s suftab0 fu n se true fc verbose
    timer m = (ev, Ok s' m3) ->
  gt_sainseq_delete s' m3 = Ok u m4 ->
  forall i, 0 <= i -> i + 1 < n ->
    lex_lt_endmax (suffix l (nth (Z.to_nat i) (nth 0 m4 []) 0))
                  (suffix l (nth (Z.to_nat (i + 1)) (nth 0 m4 []) 0)).
Proof.
  intros Hreads Hf Hs Hr Hc Hna Hrec Hdel i Hi Hin.
  apply rec_view in Hrec. destruct Hrec as (Hview & c & mf & evf & Hfin).
  apply finish_level_checked in Hfin; [|lia].
  destruct Hfin as (mc & Hcheck & Hcells).
  apply checkorder_ok in Hcheck. destruct Hcheck as [_ Hcheck].
  destruct (Hcheck (i + 1) ltac:(lia)) as (a & b & Ha & Ha0 & Hb & Hb0 & Hcmp).
  replace (i + 1 - 1) with i in Ha by lia.
  assert (Hblock : nth 0 m4 [] = nth 0 m3 []).
  { eapply (preserves_sainseq_delete 0 s'); [| | | |exact Hdel];
      destruct Hview as (_ & _ & Vq & _ & V5 & V6 & _ & _ & _ & V10 & V11).
    - rewrite V6. exact Hf.
    - rewrite V5. exact Hs.
    - intros p Hp. destruct V10 as [V10|V10]; [|congruence].
      apply Hr. congruence.
    - intros p Hp. destruct V11 as [[arr V11]|V11];
        [exfalso; eapply Hna; exact V11|].
      apply Hc. congruence. }
  rewrite <- (Hcells i) in Ha by lia.
  rewrite <- (Hcells (i + 1)) in Hb by lia.
  apply cell_nth in Ha, Hb. cbn [suftab0 pblk poff] in Ha, Hb.
  rewrite Hblock.
  replace (Z.to_nat (0 + i)) with (Z.to_nat i) in Ha by lia.
  replace (Z.to_nat (0 + (i + 1))) with (Z.to_nat (i + 1)) in Hb by lia.
  rewrite Ha, Hb.
  eapply compare_suffixes_lt; [apply Hreads; exact Hview| | |exact Hcmp];
    assumption.
Qed.

Lemma specialcharacters_le encseq :
  0 <= gt_encseq_specialcharacters encseq <= gt_encseq_total_length encseq.
Proof.
  unfold gt_encseq_specialcharacters, gt_encseq_total_length.
  pose proof (filter_length_le ISSPECIAL (enc_chars encseq)). lia.
Qed.

(** What the order check of the sorter establishes.  The order is the one
    in which the end of the sequence is greater than every symbol (and a
    special position [p] of an encoded sequence is the symbol
    [GT_UNIQUEINT(p)]), not the one in which a prefix is the smaller.  A
    sort that is run with the intermediate check and succeeds has passed
    [gt_sain_checkorder] at level 0, so each of the first [nonspecial]
    entries of its suffix table is strictly below its successor in that
    order.  Nothing is said here of a sort that is run without the check. *)
Lemma sorted_when_checked :
  (forall plainseq verbose timer ev suf m i,
     gt_sain_plain_sortsuffixes plainseq (Z.of_nat (length plainseq)) true
       verbose timer = (ev, Ok suf m) ->
     0 <= i -> i + 1 < Z.of_nat (length plainseq) ->
     lex_lt_endmax (suffix plainseq (nth (Z.to_nat i) suf 0))
                   (suffix plainseq (nth (Z.to_nat (i + 1)) suf 0))) /\
  (forall encseq rm finalcheck verbose timer ev suf m i,
     gt_encseq_total_length encseq < wordsize ->
     gt_sain_encseq_sortsuffixes encseq rm true finalcheck verbose timer
     = (ev, Ok suf m) ->
     0 <= i ->
     i + 1 < gt_encseq_total_length encseq
             - gt_encseq_specialcharacters encseq ->
     lex_lt_endmax
       (suffix (encseq_symbols encseq rm) (nth (Z.to_nat i) suf 0))
       (suffix (encseq_symbols encseq rm) (nth (Z.to_nat (i + 1)) suf 0))).
Proof.
  split.
  - intros plainseq verbose timer ev suf m i Hrun Hi Hin.
    unfold gt_sain_plain_sortsuffixes in Hrun. monadT_inv Hrun.
    match goal with
    | Hc : gt_calloc _ [] = Ok ?p ?m1 |- _ =>
        apply gt_calloc_ok in Hc; destruct Hc as [-> ->]
    end.
    match goal with
    | Hn : gt_sainseq_new_from_plainseq _ _ _ = Ok ?s _ |- _ =>
        apply new_from_plainseq_fields in Hn;
        destruct Hn as (Htl & _ & Hseq & Hbs & Hbf & _ & _ & _ & Hrt & Hsfc & _)
    end.
    cbn [length app] in Hbs, Hbf, Hrt, Hsfc.
    match goal with
    | Hr : read_suftab _ _ = Ok _ _ |- _ =>
        unfold read_suftab in Hr; inversion Hr; subst; clear Hr
    end.
    cbn [pblk].
    match goal with
    | Hrec : gt_sain_rec_sortsuffixes _ _ ?s _ _ _ _ _ _ _ _ _ = _,
      Hdel : gt_sainseq_delete _ _ = Ok _ _ |- _ =>
        unfold levels in Hrec;
        eapply (checked_sort_sorted s plainseq);
          [| | | | | |exact Hrec|exact Hdel|exact Hi|]
    end.
    + intros s1 (V1 & _ & V3 & _). apply reads_plain; congruence.
    + rewrite Hbf. cbn. lia.
    + rewrite Hbs. cbn. lia.
    + intros p Hp. specialize (Hrt p Hp). lia.
    + intros p Hp. specialize (Hsfc p Hp). lia.
    + intros a Ha. congruence.
    + lia.
  - intros encseq rm finalcheck verbose timer ev suf m i Hlen Hrun Hi Hin.
    unfold gt_sain_encseq_sortsuffixes in Hrun. monadT_inv Hrun.
    match goal with
    | Hc : gt_calloc _ [] = Ok ?p ?m1 |- _ =>
        apply gt_calloc_ok in Hc; destruct Hc as [-> ->]
    end.
    match goal with
    | Hn : gt_sainseq_new_from_encseq _ _ _ = Ok ?s _ |- _ =>
        apply new_from_encseq_fields in Hn;
        destruct Hn as (Htl & _ & Hseq & Hrm & Hbs & Hbf & _ & _ & _ & Hrt
                        & Hsfc & _)
    end.
    cbn [length app] in Hbs, Hbf, Hrt, Hsfc.
    match goal with
    | Hr : read_suftab _ _ = Ok _ _ |- _ =>
        unfold read_suftab in Hr; inversion Hr; subst; clear Hr
    end.
    cbn [pblk].
    pose proof (specialcharacters_le encseq) as Hsc.
    match goal with
    | Hrec : gt_sain_rec_sortsuffixes _ _ ?s _ _ _ _ _ _ _ _ _ = _,
      Hdel : gt_sainseq_delete _ _ = Ok _ _ |- _ =>
        unfold levels in Hrec;
        eapply (checked_sort_sorted s (encseq_symbols encseq (readmode s)));
          [| | | | | |exact Hrec|exact Hdel|exact Hi|]
    end.
    + intros s1 (V1 & _ & V3 & V4 & _). rewrite <- V4.
      apply reads_encseq; congruence.
    + rewrite Hbf. cbn. lia.
    + rewrite Hbs. cbn. lia.
    + intros p Hp. specialize (Hrt p Hp). lia.
    + intros p Hp. specialize (Hsfc p Hp). lia.
    + intros a Ha. congruence.
    + unfold u64. rewrite Z.mod_small by lia. lia.
Qed.

End Order.

(** ** The levels without a round table *)

Section RoundTable.
Context {hd : GtHeaders}.








End RoundTable.

(** ** Runs on given inputs *)

Section Runs.

(** C5, as the code has it.  In the order of the sorter, where the end of
    the sequence is greater than every symbol, the suffix tables of the three
    literal inputs are [1,3,5,0,2,4], [7,4,1,10,0,9,8,6,3,5,2] and
    [0,7,3,5,10,1,8,4,6,2,9], whatever the flags. *)
Theorem plain_examples (intermediatecheck verbose timer : bool) :
  prefix_of 6 (sort_plain "banana" intermediatecheck verbose timer)
  = Some [1; 3; 5; 0; 2; 4] /\
  prefix_of 11 (sort_plain "mississippi" intermediatecheck verbose timer)
  = Some [7; 4; 1; 10; 0; 9; 8; 6; 3; 5; 2] /\
  prefix_of 11 (sort_plain "abracadabra" intermediatecheck verbose timer)
  = Some [0; 7; 3; 5; 10; 1; 8; 4; 6; 2; 9].
Proof.
  destruct intermediatecheck, verbose, timer;
    (split; [|split]); vm_compute; reflexivity.
Qed.

(** The suffix tables that the spec states for the three inputs are not what
    the sort produces: for "banana" it is not [5,3,1,0,4,2]. *)
Lemma banana_not_as_stated :
  prefix_of 6 (sort_plain "banana" false false false)
  <> Some [5; 3; 1; 0; 4; 2].
Proof. vm_compute. discriminate. Qed.

(** In the usual lexicographic order the first two entries of the suffix
    table of "banana" are the wrong way round: the suffix "anana" at
    [SUF[0] = 1] is not below its prefix "ana" at [SUF[1] = 3]. *)
Lemma banana_not_lexicographic :
  exists suf,
    prefix_of 6 (sort_plain "banana" false false false) = Some suf /\
    ~ lex_lt (suffix (bytes_of "banana") (nth 0 suf 0))
             (suffix (bytes_of "banana") (nth 1 suf 0)).
Proof.
  exists [1; 3; 5; 0; 2; 4]. split; [vm_compute; reflexivity|].
  vm_compute. intros H.
  repeat match goal with
         | H : lex_lt _ _ |- _ => inversion H; clear H; subst; try lia
         end.
Qed.

(** C7.  On the empty byte sequence the scan of [gt_saininfo_new] starts at
    position [totallength - 1], which wraps around to [2^64 - 1], and reads
    the sequence there: the sort ends in an access out of bounds, whatever
    the headers and the flags, after it has printed two lines. *)
Theorem empty_input_out_of_bounds (hd : GtHeaders)
    (intermediatecheck verbose timer : bool) :
  snd (gt_sain_plain_sortsuffixes [] 0 intermediatecheck verbose timer)
  = Fail OutOfBounds.
Proof.
  unfold gt_sain_plain_sortsuffixes, bindT, lift, gt_calloc.
  unfold gt_sainseq_new_from_plainseq, gt_sain_decideforfastmethod.
  replace (1024 <? 0) with false by reflexivity.
  rewrite andb_false_r.
  destruct intermediatecheck, verbose, timer; vm_compute; reflexivity.
Qed.

(** The same happens on the empty encoded sequence, here over four symbols
    with the final check on. *)
Lemma empty_encseq_out_of_bounds :
  snd (@gt_sain_encseq_sortsuffixes (spec_headers 0 4)
         {| enc_chars := []; enc_numofchars := 4 |} GT_READMODE_FORWARD
         false true false false)
  = Fail OutOfBounds.
Proof. vm_compute. reflexivity. Qed.


(** In "aba" position 1 is of type L and position 2 of type S.  What the
    scan writes for the Sstar position 2 is 1, the position before it; the
    value 2 is nowhere in the suffix table. *)
Lemma seed_is_not_the_Sstar_position :
  exists suf, seeds_of "aba" = Some suf /\ nth 1 suf 0 = 1 /\ ~ In 2 suf.
Proof.
  exists [0; 1; 0; 0]. split; [vm_compute; reflexivity|].
  split; [reflexivity|]. cbn. intuition discriminate.
Qed.

End Runs.

(** ** The theorems at given inputs *)

Section Instances.

Lemma lms_count_bound_witness : 2 * 1 <= 3.
Proof.
  refine (@lms_count_bound (spec_headers 3 256) aba_view suftab0 None aba_mem
            aba_end aba_mem_end _ _ _).
  - vm_compute. split; reflexivity.
  - intros c m1 H. vm_compute in H. injection H as <- _.
    vm_compute. discriminate.
  - vm_compute. reflexivity.
Defined.

Lemma encseq_bucketsize_witness :
  let hd := spec_headers 5 4 in
  cell acttn_mem (bucketsize acttn_view) 0 =
    Some (gt_encseq_charcount acttn
            (if GT_ISDIRCOMPLEMENT GT_READMODE_REVCOMPL
             then GT_COMPLEMENTBASE 0 else 0)) /\
  cell acttn_mem (bucketsize acttn_view) 0 =
    Some (Z.of_nat (count_occ Z.eq_dec
                      (read_symbols acttn GT_READMODE_REVCOMPL) 0)).
Proof.
  intros hd.
  refine (@encseq_bucketsize hd acttn GT_READMODE_REVCOMPL [] acttn_view
            acttn_mem 0 _ _ _ _ _).
  - vm_compute. reflexivity.
  - vm_compute. discriminate.
  - intros _. split.
    + intros x Hx. cbn in Hx.
      repeat (destruct Hx as [<-|Hx]; [vm_compute; intuition discriminate|]).
      contradiction.
    + intros b Hb. change (0 <= b < 4) in Hb. split; [|split].
      * change ((4 <=? b) = false). apply Z.leb_gt. lia.
      * change (0 <= 4 - 1 - b < 4). lia.
      * change (4 - 1 - (4 - 1 - b) = b). lia.
  - vm_compute. reflexivity.
  - vm_compute. split; [discriminate|reflexivity].
Defined.

Lemma banana_sorted_when_checked :
  lex_lt_endmax
    (suffix (bytes_of "banana") (nth 0 (value_of (snd banana_run) []) 0))
    (suffix (bytes_of "banana") (nth 1 (value_of (snd banana_run) []) 0)).
Proof.
  refine (proj1 (@sorted_when_checked (spec_headers 6 256))
            (bytes_of "banana") false false (fst banana_run)
            (value_of (snd banana_run) []) (mem_of (snd banana_run)) 0
            _ _ _).
  - vm_compute. reflexivity.
  - vm_compute. discriminate.
  - vm_compute. reflexivity.
Defined.



End Instances.

(** * Further properties of the code *)

(** A cell exists exactly when its index is one of the block. *)
Lemma cell_some m p i v :
  cell m p i = Some v -> 0 <= poff p + i < Z.of_nat (length (nth (pblk p) m [])).
Proof.
  unfold cell. destruct (inbounds _ _) eqn:E; [|discriminate].
  intros _. apply inbounds_spec. exact E.
Qed.

Lemma cell_in m p i :
  0 <= poff p + i < Z.of_nat (length (nth (pblk p) m [])) ->
  cell m p i = Some (nth (Z.to_nat (poff p + i)) (nth (pblk p) m []) 0).
Proof.
  intros H. unfold cell.
  replace (inbounds _ _) with true; [reflexivity|].
  symmetry. apply inbounds_spec. exact H.
Qed.

(** Cells of blocks that an allocation leaves below it. *)
Lemma cell_app_old m blk p i :
  (pblk p < length m)%nat -> cell (m ++ blk) p i = cell m p i.
Proof. intros H. unfold cell. rewrite app_nth1 by exact H. reflexivity. Qed.

Lemma cell_app_new m b i :
  cell (m ++ [b]) (Ptr (length m) 0) i =
  if inbounds b i then Some (nth (Z.to_nat i) b 0) else None.
Proof.
  unfold cell. cbn [pblk poff]. rewrite nth_middle. reflexivity.
Qed.

(** Names the store, or the load, among the steps of a run. *)
Ltac the_store H :=
  match goal with Hs : store _ _ _ _ = Ok _ _ |- _ => rename Hs into H end.

Ltac the_load H :=
  match goal with Hs : load _ _ _ = Ok _ _ |- _ => rename Hs into H end.

Lemma load_mem p i m v m' : load p i m = Ok v m' -> m' = m.
Proof. intros H. apply load_ok in H. tauto. Qed.

Lemma incr_length a i m u m' : incr a i m = Ok u m' -> length m' = length m.
Proof.
  unfold incr. intros H. monad_inv H. the_store Hst. the_load Hl.
  apply load_mem in Hl. subst. eapply store_length. exact Hst.
Qed.

Section Constructors.

Context {hd : GtHeaders}.

Lemma count_occ_firstn_succ (l : list Z) (k : nat) (c : Z) :
  (k < length l)%nat ->
  count_occ Z.eq_dec (firstn (S k) l) c =
  (count_occ Z.eq_dec (firstn k l) c + if Z.eq_dec (nth k l 0%Z) c then 1 else 0)%nat.
Proof.
  revert k. induction l as [|h t IH]; intros k Hk; cbn [length] in Hk; [lia|].
  destruct k as [|k].
  - cbn. destruct (Z.eq_dec h c); reflexivity.
  - rewrite !firstn_cons. cbn [nth count_occ]. rewrite IH by lia.
    destruct (Z.eq_dec h c); lia.
Qed.

Lemma count_occ_le_length (l : list Z) c :
  (count_occ Z.eq_dec l c <= length l)%nat.
Proof.
  induction l as [|h t IH]; cbn; [lia|]. destruct (Z.eq_dec h c); lia.
Qed.

(** X1. [gt_sainseq_new_from_plainseq] counts the bytes: when it returns on
    a byte array of fewer than 2^64 bytes, the entry of [bucketsize] at each
    byte value [c] is the number of occurrences of [c] in the array, the entry
    of [sstarfirstcharcount] at [c] is zero, and every byte of the array is
    in [0, UCHAR_MAX]. *)
Theorem plainseq_bucketsize plainseq m s m' c :
  Z.of_nat (length plainseq) < wordsize ->
  gt_sainseq_new_from_plainseq plainseq (Z.of_nat (length plainseq)) m
  = Ok s m' ->
  0 <= c <= UCHAR_MAX ->
  cell m' (bucketsize s) c = Some (Z.of_nat (count_occ Z.eq_dec plainseq c)) /\
  (forall sfc, sstarfirstcharcount s = Some sfc -> cell m' sfc c = Some 0) /\
  Forall (fun x => 0 <= x <= UCHAR_MAX) plainseq.
Proof.
  intros Hlen Hnew Hc.
  unfold gt_sainseq_new_from_plainseq in Hnew. monad_inv Hnew.
  cbn [bucketsize sstarfirstcharcount].
  apply gt_calloc_ok in Hrun. destruct Hrun as [-> ->].
  apply gt_malloc_ok in Hrun0. destruct Hrun0 as [-> ->].
  apply gt_calloc_ok in Hrun2. destruct Hrun2 as [-> ->].
  set (bs := Ptr (length m) 0) in *.
  set (m3 := m2 ++ [repeat 0 (Z.to_nat (UCHAR_MAX + 1))]) in *.
  assert (Hm2 : (length m + 2 <= length m2)%nat /\
                forall q j, (pblk q < length m + 2)%nat ->
                  cell m2 q j =
                  cell ((m ++ [repeat 0 (Z.to_nat (UCHAR_MAX + 1))]) ++
                        [repeat poison (Z.to_nat (UCHAR_MAX + 1))]) q j).
  { destruct (gt_sain_decideforfastmethod _ _).
    - monad_inv Hrun1. apply gt_malloc_ok in Hrun. destruct Hrun as [-> ->].
      rewrite !length_app. cbn [length]. split; [lia|].
      intros q j Hq. apply cell_app_old. rewrite !length_app. cbn. lia.
    - monad_inv Hrun1. rewrite !length_app. cbn [length]. split; [lia|].
      intros; reflexivity. }
  destruct Hm2 as [Hl2 Hm2].
  pose (I := fun (k : Z) (_ : unit) (mk : mem) =>
               (forall q j, pblk q <> pblk bs -> cell mk q j = cell m3 q j) /\
               (forall x, 0 <= x <= UCHAR_MAX ->
                  cell mk bs x =
                  Some (Z.of_nat (count_occ Z.eq_dec
                                    (firstn (Z.to_nat k) plainseq) x))) /\
               (forall x v, cell mk bs x = Some v -> 0 <= x <= UCHAR_MAX) /\
               Forall (fun x => 0 <= x <= UCHAR_MAX)
                 (firstn (Z.to_nat k) plainseq)).
  assert (Hbs0 : forall x, cell m3 bs x =
                 if inbounds (repeat 0 (Z.to_nat (UCHAR_MAX + 1))) x
                 then Some 0 else None).
  { intros x. unfold m3. rewrite cell_app_old by (cbn; lia).
    rewrite Hm2 by (cbn; lia).
    rewrite cell_app_old by (rewrite length_app; cbn; lia).
    unfold bs. rewrite cell_app_new.
    destruct (inbounds _ x) eqn:E; [|reflexivity].
    apply inbounds_spec in E. rewrite repeat_length in E.
    f_equal. apply nth_repeat_lt. lia. }
  assert (HI : I (0 + Z.of_nat (Z.to_nat (Z.of_nat (length plainseq)))) a3 m').
  { eapply (for_up_inv _ I); [| |exact Hrun3].
    - intros k [] mk [] mk' Hk (Hfr & Hcnt & Hidx & Hall) Hbody.
      monad_inv Hbody.
      unfold plain_get in Hrun. destruct (inbounds plainseq k) eqn:Ein;
        [|discriminate]. monad_inv Hrun.
      apply incr_ok in Hbody. destruct Hbody as (v & Hv & Hv' & Hoth).
      pose proof (Hidx _ _ Hv) as Hx.
      rewrite Hcnt in Hv by exact Hx. injection Hv as <-.
      unfold I. replace (Z.to_nat (k + 1)) with (S (Z.to_nat k)) by lia.
      assert (Hkl : (Z.to_nat k < length plainseq)%nat) by lia.
      split; [|split; [|split]].
      + intros q j Hq. rewrite Hoth by (left; exact Hq). apply Hfr. exact Hq.
      + intros x Hxr. rewrite count_occ_firstn_succ by exact Hkl.
        destruct (Z.eq_dec (nth (Z.to_nat k) plainseq 0) x) as [<-|Hne].
        * rewrite Hv'. f_equal. rewrite u64_small; [lia|].
          pose proof (count_occ_le_length (firstn (Z.to_nat k) plainseq)
                        (nth (Z.to_nat k) plainseq 0)).
          rewrite length_firstn in H. lia.
        * rewrite Hoth by (right; cbn; lia). rewrite Nat.add_0_r.
          apply Hcnt. exact Hxr.
      + intros x v Hxv.
        destruct (Z.eq_dec (nth (Z.to_nat k) plainseq 0) x) as [<-|Hne];
          [exact Hx|].
        rewrite Hoth in Hxv by (right; cbn; lia). eapply Hidx. exact Hxv.
      + rewrite <- (firstn_skipn (Z.to_nat k) (firstn (S (Z.to_nat k)) plainseq)).
        rewrite firstn_firstn. replace (Nat.min _ _) with (Z.to_nat k) by lia.
        apply Forall_app. split; [exact Hall|].
        rewrite skipn_firstn_comm.
        replace (S (Z.to_nat k) - Z.to_nat k)%nat with 1%nat by lia.
        destruct (skipn (Z.to_nat k) plainseq) as [|h t] eqn:Es.
        { constructor. }
        cbn. constructor; [|constructor].
        replace h with (nth (Z.to_nat k) plainseq 0); [exact Hx|].
        rewrite <- (firstn_skipn (Z.to_nat k) plainseq) at 1.
        rewrite app_nth2 by (rewrite length_firstn; lia).
        rewrite length_firstn.
        replace (Z.to_nat k - Nat.min _ _)%nat with 0%nat by lia.
        rewrite Es. reflexivity.
    - split; [intros; reflexivity|]. split; [|split].
      + intros x Hx. cbn [Z.to_nat firstn count_occ]. rewrite Hbs0.
        replace (inbounds _ x) with true; [reflexivity|].
        symmetry. apply inbounds_spec. rewrite repeat_length.
        unfold UCHAR_MAX in *. lia.
      + intros x v Hxv. rewrite Hbs0 in Hxv.
        destruct (inbounds _ x) eqn:E; [|discriminate].
        apply inbounds_spec in E. rewrite repeat_length in E.
        unfold UCHAR_MAX in *. lia.
      + constructor. }
  destruct HI as (Hfr & Hcnt & _ & Hall).
  rewrite Nat2Z.id in Hcnt, Hall. cbn [Z.add] in Hcnt, Hall.
  rewrite Nat2Z.id, firstn_all in Hcnt, Hall.
  split; [apply Hcnt; exact Hc|]. split; [|exact Hall].
  intros sfc E. injection E as <-.
  rewrite Hfr by (unfold bs; cbn; lia).
  unfold m3. rewrite cell_app_new.
  replace (inbounds _ c) with true.
  - f_equal. apply nth_repeat_lt. unfold UCHAR_MAX in *. lia.
  - symmetry. apply inbounds_spec. rewrite repeat_length.
    unfold UCHAR_MAX in *. lia.
Qed.

End Constructors.

Section Buckets.

Context {hd : GtHeaders}.

Lemma buckets_apart_outside s c :
  buckets_apart s -> 0 <= c < numofchars s ->
  pblk (bucketsize s) <> pblk (bucketfillptr s) \/
  ~ (0 <= poff (bucketsize s) + c - poff (bucketfillptr s) < numofchars s).
Proof.
  intros Hapart Hc.
  destruct (Nat.eq_dec (pblk (bucketsize s)) (pblk (bucketfillptr s)))
    as [E|N]; [right|left; exact N].
  intros Hr.
  destruct (Hapart c (poff (bucketsize s) + c - poff (bucketfillptr s)) Hc Hr)
    as [H|H]; [contradiction|lia].
Qed.

(** The loop of [gt_sain_endbuckets] adds up the bucket sizes. *)
Lemma endbuckets_sums s (B : Z -> Z) m u m' :
  0 < numofchars s ->
  buckets_apart s ->
  (forall c, 0 <= c < numofchars s -> cell m (bucketsize s) c = Some (B c)) ->
  gt_sain_endbuckets s m = Ok u m' ->
  (forall c, 0 <= c < numofchars s ->
     cell m' (bucketfillptr s) c
     = Some (u64 (sum_below B (S (Z.to_nat c))))) /\
  (forall q j, pblk q <> pblk (bucketfillptr s) \/
               ~ (0 <= poff q + j - poff (bucketfillptr s) < numofchars s) ->
               cell m' q j = cell m q j).
Proof.
  intros Hnc Hapart HB Hrun. unfold gt_sain_endbuckets in Hrun.
  monad_inv Hrun.
  apply load_ok in Hrun0. destruct Hrun0 as (-> & Hb0 & _).
  rewrite HB in Hb0 by lia. injection Hb0 as <-.
  pose (I := fun (k : Z) (previous : Z) (mk : mem) =>
               u64 previous = u64 (sum_below B (Z.to_nat k)) /\
               (forall c, 0 <= c < k ->
                  cell mk (bucketfillptr s) c
                  = Some (u64 (sum_below B (S (Z.to_nat c))))) /\
               (forall q j, pblk q <> pblk (bucketfillptr s) \/
                  ~ (0 <= poff q + j - poff (bucketfillptr s) < numofchars s) ->
                  cell mk q j = cell m q j)).
  assert (HI : I (1 + Z.of_nat (Z.to_nat (numofchars s - 1))) a1 m').
  { eapply (for_up_inv _ I); [| |exact Hrun2].
    - intros k prev mk prev' mk' Hk (Hprev & Hcells & Hfr) Hbody.
      monad_inv Hbody. apply load_ok in Hrun. destruct Hrun as (-> & Hb & _).
      rewrite Hfr in Hb
        by (apply buckets_apart_outside; [exact Hapart|lia]).
      rewrite HB in Hb by lia. injection Hb as <-.
      assert (E : u64 (prev + B k) = u64 (sum_below B (S (Z.to_nat k)))).
      { cbn [sum_below]. rewrite Z2Nat.id by lia.
        rewrite <- u64_add_l, Hprev. apply u64_add_l. }
      rewrite E in *.
      unfold I. replace (Z.to_nat (k + 1)) with (S (Z.to_nat k)) by lia.
      split; [unfold u64; apply Zmod_mod|]. split.
      + intros c Hc. destruct (Z.eq_dec c k) as [->|Hne].
        * rewrite (store_cell_same _ _ _ _ _ _ Hrun0).
          unfold u64. rewrite Zmod_mod. reflexivity.
        * rewrite (store_cell_other _ _ _ _ _ _ _ _ Hrun0) by (right; lia).
          apply Hcells. lia.
      + intros q j Hq.
        rewrite (store_cell_other _ _ _ _ _ _ _ _ Hrun0); [apply Hfr; exact Hq|].
        destruct Hq as [Hq|Hq]; [left; exact Hq|right; lia].
    - unfold I. cbn [Z.to_nat Pos.to_nat Pos.iter_op Nat.add sum_below].
      split; [reflexivity|]. split.
      + intros c Hc. replace c with 0 by lia.
        rewrite (store_cell_same _ _ _ _ _ _ Hrun1). reflexivity.
      + intros q j Hq.
        rewrite (store_cell_other _ _ _ _ _ _ _ _ Hrun1); [reflexivity|].
        destruct Hq as [Hq|Hq]; [left; exact Hq|right; lia]. }
  destruct HI as (_ & Hcells & Hfr).
  split; [|exact Hfr]. intros c Hc. apply Hcells. lia.
Qed.

(** X2. [gt_sain_endbuckets] turns the bucket sizes into the bucket ends:
    when the two arrays share no cell, the fill pointer of symbol [c] becomes
    the sum of the sizes of the buckets [0..c], as an [unsigned long], and no
    cell outside of the [numofchars] fill pointers changes. *)
Theorem endbuckets_prefix_sums s (B : Z -> Z) m u m' :
  0 < numofchars s ->
  buckets_apart s ->
  (forall c, 0 <= c < numofchars s -> cell m (bucketsize s) c = Some (B c)) ->
  gt_sain_endbuckets s m = Ok u m' ->
  (forall c, 0 <= c < numofchars s ->
     cell m' (bucketfillptr s) c
     = Some (u64 (sum_below B (S (Z.to_nat c))))) /\
  (forall q j, pblk q <> pblk (bucketfillptr s) \/
               ~ (0 <= poff q + j - poff (bucketfillptr s) < numofchars s) ->
               cell m' q j = cell m q j).
Proof.
  intros Hnc Hapart HB Hrun.
  exact (endbuckets_sums s B m u m' Hnc Hapart HB Hrun).
Qed.

(** X3. [gt_sain_startbuckets] turns the bucket sizes into the bucket
    starts: when the two arrays share no cell, the fill pointer of symbol [c]
    becomes the sum of the sizes of the buckets below [c], as an
    [unsigned long], and no cell outside of the [numofchars] fill pointers
    changes. *)
Theorem startbuckets_prefix_sums s (B : Z -> Z) m u m' :
  0 < numofchars s ->
  buckets_apart s ->
  (forall c, 0 <= c < numofchars s -> cell m (bucketsize s) c = Some (B c)) ->
  gt_sain_startbuckets s m = Ok u m' ->
  (forall c, 0 <= c < numofchars s ->
     cell m' (bucketfillptr s) c = Some (u64 (sum_below B (Z.to_nat c)))) /\
  (forall q j, pblk q <> pblk (bucketfillptr s) \/
               ~ (0 <= poff q + j - poff (bucketfillptr s) < numofchars s) ->
               cell m' q j = cell m q j).
Proof.
  intros Hnc Hapart HB Hrun. unfold gt_sain_startbuckets in Hrun.
  monad_inv Hrun. rename Hrun0 into Hst0, Hrun1 into Hloop.
  pose (I := fun (k : Z) (previous : Z) (mk : mem) =>
               u64 previous = u64 (sum_below B (Z.to_nat (k - 1))) /\
               (forall c, 0 <= c < k ->
                  cell mk (bucketfillptr s) c
                  = Some (u64 (sum_below B (Z.to_nat c)))) /\
               (forall q j, pblk q <> pblk (bucketfillptr s) \/
                  ~ (0 <= poff q + j - poff (bucketfillptr s) < numofchars s) ->
                  cell mk q j = cell m q j)).
  assert (HI : I (1 + Z.of_nat (Z.to_nat (numofchars s - 1))) a0 m').
  { eapply (for_up_inv _ I); [| |exact Hloop].
    - intros k prev mk prev' mk' Hk (Hprev & Hcells & Hfr) Hbody.
      monad_inv Hbody. apply load_ok in Hrun. destruct Hrun as (-> & Hb & _).
      rewrite Hfr in Hb
        by (apply buckets_apart_outside; [exact Hapart|lia]).
      rewrite HB in Hb by lia. injection Hb as <-.
      assert (E : u64 (prev + B (k - 1)) = u64 (sum_below B (Z.to_nat k))).
      { replace (Z.to_nat k) with (S (Z.to_nat (k - 1))) by lia.
        cbn [sum_below]. rewrite Z2Nat.id by lia.
        rewrite <- u64_add_l, Hprev. apply u64_add_l. }
      rewrite E in *.
      unfold I. replace (k + 1 - 1) with k by lia.
      split; [unfold u64; apply Zmod_mod|]. split.
      + intros c Hc. destruct (Z.eq_dec c k) as [->|Hne].
        * rewrite (store_cell_same _ _ _ _ _ _ Hrun0).
          unfold u64. rewrite Zmod_mod. reflexivity.
        * rewrite (store_cell_other _ _ _ _ _ _ _ _ Hrun0) by (right; lia).
          apply Hcells. lia.
      + intros q j Hq.
        rewrite (store_cell_other _ _ _ _ _ _ _ _ Hrun0); [apply Hfr; exact Hq|].
        destruct Hq as [Hq|Hq]; [left; exact Hq|right; lia].
    - unfold I. cbn [Z.sub Z.add Z.opp Z.pos_sub Z.to_nat sum_below].
      split; [reflexivity|]. split.
      + intros c Hc. replace c with 0 by lia.
        rewrite (store_cell_same _ _ _ _ _ _ Hst0). reflexivity.
      + intros q j Hq.
        rewrite (store_cell_other _ _ _ _ _ _ _ _ Hst0); [reflexivity|].
        destruct Hq as [Hq|Hq]; [left; exact Hq|right; lia]. }
  destruct HI as (_ & Hcells & Hfr).
  split; [|exact Hfr]. intros c Hc. apply Hcells. lia.
Qed.

End Buckets.

(** ** The comparisons of the order check and of the naming *)

Lemma lex_lt_endmax_asym a : forall b, lex_lt_endmax a b -> lex_lt_endmax b a -> False.
Proof.
  induction a as [|x xs IH]; intros b H1 H2.
  - inversion H1.
  - inversion H1; subst.
    + inversion H2.
    + inversion H2; subst; lia.
    + inversion H2; subst; [lia|]. eapply IH; eassumption.
Qed.

Lemma lex_lt_endmax_irrefl a : ~ lex_lt_endmax a a.
Proof. intros H. exact (lex_lt_endmax_asym a a H H). Qed.

Section Comparisons.

Context {hd : GtHeaders}.

Lemma reads_reads_in s l m : reads s l -> reads_in m s l.
Proof. intros [Htl Hget]. split; [exact Htl|]. intros p Hp. apply Hget, Hp. Qed.

(** What is read of the sequence stays when its cells stay. *)
Lemma reads_in_frame s l m m' :
  reads_in m s l ->
  (forall a, seq s = SeqArray a ->
     forall p, 0 <= p < totallength s -> cell m' a p = cell m a p) ->
  reads_in m' s l.
Proof.
  intros [Htl Hget] Hfr. split; [exact Htl|]. intros p Hp.
  specialize (Hget p Hp). revert Hget. unfold gt_sainseq_getchar.
  destruct (seq s) as [e|pl|a] eqn:Es.
  - unfold bind, gt_encseq_get_encoded_char.
    destruct (inbounds _ _); [|discriminate].
    cbn [ret]. intros H. injection H as <-. reflexivity.
  - unfold plain_get. destruct (inbounds _ _); [|discriminate].
    cbn [ret]. intros H. injection H as <-. reflexivity.
  - intros H. apply load_ok in H. destruct H as (_ & Hc & Hv).
    apply cell_load; [|exact Hv]. rewrite (Hfr a eq_refl) by lia. exact Hc.
Qed.

Lemma compare_suffixes_loop_total s l m :
  reads_in m s l ->
  forall fuel start1 start2,
    0 <= start1 <= totallength s -> 0 <= start2 <= totallength s ->
    start1 <> start2 ->
    totallength s - Z.max start1 start2 < Z.of_nat fuel ->
    exists r, compare_suffixes_loop fuel s start1 start2 m = Ok r m /\
      ((r = -1 /\ lex_lt_endmax (suffix l start1) (suffix l start2)) \/
       (r = 1 /\ lex_lt_endmax (suffix l start2) (suffix l start1))).
Proof.
  intros [Htl Hget].
  induction fuel as [|fuel IH]; intros start1 start2 H1 H2 Hne Hfuel; [lia|].
  cbn [compare_suffixes_loop].
  destruct (Z.eqb_spec start1 (totallength s)) as [E1|N1].
  { exists 1. unfold bind, gt_assert.
    replace (start2 <? start1) with true by (symmetry; apply Z.ltb_lt; lia).
    split; [reflexivity|]. right. split; [reflexivity|].
    rewrite E1, Htl, suffix_end. rewrite suffix_cons by lia. constructor. }
  destruct (Z.eqb_spec start2 (totallength s)) as [E2|N2].
  { exists (-1). unfold bind, gt_assert.
    replace (start1 <? start2) with true by (symmetry; apply Z.ltb_lt; lia).
    split; [reflexivity|]. left. split; [reflexivity|].
    rewrite E2, Htl, suffix_end. rewrite suffix_cons by lia. constructor. }
  unfold bind. rewrite !Hget by lia.
  rewrite (suffix_cons l start1), (suffix_cons l start2) by lia.
  destruct (Z.ltb_spec (nth (Z.to_nat start1) l 0) (nth (Z.to_nat start2) l 0))
    as [Hlt|Hge].
  { exists (-1). split; [reflexivity|]. left. split; [reflexivity|].
    apply lt_endmax_head. exact Hlt. }
  destruct (Z.ltb_spec (nth (Z.to_nat start2) l 0) (nth (Z.to_nat start1) l 0))
    as [Hgt|Hle].
  { exists 1. split; [reflexivity|]. right. split; [reflexivity|].
    apply lt_endmax_head. exact Hgt. }
  assert (E : nth (Z.to_nat start1) l 0 = nth (Z.to_nat start2) l 0) by lia.
  destruct (IH (start1 + 1) (start2 + 1)) as (r & Hr & Hres); try lia.
  exists r. split; [exact Hr|]. rewrite E.
  destruct Hres as [[-> Hlt]|[-> Hlt]];
    [left|right]; (split; [reflexivity|]); apply lt_endmax_tail; exact Hlt.
Qed.

(** On two different positions of the sequence the comparison answers. *)
Lemma compare_suffixes_total s l start1 start2 m :
  reads_in m s l ->
  0 <= start1 <= totallength s -> 0 <= start2 <= totallength s ->
  start1 <> start2 ->
  exists r, gt_sain_compare_suffixes s start1 start2 m = Ok r m /\
    ((r = -1 /\ lex_lt_endmax (suffix l start1) (suffix l start2)) \/
     (r = 1 /\ lex_lt_endmax (suffix l start2) (suffix l start1))).
Proof.
  intros Hr H1 H2 Hne. unfold gt_sain_compare_suffixes.
  unfold bind, gt_assert.
  replace ((start1 <=? totallength s) && (start2 <=? totallength s)
           && negb (start1 =? start2)) with true.
  - cbn [ret]. pose proof (proj1 Hr) as Htl.
    eapply compare_suffixes_loop_total; [exact Hr|lia|lia|exact Hne|lia].
  - symmetry. rewrite !andb_true_iff, negb_true_iff.
    repeat split; [apply Z.leb_le; lia|apply Z.leb_le; lia|].
    apply Z.eqb_neq. exact Hne.
Qed.

(** When the comparison answers [-1], the first suffix is the smaller. *)
Lemma compare_suffixes_below s l start1 start2 m m' :
  reads_in m s l ->
  0 <= start1 -> 0 <= start2 ->
  gt_sain_compare_suffixes s start1 start2 m = Ok (-1) m' ->
  lex_lt_endmax (suffix l start1) (suffix l start2).
Proof.
  intros Hr H1 H2 Hrun. pose proof Hrun as Hrun'.
  unfold gt_sain_compare_suffixes in Hrun'.
  apply bind_ok in Hrun'. destruct Hrun' as (u & m1 & Ha & _).
  apply gt_assert_ok in Ha. destruct Ha as [Ha _].
  apply andb_prop in Ha. destruct Ha as [Ha Hne].
  apply andb_prop in Ha. destruct Ha as [Ha Hb].
  apply Z.leb_le in Ha, Hb. apply negb_true_iff, Z.eqb_neq in Hne.
  destruct (compare_suffixes_total s l start1 start2 m Hr) as (r & Hr' & Hres);
    [lia|lia|exact Hne|].
  rewrite Hr' in Hrun. injection Hrun as -> _.
  destruct Hres as [[_ Hlt]|[E _]]; [exact Hlt|discriminate E].
Qed.

(** X4. [gt_sain_compare_suffixes] decides the order of two suffixes, for a
    sequence of any of the three kinds, as the view reads it in the memory
    of the call: on two different start positions within [0, totallength] it
    returns -1 or 1 without changing the memory, -1 exactly when the first
    suffix is below the second one in the order where the end of the
    sequence is the greatest symbol; when a start position is beyond
    [totallength] or the two are equal, its assertion fails. *)
Theorem compare_suffixes_decides s l start1 start2 m :
  reads_in m s l ->
  0 <= start1 -> 0 <= start2 ->
  (start1 <= totallength s -> start2 <= totallength s -> start1 <> start2 ->
   exists r, gt_sain_compare_suffixes s start1 start2 m = Ok r m /\
     ((r = -1 /\ lex_lt_endmax (suffix l start1) (suffix l start2)) \/
      (r = 1 /\ lex_lt_endmax (suffix l start2) (suffix l start1)))) /\
  (totallength s < start1 \/ totallength s < start2 \/ start1 = start2 ->
   gt_sain_compare_suffixes s start1 start2 m = Fail AssertFailed).
Proof.
  intros Hr H1 H2. split.
  - intros Hl1 Hl2 Hne. apply compare_suffixes_total; [exact Hr|lia|lia|exact Hne].
  - intros Hbad. unfold gt_sain_compare_suffixes, bind, gt_assert.
    replace ((start1 <=? totallength s) && (start2 <=? totallength s)
             && negb (start1 =? start2)) with false; [reflexivity|].
    symmetry. rewrite !andb_false_iff, negb_false_iff.
    destruct Hbad as [H|[H|H]].
    + left. left. apply Z.leb_gt. exact H.
    + left. right. apply Z.leb_gt. exact H.
    + right. apply Z.eqb_eq. exact H.
Qed.

End Comparisons.

Section CheckOrder.

Context {hd : GtHeaders}.

Lemma checkorder_passes s l suftab (T : Z -> Z) m n :
  reads_in m s l ->
  forall i,
    (forall idx, i <= idx < i + Z.of_nat n ->
       cell m suftab (idx - 1) = Some (T (idx - 1)) /\
       cell m suftab idx = Some (T idx) /\
       0 <= T (idx - 1) <= totallength s /\ 0 <= T idx <= totallength s /\
       lex_lt_endmax (suffix l (T (idx - 1))) (suffix l (T idx))) ->
    for_up n i
      (fun idx (_ : unit) =>
         a <- load suftab (idx - 1) ;;
         b <- load suftab idx ;;
         cmp <- gt_sain_compare_suffixes s a b ;;
         if cmp =? -1 then ret tt else fail ProgrammingError) tt m
    = Ok tt m.
Proof.
  intros Hr. induction n as [|n IH]; intros i H; [reflexivity|].
  cbn [for_up]. destruct (H i) as (Ha & Hb & Hra & Hrb & Hlt); [lia|].
  unfold bind at 1. unfold bind at 1.
  rewrite (cell_load _ _ _ _ Ha) by lia.
  unfold bind at 1. rewrite (cell_load _ _ _ _ Hb) by lia.
  assert (Hne : T (i - 1) <> T i).
  { intros E. rewrite E in Hlt. exact (lex_lt_endmax_irrefl _ Hlt). }
  destruct (compare_suffixes_total s l (T (i - 1)) (T i) m Hr Hra Hrb Hne)
    as (r & Hcmp & Hres).
  unfold bind at 1. rewrite Hcmp.
  destruct Hres as [[-> _]|[-> Hgt]].
  - cbn. apply IH. intros idx Hidx. apply H. lia.
  - exfalso. exact (lex_lt_endmax_asym _ _ Hlt Hgt).
Qed.

(** X5. [gt_sain_checkorder] passes exactly on increasing tables, for a
    sequence of any of the three kinds, as the view reads it in the memory
    of the call: when the entries [start..end] of the table are positions in
    [0, totallength], the check returns, leaving the memory as it is, if and
    only if the suffix at each entry is below the suffix at the next one. *)
Theorem checkorder_iff_increasing s l suftab start end_ (T : Z -> Z) m :
  reads_in m s l ->
  (forall idx, start <= idx <= end_ ->
     cell m suftab idx = Some (T idx) /\ 0 <= T idx <= totallength s) ->
  (gt_sain_checkorder s suftab start end_ m = Ok tt m <->
   forall idx, start < idx <= end_ ->
     lex_lt_endmax (suffix l (T (idx - 1))) (suffix l (T idx))).
Proof.
  intros Hr HT. split.
  - intros Hrun idx Hidx.
    destruct (checkorder_ok _ _ _ _ _ _ _ Hrun) as [_ Hall].
    destruct (Hall idx) as (a & b & Ha & Ha0 & Hb & Hb0 & Hcmp); [lia|].
    destruct (HT (idx - 1)) as [Ea _]; [lia|].
    destruct (HT idx) as [Eb _]; [lia|].
    rewrite Ea in Ha. rewrite Eb in Hb.
    injection Ha as <-. injection Hb as <-.
    eapply compare_suffixes_below; [exact Hr| | |exact Hcmp]; assumption.
  - intros Hinc. unfold gt_sain_checkorder.
    apply (checkorder_passes s l suftab T m _ Hr).
    intros idx Hidx.
    destruct (HT (idx - 1)) as [Ea Hra]; [lia|].
    destruct (HT idx) as [Eb Hrb]; [lia|].
    repeat split; try assumption; try lia. apply Hinc. lia.
Qed.

End CheckOrder.

Section SstarStrings.

Context {hd : GtHeaders}.

Lemma compare_Sstarstrings_loop_total s l end1 m :
  reads_in m s l ->
  forall fuel start1 start2,
    0 <= start1 <= totallength s -> 0 <= start2 <= totallength s ->
    start1 <> start2 -> start1 <= end1 ->
    end1 - start1 < Z.of_nat fuel ->
    exists r, compare_Sstarstrings_loop fuel s start1 start2 end1 m = Ok r m /\
      (r = 0 <->
       end1 <= totallength s /\ start2 + (end1 - start1) <= totallength s /\
       forall k, 0 <= k < end1 - start1 ->
         nth (Z.to_nat (start1 + k)) l 0 = nth (Z.to_nat (start2 + k)) l 0) /\
      (r = -1 -> lex_lt_endmax (suffix l start1) (suffix l start2)) /\
      (r = 1 -> lex_lt_endmax (suffix l start2) (suffix l start1)) /\
      (r = 0 \/ r = -1 \/ r = 1).
Proof.
  intros [Htl Hget].
  induction fuel as [|fuel IH]; intros start1 start2 H1 H2 Hne Hle Hfuel;
    [lia|].
  cbn [compare_Sstarstrings_loop].
  destruct (Z.ltb_spec start1 end1) as [Hlt1|Hge1].
  2:{ exists 0. split; [reflexivity|]. split; [|split; [|split]];
        try (intros; discriminate); [|left; reflexivity].
      split; [|reflexivity]. intros _. repeat split; lia. }
  destruct (Z.eqb_spec start1 (totallength s)) as [E1|N1].
  { exists 1. unfold bind, gt_assert.
    replace (start2 <? start1) with true by (symmetry; apply Z.ltb_lt; lia).
    split; [reflexivity|]. split; [|split; [|split]];
      try (intros; discriminate); [| |right; right; reflexivity].
    - split; [discriminate|]. intros (Hb & _). lia.
    - intros _. rewrite E1, Htl, suffix_end. rewrite suffix_cons by lia.
      constructor. }
  destruct (Z.eqb_spec start2 (totallength s)) as [E2|N2].
  { exists (-1). unfold bind, gt_assert.
    replace (start1 <? start2) with true by (symmetry; apply Z.ltb_lt; lia).
    split; [reflexivity|]. split; [|split; [|split]];
      try (intros; discriminate); [| |right; left; reflexivity].
    - split; [discriminate|]. intros (_ & Hb & _). lia.
    - intros _. rewrite E2, Htl, suffix_end. rewrite suffix_cons by lia.
      constructor. }
  unfold bind. rewrite !Hget by lia.
  rewrite (suffix_cons l start1), (suffix_cons l start2) by lia.
  destruct (Z.ltb_spec (nth (Z.to_nat start1) l 0) (nth (Z.to_nat start2) l 0))
    as [Hlt|Hge].
  { exists (-1). split; [reflexivity|]. split; [|split; [|split]];
      try (intros; discriminate); [| |right; left; reflexivity].
    - split; [discriminate|]. intros (_ & _ & Hk).
      specialize (Hk 0). rewrite !Z.add_0_r in Hk. lia.
    - intros _. apply lt_endmax_head. exact Hlt. }
  destruct (Z.ltb_spec (nth (Z.to_nat start2) l 0) (nth (Z.to_nat start1) l 0))
    as [Hgt|Hle2].
  { exists 1. split; [reflexivity|]. split; [|split; [|split]];
      try (intros; discriminate); [| |right; right; reflexivity].
    - split; [discriminate|]. intros (_ & _ & Hk).
      specialize (Hk 0). rewrite !Z.add_0_r in Hk. lia.
    - intros _. apply lt_endmax_head. exact Hgt. }
  assert (E : nth (Z.to_nat start1) l 0 = nth (Z.to_nat start2) l 0) by lia.
  destruct (IH (start1 + 1) (start2 + 1)) as (r & Hr & H0 & Hm & Hp & Hcases);
    try lia.
  exists r. split; [exact Hr|]. split; [|split; [|split]].
  - rewrite H0. split.
    + intros (Ha & Hb & Hk). repeat split; try lia.
      intros k Hkr. destruct (Z.eq_dec k 0) as [->|Hk0].
      * rewrite !Z.add_0_r. exact E.
      * specialize (Hk (k - 1)).
        replace (start1 + 1 + (k - 1)) with (start1 + k) in Hk by lia.
        replace (start2 + 1 + (k - 1)) with (start2 + k) in Hk by lia.
        apply Hk. lia.
    + intros (Ha & Hb & Hk). repeat split; try lia.
      intros k Hkr. specialize (Hk (k + 1)).
      replace (start1 + (k + 1)) with (start1 + 1 + k) in Hk by lia.
      replace (start2 + (k + 1)) with (start2 + 1 + k) in Hk by lia.
      apply Hk. lia.
  - intros Er. rewrite E. apply lt_endmax_tail. apply Hm. exact Er.
  - intros Er. rewrite E. apply lt_endmax_tail. apply Hp. exact Er.
  - exact Hcases.
Qed.

(** The comparison as a whole. *)
Lemma compare_Sstarstrings_total s l start1 start2 len m :
  reads_in m s l ->
  0 <= start1 <= totallength s -> 0 <= start2 <= totallength s ->
  start1 <> start2 -> 0 <= len -> start1 + len < wordsize ->
  exists r, gt_sain_compare_Sstarstrings s start1 start2 len m = Ok r m /\
    (r = 0 <->
     start1 + len <= totallength s /\ start2 + len <= totallength s /\
     forall k, 0 <= k < len ->
       nth (Z.to_nat (start1 + k)) l 0 = nth (Z.to_nat (start2 + k)) l 0) /\
    (r = -1 -> lex_lt_endmax (suffix l start1) (suffix l start2)) /\
    (r = 1 -> lex_lt_endmax (suffix l start2) (suffix l start1)) /\
    (r = 0 \/ r = -1 \/ r = 1).
Proof.
  intros Hr H1 H2 Hne Hlen Hw. unfold gt_sain_compare_Sstarstrings.
  unfold bind, gt_assert.
  replace ((start1 <=? totallength s) && (start2 <=? totallength s)
           && negb (start1 =? start2)) with true.
  2:{ symmetry. rewrite !andb_true_iff, negb_true_iff.
      repeat split; [apply Z.leb_le; lia|apply Z.leb_le; lia|].
      apply Z.eqb_neq. exact Hne. }
  cbn [ret]. rewrite u64_small by lia.
  destruct (compare_Sstarstrings_loop_total s l (start1 + len) m Hr
              (S (Z.to_nat len)) start1 start2 H1 H2 Hne)
    as (r & Hrun & H0 & Hrest); try lia.
  exists r. split; [exact Hrun|]. split; [|exact Hrest].
  rewrite H0. replace (start1 + len - start1) with len by lia. reflexivity.
Qed.

(** X6. [gt_sain_compare_Sstarstrings] compares the first [len] symbols of
    two suffixes, for a sequence of any of the three kinds, as the view
    reads it in the memory of the call: on two different start positions it
    always returns 0, -1 or 1 and leaves the memory as it is; it returns 0
    exactly when both windows of [len] symbols lie within the sequence and
    are equal, and -1 (or 1) only when the first suffix is below (or above)
    the second one. *)
Theorem compare_Sstarstrings_decides s l start1 start2 len m :
  reads_in m s l ->
  0 <= start1 <= totallength s -> 0 <= start2 <= totallength s ->
  start1 <> start2 -> 0 <= len -> start1 + len < wordsize ->
  exists r, gt_sain_compare_Sstarstrings s start1 start2 len m = Ok r m /\
    (r = 0 <->
     start1 + len <= totallength s /\ start2 + len <= totallength s /\
     forall k, 0 <= k < len ->
       nth (Z.to_nat (start1 + k)) l 0 = nth (Z.to_nat (start2 + k)) l 0) /\
    (r = -1 -> lex_lt_endmax (suffix l start1) (suffix l start2)) /\
    (r = 1 -> lex_lt_endmax (suffix l start2) (suffix l start1)) /\
    (r = 0 \/ r = -1 \/ r = 1).
Proof.
  intros Hr H1 H2 Hne Hlen Hw.
  exact (compare_Sstarstrings_total s l start1 start2 len m Hr H1 H2 Hne
           Hlen Hw).
Qed.

End SstarStrings.

(** ** The classification by the scan *)

Lemma ltb_endmax_spec a : forall b, ltb_endmax a b = true <-> lex_lt_endmax a b.
Proof.
  induction a as [|x xs IH]; intros b.
  - cbn. split; [discriminate|]. intros H. inversion H.
  - destruct b as [|y ys]; cbn [ltb_endmax].
    + split; [constructor|reflexivity].
    + rewrite orb_true_iff, andb_true_iff, Z.ltb_lt, Z.eqb_eq, IH. split.
      * intros [H|[-> H]]; [apply lt_endmax_head|apply lt_endmax_tail]; exact H.
      * intros H. inversion H; subst; [left; assumption|right; auto].
Qed.

Lemma is_Stype_step l p :
  0 <= p -> p + 1 < Z.of_nat (length l) ->
  is_Stype l p =
  isStype (nth (Z.to_nat p) l 0) (nth (Z.to_nat (p + 1)) l 0)
    (is_Stype l (p + 1)).
Proof.
  intros H0 H1. unfold is_Stype, isStype.
  rewrite (suffix_cons l p) by lia.
  rewrite (suffix_cons l (p + 1)) by lia.
  cbn [ltb_endmax]. reflexivity.
Qed.

Lemma is_Stype_last l :
  (0 < length l)%nat -> is_Stype l (Z.of_nat (length l) - 1) = true.
Proof.
  intros H. unfold is_Stype.
  rewrite (suffix_cons l (Z.of_nat (length l) - 1)) by lia.
  replace (Z.of_nat (length l) - 1 + 1) with (Z.of_nat (length l)) by lia.
  rewrite suffix_end. reflexivity.
Qed.

Lemma positions_above_step l p :
  (S p < length l)%nat ->
  positions_above l p = Z.of_nat (S p) :: positions_above l (S p).
Proof.
  intros H. unfold positions_above.
  replace (length l - S p)%nat with (S (length l - S (S p))) by lia.
  reflexivity.
Qed.

Section Classification.

Context {hd : GtHeaders}.

Lemma filter_length_le' (f : Z -> bool) (l : list Z) :
  (length (filter f l) <= length l)%nat.
Proof.
  induction l as [|h t IH]; cbn; [lia|]. destruct (f h); cbn; lia.
Qed.

Lemma scan_knows_step s l suftab buf p st m st' m' :
  reads s l ->
  Z.of_nat (length l) < wordsize ->
  (S p < length l)%nat ->
  scan_knows l (S p) st ->
  saininfo_step s suftab buf (Z.of_nat p) st m = Ok st' m' ->
  scan_knows l p st'.
Proof.
  intros [Htl Hget] Hw Hp (Hcc & Hty & Hcnt) Hstep.
  apply saininfo_step_state in Hstep.
  destruct Hstep as (cc & m1 & Hg & Ecc & Ety & Ecnt).
  rewrite Hget in Hg by lia. injection Hg as <- <-.
  rewrite Nat2Z.id in *.
  assert (Est : isStype (nth p l 0) (sc_nextcc st) (sc_nextisStype st)
                = is_Stype l (Z.of_nat p)).
  { rewrite is_Stype_step by lia. rewrite Nat2Z.id, Hcc, Hty.
    replace (Z.to_nat (Z.of_nat p + 1)) with (S p) by lia.
    replace (Z.of_nat p + 1) with (Z.of_nat (S p)) by lia. reflexivity. }
  rewrite Est in Ety, Ecnt.
  split; [exact Ecc|]. split; [exact Ety|].
  rewrite Ecnt, positions_above_step by exact Hp. cbn [filter].
  unfold is_Sstar at 1.
  replace (Z.of_nat (S p) - 1) with (Z.of_nat p) by lia.
  rewrite <- Hty.
  destruct (sc_nextisStype st); destruct (is_Stype l (Z.of_nat p));
    cbn [negb andb length]; try exact Hcnt.
  rewrite Hcnt, u64_small; [lia|].
  pose proof (filter_length_le' (is_Sstar l) (positions_above l (S p))).
  unfold positions_above in H at 2. rewrite length_map, length_seq in H. lia.
Qed.

Lemma scan_knows_rest s l suftab buf fuel :
  reads s l ->
  Z.of_nat (length l) < wordsize ->
  forall p st m st' m',
    (S p < length l)%nat ->
    scan_knows l (S p) st ->
    saininfo_scan fuel s suftab buf (Z.of_nat p) st m = Ok st' m' ->
    scan_knows l 0 st'.
Proof.
  intros Hr Hw. induction fuel as [|fuel IH]; intros p st m st' m' Hp Hk Hrun;
    [discriminate|].
  cbn [saininfo_scan] in Hrun. monad_inv Hrun.
  pose proof (scan_knows_step _ _ _ _ _ _ _ _ _ Hr Hw Hp Hk Hrun0) as Hk'.
  destruct (Z.eqb_spec (Z.of_nat p) 0) as [E0|N0].
  - monad_inv Hrun. replace p with 0%nat in Hk' by lia. exact Hk'.
  - destruct p as [|p]; [lia|].
    replace (Z.of_nat (S p) - 1) with (Z.of_nat p) in Hrun by lia.
    eapply IH; [|exact Hk'|exact Hrun]. lia.
Qed.

(** X7. The scan of [gt_saininfo_new] counts the Sstar positions: on a
    sequence whose last symbol is not above the sentinel, [countSstartype]
    is at its end the number of positions [q >= 1] of type S whose left
    neighbour is of type L, and the scan ends knowing the type and the
    symbol of position 0. *)
Theorem scan_counts_Sstar s l suftab buf m st m' :
  reads s l ->
  0 < totallength s < wordsize ->
  nth (length l - 1) l 0 <= GT_UNIQUEINT (totallength s) ->
  saininfo_scan (S (Z.to_nat (totallength s))) s suftab buf
    (u64 (totallength s - 1))
    {| sc_nextcc := GT_UNIQUEINT (totallength s); sc_nextisStype := true;
       sc_countSstartype := 0 |} m = Ok st m' ->
  sc_countSstartype st = Z.of_nat (length (Sstar_positions l)) /\
  sc_nextisStype st = is_Stype l 0 /\
  sc_nextcc st = nth 0 l 0.
Proof.
  intros Hr Hn Hlast Hrun. pose proof Hr as [Htl Hget].
  rewrite u64_small in Hrun by lia.
  cbn [saininfo_scan] in Hrun. monad_inv Hrun.
  assert (Hk : scan_knows l (length l - 1) a).
  { apply saininfo_step_state in Hrun0.
    destruct Hrun0 as (cc & m1 & Hg & Ecc & Ety & Ecnt).
    rewrite Hget in Hg by lia. injection Hg as <- <-.
    cbn [sc_nextcc sc_nextisStype sc_countSstartype] in Ety, Ecnt.
    replace (Z.to_nat (totallength s - 1)) with (length l - 1)%nat in * by lia.
    assert (E : isStype (nth (length l - 1) l 0)
                  (GT_UNIQUEINT (totallength s)) true = true).
    { unfold isStype. rewrite andb_true_r.
      apply orb_true_iff. rewrite Z.ltb_lt, Z.eqb_eq. lia. }
    rewrite E in Ety, Ecnt. cbn in Ecnt.
    split; [exact Ecc|]. split.
    - rewrite Ety. symmetry.
      replace (Z.of_nat (length l - 1)) with (Z.of_nat (length l) - 1) by lia.
      apply is_Stype_last. lia.
    - rewrite Ecnt. unfold positions_above.
      replace (length l - S (length l - 1))%nat with 0%nat by lia.
      reflexivity. }
  assert (Hfin : scan_knows l 0 st).
  { destruct (Z.eqb_spec (totallength s - 1) 0) as [E0|N0].
    - monad_inv Hrun. replace (length l - 1)%nat with 0%nat in Hk by lia.
      exact Hk.
    - replace (totallength s - 1 - 1) with (Z.of_nat (length l - 2)) in Hrun
        by lia.
      assert (Hw : Z.of_nat (length l) < wordsize) by lia.
      apply (scan_knows_rest s l suftab buf (Z.to_nat (totallength s)) Hr Hw
               (length l - 2)%nat a m0 st m');
        [lia| |exact Hrun].
      replace (S (length l - 2)) with (length l - 1)%nat by lia. exact Hk. }
  destruct Hfin as (Hcc & Hty & Hcnt). auto.
Qed.

End Classification.

(** ** The tail of the suffix table *)

Section Tail.

Context {hd : GtHeaders}.

Lemma filltail_range_content suftabtail sc tl r cs m c' m' :
  0 <= cs ->
  filltail_range suftabtail sc tl r cs m = Ok c' m' ->
  c' = cs + Z.of_nat (length (range_positions r)) /\
  (forall k, (k < length (range_positions r))%nat ->
     cell m' suftabtail (cs + Z.of_nat k)
     = Some (u64 (nth k (range_positions r) 0)) /\
     nth k (range_positions r) 0 < tl) /\
  c' <= Z.max cs sc /\
  (forall q j, pblk q <> pblk suftabtail \/
               ~ (cs <= poff q + j - poff suftabtail < c') ->
               cell m' q j = cell m q j).
Proof.
  intros Hcs Hrun. unfold filltail_range in Hrun.
  set (n := Z.to_nat (snd r - fst r)) in *.
  pose (I := fun (k : Z) (c : Z) (mk : mem) =>
               c = cs + (k - fst r) /\ c <= Z.max cs sc /\
               (forall j, 0 <= j < k - fst r ->
                  cell mk suftabtail (cs + j) = Some (u64 (fst r + j)) /\
                  fst r + j < tl) /\
               (forall q j, pblk q <> pblk suftabtail \/
                            ~ (cs <= poff q + j - poff suftabtail < c) ->
                            cell mk q j = cell m q j)).
  assert (HI : I (fst r + Z.of_nat n) c' m').
  { eapply (for_up_inv _ I); [| |exact Hrun].
    - intros k c mk c1 mk' Hk (Ec & Hmax & Hcells & Hfr) Hbody.
      monad_inv Hbody. the_store Hst.
      apply andb_prop in Hassert. destruct Hassert as [Ha Hb].
      apply Z.ltb_lt in Ha. apply Z.ltb_lt in Hb.
      unfold I. split; [lia|]. split; [lia|]. split.
      + intros j Hj. destruct (Z.eq_dec j (k - fst r)) as [->|Hne].
        * replace (cs + (k - fst r)) with c by lia.
          replace (fst r + (k - fst r)) with k by lia.
          split; [eapply store_cell_same; exact Hst|exact Hb].
        * rewrite (store_cell_other _ _ _ _ _ _ _ _ Hst) by (right; lia).
          apply Hcells. lia.
      + intros q j Hq.
        rewrite (store_cell_other _ _ _ _ _ _ _ _ Hst);
          [apply Hfr|]; (destruct Hq as [Hq|Hq]; [left; exact Hq|right; lia]).
    - unfold I. split; [lia|]. split; [lia|]. split; [intros; lia|].
      intros; reflexivity. }
  destruct HI as (Ec & Hmax & Hcells & Hfr).
  assert (Hlen : length (range_positions r) = n).
  { unfold range_positions. rewrite length_map, length_seq. reflexivity. }
  rewrite Hlen. split; [lia|]. split; [|split; [exact Hmax|exact Hfr]].
  intros k Hk. unfold range_positions. fold n.
  rewrite nth_map_seq by exact Hk. apply Hcells. lia.
Qed.

Lemma filltail_ranges_content suftabtail sc tl rs :
  forall cs m c' m',
    0 <= cs ->
    filltail_ranges suftabtail sc tl rs cs m = Ok c' m' ->
    c' = cs + Z.of_nat (length (flat_map range_positions rs)) /\
    (forall k, (k < length (flat_map range_positions rs))%nat ->
       cell m' suftabtail (cs + Z.of_nat k)
       = Some (u64 (nth k (flat_map range_positions rs) 0)) /\
       nth k (flat_map range_positions rs) 0 < tl) /\
    c' <= Z.max cs sc /\
    (forall q j, pblk q <> pblk suftabtail \/
                 ~ (cs <= poff q + j - poff suftabtail < c') ->
                 cell m' q j = cell m q j).
Proof.
  induction rs as [|r rs IH]; intros cs m c' m' Hcs Hrun.
  - cbn [filltail_ranges] in Hrun. monad_inv Hrun. cbn [flat_map length].
    split; [lia|]. split; [intros k Hk; cbn in Hk; lia|].
    split; [lia|]. intros; reflexivity.
  - cbn [filltail_ranges] in Hrun. monad_inv Hrun.
    apply filltail_range_content in Hrun0; [|exact Hcs].
    destruct Hrun0 as (Ea & Hc1 & Hmax1 & Hfr1).
    apply IH in Hrun; [|lia].
    destruct Hrun as (Ec & Hc2 & Hmax2 & Hfr2).
    cbn [flat_map]. rewrite length_app.
    split; [lia|]. split; [|split; [lia|]].
    + intros k Hk.
      destruct (Nat.lt_ge_cases k (length (range_positions r))) as [Hlt|Hge].
      * rewrite app_nth1 by exact Hlt.
        rewrite Hfr2 by (right; lia). apply Hc1. exact Hlt.
      * rewrite app_nth2 by exact Hge.
        replace (cs + Z.of_nat k)
          with (a + Z.of_nat (k - length (range_positions r))) by lia.
        apply Hc2. lia.
    + intros q j Hq. rewrite Hfr2, Hfr1; [reflexivity| |];
        (destruct Hq as [Hq|Hq]; [left; exact Hq|right; lia]).
Qed.

(** X8. [gt_sain_filltailsuffixes] lists the special positions: on a
    sequence with special ranges, when it returns, the positions of the
    ranges, in the order of the iterator, fill the tail of the suffix table,
    there are [specialcharacters] of them, each one is below [totallength],
    the entry behind them is [totallength], and no other cell changes. *)
Theorem filltail_writes_ranges suftabtail encseq rm m u m' :
  gt_encseq_has_specialranges encseq = true ->
  gt_sain_filltailsuffixes suftabtail encseq rm m = Ok u m' ->
  let tl := gt_encseq_total_length encseq in
  let sc := gt_encseq_specialcharacters encseq in
  let ps := flat_map range_positions
              (readranges encseq rm tl (negb (GT_ISDIRREVERSE rm))) in
  Z.of_nat (length ps) = sc /\
  (forall k, (k < length ps)%nat ->
     cell m' suftabtail (Z.of_nat k) = Some (u64 (nth k ps 0)) /\
     nth k ps 0 < tl) /\
  cell m' suftabtail sc = Some (u64 tl) /\
  (forall q j, pblk q <> pblk suftabtail \/
               ~ (0 <= poff q + j - poff suftabtail <= sc) ->
               cell m' q j = cell m q j).
Proof.
  intros Hsr Hrun tl sc ps. unfold gt_sain_filltailsuffixes in Hrun.
  rewrite Hsr in Hrun. monad_inv Hrun. rename Hrun into Hst.
  monad_inv Hrun0. rename Hrun into Hfill.
  replace (if GT_ISDIRREVERSE rm then false else true)
    with (negb (GT_ISDIRREVERSE rm)) in Hfill
    by (destruct (GT_ISDIRREVERSE rm); reflexivity).
  apply filltail_ranges_content in Hfill; [|lia].
  fold tl ps in Hfill. destruct Hfill as (Ea & Hcells & _ & Hfr).
  apply Z.eqb_eq in Hassert. fold sc in Hassert.
  split; [lia|]. split; [|split].
  - intros k Hk. destruct (Hcells k Hk) as [Hc Hb]. split; [|exact Hb].
    rewrite (store_cell_other _ _ _ _ _ _ _ _ Hst) by (right; fold sc; lia).
    exact Hc.
  - eapply store_cell_same. exact Hst.
  - intros q j Hq.
    rewrite (store_cell_other _ _ _ _ _ _ _ _ Hst);
      [apply Hfr|]; (destruct Hq as [Hq|Hq];
                     [left; exact Hq|right; fold sc; lia]).
Qed.

End Tail.

(** ** Moving the names to the front *)

Lemma positive_below_step V lo k :
  lo <= k ->
  positive_below V lo (k + 1)
  = positive_below V lo k ++ (if 0 <? V k then [k] else []).
Proof.
  intros H. unfold positive_below.
  replace (Z.to_nat (k + 1 - lo)) with (S (Z.to_nat (k - lo))) by lia.
  rewrite seq_S, map_app, filter_app. cbn [map filter Nat.add].
  replace (lo + Z.of_nat (Z.to_nat (k - lo))) with k by lia.
  destruct (0 <? V k); reflexivity.
Qed.

Lemma positive_below_length V lo hi :
  Z.of_nat (length (positive_below V lo hi)) <= Z.max 0 (hi - lo).
Proof.
  unfold positive_below.
  pose proof (filter_length_le (fun i => 0 <? V i)
                (map (fun j => lo + Z.of_nat j)
                   (List.seq 0 (Z.to_nat (hi - lo))))) as H.
  rewrite length_map, length_seq in H. lia.
Qed.

(** X9. [gt_sain_movenames2front] compacts the names: when it returns,
    exactly [numberofsuffixes] of the entries
    [numberofsuffixes .. numberofsuffixes + totallength/2] were positive,
    these, each less one, now fill the entries
    [numberofsuffixes .. 2 numberofsuffixes) in their order, and no other
    cell changes. *)
Theorem movenames2front_compacts suftab ns tl (V : Z -> Z) m u m' :
  0 <= ns -> 2 * ns < wordsize -> 0 <= tl ->
  (forall i, ns <= i <= ns + tl / 2 -> cell m suftab i = Some (V i)) ->
  gt_sain_movenames2front suftab ns tl m = Ok u m' ->
  let idxs := positive_below V ns (ns + tl / 2 + 1) in
  Z.of_nat (length idxs) = ns /\
  (forall k, (k < length idxs)%nat ->
     cell m' suftab (ns + Z.of_nat k) = Some (u64 (V (nth k idxs 0) - 1))) /\
  (forall q j, pblk q <> pblk suftab \/
               ~ (ns <= poff q + j - poff suftab < 2 * ns) ->
               cell m' q j = cell m q j).
Proof.
  intros Hns Hw Htl HV Hrun idxs. unfold gt_sain_movenames2front in Hrun.
  monad_inv Hrun. rename a into wptr.
  assert (Ediv : GT_DIV2 tl = tl / 2).
  { unfold GT_DIV2. rewrite Z.shiftr_div_pow2 by lia. reflexivity. }
  rewrite Ediv in Hrun0.
  pose (I := fun (k : Z) (w : Z) (mk : mem) =>
               w = ns + Z.of_nat (length (positive_below V ns k)) /\
               (forall j, (j < length (positive_below V ns k))%nat ->
                  cell mk suftab (ns + Z.of_nat j)
                  = Some (u64 (V (nth j (positive_below V ns k) 0) - 1))) /\
               (forall q j, pblk q <> pblk suftab \/
                            ~ (ns <= poff q + j - poff suftab < w) ->
                            cell mk q j = cell m q j)).
  assert (HI : I (ns + Z.of_nat (Z.to_nat (tl / 2 + 1))) wptr m').
  { eapply (for_up_inv _ I); [| |exact Hrun0].
    - intros k w mk w' mk' Hk (Ew & Hcells & Hfr) Hbody.
      assert (Hdiv : 0 <= tl / 2) by (apply Z.div_pos; lia).
      pose proof (positive_below_length V ns k) as Hlen.
      monad_inv Hbody. apply load_ok in Hrun. destruct Hrun as (-> & Hv & Hv0).
      rewrite Hfr in Hv by (right; lia).
      rewrite HV in Hv by lia. injection Hv as <-.
      unfold I. rewrite positive_below_step by lia.
      destruct (0 <? V k) eqn:Epos.
      + monad_inv Hbody. the_store Hst. rewrite length_app. cbn [length].
        split; [lia|]. split.
        * intros j Hj.
          destruct (Nat.eq_dec j (length (positive_below V ns k))) as [->|Hne].
          -- rewrite app_nth2 by lia. rewrite Nat.sub_diag. cbn [nth].
             replace (ns + Z.of_nat (length (positive_below V ns k)))
               with w by lia.
             eapply store_cell_same. exact Hst.
          -- rewrite app_nth1 by lia.
             rewrite (store_cell_other _ _ _ _ _ _ _ _ Hst) by (right; lia).
             apply Hcells. lia.
        * intros q j Hq.
          rewrite (store_cell_other _ _ _ _ _ _ _ _ Hst);
            [apply Hfr|]; (destruct Hq as [Hq|Hq]; [left; exact Hq|right; lia]).
      + apply ret_ok in Hbody. destruct Hbody as [<- <-]. rewrite app_nil_r.
        split; [exact Ew|]. split; [exact Hcells|exact Hfr].
    - unfold I. unfold positive_below. rewrite Z.sub_diag. cbn.
      split; [lia|]. split; [intros; lia|]. intros; reflexivity. }
  destruct HI as (Ew & Hcells & Hfr).
  assert (Hdiv : 0 <= tl / 2) by (apply Z.div_pos; lia).
  replace (ns + Z.of_nat (Z.to_nat (tl / 2 + 1))) with (ns + tl / 2 + 1)
    in * by lia.
  fold idxs in Ew, Hcells.
  apply Z.eqb_eq in Hassert. unfold GT_MULT2 in Hassert.
  rewrite Z.shiftl_mul_pow2 in Hassert by lia.
  rewrite u64_small in Hassert by lia.
  split; [lia|]. split; [exact Hcells|].
  intros q j Hq. apply Hfr.
  destruct Hq as [Hq|Hq]; [left; exact Hq|right; lia].
Qed.

(** ** Back from the recursion *)

Lemma cell_padd m p d i : cell m (padd p d) i = cell m p (d + i).
Proof. unfold cell, padd. cbn [pblk poff]. rewrite Z.add_assoc. reflexivity. Qed.

Lemma Sstar_above_step l p :
  (S p < length l)%nat ->
  Sstar_above l p =
  (if is_Sstar l (Z.of_nat (S p)) then [Z.of_nat (S p)] else [])
  ++ Sstar_above l (S p).
Proof.
  intros H. unfold Sstar_above. rewrite positions_above_step by exact H.
  cbn [filter]. destruct (is_Sstar l (Z.of_nat (S p))); reflexivity.
Qed.

Lemma Sstar_above_last l p :
  (length l <= S p)%nat -> Sstar_above l p = [].
Proof.
  intros H. unfold Sstar_above, positions_above.
  replace (length l - S p)%nat with 0%nat by lia. reflexivity.
Qed.

Lemma Sstar_above_length l p :
  (length (Sstar_above l p) <= length (Sstar_above l 0))%nat.
Proof.
  induction p as [|p IH]; [lia|].
  destruct (Nat.lt_ge_cases (S p) (length l)) as [Hlt|Hge].
  - rewrite (Sstar_above_step l p Hlt), length_app in IH. lia.
  - rewrite Sstar_above_last by lia. cbn. lia.
Qed.

Section Expand.

Context {hd : GtHeaders}.

Lemma expandorder_step_plain s sstarsuffixes position st m st' m' :
  expandorder_step s sstarsuffixes None None position st m = Ok st' m' ->
  exists currentcc,
    gt_sainseq_getchar s position m = Ok currentcc m /\
    ex_nextcc st' = currentcc /\
    ex_nextisStype st' = isStype currentcc (ex_nextcc st) (ex_nextisStype st) /\
    if negb (isStype currentcc (ex_nextcc st) (ex_nextisStype st))
       && ex_nextisStype st
    then store sstarsuffixes (ex_writeidx st) (position + 1) m = Ok tt m' /\
         ex_writeidx st' = u64 (ex_writeidx st - 1)
    else m' = m /\ ex_writeidx st' = ex_writeidx st.
Proof.
  unfold expandorder_step. intros H. monad_inv H.
  pose proof (getchar_mem _ _ _ _ _ Hrun) as ->.
  exists a. split; [exact Hrun|]. cbn [ex_nextcc ex_nextisStype ex_writeidx].
  split; [reflexivity|]. split; [reflexivity|].
  destruct (negb (isStype a (ex_nextcc st) (ex_nextisStype st))
            && ex_nextisStype st).
  - monad_inv Hrun0. the_store Hst.
    match type of Hst with _ = Ok ?u _ => destruct u end.
    split; [exact Hst|reflexivity].
  - apply ret_ok in Hrun0. destruct Hrun0 as [<- <-]. split; reflexivity.
Qed.

Lemma expand_knows_step s l count suftab m p st mk st' mk' :
  reads s l ->
  Z.of_nat (length l) < wordsize ->
  count = Z.of_nat (length (Sstar_positions l)) ->
  (S p < length l)%nat ->
  expand_knows l count suftab m (S p) st mk ->
  expandorder_step s (padd suftab count) None None (Z.of_nat p) st mk
  = Ok st' mk' ->
  expand_knows l count suftab m p st' mk'.
Proof.
  intros [Htl Hget] Hw Hcount Hp (Hcc & Hty & Hwi & Hcells & Hfr) Hstep.
  apply expandorder_step_plain in Hstep.
  destruct Hstep as (cc & Hg & Ecc & Ety & Hev).
  rewrite Hget in Hg by lia. injection Hg as <-.
  rewrite Nat2Z.id in *.
  assert (Est : isStype (nth p l 0) (ex_nextcc st) (ex_nextisStype st)
                = is_Stype l (Z.of_nat p)).
  { rewrite is_Stype_step by lia. rewrite Nat2Z.id, Hcc, Hty.
    replace (Z.to_nat (Z.of_nat p + 1)) with (S p) by lia.
    replace (Z.of_nat p + 1) with (Z.of_nat (S p)) by lia. reflexivity. }
  rewrite Est in Ety, Hev.
  assert (Eab : Sstar_above l p =
                (if ex_nextisStype st && negb (is_Stype l (Z.of_nat p))
                 then [Z.of_nat (S p)] else []) ++ Sstar_above l (S p)).
  { rewrite (Sstar_above_step l p Hp). unfold is_Sstar.
    replace (Z.of_nat (S p) - 1) with (Z.of_nat p) by lia.
    rewrite Hty. reflexivity. }
  pose proof (Sstar_above_length l p) as Hle.
  change (Sstar_above l 0) with (Sstar_positions l) in Hle.
  unfold expand_knows. rewrite Eab. rewrite Eab in Hle. clear Eab.
  rewrite andb_comm in Hev.
  destruct (ex_nextisStype st); destruct (is_Stype l (Z.of_nat p));
    cbn [negb andb app length] in *;
    try (destruct Hev as [-> Ewi]; rewrite Ewi;
         split; [exact Ecc|]; split; [exact Ety|]; split; [exact Hwi|];
         split; [exact Hcells|exact Hfr]).
  destruct Hev as [Hst Ewi].
  set (n := Z.of_nat (length (Sstar_above l (S p)))) in *.
  assert (Hn : 0 <= n < count) by lia.
  assert (Hcw : count <= Z.of_nat (length l)).
  { rewrite Hcount. unfold Sstar_positions.
    pose proof (filter_length_le (is_Sstar l) (positions_above l 0)) as H.
    unfold positions_above in H at 2. rewrite length_map, length_seq in H.
    lia. }
  rewrite Hwi in Hst, Ewi.
  rewrite (u64_small (count - 1 - n)) in Hst, Ewi by lia.
  assert (En : Z.of_nat (S (length (Sstar_above l (S p)))) = n + 1)
    by (unfold n; lia).
  rewrite En. clearbody n.
  split; [exact Ecc|]. split; [exact Ety|]. split.
  { rewrite Ewi. f_equal. lia. }
  split.
  - intros k Hk. destruct k as [|k].
    + cbn [nth].
      replace (count + (count - (n + 1)) + Z.of_nat 0)
        with (count + (count - 1 - n)) by lia.
      rewrite <- cell_padd.
      rewrite (store_cell_same _ _ _ _ _ _ Hst). f_equal.
      rewrite u64_small by lia. lia.
    + cbn [nth].
      rewrite (store_cell_other _ _ _ _ _ _ _ _ Hst)
        by (right; cbn [padd poff]; lia).
      replace (count + (count - (n + 1)) + Z.of_nat (S k))
        with (count + (count - n) + Z.of_nat k) by lia.
      apply Hcells. lia.
  - intros q j Hq.
    rewrite (store_cell_other _ _ _ _ _ _ _ _ Hst);
      [apply Hfr|];
      (destruct Hq as [Hq|Hq]; [left; exact Hq|right; cbn [padd poff]; lia]).
Qed.

Lemma expand_knows_rest s l count suftab m fuel :
  reads s l ->
  Z.of_nat (length l) < wordsize ->
  count = Z.of_nat (length (Sstar_positions l)) ->
  forall p st mk u m',
    (S p < length l)%nat ->
    expand_knows l count suftab m (S p) st mk ->
    expandorder_scan fuel s (padd suftab count) None None (Z.of_nat p) st mk
    = Ok u m' ->
    exists st', expand_knows l count suftab m 0 st' m'.
Proof.
  intros Hr Hw Hc. induction fuel as [|fuel IH];
    intros p st mk u m' Hp Hk Hrun; [discriminate|].
  cbn [expandorder_scan] in Hrun. monad_inv Hrun.
  pose proof (expand_knows_step _ _ _ _ _ _ _ _ _ _ Hr Hw Hc Hp Hk Hrun0)
    as Hk'.
  destruct (Z.eqb_spec (Z.of_nat p) 0) as [E0|N0].
  - monad_inv Hrun. replace p with 0%nat in Hk' by lia. eauto.
  - destruct p as [|p]; [lia|].
    replace (Z.of_nat (S p) - 1) with (Z.of_nat p) in Hrun by lia.
    eapply IH; [|exact Hk'|exact Hrun]. lia.
Qed.

(** The scan as a whole, for a sequence that is not an integer array. *)
Lemma expand_scan_all s l count suftab m u m' :
  reads s l ->
  0 < totallength s < wordsize ->
  nth (length l - 1) l 0 <= GT_UNIQUEINT (totallength s) ->
  count = Z.of_nat (length (Sstar_positions l)) ->
  expandorder_scan (S (Z.to_nat (totallength s))) s (padd suftab count)
    None None (u64 (totallength s - 1))
    {| ex_nextcc := GT_UNIQUEINT (totallength s); ex_nextisStype := true;
       ex_writeidx := u64 (count - 1) |} m = Ok u m' ->
  exists st', expand_knows l count suftab m 0 st' m'.
Proof.
  intros Hr Hn Hlast Hc Hrun. pose proof Hr as [Htl Hget].
  rewrite u64_small in Hrun by lia.
  cbn [expandorder_scan] in Hrun. monad_inv Hrun.
  assert (Hk : expand_knows l count suftab m (length l - 1) a m0).
  { apply expandorder_step_plain in Hrun0.
    destruct Hrun0 as (cc & Hg & Ecc & Ety & Hev).
    rewrite Hget in Hg by lia. injection Hg as <-.
    cbn [ex_nextcc ex_nextisStype ex_writeidx] in Ety, Hev.
    replace (Z.to_nat (totallength s - 1)) with (length l - 1)%nat in * by lia.
    assert (E : isStype (nth (length l - 1) l 0)
                  (GT_UNIQUEINT (totallength s)) true = true).
    { unfold isStype. rewrite andb_true_r.
      apply orb_true_iff. rewrite Z.ltb_lt, Z.eqb_eq. lia. }
    rewrite E in Ety, Hev. cbn [negb andb] in Hev. destruct Hev as [-> Ewi].
    unfold expand_knows. rewrite Sstar_above_last by lia. cbn [length].
    split; [exact Ecc|]. split.
    { rewrite Ety. symmetry.
      replace (Z.of_nat (length l - 1)) with (Z.of_nat (length l) - 1) by lia.
      apply is_Stype_last. lia. }
    split; [rewrite Ewi; f_equal; lia|].
    split; [intros k Hk; lia|]. intros; reflexivity. }
  destruct (Z.eqb_spec (totallength s - 1) 0) as [E0|N0].
  - monad_inv Hrun. replace (length l - 1)%nat with 0%nat in Hk by lia. eauto.
  - replace (totallength s - 1 - 1) with (Z.of_nat (length l - 2)) in Hrun
      by lia.
    assert (Hw : Z.of_nat (length l) < wordsize) by lia.
    apply (expand_knows_rest s l count suftab m (Z.to_nat (totallength s))
             Hr Hw Hc (length l - 2)%nat a m0 u m'); [lia| |exact Hrun].
    replace (S (length l - 2)) with (length l - 1)%nat by lia. exact Hk.
Qed.

Lemma Sstar_positions_range l k :
  0 <= nth k (Sstar_positions l) 0 < Z.max 1 (Z.of_nat (length l)).
Proof.
  destruct (Nat.lt_ge_cases k (length (Sstar_positions l))) as [Hlt|Hge].
  - pose proof (nth_In _ 0 Hlt) as Hin. unfold Sstar_positions in Hin.
    apply filter_In in Hin. destruct Hin as [Hin _].
    unfold positions_above in Hin. apply in_map_iff in Hin.
    destruct Hin as (x & Ex & Hx). apply in_seq in Hx.
    unfold Sstar_positions, positions_above. rewrite <- Ex. lia.
  - replace (nth k (Sstar_positions l) 0) with 0
      by (symmetry; apply nth_overflow; exact Hge).
    lia.
Qed.

(** X10. [gt_sain_expandorder2original] maps ranks back to positions: on a
    sequence that is not an integer array, with the ranks [R i] of the
    sorted Sstar suffixes in the first [count] entries, entry [i] becomes
    the [R i]-th Sstar position of the sequence, the next [count] entries
    hold the Sstar positions in ascending order, the view is returned
    unchanged and no cell outside of these [2 count] entries changes. *)
Theorem expandorder_maps_ranks s l count suftab (R : Z -> Z) m s' m' :
  reads s l ->
  (forall a, seq s <> SeqArray a) ->
  0 < totallength s < wordsize ->
  nth (length l - 1) l 0 <= GT_UNIQUEINT (totallength s) ->
  count = Z.of_nat (length (Sstar_positions l)) ->
  (forall i, 0 <= i < count ->
     cell m suftab i = Some (R i) /\ 0 <= R i < count) ->
  gt_sain_expandorder2original s count suftab m = Ok s' m' ->
  s' = s /\
  (forall i, 0 <= i < count ->
     cell m' suftab i = Some (nth (Z.to_nat (R i)) (Sstar_positions l) 0)) /\
  (forall k, 0 <= k < count ->
     cell m' suftab (count + k)
     = Some (nth (Z.to_nat k) (Sstar_positions l) 0)) /\
  (forall q j, pblk q <> pblk suftab \/
               ~ (0 <= poff q + j - poff suftab < 2 * count) ->
               cell m' q j = cell m q j).
Proof.
  intros Hr Hna Hn Hlast Hc HR Hrun. pose proof Hr as [Htl Hget].
  unfold gt_sain_expandorder2original in Hrun.
  assert (Hrun' :
    (expandorder_scan (S (Z.to_nat (totallength s))) s (padd suftab count)
       None None (u64 (totallength s - 1))
       {| ex_nextcc := GT_UNIQUEINT (totallength s); ex_nextisStype := true;
          ex_writeidx := u64 (count - 1) |} ;;
     for_up (Z.to_nat count) 0
       (fun i (_ : unit) =>
          v <- load suftab i ;;
          w <- load (padd suftab count) v ;;
          store suftab i w) tt ;;
     ret s) m = Ok s' m').
  { destruct (seq s) as [e|pl|arr] eqn:Eseq;
      [| |exfalso; eapply Hna; reflexivity];
      unfold bind at 1 in Hrun; cbn [ret] in Hrun; exact Hrun. }
  clear Hrun. monad_inv Hrun'. split; [reflexivity|].
  rename Hrun into Hscan, Hrun0 into Hloop.
  destruct (expand_scan_all _ _ _ _ _ _ _ Hr Hn Hlast Hc Hscan)
    as (st1 & _ & _ & _ & Hss & Hfr1).
  change (Sstar_above l 0) with (Sstar_positions l) in Hss, Hfr1.
  rewrite <- Hc in Hss, Hfr1. rewrite Z.sub_diag, Z.add_0_r in Hss, Hfr1.
  pose (I := fun (k : Z) (_ : unit) (mk : mem) =>
               (forall i, 0 <= i < k ->
                  cell mk suftab i
                  = Some (nth (Z.to_nat (R i)) (Sstar_positions l) 0)) /\
               (forall q j, pblk q <> pblk suftab \/
                            ~ (0 <= poff q + j - poff suftab < k) ->
                            cell mk q j = cell m0 q j)).
  assert (HI : I (0 + Z.of_nat (Z.to_nat count)) a0 m').
  { eapply (for_up_inv _ I); [| |exact Hloop].
    - intros k [] mk [] mk' Hk (Hdone & Hfr) Hbody.
      monad_inv Hbody. the_store Hst.
      apply load_ok in Hrun. destruct Hrun as (-> & Hv & _).
      apply load_ok in Hrun0. destruct Hrun0 as (-> & Hw & _).
      rewrite Hfr in Hv by (right; lia).
      rewrite Hfr1 in Hv by (right; lia).
      destruct (HR k) as [Ev HRk]; [lia|].
      rewrite Ev in Hv. injection Hv as <-.
      rewrite cell_padd, Hfr in Hw by (right; lia).
      replace (count + R k) with (count + Z.of_nat (Z.to_nat (R k))) in Hw
        by lia.
      rewrite Hss in Hw by lia. injection Hw as <-.
      unfold I. split.
      + intros i Hi. destruct (Z.eq_dec i k) as [->|Hne].
        * rewrite (store_cell_same _ _ _ _ _ _ Hst). f_equal.
          apply u64_small.
          pose proof (Sstar_positions_range l (Z.to_nat (R k))). lia.
        * rewrite (store_cell_other _ _ _ _ _ _ _ _ Hst) by (right; lia).
          apply Hdone. lia.
      + intros q j Hq.
        rewrite (store_cell_other _ _ _ _ _ _ _ _ Hst);
          [apply Hfr|]; (destruct Hq as [Hq|Hq]; [left; exact Hq|right; lia]).
    - unfold I. split; [intros; lia|]. intros; reflexivity. }
  destruct HI as (Hdone & Hfr).
  assert (Hc0 : 0 <= count) by lia.
  rewrite Z.add_0_l, Z2Nat.id in Hdone, Hfr by exact Hc0.
  split; [exact Hdone|]. split.
  - intros k Hk. rewrite Hfr by (right; lia).
    replace (count + k) with (count + Z.of_nat (Z.to_nat k)) by lia.
    apply Hss. lia.
  - intros q j Hq. rewrite Hfr, Hfr1; [reflexivity| |];
      (destruct Hq as [Hq|Hq]; [left; exact Hq|right; lia]).
Qed.

End Expand.

(** ** The sequence view of a recursive level *)

Lemma cell_block_lt m p i v : cell m p i = Some v -> (pblk p < length m)%nat.
Proof.
  unfold cell. destruct (inbounds _ _) eqn:E; [|discriminate]. intros _.
  eapply inbounds_block. exact E.
Qed.

Lemma symbols_of_S A n : symbols_of A (S n) = symbols_of A n ++ [A (Z.of_nat n)].
Proof. unfold symbols_of. rewrite seq_S, map_app. reflexivity. Qed.

Lemma symbols_of_length A n : length (symbols_of A n) = n.
Proof. unfold symbols_of. rewrite length_map, length_seq. reflexivity. Qed.

Section ArrayView.

Context {hd : GtHeaders}.

(** X11. [gt_sainseq_new_from_array] takes its arrays from the unused end
    of the suffix table: when [4 numofchars] entries are free it prints
    nothing, allocates nothing, puts [bucketsize], [bucketfillptr] and the
    round table (if there is one) at [numofchars], [2 numofchars] and
    [4 numofchars] entries before the end of the table, sets the three
    [points2suftab] flags accordingly, and the two bucket arrays share no
    cell. *)
Theorem new_from_array_reclaims arr len nc suftab fu se m ev s m' :
  0 <= nc -> 0 <= fu -> se < wordsize -> 4 * nc <= se - fu ->
  gt_sainseq_new_from_array arr len nc suftab fu se m = (ev, Ok s m') ->
  ev = [] /\ length m' = length m /\
  bucketsize s = padd suftab (se - nc) /\
  bucketfillptr s = padd suftab (se - 2 * nc) /\
  (forall p, roundtable s = Some p -> p = padd suftab (se - 4 * nc)) /\
  bucketsizepoints2suftab s = true /\
  bucketfillptrpoints2suftab s = true /\
  (forall p, roundtable s = Some p -> roundtablepoints2suftab s = true) /\
  buckets_apart s.
Proof.
  intros Hnc Hfu Hse Hroom Hnew.
  unfold gt_sainseq_new_from_array in Hnew.
  assert (Hleft : u64 (se - fu) = se - fu) by (apply u64_small; lia).
  assert (E2 : GT_MULT2 nc = 2 * nc).
  { unfold GT_MULT2. rewrite Z.shiftl_mul_pow2 by lia.
    rewrite u64_small; lia. }
  assert (E4 : GT_MULT4 nc = 4 * nc).
  { unfold GT_MULT4. rewrite Z.shiftl_mul_pow2 by lia.
    rewrite u64_small; lia. }
  rewrite Hleft, E2, E4 in Hnew.
  replace (nc <=? se - fu) with true in Hnew
    by (symmetry; apply Z.leb_le; lia).
  replace (2 * nc <=? se - fu) with true in Hnew
    by (symmetry; apply Z.leb_le; lia).
  replace (4 * nc <=? se - fu) with true in Hnew
    by (symmetry; apply Z.leb_le; lia).
  apply bindT_ok in Hnew. destruct Hnew as (ev1 & u & m1 & ev2 & Ha & H & ->).
  apply lift_ok in Ha. destruct Ha as [-> Ha].
  apply gt_assert_ok in Ha. destruct Ha as [_ ->].
  apply bindT_ok in H. destruct H as (ev3 & bs & m2 & ev4 & Hb & H & ->).
  apply retT_ok in Hb. destruct Hb as (-> & <- & ->).
  apply lift_ok in H. destruct H as [-> H]. monad_inv H.
  assert (Hrt : m0 = m /\ (a = (None, false) \/
                           a = (Some (padd suftab (se - 4 * nc)), true))).
  { destruct (gt_sain_decideforfastmethod (u64 (len + 1)) len);
      apply ret_ok in Hrun; destruct Hrun as [<- <-]; auto. }
  destruct Hrt as (-> & Hr). clear Hrun.
  assert (Hstore_len : forall p n i u0 mm mm',
            for_up n i (fun (charidx : Z) (_ : unit) => store p charidx 0)
              u0 mm = Ok tt mm' -> length mm' = length mm).
  { intros p n. induction n as [|n IH]; intros i u0 mm mm' Hrun;
      cbn [for_up] in Hrun.
    - monad_inv Hrun. reflexivity.
    - monad_inv Hrun. destruct a0. apply IH in Hrun. rewrite Hrun.
      eapply store_length. exact Hrun0. }
  assert (Hincr_len : forall p n i u0 mm mm',
            for_up n i (fun (i : Z) (_ : unit) =>
                          c <- load arr i ;; incr p c) u0 mm = Ok tt mm' ->
            length mm' = length mm).
  { intros p n. induction n as [|n IH]; intros i u0 mm mm' Hrun;
      cbn [for_up] in Hrun.
    - monad_inv Hrun. reflexivity.
    - monad_inv Hrun. destruct a0. apply IH in Hrun. rewrite Hrun.
      monad_inv Hrun0. the_load Hl. apply load_mem in Hl. subst.
      match goal with Hi : incr _ _ _ = Ok _ _ |- _ =>
        eapply incr_length; exact Hi end. }
  assert (Hgoal : forall rtab rtab2suf,
            (rtab = None \/ (rtab = Some (padd suftab (se - 4 * nc)) /\
                             rtab2suf = true)) ->
            (for_up (Z.to_nat nc) 0
               (fun (charidx : Z) (_ : unit) =>
                  store (padd suftab (se - nc)) charidx 0) tt ;;
             for_up (Z.to_nat len) 0
               (fun (i : Z) (_ : unit) =>
                  c <- load arr i ;; incr (padd suftab (se - nc)) c) tt ;;
             ret {| totallength := len; numofchars := nc; currentround := 0;
                    bucketsize := padd suftab (se - nc);
                    bucketfillptr := padd suftab (se - 2 * nc);
                    sstarfirstcharcount := None; roundtable := rtab;
                    seq := SeqArray arr; readmode := GT_READMODE_FORWARD;
                    bucketfillptrpoints2suftab := true;
                    bucketsizepoints2suftab := true;
                    roundtablepoints2suftab := rtab2suf |}) m = Ok s m' ->
            length m' = length m /\
            bucketsize s = padd suftab (se - nc) /\
            bucketfillptr s = padd suftab (se - 2 * nc) /\
            (forall p, roundtable s = Some p ->
                       p = padd suftab (se - 4 * nc)) /\
            bucketsizepoints2suftab s = true /\
            bucketfillptrpoints2suftab s = true /\
            (forall p, roundtable s = Some p ->
                       roundtablepoints2suftab s = true) /\
            buckets_apart s).
  { intros rtab rtab2suf Hcase Hrun. monad_inv Hrun.
    destruct a0, a1.
    apply Hstore_len in Hrun0. apply Hincr_len in Hrun1.
    cbn [bucketsize bucketfillptr roundtable bucketsizepoints2suftab
         bucketfillptrpoints2suftab roundtablepoints2suftab].
    split; [congruence|].
    split; [reflexivity|]. split; [reflexivity|]. split.
    { intros p Ep. destruct Hcase as [->|[-> _]]; [discriminate|].
      injection Ep as <-. reflexivity. }
    split; [reflexivity|]. split; [reflexivity|]. split.
    { intros p Ep. destruct Hcase as [->|[_ ->]]; [discriminate|reflexivity]. }
    intros c c' Hc Hc'.
    cbn [numofchars bucketsize bucketfillptr padd poff] in *.
    right. lia. }
  split; [reflexivity|].
  destruct Hr as [-> | ->]; cbv beta iota in H;
    [apply (Hgoal None false)|
     apply (Hgoal (Some (padd suftab (se - 4 * nc))) true)]; auto.
Qed.

Lemma count_occ_app_one (l : list Z) x c :
  count_occ Z.eq_dec (l ++ [x]) c
  = (count_occ Z.eq_dec l c + if Z.eq_dec x c then 1 else 0)%nat.
Proof.
  rewrite count_occ_app. cbn. destruct (Z.eq_dec x c); reflexivity.
Qed.

(** The two loops at the end of the constructor: the counters are set to
    zero and every symbol of the sequence is counted. *)
Lemma count_symbols arr bsize len nc (A : Z -> Z) m u m' :
  0 <= nc -> 0 <= len < wordsize ->
  (forall i, 0 <= i < len -> cell m arr i = Some (A i) /\ 0 <= A i < nc) ->
  (forall i c, 0 <= i < len -> 0 <= c < nc ->
     pblk arr <> pblk bsize \/ poff arr + i <> poff bsize + c) ->
  (for_up (Z.to_nat nc) 0
     (fun (charidx : Z) (_ : unit) => store bsize charidx 0) tt ;;
   for_up (Z.to_nat len) 0
     (fun (i : Z) (_ : unit) => c <- load arr i ;; incr bsize c) tt) m
  = Ok u m' ->
  (forall c, 0 <= c < nc ->
     cell m' bsize c
     = Some (Z.of_nat (count_occ Z.eq_dec (symbols_of A (Z.to_nat len)) c))) /\
  (forall q j, pblk q <> pblk bsize \/
               ~ (0 <= poff q + j - poff bsize < nc) ->
               cell m' q j = cell m q j).
Proof.
  intros Hnc Hlen HA Hapart Hrun. monad_inv Hrun.
  rename Hrun0 into Hzero, Hrun into Hcount.
  apply for_up_store in Hzero. destruct Hzero as [Hz Hzfr].
  pose (I := fun (k : Z) (_ : unit) (mk : mem) =>
               (forall c, 0 <= c < nc ->
                  cell mk bsize c
                  = Some (Z.of_nat (count_occ Z.eq_dec
                                      (symbols_of A (Z.to_nat k)) c))) /\
               (forall q j, pblk q <> pblk bsize \/
                            ~ (0 <= poff q + j - poff bsize < nc) ->
                            cell mk q j = cell m q j)).
  assert (HI : I (0 + Z.of_nat (Z.to_nat len)) u m').
  { eapply (for_up_inv _ I); [| |exact Hcount].
    - intros k [] mk [] mk' Hk (Hcnt & Hfr) Hbody.
      monad_inv Hbody. the_load Hl.
      apply load_ok in Hl. destruct Hl as (-> & Hv & _).
      destruct (HA k) as [EA HAk]; [lia|].
      assert (Hout : pblk arr <> pblk bsize \/
                     ~ (0 <= poff arr + k - poff bsize < nc)).
      { destruct (Nat.eq_dec (pblk arr) (pblk bsize)) as [E|N];
          [right|left; exact N].
        intros Hr.
        destruct (Hapart k (poff arr + k - poff bsize)) as [H|H];
          [lia|lia|contradiction|lia]. }
      rewrite Hfr, EA in Hv by exact Hout. injection Hv as <-.
      apply incr_ok in Hbody. destruct Hbody as (v & Hv & Hv' & Hoth).
      rewrite Hcnt in Hv by exact HAk. injection Hv as <-.
      unfold I. replace (Z.to_nat (k + 1)) with (S (Z.to_nat k)) by lia.
      rewrite symbols_of_S, Z2Nat.id by lia. split.
      + intros c Hc. rewrite count_occ_app_one.
        destruct (Z.eq_dec (A k) c) as [<-|Hne].
        * rewrite Hv'. f_equal. rewrite u64_small; [lia|].
          pose proof (count_occ_le_length (symbols_of A (Z.to_nat k)) (A k))
            as Hle.
          rewrite symbols_of_length in Hle. lia.
        * rewrite Hoth by (right; lia). rewrite Nat.add_0_r.
          apply Hcnt. exact Hc.
      + intros q j Hq. rewrite Hoth; [apply Hfr; exact Hq|].
        destruct Hq as [Hq|Hq]; [left; exact Hq|right; lia].
    - unfold I. split.
      + intros c Hc. cbn [Z.to_nat symbols_of List.seq map count_occ].
        rewrite Hz by lia. reflexivity.
      + intros q j Hq. apply Hzfr.
        destruct Hq as [Hq|Hq]; [left; exact Hq|right; lia]. }
  destruct HI as (Hcnt & Hfr).
  rewrite Z.add_0_l, Z2Nat.id in Hcnt by lia.
  split; assumption.
Qed.

Lemma extends_refl m : extends m m.
Proof. split; [lia|]. intros; reflexivity. Qed.

Lemma extends_trans m1 m2 m3 : extends m1 m2 -> extends m2 m3 -> extends m1 m3.
Proof.
  intros [L1 H1] [L2 H2]. split; [lia|].
  intros q j Hq. rewrite H2 by lia. apply H1. exact Hq.
Qed.

Lemma gt_malloc_extends n m p m' :
  gt_malloc n m = Ok p m' -> extends m m' /\ pblk p = length m.
Proof.
  intros H. apply gt_malloc_ok in H. destruct H as [-> ->].
  split; [|reflexivity]. split; [rewrite length_app; lia|].
  intros q j Hq. apply cell_app_old. exact Hq.
Qed.

(** X12. [gt_sainseq_new_from_array] counts the symbols: when the [len]
    symbols of the array are below [numofchars] and the array does not reach
    into the last [numofchars] entries of the suffix table, the entry of
    [bucketsize] at each symbol [c] is the number of occurrences of [c] in
    the array. *)
Theorem new_from_array_bucketsize arr len nc suftab fu se (A : Z -> Z)
    m ev s m' c :
  0 <= nc -> 0 <= len < wordsize ->
  (forall i, 0 <= i < len -> cell m arr i = Some (A i) /\ 0 <= A i < nc) ->
  pblk arr <> pblk suftab \/ poff arr + len <= poff suftab + se - nc ->
  gt_sainseq_new_from_array arr len nc suftab fu se m = (ev, Ok s m') ->
  0 <= c < nc ->
  cell m' (bucketsize s) c
  = Some (Z.of_nat (count_occ Z.eq_dec (symbols_of A (Z.to_nat len)) c)).
Proof.
  intros Hnc Hlen HA Hbelow Hnew Hc.
  unfold gt_sainseq_new_from_array in Hnew.
  apply bindT_ok in Hnew. destruct Hnew as (ev1 & u & m1 & ev2 & Ha & H & ->).
  apply lift_ok in Ha. destruct Ha as [-> Ha].
  apply gt_assert_ok in Ha. destruct Ha as [_ ->].
  apply bindT_ok in H. destruct H as (ev3 & bs & m2 & ev4 & Hb & H & ->).
  destruct bs as [bsize bsize2suf].
  assert (Hbs : extends m1 m2 /\
                (bsize = padd suftab (se - nc) \/ pblk bsize = length m1)).
  { destruct (nc <=? u64 (se - fu)).
    - apply retT_ok in Hb. destruct Hb as (_ & E & ->).
      injection E as <- _. split; [apply extends_refl|left; reflexivity].
    - apply bindT_ok in Hb. destruct Hb as (e1 & u1 & m3 & e2 & Hb1 & Hb & _).
      unfold emit in Hb1. injection Hb1 as _ _ <-.
      apply bindT_ok in Hb. destruct Hb as (e3 & p & m4 & e4 & Hb2 & Hb & _).
      apply lift_ok in Hb2. destruct Hb2 as [_ Hb2].
      apply retT_ok in Hb. destruct Hb as (_ & E & ->).
      injection E as <- _.
      apply gt_malloc_extends in Hb2. destruct Hb2 as [He Hp].
      split; [exact He|right; exact Hp]. }
  destruct Hbs as [He1 Hbsize].
  apply lift_ok in H. destruct H as [_ H].
  apply bind_ok in H. destruct H as ([bfill bfill2suf] & mb & Hbf & H).
  apply bind_ok in H. destruct H as ([rtab rtab2suf] & mr & Hrt & H).
  apply bind_ok in H. destruct H as (u1 & mz & Hzero & H).
  apply bind_ok in H. destruct H as (u2 & mc & Hcount & H).
  apply ret_ok in H. destruct H as [<- <-].
  cbn [bucketsize].
  assert (He2 : extends m2 mb).
  { destruct (GT_MULT2 nc <=? u64 (se - fu)).
    - apply ret_ok in Hbf. destruct Hbf as [_ <-]. apply extends_refl.
    - apply bind_ok in Hbf. destruct Hbf as (p & mp & Hp & Hbf).
      apply ret_ok in Hbf. destruct Hbf as [_ <-].
      apply gt_malloc_extends in Hp. tauto. }
  assert (He3 : extends mb mr).
  { destruct (gt_sain_decideforfastmethod (u64 (len + 1)) len);
      [destruct (GT_MULT4 nc <=? u64 (se - fu))|].
    - apply ret_ok in Hrt. destruct Hrt as [_ <-]. apply extends_refl.
    - apply bind_ok in Hrt. destruct Hrt as (p & mp & Hp & Hrt).
      apply ret_ok in Hrt. destruct Hrt as [_ <-].
      apply gt_malloc_extends in Hp. tauto.
    - apply ret_ok in Hrt. destruct Hrt as [_ <-]. apply extends_refl. }
  pose proof (extends_trans _ _ _ He1 (extends_trans _ _ _ He2 He3)) as He.
  assert (Hloops :
    (for_up (Z.to_nat nc) 0
       (fun (charidx : Z) (_ : unit) => store bsize charidx 0) tt ;;
     for_up (Z.to_nat len) 0
       (fun (i : Z) (_ : unit) => c <- load arr i ;; incr bsize c) tt) mr
    = Ok u2 mc).
  { unfold bind. rewrite Hzero. exact Hcount. }
  assert (Harr : forall i, 0 <= i < len -> (pblk arr < length m1)%nat).
  { intros i Hi. destruct (HA i Hi) as [E _].
    eapply cell_block_lt. exact E. }
  destruct (count_symbols arr bsize len nc A mr u2 mc Hnc Hlen) as [Hcnt _];
    [| |exact Hloops|apply Hcnt; exact Hc].
  - intros i Hi. destruct (HA i Hi) as [E HAi]. split; [|exact HAi].
    rewrite (proj2 He) by (eapply Harr; exact Hi). exact E.
  - intros i c0 Hi Hc0. destruct Hbsize as [->|Hp].
    + cbn [padd pblk poff]. destruct Hbelow as [Hbl|Hbl]; [left; exact Hbl|].
      right. lia.
    + left. pose proof (Harr i Hi). lia.
Qed.

End ArrayView.

(** ** What the flags do not change *)

Lemma same_result_refl {A} (c : T A) : same_result c c.
Proof. intros m. reflexivity. Qed.

Lemma same_result_bindT {A B} (c1 c2 : T A) (k1 k2 : A -> T B) :
  same_result c1 c2 -> (forall a, same_result (k1 a) (k2 a)) ->
  same_result (bindT c1 k1) (bindT c2 k2).
Proof.
  intros Hc Hk m. unfold bindT. specialize (Hc m).
  destruct (c1 m) as [e1 r1], (c2 m) as [e2 r2]. cbn [snd] in Hc. subst r2.
  destruct r1 as [a m1|e]; [|reflexivity].
  specialize (Hk a m1). destruct (k1 a m1), (k2 a m1). exact Hk.
Qed.

Lemma same_result_showtimer t1 t2 d1 d2 :
  same_result (GT_SAIN_SHOWTIMER t1 d1) (GT_SAIN_SHOWTIMER t2 d2).
Proof. intros m. unfold GT_SAIN_SHOWTIMER. destruct t1, t2; reflexivity. Qed.

Ltac same_result_tac :=
  repeat first
    [ apply same_result_showtimer
    | apply same_result_refl
    | apply same_result_bindT; [|intros ?]
    | match goal with
      | |- same_result (if ?b then _ else _) (if ?b then _ else _) =>
          destruct b
      | |- same_result (match ?x with _ => _ end) (match ?x with _ => _ end) =>
          destruct x
      | |- same_result (let '(_, _) := ?x in _) (let '(_, _) := ?x in _) =>
          destruct x
      end ].

Section Flags.

Context {hd : GtHeaders}.

Lemma same_result_assign_names s c suftab n t1 t2 :
  same_result (assign_names s c suftab n t1) (assign_names s c suftab n t2).
Proof.
  unfold assign_names, names_by_comparison, names_by_roundtable.
  same_result_tac.
Qed.

Lemma same_result_finish_level s c suftab n ic fc t1 t2 :
  same_result (finish_level s c suftab n ic fc t1)
              (finish_level s c suftab n ic fc t2).
Proof. unfold finish_level. same_result_tac. Qed.

Lemma same_result_rec fuel ic fc v1 t1 v2 t2 :
  forall level s suftab fu n se,
    same_result
      (gt_sain_rec_sortsuffixes fuel level s suftab fu n se ic fc v1 t1)
      (gt_sain_rec_sortsuffixes fuel level s suftab fu n se ic fc v2 t2).
Proof.
  induction fuel as [|fuel IH]; intros level s suftab fu n se;
    cbn [gt_sain_rec_sortsuffixes]; [apply same_result_refl|].
  apply same_result_bindT; [apply same_result_refl|intros _].
  apply same_result_bindT; [apply same_result_showtimer|intros _].
  apply same_result_bindT; [apply same_result_refl|intros c].
  apply same_result_bindT.
  { destruct v1, v2; intros m; reflexivity. }
  intros _.
  apply same_result_bindT;
    [|intros s1; apply same_result_bindT;
        [apply same_result_finish_level|intros _; apply same_result_refl]].
  destruct (0 <? c); [|apply same_result_refl].
  apply same_result_bindT; [apply same_result_refl|intros _].
  apply same_result_bindT; [apply same_result_refl|intros _].
  apply same_result_bindT; [apply same_result_showtimer|intros _].
  apply same_result_bindT; [apply same_result_refl|intros s2].
  apply same_result_bindT; [apply same_result_refl|intros _].
  apply same_result_bindT; [apply same_result_showtimer|intros _].
  apply same_result_bindT; [apply same_result_refl|intros s3].
  apply same_result_bindT; [apply same_result_assign_names|intros [s4 names]].
  apply same_result_bindT; [apply same_result_refl|intros _].
  destruct (names <? c); [|apply same_result_refl].
  apply same_result_bindT; [apply same_result_showtimer|intros _].
  apply same_result_bindT; [apply same_result_refl|intros _].
  apply same_result_bindT; [apply same_result_refl|intros _].
  apply same_result_bindT; [apply same_result_refl|intros srec].
  apply same_result_bindT; [apply IH|intros srec'].
  apply same_result_bindT; [apply same_result_refl|intros _].
  apply same_result_bindT; [apply same_result_showtimer|intros _].
  apply same_result_refl.
Qed.

(** X13. The flags [verbose] and [timer] only print: for both entry points,
    the result of the sort (the suffix table and the final memory, or the
    error) is the same whatever the two flags are. *)
Theorem table_independent_of_printing plainseq len encseq rm ic fc v1 t1 v2 t2 :
  snd (gt_sain_plain_sortsuffixes plainseq len ic v1 t1)
  = snd (gt_sain_plain_sortsuffixes plainseq len ic v2 t2) /\
  snd (gt_sain_encseq_sortsuffixes encseq rm ic fc v1 t1)
  = snd (gt_sain_encseq_sortsuffixes encseq rm ic fc v2 t2).
Proof.
  split.
  - unfold gt_sain_plain_sortsuffixes.
    apply (same_result_bindT _ _ _ _ (same_result_refl _)). intros suftab.
    apply same_result_bindT; [apply same_result_refl|intros s].
    apply same_result_bindT; [apply same_result_rec|intros s'].
    apply same_result_refl.
  - unfold gt_sain_encseq_sortsuffixes.
    apply (same_result_bindT _ _ _ _ (same_result_refl _)). intros suftab.
    apply same_result_bindT; [apply same_result_refl|intros s].
    apply same_result_bindT; [apply same_result_rec|intros s'].
    apply same_result_refl.
Qed.

End Flags.

(** ** What the intermediate check does not change *)

Lemma succeeds_as_refl {A} (c : T A) : succeeds_as c c.
Proof. intros m a m' H. exact H. Qed.

Lemma succeeds_as_bindT {A B} (c1 c2 : T A) (k1 k2 : A -> T B) :
  succeeds_as c1 c2 -> (forall a, succeeds_as (k1 a) (k2 a)) ->
  succeeds_as (bindT c1 k1) (bindT c2 k2).
Proof.
  intros Hc Hk m b m' H. unfold bindT in *. specialize (Hc m).
  destruct (c1 m) as [e1 r1]. destruct r1 as [a m1|e];
    [|cbn [snd] in H; discriminate H].
  specialize (Hc a m1 eq_refl).
  destruct (c2 m) as [e2 r2]. cbn [snd] in Hc. subst r2.
  specialize (Hk a m1 b m').
  destruct (k1 a m1) as [e3 r3], (k2 a m1) as [e4 r4].
  cbn [snd] in *. apply Hk. exact H.
Qed.

Section IntermediateCheck.

Context {hd : GtHeaders}.

Lemma succeeds_as_checkorder (b : bool) s suftab start end_ :
  succeeds_as (if b then lift (gt_sain_checkorder s suftab start end_)
               else retT tt) (retT tt).
Proof.
  destruct b; [|apply succeeds_as_refl].
  intros m u m' H. unfold lift in H. unfold retT.
  destruct (gt_sain_checkorder s suftab start end_ m) as [u1 m1|e] eqn:E;
    cbn [snd] in *; [|discriminate H].
  apply checkorder_ok in E. destruct E as [-> _].
  destruct u, u1. injection H as <-. reflexivity.
Qed.

Lemma succeeds_as_finish_level s c suftab n fc t :
  succeeds_as (finish_level s c suftab n true fc t)
              (finish_level s c suftab n false fc t).
Proof.
  unfold finish_level.
  apply succeeds_as_bindT; [apply succeeds_as_checkorder|intros _].
  apply succeeds_as_bindT; [apply succeeds_as_refl|intros _].
  apply succeeds_as_bindT; [apply succeeds_as_refl|intros _].
  apply succeeds_as_bindT; [apply succeeds_as_refl|intros _].
  apply succeeds_as_bindT; [apply succeeds_as_refl|intros _].
  apply succeeds_as_bindT; [apply succeeds_as_refl|intros _].
  apply succeeds_as_bindT; [apply succeeds_as_refl|intros _].
  apply succeeds_as_bindT; [apply succeeds_as_refl|intros _].
  apply succeeds_as_bindT; [apply succeeds_as_refl|intros _].
  destruct (0 <? n); [|apply succeeds_as_refl].
  apply succeeds_as_bindT; [|intros _; apply succeeds_as_refl].
  apply (succeeds_as_checkorder true).
Qed.

Lemma succeeds_as_rec fuel fc v t :
  forall level s suftab fu n se,
    succeeds_as
      (gt_sain_rec_sortsuffixes fuel level s suftab fu n se true fc v t)
      (gt_sain_rec_sortsuffixes fuel level s suftab fu n se false fc v t).
Proof.
  induction fuel as [|fuel IH]; intros level s suftab fu n se;
    cbn [gt_sain_rec_sortsuffixes]; [apply succeeds_as_refl|].
  apply succeeds_as_bindT; [apply succeeds_as_refl|intros _].
  apply succeeds_as_bindT; [apply succeeds_as_refl|intros _].
  apply succeeds_as_bindT; [apply succeeds_as_refl|intros c].
  apply succeeds_as_bindT; [apply succeeds_as_refl|intros _].
  apply succeeds_as_bindT;
    [|intros s1; apply succeeds_as_bindT;
        [apply succeeds_as_finish_level|intros _; apply succeeds_as_refl]].
  destruct (0 <? c); [|apply succeeds_as_refl].
  apply succeeds_as_bindT; [apply succeeds_as_refl|intros _].
  apply succeeds_as_bindT; [apply succeeds_as_refl|intros _].
  apply succeeds_as_bindT; [apply succeeds_as_refl|intros _].
  apply succeeds_as_bindT; [apply succeeds_as_refl|intros s2].
  apply succeeds_as_bindT; [apply succeeds_as_refl|intros _].
  apply succeeds_as_bindT; [apply succeeds_as_refl|intros _].
  apply succeeds_as_bindT; [apply succeeds_as_refl|intros s3].
  apply succeeds_as_bindT; [apply succeeds_as_refl|intros [s4 names]].
  apply succeeds_as_bindT; [apply succeeds_as_refl|intros _].
  destruct (names <? c); [|apply succeeds_as_refl].
  apply succeeds_as_bindT; [apply succeeds_as_refl|intros _].
  apply succeeds_as_bindT; [apply succeeds_as_refl|intros _].
  apply succeeds_as_bindT; [apply succeeds_as_refl|intros _].
  apply succeeds_as_bindT; [apply succeeds_as_refl|intros srec].
  apply succeeds_as_bindT; [apply IH|intros srec'].
  apply succeeds_as_refl.
Qed.

(** X14. The intermediate check only observes: for both entry points, when
    the sort with [intermediatecheck] returns a suffix table, the sort
    without it returns the same table and the same memory. *)
Theorem check_keeps_table plainseq len encseq rm fc v t :
  (forall table m',
     snd (gt_sain_plain_sortsuffixes plainseq len true v t) = Ok table m' ->
     snd (gt_sain_plain_sortsuffixes plainseq len false v t) = Ok table m') /\
  (forall table m',
     snd (gt_sain_encseq_sortsuffixes encseq rm true fc v t) = Ok table m' ->
     snd (gt_sain_encseq_sortsuffixes encseq rm false fc v t) = Ok table m').
Proof.
  split; intros table m'.
  - unfold gt_sain_plain_sortsuffixes. revert table m'.
    apply (succeeds_as_bindT _ _ _ _ (succeeds_as_refl _)). intros suftab.
    apply succeeds_as_bindT; [apply succeeds_as_refl|intros s].
    apply succeeds_as_bindT; [apply succeeds_as_rec|intros s'].
    apply succeeds_as_refl.
  - unfold gt_sain_encseq_sortsuffixes. revert table m'.
    apply (succeeds_as_bindT _ _ _ _ (succeeds_as_refl _)). intros suftab.
    apply succeeds_as_bindT; [apply succeeds_as_refl|intros s].
    apply succeeds_as_bindT; [apply succeeds_as_rec|intros s'].
    apply succeeds_as_refl.
Qed.

End IntermediateCheck.

(** ** Allocation and release *)

Lemma shape_updblk_upd m b n v :
  shape (updblk m b (fun blk => upd blk n v)) = shape m.
Proof.
  revert b. induction m as [|h t IH]; intros [|b]; cbn [updblk shape map];
    try reflexivity.
  - f_equal. apply upd_length.
  - f_equal. apply IH.
Qed.

Lemma shape_free m b : shape (updblk m b (fun _ => [])) = zero b (shape m).
Proof.
  revert b. induction m as [|h t IH]; intros [|b];
    cbn [updblk shape map zero length]; try reflexivity.
  f_equal. apply IH.
Qed.

Lemma keeps_shape_ret {A} (a : A) : keeps_shape (ret a).
Proof. intros m a' m' H. apply ret_ok in H. destruct H as [_ <-]. reflexivity. Qed.

Lemma keeps_shape_fail {A} e : keeps_shape (@fail A e).
Proof. intros m a m' H. discriminate H. Qed.

Lemma keeps_shape_bind {A B} (c : M A) (k : A -> M B) :
  keeps_shape c -> (forall a, keeps_shape (k a)) -> keeps_shape (bind c k).
Proof.
  intros Hc Hk m b m' H. apply bind_ok in H. destruct H as (a & m1 & H1 & H2).
  rewrite (Hk _ _ _ _ H2). exact (Hc _ _ _ H1).
Qed.

Lemma keeps_shape_load p i : keeps_shape (load p i).
Proof. intros m a m' H. apply load_ok in H. destruct H as (-> & _). reflexivity. Qed.

Lemma keeps_shape_store p i v : keeps_shape (store p i v).
Proof.
  intros m a m' H. unfold store in H.
  destruct (inbounds _ _); [|discriminate H].
  injection H as _ <-. apply shape_updblk_upd.
Qed.

Lemma keeps_shape_assert c : keeps_shape (gt_assert c).
Proof. unfold gt_assert. destruct c; [apply keeps_shape_ret|apply keeps_shape_fail]. Qed.

Lemma keeps_shape_incr a i : keeps_shape (incr a i).
Proof.
  unfold incr. apply keeps_shape_bind; [apply keeps_shape_load|intros v].
  apply keeps_shape_store.
Qed.

Lemma keeps_shape_for_up {S} (body : Z -> S -> M S) :
  (forall i s, keeps_shape (body i s)) ->
  forall n i s, keeps_shape (for_up n i body s).
Proof.
  intros Hb. induction n as [|n IH]; intros i s; cbn [for_up].
  - apply keeps_shape_ret.
  - apply keeps_shape_bind; [apply Hb|]. intros s'. apply IH.
Qed.

Lemma keeps_shape_for_down {S} (body : Z -> S -> M S) :
  (forall i s, keeps_shape (body i s)) ->
  forall n i s, keeps_shape (for_down n i body s).
Proof.
  intros Hb. induction n as [|n IH]; intros i s; cbn [for_down].
  - apply keeps_shape_ret.
  - apply keeps_shape_bind; [apply Hb|]. intros s'. apply IH.
Qed.

Lemma reads_only_keeps_shape {A} (c : M A) : reads_only c -> keeps_shape c.
Proof. intros H m a m' Hc. rewrite (H _ _ _ Hc). reflexivity. Qed.

Create HintDb shape.

Ltac shape_step :=
  first
    [ assumption
    | solve [auto 1 with shape nocore]
    | apply keeps_shape_ret
    | apply keeps_shape_fail
    | apply keeps_shape_load
    | apply keeps_shape_store
    | apply keeps_shape_assert
    | apply keeps_shape_incr
    | apply keeps_shape_for_up; intros ? ?
    | apply keeps_shape_for_down; intros ? ?
    | match goal with
      | H : forall _, _ |- _ => apply H
      end
    | match goal with
      | |- keeps_shape (bind _ _) => apply keeps_shape_bind; [|intros ?]
      | |- keeps_shape (if ?b then _ else _) => destruct b
      | |- keeps_shape (match ?x with _ => _ end) => destruct x
      end ].

Ltac shape_tac := repeat shape_step.

Section Shapes.

Context {hd : GtHeaders}.

Lemma keeps_shape_getchar s position :
  keeps_shape (gt_sainseq_getchar s position).
Proof. apply reads_only_keeps_shape, reads_only_getchar. Qed.
Hint Resolve keeps_shape_getchar : shape.

Lemma keeps_shape_endbuckets s : keeps_shape (gt_sain_endbuckets s).
Proof. unfold gt_sain_endbuckets. shape_tac. Qed.

Lemma keeps_shape_startbuckets s : keeps_shape (gt_sain_startbuckets s).
Proof. unfold gt_sain_startbuckets. shape_tac. Qed.

Lemma keeps_shape_sainbuffer_update buf charidx value :
  keeps_shape (gt_sainbuffer_update buf charidx value).
Proof. unfold gt_sainbuffer_update, sainbuffer_copy. shape_tac. Qed.
Hint Resolve keeps_shape_sainbuffer_update : shape.

Lemma keeps_shape_sainbuffer_flushall b :
  keeps_shape (gt_sainbuffer_flushall b).
Proof. unfold gt_sainbuffer_flushall, sainbuffer_copy. shape_tac. Qed.

Lemma keeps_shape_saininfo_step s suftab b position st :
  keeps_shape (saininfo_step s suftab b position st).
Proof. unfold saininfo_step. shape_tac. Qed.
Hint Resolve keeps_shape_saininfo_step : shape.

Lemma keeps_shape_saininfo_scan fuel s suftab b :
  forall position st, keeps_shape (saininfo_scan fuel s suftab b position st).
Proof.
  induction fuel as [|fuel IH]; intros position st; cbn [saininfo_scan];
    shape_tac.
Qed.

Lemma keeps_shape_incrementfirstSstar s suftab :
  keeps_shape (gt_sain_incrementfirstSstar s suftab).
Proof. unfold gt_sain_incrementfirstSstar. shape_tac. Qed.

Lemma keeps_shape_UPDATEBUCKETPTR s bp lu cc :
  keeps_shape (GT_SAINUPDATEBUCKETPTR s bp lu cc).
Proof. unfold GT_SAINUPDATEBUCKETPTR. shape_tac. Qed.
Hint Resolve keeps_shape_UPDATEBUCKETPTR : shape.

Lemma keeps_shape_strip_roundtag s round position :
  keeps_shape (strip_roundtag s round position).
Proof. unfold strip_roundtag. shape_tac. Qed.
Hint Resolve keeps_shape_strip_roundtag : shape.

Lemma keeps_shape_roundtable_tag s round cc kb np position :
  keeps_shape (roundtable_tag s round cc kb np position).
Proof. unfold roundtable_tag. shape_tac. Qed.
Hint Resolve keeps_shape_roundtable_tag : shape.

Lemma keeps_shape_induceL1_step s suftab idx st :
  keeps_shape (induceL1_step s suftab idx st).
Proof. unfold induceL1_step. shape_tac. Qed.
Hint Resolve keeps_shape_induceL1_step : shape.

Lemma keeps_shape_find_nextgteq fuel s suftab :
  forall j, keeps_shape (find_nextgteq fuel s suftab j).
Proof.
  induction fuel as [|fuel IH]; intros j; cbn [find_nextgteq]; shape_tac.
Qed.
Hint Resolve keeps_shape_find_nextgteq : shape.

Lemma keeps_shape_induceL1_retag fuel s suftab :
  forall i, keeps_shape (induceL1_retag fuel s suftab i).
Proof.
  induction fuel as [|fuel IH]; intros i; cbn [induceL1_retag]; shape_tac.
Qed.
Hint Resolve keeps_shape_induceL1_retag : shape.

Lemma keeps_shape_induceLtypesuffixes1 s suftab n :
  keeps_shape (gt_sain_induceLtypesuffixes1 s suftab n).
Proof. unfold gt_sain_induceLtypesuffixes1. shape_tac. Qed.

Lemma keeps_shape_special_singleSinduction1 s suftab position :
  keeps_shape (gt_sain_special_singleSinduction1 s suftab position).
Proof. unfold gt_sain_special_singleSinduction1. shape_tac. Qed.
Hint Resolve keeps_shape_special_singleSinduction1 : shape.

Lemma keeps_shape_foreach_range rs (body : Z * Z -> M unit) :
  (forall r, keeps_shape (body r)) -> keeps_shape (foreach_range rs body).
Proof.
  intros Hb. induction rs as [|r t IH]; cbn [foreach_range]; shape_tac.
Qed.

Lemma keeps_shape_induceStypes1fromspecialranges s encseq suftab :
  keeps_shape (gt_sain_induceStypes1fromspecialranges s encseq suftab).
Proof.
  unfold gt_sain_induceStypes1fromspecialranges.
  destruct (gt_encseq_has_specialranges encseq); [|apply keeps_shape_ret].
  apply keeps_shape_foreach_range. intros r. shape_tac.
Qed.
Hint Resolve keeps_shape_induceStypes1fromspecialranges : shape.

Lemma keeps_shape_induceS1_step s suftab idx st :
  keeps_shape (induceS1_step s suftab idx st).
Proof. unfold induceS1_step. shape_tac. Qed.
Hint Resolve keeps_shape_induceS1_step : shape.

Lemma keeps_shape_induceStypesuffixes1 s suftab n :
  keeps_shape (gt_sain_induceStypesuffixes1 s suftab n).
Proof. unfold gt_sain_induceStypesuffixes1. shape_tac. Qed.

Lemma keeps_shape_moveSstar_lead fuel suftab tagged n :
  forall readidx namecount,
    keeps_shape (moveSstar_lead fuel suftab tagged n readidx namecount).
Proof.
  induction fuel as [|fuel IH]; intros readidx namecount;
    cbn [moveSstar_lead]; shape_tac.
Qed.
Hint Resolve keeps_shape_moveSstar_lead : shape.

Lemma keeps_shape_moveSstar_rest fuel suftab tagged c n :
  forall readidx writeidx namecount,
    keeps_shape (moveSstar_rest fuel suftab tagged c n readidx writeidx
                   namecount).
Proof.
  induction fuel as [|fuel IH]; intros readidx writeidx namecount;
    cbn [moveSstar_rest]; shape_tac.
Qed.
Hint Resolve keeps_shape_moveSstar_rest : shape.

Lemma keeps_shape_moveSstar2front_gen suftab tagged c n :
  keeps_shape (moveSstar2front_gen suftab tagged c n).
Proof. unfold moveSstar2front_gen. shape_tac. Qed.
Hint Resolve keeps_shape_moveSstar2front_gen : shape.

Lemma keeps_shape_moveSstar2front c suftab n :
  keeps_shape (gt_sain_moveSstar2front c suftab n).
Proof. unfold gt_sain_moveSstar2front. shape_tac. Qed.

Lemma keeps_shape_simple_moveSstar2front s c suftab n :
  keeps_shape (gt_sain_simple_moveSstar2front s c suftab n).
Proof. unfold gt_sain_simple_moveSstar2front. shape_tac. Qed.

Lemma keeps_shape_simple_assignSstarnames s c suftab names n :
  keeps_shape (gt_sain_simple_assignSstarnames s c suftab names n).
Proof. unfold gt_sain_simple_assignSstarnames. shape_tac. Qed.

Lemma keeps_shape_leftcontext_smaller s position cc :
  keeps_shape (leftcontext_smaller s position cc).
Proof. unfold leftcontext_smaller. shape_tac. Qed.
Hint Resolve keeps_shape_leftcontext_smaller : shape.

Lemma keeps_shape_leftcontext_greater s position cc :
  keeps_shape (leftcontext_greater s position cc).
Proof. unfold leftcontext_greater. shape_tac. Qed.
Hint Resolve keeps_shape_leftcontext_greater : shape.

Lemma keeps_shape_induceL2_step s suftab idx st :
  keeps_shape (induceL2_step s suftab idx st).
Proof. unfold induceL2_step. shape_tac. Qed.
Hint Resolve keeps_shape_induceL2_step : shape.

Lemma keeps_shape_induceLtypesuffixes2 s suftab n :
  keeps_shape (gt_sain_induceLtypesuffixes2 s suftab n).
Proof. unfold gt_sain_induceLtypesuffixes2. shape_tac. Qed.

Lemma keeps_shape_special_singleSinduction2 s suftab position n :
  keeps_shape (gt_sain_special_singleSinduction2 s suftab position n).
Proof. unfold gt_sain_special_singleSinduction2. shape_tac. Qed.
Hint Resolve keeps_shape_special_singleSinduction2 : shape.

Lemma keeps_shape_induceStypes2fromspecialranges s encseq suftab n :
  keeps_shape (gt_sain_induceStypes2fromspecialranges s encseq suftab n).
Proof.
  unfold gt_sain_induceStypes2fromspecialranges.
  destruct (gt_encseq_has_specialranges encseq); [|apply keeps_shape_ret].
  apply keeps_shape_foreach_range. intros r. shape_tac.
Qed.
Hint Resolve keeps_shape_induceStypes2fromspecialranges : shape.

Lemma keeps_shape_induceS2_step s suftab idx st :
  keeps_shape (induceS2_step s suftab idx st).
Proof. unfold induceS2_step. shape_tac. Qed.
Hint Resolve keeps_shape_induceS2_step : shape.

Lemma keeps_shape_induceStypesuffixes2 s suftab n :
  keeps_shape (gt_sain_induceStypesuffixes2 s suftab n).
Proof. unfold gt_sain_induceStypesuffixes2. shape_tac. Qed.

Lemma keeps_shape_compare_Sstarstrings s start1 start2 len :
  keeps_shape (gt_sain_compare_Sstarstrings s start1 start2 len).
Proof.
  unfold gt_sain_compare_Sstarstrings.
  apply keeps_shape_bind; [apply keeps_shape_assert|intros _].
  generalize (u64 (start1 + len)). generalize (S (Z.to_nat len)).
  intros fuel. revert start1 start2.
  induction fuel as [|fuel IH]; intros start1 start2 end1;
    cbn [compare_Sstarstrings_loop]; shape_tac.
Qed.
Hint Resolve keeps_shape_compare_Sstarstrings : shape.

Lemma keeps_shape_setundefined fwd suftab start end_ :
  keeps_shape (gt_sain_setundefined fwd suftab start end_).
Proof. unfold gt_sain_setundefined. shape_tac. Qed.
Hint Resolve keeps_shape_setundefined : shape.

Lemma keeps_shape_assignSstarlength s lentab :
  keeps_shape (gt_sain_assignSstarlength s lentab).
Proof.
  unfold gt_sain_assignSstarlength.
  generalize (u64 (totallength s - 1)).
  generalize {| ln_nextcc := GT_UNIQUEINT (totallength s);
                ln_nextisStype := true;
                ln_nextSstartypepos := totallength s |}.
  generalize (S (Z.to_nat (totallength s))). intros fuel.
  induction fuel as [|fuel IH]; intros st position;
    cbn [assignSstarlength_scan]; unfold assignSstarlength_step; shape_tac.
Qed.

Lemma keeps_shape_assignSstarnames s c suftab :
  keeps_shape (gt_sain_assignSstarnames s c suftab).
Proof.
  unfold gt_sain_assignSstarnames, assignSstarnames_step. shape_tac.
Qed.

Lemma keeps_shape_movenames2front suftab n tl :
  keeps_shape (gt_sain_movenames2front suftab n tl).
Proof. unfold gt_sain_movenames2front. shape_tac. Qed.

Lemma keeps_shape_checkorder s suftab start end_ :
  keeps_shape (gt_sain_checkorder s suftab start end_).
Proof.
  apply reads_only_keeps_shape. intros m a m' H.
  apply checkorder_ok in H. apply H.
Qed.

Lemma keeps_shape_reset_counts s sfc : keeps_shape (reset_counts s sfc).
Proof. unfold reset_counts. shape_tac. Qed.
Hint Resolve keeps_shape_reset_counts : shape.

Lemma keeps_shape_expandorder_scan fuel s sstar sfc bsize :
  forall position st,
    keeps_shape (expandorder_scan fuel s sstar sfc bsize position st).
Proof.
  induction fuel as [|fuel IH]; intros position st;
    cbn [expandorder_scan]; unfold expandorder_step; shape_tac.
Qed.
Hint Resolve keeps_shape_expandorder_scan : shape.

Lemma keeps_shape_expandorder2original s n suftab :
  keeps_shape (gt_sain_expandorder2original s n suftab).
Proof. unfold gt_sain_expandorder2original. shape_tac. Qed.

Lemma keeps_shape_determineSstarfirstchardist s :
  keeps_shape (gt_sain_determineSstarfirstchardist s).
Proof. unfold gt_sain_determineSstarfirstchardist. shape_tac. Qed.

Lemma keeps_shape_insertsorted_move fuel suftab sfc cc putidx readidx :
  forall offset,
    keeps_shape (insertsorted_move fuel suftab sfc cc putidx readidx offset).
Proof.
  induction fuel as [|fuel IH]; intros offset; cbn [insertsorted_move];
    shape_tac.
Qed.
Hint Resolve keeps_shape_insertsorted_move : shape.

Lemma keeps_shape_insertsorted_loop fuel s suftab sfc n :
  forall cc readidx fillidx,
    keeps_shape (insertsorted_loop fuel s suftab sfc n cc readidx fillidx).
Proof.
  induction fuel as [|fuel IH]; intros cc readidx fillidx;
    cbn [insertsorted_loop]; shape_tac.
Qed.
Hint Resolve keeps_shape_insertsorted_loop : shape.

Lemma keeps_shape_insertsortedSstarsuffixes s suftab readidx n :
  keeps_shape (gt_sain_insertsortedSstarsuffixes s suftab readidx n).
Proof. unfold gt_sain_insertsortedSstarsuffixes. shape_tac. Qed.

Lemma keeps_shape_filltailsuffixes suftabtail encseq rm :
  keeps_shape (gt_sain_filltailsuffixes suftabtail encseq rm).
Proof.
  unfold gt_sain_filltailsuffixes.
  apply keeps_shape_bind; [|intros _; apply keeps_shape_store].
  destruct (gt_encseq_has_specialranges encseq); [|apply keeps_shape_ret].
  apply keeps_shape_bind; [|intros c; apply keeps_shape_assert].
  generalize 0.
  induction (readranges encseq rm (gt_encseq_total_length encseq)
               (if GT_ISDIRREVERSE rm then false else true)) as [|r t IH];
    intros c; cbn [filltail_ranges]; unfold filltail_range; shape_tac.
Qed.

Lemma keeps_shape_lightweightcheck encseq rm tl suftab :
  keeps_shape (suftab_lightweightcheck encseq rm tl suftab).
Proof.
  intros m a m' H. unfold suftab_lightweightcheck in H.
  destruct (gt_suftab_lightweightcheck _ _ _ _); [|discriminate H].
  injection H as _ <-. reflexivity.
Qed.

End Shapes.

Lemma zero_comm a b sh : zero a (zero b sh) = zero b (zero a sh).
Proof.
  revert a b. induction sh as [|h t IH]; intros [|a] [|b]; cbn [zero];
    try reflexivity.
  f_equal. apply IH.
Qed.

Lemma zero_repeat b k : zero b (repeat O k) = repeat O k.
Proof.
  revert b. induction k as [|k IH]; intros [|b]; cbn [repeat zero];
    try reflexivity.
  f_equal. apply IH.
Qed.

Lemma zero_app_zeros b sh k :
  zero b (sh ++ repeat O k) = zero b sh ++ repeat O k.
Proof.
  revert b. induction sh as [|h t IH]; intros b; cbn [app].
  - rewrite zero_repeat. destruct b; reflexivity.
  - destruct b as [|b]; cbn [zero app]; [reflexivity|]. f_equal. apply IH.
Qed.

Lemma zero_app_new sh j t : zero (length sh + j) (sh ++ t) = sh ++ zero j t.
Proof.
  induction sh as [|h sh IH]; cbn [length app Nat.add zero]; [reflexivity|].
  f_equal. exact IH.
Qed.

Lemma zero_at sh a t : zero (length sh) (sh ++ a :: t) = sh ++ O :: t.
Proof.
  induction sh as [|h sh IH]; cbn [length app zero]; [reflexivity|].
  f_equal. exact IH.
Qed.

Lemma zero_at0 sh t : zero (length sh) (sh ++ t) = sh ++ zero O t.
Proof.
  rewrite <- (Nat.add_0_r (length sh)). apply zero_app_new.
Qed.

Lemma shape_length m : length (shape m) = length m.
Proof. apply length_map. Qed.

Lemma shape_app m b : shape (m ++ [b]) = shape m ++ [length b].
Proof. unfold shape. rewrite map_app. reflexivity. Qed.

Lemma shape_all_freed m k :
  shape m = repeat O k -> Forall (fun b => b = []) m.
Proof.
  revert k. induction m as [|b m IH]; intros k H; [constructor|].
  destruct k as [|k]; [discriminate H|]. cbn [shape map repeat] in H.
  injection H as Hb Hm. constructor.
  - destruct b; [reflexivity|discriminate Hb].
  - eapply IH. exact Hm.
Qed.

Lemma gt_free_shape p m u m' :
  gt_free p m = Ok u m' -> shape m' = zero (pblk p) (shape m).
Proof. unfold gt_free. intros H. injection H as _ <-. apply shape_free. Qed.

Lemma gt_malloc_shape n m p m' :
  gt_malloc n m = Ok p m' ->
  p = Ptr (length m) 0 /\ shape m' = shape m ++ [Z.to_nat n].
Proof.
  unfold gt_malloc. intros H. injection H as <- <-. split; [reflexivity|].
  rewrite shape_app, repeat_length. reflexivity.
Qed.

Lemma gt_calloc_shape n m p m' :
  gt_calloc n m = Ok p m' ->
  p = Ptr (length m) 0 /\ shape m' = shape m ++ [Z.to_nat n].
Proof.
  unfold gt_calloc. intros H. injection H as <- <-. split; [reflexivity|].
  rewrite shape_app, repeat_length. reflexivity.
Qed.

Lemma release_app_zeros s sh k :
  release s (sh ++ repeat O k) = release s sh ++ repeat O k.
Proof.
  unfold release.
  destruct (bucketfillptrpoints2suftab s), (bucketsizepoints2suftab s),
    (roundtablepoints2suftab s), (roundtable s), (seqtype s),
    (sstarfirstcharcount s); rewrite ?zero_app_zeros; reflexivity.
Qed.

Lemma release_set_currentround s r sh :
  release (set_currentround s r) sh = release s sh.
Proof. reflexivity. Qed.

Lemma release_set_sstarfirstcharcount s a p sh :
  seq s = SeqArray a ->
  release (set_sstarfirstcharcount s p) sh = release s sh.
Proof.
  intros E. unfold release, seqtype. cbn [set_sstarfirstcharcount seq
    bucketfillptrpoints2suftab bucketsizepoints2suftab roundtablepoints2suftab
    roundtable bucketfillptr bucketsize sstarfirstcharcount].
  rewrite E. reflexivity.
Qed.

Lemma release_freed_roundtable s rt sh :
  roundtable s = Some rt -> roundtablepoints2suftab s = false ->
  release (set_roundtable s None) (zero (pblk rt) sh) = release s sh.
Proof.
  intros E F. unfold release, seqtype. cbn [set_roundtable seq
    bucketfillptrpoints2suftab bucketsizepoints2suftab roundtablepoints2suftab
    roundtable bucketfillptr bucketsize sstarfirstcharcount].
  rewrite E, F.
  destruct (bucketfillptrpoints2suftab s), (bucketsizepoints2suftab s);
    rewrite ?(zero_comm _ (pblk rt)); reflexivity.
Qed.

Lemma grows_retT {A} (a : A) : grows (retT a).
Proof.
  intros m ev a' m' H. unfold retT in H. injection H as _ _ <-.
  exists O. cbn [repeat]. rewrite app_nil_r. reflexivity.
Qed.

Lemma grows_lift {A} (c : M A) : keeps_shape c -> grows (lift c).
Proof.
  intros Hc m ev a m' H. apply lift_ok in H. destruct H as [_ H].
  exists O. cbn [repeat]. rewrite app_nil_r. exact (Hc _ _ _ H).
Qed.

Lemma grows_emit ev : grows (emit ev).
Proof.
  intros m ev' a m' H. unfold emit in H. injection H as _ _ <-.
  exists O. cbn [repeat]. rewrite app_nil_r. reflexivity.
Qed.

Lemma grows_showtimer t d : grows (GT_SAIN_SHOWTIMER t d).
Proof.
  unfold GT_SAIN_SHOWTIMER. destruct t; [apply grows_emit|apply grows_retT].
Qed.

Lemma grows_bindT {A B} (c : T A) (k : A -> T B) :
  grows c -> (forall a, grows (k a)) -> grows (bindT c k).
Proof.
  intros Hc Hk m ev b m' H. apply bindT_ok in H.
  destruct H as (e1 & a & m1 & e2 & H1 & H2 & _).
  destruct (Hc _ _ _ _ H1) as [k1 E1]. destruct (Hk _ _ _ _ _ H2) as [k2 E2].
  exists (k1 + k2)%nat. rewrite E2, E1, <- app_assoc, repeat_app. reflexivity.
Qed.

Lemma releases_grows {A} (s : GtSainseq) (c : T A) :
  grows c -> releases (fun _ => s) s c.
Proof.
  intros Hc m ev a m' H. destruct (Hc _ _ _ _ H) as [k E]. exists k.
  rewrite E. apply release_app_zeros.
Qed.

Lemma releases_retT s : releases id s (retT s).
Proof.
  intros m ev a m' H. unfold retT in H. injection H as _ <- <-.
  exists O. cbn [repeat]. rewrite app_nil_r. reflexivity.
Qed.

Lemma releases_bindT {A B} (v1 : A -> GtSainseq) (v2 : B -> GtSainseq) s
    (c : T A) (k : A -> T B) :
  releases v1 s c -> (forall a, releases v2 (v1 a) (k a)) ->
  releases v2 s (bindT c k).
Proof.
  intros Hc Hk m ev b m' H. apply bindT_ok in H.
  destruct H as (e1 & a & m1 & e2 & H1 & H2 & _).
  destruct (Hc _ _ _ _ H1) as [k1 E1]. destruct (Hk _ _ _ _ _ H2) as [k2 E2].
  exists (k1 + k2)%nat. rewrite E2, E1, <- app_assoc, repeat_app. reflexivity.
Qed.

(** A step that returns no view. *)
Lemma releases_step {A B} (v : B -> GtSainseq) s (c : T A) (k : A -> T B) :
  grows c -> (forall a, releases v s (k a)) -> releases v s (bindT c k).
Proof.
  intros Hc Hk. apply (releases_bindT (fun _ => s)); [|exact Hk].
  apply releases_grows. exact Hc.
Qed.

Section Release.

Context {hd : GtHeaders}.

Lemma sainseq_delete_shape s m u m' :
  gt_sainseq_delete s m = Ok u m' -> shape m' = release s (shape m).
Proof.
  unfold gt_sainseq_delete, release. intros H.
  apply bind_ok in H. destruct H as (u1 & m1 & H1 & H).
  apply bind_ok in H. destruct H as (u2 & m2 & H2 & H).
  apply bind_ok in H. destruct H as (u3 & m3 & H3 & H).
  assert (E1 : shape m1 = if bucketfillptrpoints2suftab s then shape m
                          else zero (pblk (bucketfillptr s)) (shape m)).
  { destruct (bucketfillptrpoints2suftab s);
      [apply ret_ok in H1; destruct H1 as [_ <-]; reflexivity|].
    eapply gt_free_shape. exact H1. }
  rewrite <- E1.
  assert (E2 : shape m2 = if bucketsizepoints2suftab s then shape m1
                          else zero (pblk (bucketsize s)) (shape m1)).
  { destruct (bucketsizepoints2suftab s);
      [apply ret_ok in H2; destruct H2 as [_ <-]; reflexivity|].
    eapply gt_free_shape. exact H2. }
  rewrite <- E2.
  assert (E3 : shape m3 = if roundtablepoints2suftab s then shape m2
                          else match roundtable s with
                               | Some p => zero (pblk p) (shape m2)
                               | None => shape m2
                               end).
  { destruct (roundtablepoints2suftab s);
      [apply ret_ok in H3; destruct H3 as [_ <-]; reflexivity|].
    destruct (roundtable s);
      [|apply ret_ok in H3; destruct H3 as [_ <-]; reflexivity].
    eapply gt_free_shape. exact H3. }
  rewrite <- E3.
  destruct (seqtype s);
    try (destruct (sstarfirstcharcount s);
         [eapply gt_free_shape; exact H
         |apply ret_ok in H; destruct H as [_ <-]; reflexivity]).
  apply ret_ok in H. destruct H as [_ <-]. reflexivity.
Qed.

Lemma grows_saininfo_new s suftab : grows (gt_saininfo_new s suftab).
Proof.
  intros m ev c m' H. unfold gt_saininfo_new in H.
  apply bindT_ok in H. destruct H as (e1 & b & m1 & e2 & Hb & H & _).
  apply lift_ok in H. destruct H as [_ H].
  apply bind_ok in H. destruct H as (u1 & m2 & H1 & H).
  apply keeps_shape_endbuckets in H1.
  apply bind_ok in H. destruct H as (st & m3 & H2 & H).
  apply keeps_shape_saininfo_scan in H2.
  apply bind_ok in H. destruct H as (u3 & m4 & H3 & H).
  apply keeps_shape_sainbuffer_flushall in H3.
  apply bind_ok in H. destruct H as (u4 & m5 & H4 & H).
  apply bind_ok in H. destruct H as (u5 & m6 & H5 & H).
  apply keeps_shape_assert in H5.
  apply ret_ok in H. destruct H as [_ <-].
  rewrite H5. unfold gt_sainbuffer_new in Hb.
  destruct (numofchars s <=? UCHAR_MAX + 1).
  - apply bindT_ok in Hb. destruct Hb as (e3 & u6 & m7 & e4 & Ha & Hb & _).
    apply lift_ok in Ha. destruct Ha as [_ Ha].
    apply keeps_shape_assert in Ha.
    apply bindT_ok in Hb. destruct Hb as (e5 & vals & m8 & e6 & Hv & Hb & _).
    apply lift_ok in Hv. destruct Hv as [_ Hv].
    apply gt_malloc_shape in Hv. destruct Hv as [Ev Hv].
    apply bindT_ok in Hb. destruct Hb as (e7 & nidx & m9 & e8 & Hn & Hb & _).
    apply lift_ok in Hn. destruct Hn as [_ Hn].
    apply gt_calloc_shape in Hn. destruct Hn as [En Hn].
    apply bindT_ok in Hb. destruct Hb as (e9 & u7 & m10 & e10 & He & Hb & _).
    unfold emit in He. injection He as _ <-. subst m10.
    apply retT_ok in Hb. destruct Hb as (_ & <- & <-).
    unfold gt_sainbuffer_delete in H4. cbn [values nextidx] in H4.
    apply bind_ok in H4. destruct H4 as (u8 & m11 & Hf1 & Hf2).
    apply gt_free_shape in Hf1. apply gt_free_shape in Hf2.
    assert (L7 : length m7 = length (shape m))
      by (rewrite <- Ha; symmetry; apply shape_length).
    assert (L8 : length m8 = S (length (shape m))).
    { rewrite <- (shape_length m8), Hv, Ha, length_app. cbn [length]. lia. }
    exists 2%nat. rewrite Hf2, Hf1, H3, H2, H1, Hn, Hv, Ha, En, Ev.
    cbn [pblk]. rewrite L7, L8. rewrite <- app_assoc. cbn [app repeat].
    rewrite (zero_at (shape m)).
    replace (S (length (shape m))) with (length (shape m ++ [O]))
      by (rewrite length_app; cbn [length]; lia).
    replace (shape m ++ [O; Z.to_nat (numofchars s)])
      with ((shape m ++ [O]) ++ [Z.to_nat (numofchars s)])
      by (rewrite <- app_assoc; reflexivity).
    rewrite zero_at, <- app_assoc. reflexivity.
  - apply retT_ok in Hb. destruct Hb as (_ & <- & <-).
    apply ret_ok in H4. destruct H4 as [_ <-].
    exists O. cbn [repeat]. rewrite app_nil_r, H3, H2, H1. reflexivity.
Qed.

Lemma malloc_at sh n m p m' :
  shape m = sh -> gt_malloc n m = Ok p m' ->
  pblk p = length sh /\ shape m' = sh ++ [Z.to_nat n].
Proof.
  intros <- H. apply gt_malloc_shape in H. destruct H as [-> H].
  cbn [pblk]. rewrite shape_length. split; [reflexivity|exact H].
Qed.

Lemma new_from_array_release arr len nc suftab fu se m ev s m' :
  gt_sainseq_new_from_array arr len nc suftab fu se m = (ev, Ok s m') ->
  exists j, release s (shape m') = shape m ++ repeat O j.
Proof.
  unfold gt_sainseq_new_from_array. intros H.
  apply bindT_ok in H. destruct H as (e1 & u1 & m1 & e2 & Ha & H & _).
  apply lift_ok in Ha. destruct Ha as [_ Ha]. apply keeps_shape_assert in Ha.
  apply bindT_ok in H. destruct H as (e3 & [bsize b2s] & m2 & e4 & Hbs & H & _).
  apply lift_ok in H. destruct H as [_ H].
  apply bind_ok in H. destruct H as ([bfill f2s] & m3 & Hbf & H).
  apply bind_ok in H. destruct H as ([rtab r2s] & m4 & Hrt & H).
  apply bind_ok in H. destruct H as (u2 & m5 & H5 & H).
  apply bind_ok in H. destruct H as (u3 & m6 & H6 & H).
  apply ret_ok in H. destruct H as [<- <-].
  assert (K5 : shape m5 = shape m4).
  { revert H5. apply keeps_shape_for_up. intros i u. apply keeps_shape_store. }
  assert (K6 : shape m6 = shape m5).
  { revert H6. apply keeps_shape_for_up. intros i u.
    apply keeps_shape_bind; [apply keeps_shape_load|intros c].
    apply keeps_shape_incr. }
  rewrite K6, K5. unfold release, seqtype.
  cbn [bucketfillptrpoints2suftab bucketsizepoints2suftab
       roundtablepoints2suftab roundtable bucketfillptr bucketsize seq
       sstarfirstcharcount].
  set (sh := shape m) in *.
  assert (E2 : exists l2, shape m2 = sh ++ l2 /\
                (if b2s then l2 = []
                 else l2 = [Z.to_nat nc] /\ pblk bsize = length sh)).
  { destruct (nc <=? u64 (se - fu)).
    - apply retT_ok in Hbs. destruct Hbs as (_ & Eb & <-).
      injection Eb as <- <-. exists []. rewrite app_nil_r. auto.
    - apply bindT_ok in Hbs. destruct Hbs as (e5 & u4 & m7 & e6 & He & Hbs & _).
      unfold emit in He. injection He as _ _ <-.
      apply bindT_ok in Hbs. destruct Hbs as (e7 & p & m8 & e8 & Hp & Hbs & _).
      apply lift_ok in Hp. destruct Hp as [_ Hp].
      apply (malloc_at sh) in Hp; [|exact Ha]. destruct Hp as [Ep Hp].
      apply retT_ok in Hbs. destruct Hbs as (_ & Eb & <-).
      injection Eb as <- <-. exists [Z.to_nat nc]. auto. }
  destruct E2 as (l2 & E2 & B2).
  assert (E3 : exists l3, shape m3 = sh ++ l2 ++ l3 /\
                (if f2s then l3 = []
                 else l3 = [Z.to_nat nc] /\
                      pblk bfill = (length sh + length l2)%nat)).
  { destruct (GT_MULT2 nc <=? u64 (se - fu)).
    - apply ret_ok in Hbf. destruct Hbf as (Eb & <-).
      injection Eb as <- <-. exists []. rewrite app_nil_r. auto.
    - apply bind_ok in Hbf. destruct Hbf as (p & m8 & Hp & Hbf).
      apply (malloc_at (sh ++ l2)) in Hp; [|exact E2]. destruct Hp as [Ep Hp].
      apply ret_ok in Hbf. destruct Hbf as (Eb & <-).
      injection Eb as <- <-. exists [Z.to_nat nc].
      rewrite Hp, Ep, length_app, <- app_assoc. auto. }
  destruct E3 as (l3 & E3 & B3).
  assert (E4 : exists l4, shape m4 = sh ++ l2 ++ l3 ++ l4 /\
                (if r2s then l4 = []
                 else match rtab with
                      | Some p => l4 = [Z.to_nat (GT_MULT2 nc)] /\
                          pblk p = (length sh + (length l2 + length l3))%nat
                      | None => l4 = []
                      end)).
  { destruct (gt_sain_decideforfastmethod (u64 (len + 1)) len).
    - destruct (GT_MULT4 nc <=? u64 (se - fu)).
      + apply ret_ok in Hrt. destruct Hrt as (Eb & <-).
        injection Eb as <- <-. exists []. rewrite app_nil_r. auto.
      + apply bind_ok in Hrt. destruct Hrt as (p & m8 & Hp & Hrt).
        apply (malloc_at (sh ++ l2 ++ l3)) in Hp; [|exact E3].
        destruct Hp as [Ep Hp].
        apply ret_ok in Hrt. destruct Hrt as (Eb & <-).
        injection Eb as <- <-. exists [Z.to_nat (GT_MULT2 nc)].
        rewrite Hp, Ep, !length_app, <- !app_assoc. auto.
    - apply ret_ok in Hrt. destruct Hrt as (Eb & <-).
      injection Eb as <- <-. exists []. rewrite app_nil_r. auto. }
  destruct E4 as (l4 & E4 & B4).
  rewrite E4.
  destruct b2s, f2s, r2s, rtab as [rt|];
    repeat match goal with
           | H : _ /\ _ |- _ => destruct H
           end; subst l2 l3 l4;
    repeat match goal with
           | H : pblk _ = _ |- _ => rewrite H; clear H
           end;
    cbn [app length Nat.add]; rewrite ?Nat.add_0_r, ?app_nil_r;
    repeat (rewrite ?zero_app_new, ?zero_at0; cbn [zero]);
    first [ exists 0%nat; cbn [repeat]; rewrite ?app_nil_r; reflexivity
          | exists 1%nat; reflexivity
          | exists 2%nat; reflexivity
          | exists 3%nat; reflexivity ].
Qed.

Lemma calloc_at sh n m p m' :
  shape m = sh -> gt_calloc n m = Ok p m' ->
  pblk p = length sh /\ shape m' = sh ++ [Z.to_nat n].
Proof.
  intros <- H. apply gt_calloc_shape in H. destruct H as [-> H].
  cbn [pblk]. rewrite shape_length. split; [reflexivity|exact H].
Qed.

Ltac norm_at P :=
  repeat rewrite length_app in P; cbn [length] in P;
  repeat rewrite <- Nat.add_assoc in P; cbn [Nat.add] in P.

Ltac release_new :=
  repeat match goal with
         | H : pblk _ = _ |- _ => rewrite H; clear H
         end;
  cbn [app length Nat.add]; rewrite ?Nat.add_0_r, ?app_nil_r;
  repeat (rewrite ?zero_app_new, ?zero_at0; cbn [zero]);
  first [ exists 0%nat; cbn [repeat]; rewrite ?app_nil_r; reflexivity
        | exists 1%nat; reflexivity
        | exists 2%nat; reflexivity
        | exists 3%nat; reflexivity
        | exists 4%nat; reflexivity ].

Lemma new_from_plainseq_release plainseq len m s m' :
  gt_sainseq_new_from_plainseq plainseq len m = Ok s m' ->
  exists j, release s (shape m') = shape m ++ repeat O j.
Proof.
  unfold gt_sainseq_new_from_plainseq. intros H.
  set (sh := shape m) in *.
  apply bind_ok in H. destruct H as (bsize & m1 & H1 & H).
  apply (calloc_at sh) in H1; [|reflexivity]. destruct H1 as [P1 H1].
  apply bind_ok in H. destruct H as (bfill & m2 & H2 & H).
  apply (malloc_at _ _ _ _ _ H1) in H2. destruct H2 as [P2 H2].
  apply bind_ok in H. destruct H as (rt & m3 & H3 & H).
  apply bind_ok in H. destruct H as (sfc & m4 & H4 & H).
  apply bind_ok in H. destruct H as (u & m5 & H5 & H).
  apply ret_ok in H. destruct H as [<- <-].
  assert (K5 : shape m5 = shape m4).
  { revert H5. apply keeps_shape_for_up. intros i u'.
    apply keeps_shape_bind; [|intros c; apply keeps_shape_incr].
    unfold plain_get. destruct (inbounds plainseq i);
      [apply keeps_shape_ret|apply keeps_shape_fail]. }
  rewrite K5. unfold release, seqtype.
  cbn [bucketfillptrpoints2suftab bucketsizepoints2suftab
       roundtablepoints2suftab roundtable bucketfillptr bucketsize seq
       sstarfirstcharcount].
  norm_at P2.
  destruct (gt_sain_decideforfastmethod (u64 (len + 1)) len).
  - apply bind_ok in H3. destruct H3 as (p & m6 & Hp & H3).
    apply (malloc_at _ _ _ _ _ H2) in Hp. destruct Hp as [P3 Hp].
    apply ret_ok in H3. destruct H3 as [<- <-].
    apply (calloc_at _ _ _ _ _ Hp) in H4. destruct H4 as [P4 H4].
    rewrite H4. norm_at P3. norm_at P4.
    rewrite <- !app_assoc. release_new.
  - apply ret_ok in H3. destruct H3 as [<- <-].
    apply (calloc_at _ _ _ _ _ H2) in H4. destruct H4 as [P4 H4].
    rewrite H4. norm_at P4.
    rewrite <- !app_assoc. release_new.
Qed.

Lemma new_from_encseq_release encseq rm m s m' :
  gt_sainseq_new_from_encseq encseq rm m = Ok s m' ->
  exists j, release s (shape m') = shape m ++ repeat O j.
Proof.
  unfold gt_sainseq_new_from_encseq. intros H.
  set (sh := shape m) in *.
  apply bind_ok in H. destruct H as (bsize & m1 & H1 & H).
  apply (malloc_at sh) in H1; [|reflexivity]. destruct H1 as [P1 H1].
  apply bind_ok in H. destruct H as (bfill & m2 & H2 & H).
  apply (malloc_at _ _ _ _ _ H1) in H2. destruct H2 as [P2 H2].
  apply bind_ok in H. destruct H as (rt & m3 & H3 & H).
  apply bind_ok in H. destruct H as (sfc & m4 & H4 & H).
  apply bind_ok in H. destruct H as (u & m5 & H5 & H).
  apply ret_ok in H. destruct H as [<- <-].
  assert (K5 : shape m5 = shape m4).
  { revert H5. apply keeps_shape_for_up. intros i u'.
    destruct (GT_ISDIRCOMPLEMENT rm); apply keeps_shape_store. }
  rewrite K5. unfold release, seqtype.
  cbn [bucketfillptrpoints2suftab bucketsizepoints2suftab
       roundtablepoints2suftab roundtable bucketfillptr bucketsize seq
       sstarfirstcharcount].
  norm_at P2.
  destruct (gt_sain_decideforfastmethod _ _).
  - apply bind_ok in H3. destruct H3 as (p & m6 & Hp & H3).
    apply (malloc_at _ _ _ _ _ H2) in Hp. destruct Hp as [P3 Hp].
    apply ret_ok in H3. destruct H3 as [<- <-].
    apply (calloc_at _ _ _ _ _ Hp) in H4. destruct H4 as [P4 H4].
    rewrite H4. norm_at P3. norm_at P4.
    rewrite <- !app_assoc. release_new.
  - apply ret_ok in H3. destruct H3 as [<- <-].
    apply (calloc_at _ _ _ _ _ H2) in H4. destruct H4 as [P4 H4].
    rewrite H4. norm_at P4.
    rewrite <- !app_assoc. release_new.
Qed.

Ltac grows_tac :=
  repeat first
    [ apply grows_showtimer
    | apply grows_retT
    | apply grows_emit
    | apply grows_lift; solve [auto 1 with shape nocore]
    | match goal with
      | |- grows (bindT _ _) => apply grows_bindT; [|intros ?]
      | |- grows (if ?b then _ else _) => destruct b
      | |- grows (match ?x with _ => _ end) => destruct x
      end ].

Hint Resolve keeps_shape_moveSstar2front keeps_shape_assignSstarlength
  keeps_shape_assignSstarnames keeps_shape_simple_moveSstar2front
  keeps_shape_simple_assignSstarnames keeps_shape_checkorder
  keeps_shape_insertsortedSstarsuffixes keeps_shape_startbuckets
  keeps_shape_endbuckets keeps_shape_induceLtypesuffixes2
  keeps_shape_induceStypesuffixes2 keeps_shape_filltailsuffixes
  keeps_shape_lightweightcheck keeps_shape_incrementfirstSstar
  keeps_shape_movenames2front keeps_shape_assert
  keeps_shape_determineSstarfirstchardist keeps_shape_setundefined
  keeps_shape_reset_counts : shape.

Lemma grows_finish_level s c suftab n ic fc t :
  grows (finish_level s c suftab n ic fc t).
Proof. unfold finish_level. grows_tac. Qed.

Lemma releases_names_by_comparison s c suftab n t :
  releases fst s (names_by_comparison s c suftab n t).
Proof.
  unfold names_by_comparison.
  apply releases_step; [apply grows_showtimer|intros _].
  apply releases_step; [grows_tac|intros _].
  apply releases_step; [apply grows_showtimer|intros _].
  apply releases_step; [grows_tac|intros _].
  apply releases_step; [apply grows_showtimer|intros _].
  apply releases_step; [grows_tac|intros names].
  intros m ev a m' H. apply retT_ok in H. destruct H as (_ & <- & <-).
  exists O. cbn [repeat fst]. rewrite app_nil_r. reflexivity.
Qed.

Lemma releases_names_by_roundtable s rt c suftab n t :
  roundtable s = Some rt ->
  releases fst s (names_by_roundtable s rt c suftab n t).
Proof.
  intros Ert. unfold names_by_roundtable.
  apply releases_step; [apply grows_showtimer|intros _].
  apply releases_step; [grows_tac|intros names].
  apply (releases_bindT id).
  - destruct (roundtablepoints2suftab s) eqn:F; cbn [negb].
    + apply releases_retT.
    + intros m ev a m' H.
      apply bindT_ok in H. destruct H as (e1 & u & m1 & e2 & H1 & H & _).
      apply lift_ok in H1. destruct H1 as [_ H1]. apply gt_free_shape in H1.
      apply retT_ok in H. destruct H as (_ & <- & <-).
      exists O. cbn [repeat id]. rewrite app_nil_r, H1.
      apply release_freed_roundtable; assumption.
  - intros s1. unfold id.
    apply releases_step; [grows_tac|intros _].
    intros m ev a m' H. apply retT_ok in H. destruct H as (_ & <- & <-).
    exists O. cbn [repeat fst]. rewrite app_nil_r. reflexivity.
Qed.

Lemma releases_assign_names s c suftab n t :
  releases fst s (assign_names s c suftab n t).
Proof.
  unfold assign_names. destruct (roundtable s) as [rt|] eqn:E.
  - apply releases_names_by_roundtable. exact E.
  - apply releases_names_by_comparison.
Qed.

Lemma releases_induceL1 s suftab n :
  releases id s (lift (gt_sain_induceLtypesuffixes1 s suftab n)).
Proof.
  intros m ev s' m' H. apply lift_ok in H. destruct H as [_ H].
  pose proof (keeps_shape_induceLtypesuffixes1 _ _ _ _ _ _ H) as K.
  exists O. cbn [repeat id]. rewrite app_nil_r, K.
  unfold gt_sain_induceLtypesuffixes1 in H.
  apply bind_ok in H. destruct H as (st & m1 & _ & H).
  destruct (roundtable (set_currentround s (ind_round st))).
  - apply bind_ok in H. destruct H as (u & m2 & _ & H).
    apply ret_ok in H. destruct H as [<- _]. reflexivity.
  - apply ret_ok in H. destruct H as [<- _]. reflexivity.
Qed.

Lemma releases_induceS1 s suftab n :
  releases id s (lift (gt_sain_induceStypesuffixes1 s suftab n)).
Proof.
  intros m ev s' m' H. apply lift_ok in H. destruct H as [_ H].
  pose proof (keeps_shape_induceStypesuffixes1 _ _ _ _ _ _ H) as K.
  exists O. cbn [repeat id]. rewrite app_nil_r, K.
  unfold gt_sain_induceStypesuffixes1 in H.
  apply bind_ok in H. destruct H as (u1 & m1 & _ & H).
  apply bind_ok in H. destruct H as (u2 & m2 & _ & H).
  destruct (n =? 0).
  - apply ret_ok in H. destruct H as [<- _]. reflexivity.
  - apply bind_ok in H. destruct H as (st & m3 & _ & H).
    apply ret_ok in H. destruct H as [<- _]. reflexivity.
Qed.

Lemma releases_expandorder s n suftab :
  releases id s (lift (gt_sain_expandorder2original s n suftab)).
Proof.
  intros m ev s' m' H. apply lift_ok in H. destruct H as [_ H].
  pose proof (keeps_shape_expandorder2original _ _ _ _ _ _ H) as K.
  exists O. cbn [repeat id]. rewrite app_nil_r, K.
  unfold gt_sain_expandorder2original in H.
  apply bind_ok in H. destruct H as ([[s1 sfc] bsize] & m1 & H1 & H).
  apply bind_ok in H. destruct H as (u2 & m2 & _ & H).
  apply bind_ok in H. destruct H as (u3 & m3 & _ & H).
  apply ret_ok in H. destruct H as [<- _].
  destruct (seq s) as [e|p|a] eqn:E.
  - apply ret_ok in H1. destruct H1 as [H1 _]. injection H1 as <- _ _.
    reflexivity.
  - apply ret_ok in H1. destruct H1 as [H1 _]. injection H1 as <- _ _.
    reflexivity.
  - apply bind_ok in H1. destruct H1 as (u4 & m4 & _ & H1).
    apply bind_ok in H1. destruct H1 as (u5 & m5 & _ & H1).
    apply ret_ok in H1. destruct H1 as [H1 _]. injection H1 as <- _ _.
    eapply release_set_sstarfirstcharcount. exact E.
Qed.

(** The recursive call between the construction of its view and the
    release of it. *)
Lemma releases_nested {A} (v : A -> GtSainseq) s arr len nc suftab fu se
    (recc : GtSainseq -> T GtSainseq) (rest : T A) :
  (forall srec, releases id srec (recc srec)) -> releases v s rest ->
  releases v s
    (srec <~ gt_sainseq_new_from_array arr len nc suftab fu se ;;
     srec' <~ recc srec ;;
     lift (gt_sainseq_delete srec') ;;; rest).
Proof.
  intros Hrec Hrest m ev a m' H.
  apply bindT_ok in H. destruct H as (e1 & srec & m1 & e2 & H1 & H & _).
  apply new_from_array_release in H1. destruct H1 as [j H1].
  apply bindT_ok in H. destruct H as (e3 & srec' & m2 & e4 & H2 & H & _).
  apply Hrec in H2. destruct H2 as [k H2]. unfold id in H2.
  apply bindT_ok in H. destruct H as (e5 & u & m3 & e6 & H3 & H & _).
  apply lift_ok in H3. destruct H3 as [_ H3].
  apply sainseq_delete_shape in H3.
  apply Hrest in H. destruct H as [i H].
  exists ((j + k) + i)%nat.
  rewrite H, H3, H2, H1, <- app_assoc, <- repeat_app, release_app_zeros,
    <- app_assoc, <- repeat_app.
  reflexivity.
Qed.

Lemma releases_rec fuel ic fc v t :
  forall level s suftab fu n se,
    releases id s
      (gt_sain_rec_sortsuffixes fuel level s suftab fu n se ic fc v t).
Proof.
  induction fuel as [|fuel IH]; intros level s suftab fu n se;
    cbn [gt_sain_rec_sortsuffixes].
  { intros m ev a m' H. discriminate H. }
  apply releases_step; [apply grows_emit|intros _].
  apply releases_step; [apply grows_showtimer|intros _].
  apply releases_step; [apply grows_saininfo_new|intros c].
  apply releases_step; [grows_tac|intros _].
  apply (releases_bindT id);
    [|intros s1; unfold id;
      apply releases_step; [apply grows_finish_level|intros _];
      apply releases_retT].
  destruct (0 <? c); [|apply releases_retT].
  apply releases_step; [grows_tac|intros _].
  apply releases_step; [grows_tac|intros _].
  apply releases_step; [apply grows_showtimer|intros _].
  apply (releases_bindT id); [apply releases_induceL1|intros s2; unfold id].
  apply releases_step; [grows_tac|intros _].
  apply releases_step; [apply grows_showtimer|intros _].
  apply (releases_bindT id); [apply releases_induceS1|intros s3; unfold id].
  apply (releases_bindT fst); [apply releases_assign_names|].
  intros [s4 names]. cbn [fst].
  apply releases_step; [grows_tac|intros _].
  destruct (names <? c).
  - apply releases_step; [apply grows_showtimer|intros _].
    apply releases_step; [grows_tac|intros _].
    apply releases_step; [grows_tac|intros _].
    apply releases_nested; [intros srec; apply IH|].
    apply releases_step; [apply grows_showtimer|intros _].
    apply releases_expandorder.
  - destruct (seq s4) as [e|p|a] eqn:E; try apply releases_retT.
    apply releases_step; [grows_tac|intros _].
    apply (releases_bindT
             (fun _ => set_sstarfirstcharcount s4 (Some (bucketfillptr s4)))).
    + intros m ev u m' H. apply lift_ok in H. destruct H as [_ H].
      apply keeps_shape_reset_counts in H. exists O.
      cbn [repeat]. rewrite app_nil_r, H.
      eapply release_set_sstarfirstcharcount. exact E.
    + intros _. apply releases_step; [grows_tac|intros _].
      apply releases_retT.
Qed.

Lemma entry_released n (c1 : M GtSainseq)
    (r : ptr -> GtSainseq -> T GtSainseq) ev table m' :
  (forall m s m1, c1 m = Ok s m1 ->
     exists j, release s (shape m1) = shape m ++ repeat O j) ->
  (forall suftab s, releases id s (r suftab s)) ->
  (suftab <~ lift (gt_calloc n) ;;
   sainseq <~ lift c1 ;;
   sainseq <~ r suftab sainseq ;;
   lift (gt_sainseq_delete sainseq) ;;;
   result <~ lift (read_suftab suftab) ;;
   lift (gt_free suftab) ;;;
   retT result) [] = (ev, Ok table m') ->
  length table = Z.to_nat n /\ Forall (fun b => b = []) m'.
Proof.
  intros Hc Hr H.
  apply bindT_ok in H. destruct H as (e1 & suftab & m1 & e2 & H1 & H & _).
  apply lift_ok in H1. destruct H1 as [_ H1].
  apply gt_calloc_shape in H1. destruct H1 as [-> H1].
  cbn [shape map app length] in H1.
  apply bindT_ok in H. destruct H as (e3 & s & m2 & e4 & H2 & H & _).
  apply lift_ok in H2. destruct H2 as [_ H2].
  apply Hc in H2. destruct H2 as [j H2].
  apply bindT_ok in H. destruct H as (e5 & s' & m3 & e6 & H3 & H & _).
  apply Hr in H3. destruct H3 as [k H3]. unfold id in H3.
  apply bindT_ok in H. destruct H as (e7 & u & m4 & e8 & H4 & H & _).
  apply lift_ok in H4. destruct H4 as [_ H4].
  apply sainseq_delete_shape in H4.
  apply bindT_ok in H. destruct H as (e9 & result & m5 & e10 & H5 & H & _).
  apply lift_ok in H5. destruct H5 as [_ H5].
  unfold read_suftab in H5. injection H5 as <- <-. cbn [pblk] in *.
  apply bindT_ok in H. destruct H as (e11 & u' & m6 & e12 & H6 & H & _).
  apply lift_ok in H6. destruct H6 as [_ H6]. apply gt_free_shape in H6.
  apply retT_ok in H. destruct H as (_ & <- & <-).
  rewrite H4, H3, H2, H1, <- app_assoc, <- repeat_app in H6.
  cbn [app pblk zero] in H6.
  rewrite H3, H2, H1, <- app_assoc, <- repeat_app in H4. cbn [app] in H4.
  split.
  - destruct m4 as [|b m4]; [discriminate H4|].
    cbn [shape map] in H4. injection H4 as Hb _. cbn [nth].
    exact Hb.
  - apply (shape_all_freed _ (S (j + k))). exact H6.
Qed.

(** X15. The sort releases what it allocates: for both entry points, when
    the sort returns, the suffix table it hands over has [totallength + 1]
    entries (as an [unsigned long]) and every block of the memory has been
    freed. *)
Theorem sortsuffixes_releases_memory plainseq len encseq rm ic fc v t :
  (forall table m',
     snd (gt_sain_plain_sortsuffixes plainseq len ic v t) = Ok table m' ->
     length table = Z.to_nat (u64 (len + 1)) /\
     Forall (fun b => b = []) m') /\
  (forall table m',
     snd (gt_sain_encseq_sortsuffixes encseq rm ic fc v t) = Ok table m' ->
     length table = Z.to_nat (u64 (gt_encseq_total_length encseq + 1)) /\
     Forall (fun b => b = []) m').
Proof.
  split; intros table m' H.
  - destruct (gt_sain_plain_sortsuffixes plainseq len ic v t) as [ev r] eqn:E.
    cbn [snd] in H. subst r. unfold gt_sain_plain_sortsuffixes in E.
    apply (entry_released _ (gt_sainseq_new_from_plainseq plainseq len)
             (fun suftab sainseq =>
                gt_sain_rec_sortsuffixes (levels len) 0 sainseq suftab 0
                  (totallength sainseq) (u64 (len + 1)) ic false v t)
             ev table m').
    + intros m s m1. apply new_from_plainseq_release.
    + intros suftab s. apply releases_rec.
    + exact E.
  - destruct (gt_sain_encseq_sortsuffixes encseq rm ic fc v t) as [ev r] eqn:E.
    cbn [snd] in H. subst r. unfold gt_sain_encseq_sortsuffixes in E.
    apply (entry_released _ (gt_sainseq_new_from_encseq encseq rm)
             (fun suftab sainseq =>
                gt_sain_rec_sortsuffixes
                  (levels (gt_encseq_total_length encseq)) 0 sainseq suftab 0
                  (u64 (gt_encseq_total_length encseq
                        - gt_encseq_specialcharacters encseq))
                  (u64 (gt_encseq_total_length encseq + 1)) ic fc v t)
             ev table m').
    + intros m s m1. apply new_from_encseq_release.
    + intros suftab s. apply releases_rec.
    + exact E.
Qed.

End Release.

(** ** The lengths of the Sstar substrings *)

Lemma Sstar_above_In l p x :
  In x (Sstar_above l p) ->
  Z.of_nat p < x < Z.of_nat (length l) /\ is_Sstar l x = true.
Proof.
  unfold Sstar_above, positions_above. rewrite filter_In, in_map_iff.
  intros [(i & <- & Hi) Hs]. apply in_seq in Hi. split; [lia|exact Hs].
Qed.

Lemma GT_DIV2_lt x y : 0 <= x -> x + 2 <= y -> GT_DIV2 x < GT_DIV2 y.
Proof.
  intros H0 H. unfold GT_DIV2. rewrite !Z.shiftr_div_pow2 by lia.
  change (2 ^ 1) with 2.
  replace y with ((y - 2) + 1 * 2) by lia. rewrite Z.div_add by lia.
  assert (x / 2 <= (y - 2) / 2) by (apply Z.div_le_mono; lia). lia.
Qed.

Section SstarLength.

Context {hd : GtHeaders}.

Lemma assignSstarlength_step_inv s lentab position st m st' m' :
  assignSstarlength_step s lentab position st m = Ok st' m' ->
  exists currentcc,
    gt_sainseq_getchar s position m = Ok currentcc m /\
    ln_nextcc st' = currentcc /\
    ln_nextisStype st' = isStype currentcc (ln_nextcc st) (ln_nextisStype st) /\
    if negb (isStype currentcc (ln_nextcc st) (ln_nextisStype st))
       && ln_nextisStype st
    then position < ln_nextSstartypepos st /\
         store lentab (GT_DIV2 (u64 (position + 1)))
           (ln_nextSstartypepos st - position) m = Ok tt m' /\
         ln_nextSstartypepos st' = u64 (position + 1)
    else m' = m /\ ln_nextSstartypepos st' = ln_nextSstartypepos st.
Proof.
  unfold assignSstarlength_step. intros H.
  apply bind_ok in H. destruct H as (cc & m1 & Hg & H).
  pose proof (getchar_mem _ _ _ _ _ Hg) as ->.
  apply bind_ok in H. destruct H as (np & m2 & Hn & H).
  apply ret_ok in H. destruct H as [<- <-].
  exists cc. split; [exact Hg|].
  cbn [ln_nextcc ln_nextisStype ln_nextSstartypepos].
  split; [reflexivity|]. split; [reflexivity|].
  destruct (negb (isStype cc (ln_nextcc st) (ln_nextisStype st))
            && ln_nextisStype st).
  - apply bind_ok in Hn. destruct Hn as (u1 & m3 & Ha & Hn).
    apply gt_assert_ok in Ha. destruct Ha as [Ha ->].
    apply bind_ok in Hn. destruct Hn as ([] & m4 & Hst & Hn).
    apply ret_ok in Hn. destruct Hn as [<- <-].
    split; [apply Z.ltb_lt; exact Ha|]. split; [exact Hst|reflexivity].
  - apply ret_ok in Hn. destruct Hn as [<- <-]. split; reflexivity.
Qed.

Lemma length_knows_step s l lentab m p st mk st' mk' :
  reads s l ->
  Z.of_nat (length l) < wordsize ->
  (S p < length l)%nat ->
  length_knows l lentab m (S p) st mk ->
  assignSstarlength_step s lentab (Z.of_nat p) st mk = Ok st' mk' ->
  length_knows l lentab m p st' mk'.
Proof.
  intros [Htl Hget] Hw Hp (Hcc & Hty & Hnp & Hcells & Hfr) Hstep.
  apply assignSstarlength_step_inv in Hstep.
  destruct Hstep as (cc & Hg & Ecc & Ety & Hev).
  rewrite Hget in Hg by lia. injection Hg as <-.
  rewrite Nat2Z.id in *.
  assert (Est : isStype (nth p l 0) (ln_nextcc st) (ln_nextisStype st)
                = is_Stype l (Z.of_nat p)).
  { rewrite is_Stype_step by lia. rewrite Nat2Z.id, Hcc, Hty.
    replace (Z.to_nat (Z.of_nat p + 1)) with (S p) by lia.
    replace (Z.of_nat p + 1) with (Z.of_nat (S p)) by lia. reflexivity. }
  rewrite Est in Ety, Hev.
  assert (Eab : Sstar_above l p =
                (if ln_nextisStype st && negb (is_Stype l (Z.of_nat p))
                 then [Z.of_nat (S p)] else []) ++ Sstar_above l (S p)).
  { rewrite (Sstar_above_step l p Hp). unfold is_Sstar.
    replace (Z.of_nat (S p) - 1) with (Z.of_nat p) by lia.
    rewrite Hty. reflexivity. }
  assert (Hfar : ln_nextisStype st = true ->
                 forall x, In x (Sstar_above l (S p)) -> Z.of_nat p + 3 <= x).
  { intros Hs x Hx. apply Sstar_above_In in Hx. destruct Hx as [Hx Hxs].
    destruct (Z.eq_dec x (Z.of_nat p + 2)) as [->|Hne]; [|lia].
    unfold is_Sstar in Hxs. apply andb_prop in Hxs. destruct Hxs as [_ Hxs].
    replace (Z.of_nat p + 2 - 1) with (Z.of_nat (S p)) in Hxs by lia.
    rewrite <- Hty, Hs in Hxs. discriminate Hxs. }
  unfold length_knows. rewrite Eab. clear Eab.
  rewrite andb_comm in Hev.
  destruct (ln_nextisStype st) eqn:Es; destruct (is_Stype l (Z.of_nat p));
    cbn [negb andb app length] in *;
    try (destruct Hev as [-> Enp]; rewrite Enp;
         split; [exact Ecc|]; split; [exact Ety|]; split; [exact Hnp|];
         split; [exact Hcells|exact Hfr]).
  destruct Hev as (Hlt & Hst & Enp).
  specialize (Hfar eq_refl).
  rewrite (u64_small (Z.of_nat p + 1)) in Hst, Enp by lia.
  replace (Z.of_nat p + 1) with (Z.of_nat (S p)) in Hst, Enp by lia.
  assert (Hnext : Z.of_nat (S p) < nth 0 (Sstar_above l (S p))
                                     (Z.of_nat (length l))
                  <= Z.of_nat (length l)).
  { destruct (Sstar_above l (S p)) as [|x t] eqn:E; cbn [nth]; [lia|].
    assert (Hx : In x (Sstar_above l (S p))) by (rewrite E; left; reflexivity).
    apply Sstar_above_In in Hx.
    pose proof (Hfar x (or_introl eq_refl)). lia. }
  split; [exact Ecc|]. split; [exact Ety|]. split; [exact Enp|].
  split.
  - intros k Hk. destruct k as [|k].
    + cbn [nth]. rewrite (store_cell_same _ _ _ _ _ _ Hst). f_equal.
      rewrite Hnp, u64_small by lia. lia.
    + cbn [nth].
      assert (Hin : In (nth k (Sstar_above l (S p)) 0) (Sstar_above l (S p)))
        by (apply nth_In; lia).
      pose proof (Hfar _ Hin) as Hx.
      rewrite (store_cell_other _ _ _ _ _ _ _ _ Hst).
      * apply Hcells. lia.
      * right.
        assert (GT_DIV2 (Z.of_nat (S p))
                < GT_DIV2 (nth k (Sstar_above l (S p)) 0))
          by (apply GT_DIV2_lt; lia).
        lia.
  - intros q j Hq.
    rewrite (store_cell_other _ _ _ _ _ _ _ _ Hst).
    + apply Hfr. destruct Hq as [Hq|Hq]; [left; exact Hq|right].
      intros (x & Hx & E). apply Hq. exists x. split; [right; exact Hx|exact E].
    + destruct Hq as [Hq|Hq]; [left; exact Hq|right].
      intros E. apply Hq. exists (Z.of_nat (S p)).
      split; [left; reflexivity|exact E].
Qed.

Lemma length_knows_rest s l lentab m fuel :
  reads s l ->
  Z.of_nat (length l) < wordsize ->
  forall p st mk u m',
    (S p < length l)%nat ->
    length_knows l lentab m (S p) st mk ->
    assignSstarlength_scan fuel s lentab (Z.of_nat p) st mk = Ok u m' ->
    exists st', length_knows l lentab m 0 st' m'.
Proof.
  intros Hr Hw. induction fuel as [|fuel IH];
    intros p st mk u m' Hp Hk Hrun; [discriminate|].
  cbn [assignSstarlength_scan] in Hrun.
  apply bind_ok in Hrun. destruct Hrun as (st1 & m1 & Hstep & Hrun).
  pose proof (length_knows_step _ _ _ _ _ _ _ _ _ Hr Hw Hp Hk Hstep) as Hk'.
  destruct (Z.eqb_spec (Z.of_nat p) 0) as [E0|N0].
  - apply ret_ok in Hrun. destruct Hrun as [_ <-].
    replace p with 0%nat in Hk' by lia. eauto.
  - destruct p as [|p]; [lia|].
    replace (Z.of_nat (S p) - 1) with (Z.of_nat p) in Hrun by lia.
    eapply IH; [|exact Hk'|exact Hrun]. lia.
Qed.

(** X16. [gt_sain_assignSstarlength] stores the lengths of the Sstar
    substrings: on a sequence whose last symbol is not above the sentinel,
    the entry of [lentab] at half of each Sstar position is the distance to
    the next Sstar position (to the end of the sequence for the last one)
    plus one, and no other cell changes. *)
Theorem assignSstarlength_distances s l lentab m u m' :
  reads s l ->
  0 < totallength s < wordsize ->
  nth (length l - 1) l 0 <= GT_UNIQUEINT (totallength s) ->
  gt_sain_assignSstarlength s lentab m = Ok u m' ->
  let sp := Sstar_positions l in
  (forall k, (k < length sp)%nat ->
     cell m' lentab (GT_DIV2 (nth k sp 0))
     = Some (nth (S k) sp (totallength s) - nth k sp 0 + 1)) /\
  (forall q j, pblk q <> pblk lentab \/
               ~ (exists x, In x sp /\ poff q + j = poff lentab + GT_DIV2 x) ->
               cell m' q j = cell m q j).
Proof.
  intros Hr Hn Hlast Hrun. pose proof Hr as [Htl Hget].
  assert (Hall : exists st', length_knows l lentab m 0 st' m').
  { unfold gt_sain_assignSstarlength in Hrun.
    rewrite u64_small in Hrun by lia.
    cbn [assignSstarlength_scan] in Hrun.
    apply bind_ok in Hrun. destruct Hrun as (st1 & m1 & Hstep & Hrun).
    assert (Hk : length_knows l lentab m (length l - 1) st1 m1).
    { apply assignSstarlength_step_inv in Hstep.
      destruct Hstep as (cc & Hg & Ecc & Ety & Hev).
      rewrite Hget in Hg by lia. injection Hg as <-.
      cbn [ln_nextcc ln_nextisStype ln_nextSstartypepos] in Ety, Hev.
      replace (Z.to_nat (totallength s - 1)) with (length l - 1)%nat in *
        by lia.
      assert (E : isStype (nth (length l - 1) l 0)
                    (GT_UNIQUEINT (totallength s)) true = true).
      { unfold isStype. rewrite andb_true_r.
        apply orb_true_iff. rewrite Z.ltb_lt, Z.eqb_eq. lia. }
      rewrite E in Ety, Hev. cbn [negb andb] in Hev. destruct Hev as [-> Enp].
      unfold length_knows. rewrite Sstar_above_last by lia. cbn [length nth].
      split; [exact Ecc|]. split.
      { rewrite Ety. symmetry.
        replace (Z.of_nat (length l - 1)) with (Z.of_nat (length l) - 1)
          by lia.
        apply is_Stype_last. lia. }
      split; [rewrite Enp; exact Htl|].
      split; [intros k Hk; lia|]. intros; reflexivity. }
    destruct (Z.eqb_spec (totallength s - 1) 0) as [E0|N0].
    - apply ret_ok in Hrun. destruct Hrun as [_ <-].
      replace (length l - 1)%nat with 0%nat in Hk by lia. eauto.
    - replace (totallength s - 1 - 1) with (Z.of_nat (length l - 2)) in Hrun
        by lia.
      assert (Hw : Z.of_nat (length l) < wordsize) by lia.
      apply (length_knows_rest s l lentab m (Z.to_nat (totallength s))
               Hr Hw (length l - 2)%nat st1 m1 u m'); [lia| |exact Hrun].
      replace (S (length l - 2)) with (length l - 1)%nat by lia. exact Hk. }
  destruct Hall as (st' & _ & _ & _ & Hcells & Hfr).
  change (Sstar_above l 0) with (Sstar_positions l) in Hcells, Hfr.
  rewrite Htl. split; [exact Hcells|exact Hfr].
Qed.

End SstarLength.

(** ** The counts of an integer sequence that needs no recursion *)

Lemma nth_symbols_of A n i :
  0 <= i < Z.of_nat n -> nth (Z.to_nat i) (symbols_of A n) 0 = A i.
Proof.
  intros Hi. unfold symbols_of. rewrite nth_map_seq by lia.
  f_equal. lia.
Qed.

Lemma count_occ_suffix l k c :
  0 <= k < Z.of_nat (length l) ->
  Z.of_nat (count_occ Z.eq_dec (suffix l k) c)
  = (if nth (Z.to_nat k) l 0 =? c then 1 else 0)
    + Z.of_nat (count_occ Z.eq_dec (suffix l (k + 1)) c).
Proof.
  intros Hk. rewrite (suffix_cons l k Hk). cbn [count_occ].
  destruct (Z.eq_dec (nth (Z.to_nat k) l 0) c) as [E|N].
  - rewrite (proj2 (Z.eqb_eq _ _) E). lia.
  - rewrite (proj2 (Z.eqb_neq _ _) N). lia.
Qed.

Lemma Sstar_with_step l c p :
  (S p < length l)%nat ->
  Z.of_nat (length (Sstar_with l c p))
  = (if is_Sstar l (Z.of_nat (S p)) && (nth (S p) l 0 =? c) then 1 else 0)
    + Z.of_nat (length (Sstar_with l c (S p))).
Proof.
  intros Hp. unfold Sstar_with. rewrite (Sstar_above_step l p Hp).
  destruct (is_Sstar l (Z.of_nat (S p))); cbn [app andb filter];
    [|lia].
  rewrite Nat2Z.id. destruct (nth (S p) l 0 =? c); cbn [length]; lia.
Qed.

Lemma apart_outside (p q : ptr) n i :
  (forall c, 0 <= c < n ->
     pblk p <> pblk q \/ poff p + i <> poff q + c) ->
  pblk p <> pblk q \/ ~ (0 <= poff p + i - poff q < n).
Proof.
  intros H. destruct (Nat.eq_dec (pblk p) (pblk q)) as [E|E];
    [right|left; exact E].
  intros Hr. destruct (H (poff p + i - poff q) Hr) as [N|N];
    [contradiction|lia].
Qed.

Section ArrayCounts.

Context {hd : GtHeaders}.

(** X17. [gt_sain_determineSstarfirstchardist] counts an integer sequence:
    when the sequence, [bucketsize] and [sstarfirstcharcount] share no cell
    and the last symbol is not above the sentinel, the call adds to the
    entry of [bucketsize] at each symbol [c] the number of occurrences of
    [c], and to the entry of [sstarfirstcharcount] at [c] the number of
    Sstar positions that carry [c], as [unsigned long] values. *)
Theorem determineSstarfirstchardist_counts s arr sfc (A B F : Z -> Z)
    m u m' :
  let tl := totallength s in
  let nc := numofchars s in
  let l := symbols_of A (Z.to_nat tl) in
  seq s = SeqArray arr -> sstarfirstcharcount s = Some sfc ->
  0 < tl < wordsize ->
  (forall i, 0 <= i < tl -> cell m arr i = Some (A i) /\ 0 <= A i < nc) ->
  A (tl - 1) <= GT_UNIQUEINT tl ->
  (forall c, 0 <= c < nc ->
     cell m (bucketsize s) c = Some (B c) /\ cell m sfc c = Some (F c) /\
     0 <= B c < wordsize /\ 0 <= F c < wordsize) ->
  (forall i c, 0 <= i < tl -> 0 <= c < nc ->
     (pblk arr <> pblk (bucketsize s) \/
      poff arr + i <> poff (bucketsize s) + c) /\
     (pblk arr <> pblk sfc \/ poff arr + i <> poff sfc + c)) ->
  (forall c c', 0 <= c < nc -> 0 <= c' < nc ->
     pblk (bucketsize s) <> pblk sfc \/
     poff (bucketsize s) + c <> poff sfc + c') ->
  gt_sain_determineSstarfirstchardist s m = Ok u m' ->
  forall c, 0 <= c < nc ->
    cell m' (bucketsize s) c
    = Some (u64 (B c + Z.of_nat (count_occ Z.eq_dec l c))) /\
    cell m' sfc c
    = Some (u64 (F c + Z.of_nat (length (Sstar_with l c 0)))).
Proof.
  intros tl nc l Hseq Hsfc Htl HA Hlast Hinit Hsep1 Hsep2 Hrun.
  unfold gt_sain_determineSstarfirstchardist in Hrun.
  rewrite Hseq, Hsfc in Hrun. fold tl in Hrun.
  apply bind_ok in Hrun. destruct Hrun as (stf & mf & Hloop & Hret).
  apply ret_ok in Hret. destruct Hret as [_ <-].
  assert (Hlen : Z.of_nat (length l) = tl).
  { unfold l. rewrite symbols_of_length. lia. }
  assert (Hnth : forall i, 0 <= i < tl -> nth (Z.to_nat i) l 0 = A i).
  { intros i Hi. unfold l. apply nth_symbols_of. lia. }
  pose (I := fun (k : Z) (st : Z * bool) (mk : mem) =>
    (if k + 1 <? tl
     then fst st = A (k + 1) /\ snd st = is_Stype l (k + 1)
     else st = (GT_UNIQUEINT tl, true)) /\
    (forall c, 0 <= c < nc ->
       cell mk (bucketsize s) c
       = Some (u64 (B c + Z.of_nat (count_occ Z.eq_dec (suffix l (k + 1)) c)))
       /\
       cell mk sfc c
       = Some (u64 (F c + Z.of_nat (length (Sstar_with l c
                                              (Z.to_nat (k + 1))))))) /\
    (forall i, 0 <= i < tl -> cell mk arr i = Some (A i))).
  assert (HI : I (tl - 1 - Z.of_nat (Z.to_nat tl)) stf mf).
  { eapply (for_down_inv _ I); [| |exact Hloop].
    - intros k [nextcc nextisS] mk st' mk' Hk (Hst & Hcnt & Harr) Hbody.
      cbn [fst snd] in Hst.
      apply bind_ok in Hbody. destruct Hbody as (cc & m1 & Hl & Hbody).
      apply load_ok in Hl. destruct Hl as (-> & Hcc & _).
      rewrite (Harr k) in Hcc by lia. injection Hcc as <-.
      apply bind_ok in Hbody. destruct Hbody as (u1 & m2 & Hi1 & Hbody).
      apply bind_ok in Hbody. destruct Hbody as (u2 & m3 & Hi2 & Hbody).
      apply ret_ok in Hbody. destruct Hbody as [<- <-].
      destruct (HA k) as [_ HAk]; [lia|].
      assert (Ety : isStype (A k) nextcc nextisS = is_Stype l k).
      { destruct (Z.ltb_spec (k + 1) tl) as [Hlt|Hge].
        - destruct Hst as [-> ->].
          rewrite (is_Stype_step l k) by lia.
          rewrite !Hnth by lia. reflexivity.
        - injection Hst as -> ->.
          replace k with (Z.of_nat (length l) - 1) by lia.
          rewrite is_Stype_last by lia.
          replace (Z.of_nat (length l) - 1) with (tl - 1) by lia.
          unfold isStype. rewrite andb_true_r.
          apply orb_true_iff. rewrite Z.ltb_lt, Z.eqb_eq. lia. }
      rewrite Ety in Hi1.
      assert (Hkn : Z.to_nat (k - 1 + 1) = Z.to_nat k) by (f_equal; lia).
      assert (Hk1 : k + 1 < tl -> Z.to_nat (k + 1) = S (Z.to_nat k)) by lia.
      assert (Esf : (forall c, 0 <= c < nc ->
                cell m2 sfc c
                = Some (u64 (F c + Z.of_nat (length (Sstar_with l c
                                                       (Z.to_nat k)))))) /\
                (forall q j, pblk q <> pblk sfc \/
                             ~ (0 <= poff q + j - poff sfc < nc) ->
                             cell m2 q j = cell mk q j)).
      { destruct (Z.ltb_spec (k + 1) tl) as [Hlt|Hge].
        - destruct Hst as [-> ->].
          assert (Estar : is_Sstar l (Z.of_nat (S (Z.to_nat k)))
                          = negb (is_Stype l k) && is_Stype l (k + 1)).
          { unfold is_Sstar.
            replace (Z.of_nat (S (Z.to_nat k)) - 1) with k by lia.
            replace (Z.of_nat (S (Z.to_nat k))) with (k + 1) by lia.
            apply andb_comm. }
          assert (Estep : forall c,
                    Z.of_nat (length (Sstar_with l c (Z.to_nat k)))
                    = (if negb (is_Stype l k) && is_Stype l (k + 1)
                          && (A (k + 1) =? c) then 1 else 0)
                      + Z.of_nat (length (Sstar_with l c (Z.to_nat (k + 1))))).
          { intros c. rewrite Sstar_with_step by lia.
            rewrite Estar, (Hk1 Hlt).
            replace (nth (S (Z.to_nat k)) l 0) with (A (k + 1)); [reflexivity|].
            rewrite <- (Hnth (k + 1)) by lia. f_equal. lia. }
          destruct (negb (is_Stype l k) && is_Stype l (k + 1)) eqn:Ec.
          + apply incr_ok in Hi1. destruct Hi1 as (v & Hv & Hv' & Hfr1).
            destruct (HA (k + 1)) as [_ HAk1]; [lia|].
            split.
            * intros c Hc. rewrite Estep. cbn [andb].
              destruct (Z.eqb_spec (A (k + 1)) c) as [E|N].
              -- subst c. rewrite Hv'. f_equal.
                 destruct (Hcnt (A (k + 1)) HAk1) as [_ Hs].
                 rewrite Hs in Hv. injection Hv as <-.
                 rewrite u64_add_l. f_equal. lia.
              -- rewrite Hfr1 by (right; lia).
                 destruct (Hcnt c Hc) as [_ Hs]. rewrite Hs. f_equal.
            * intros q j Hq. apply Hfr1.
              destruct Hq as [Hq|Hq]; [left; exact Hq|right; lia].
          + apply ret_ok in Hi1. destruct Hi1 as [_ <-].
            split; [|intros; reflexivity].
            intros c Hc. rewrite Estep. cbn [andb].
            destruct (Hcnt c Hc) as [_ Hs]. rewrite Hs. f_equal.
        - injection Hst as -> ->.
          replace (is_Stype l k) with true in Hi1.
          2:{ symmetry. replace k with (Z.of_nat (length l) - 1) by lia.
              apply is_Stype_last. lia. }
          cbn [negb andb] in Hi1. apply ret_ok in Hi1. destruct Hi1 as [_ <-].
          split; [|intros; reflexivity].
          intros c Hc. destruct (Hcnt c Hc) as [_ Hs]. rewrite Hs.
          unfold Sstar_with. rewrite !Sstar_above_last by lia. reflexivity. }
      destruct Esf as [Esf Hfr2].
      apply incr_ok in Hi2. destruct Hi2 as (v & Hv & Hv' & Hfr3).
      unfold I. rewrite Hkn.
      replace (k - 1 + 1) with k by lia.
      split.
      { replace (k <? tl) with true by (symmetry; apply Z.ltb_lt; lia).
        cbn [fst snd]. split; [reflexivity|exact Ety]. }
      split.
      + intros c Hc. split.
        * rewrite count_occ_suffix by lia. rewrite Hnth by lia.
          destruct (Z.eqb_spec (A k) c) as [E|N].
          -- subst c. rewrite Hv'. f_equal.
             rewrite Hfr2 in Hv
               by (apply apart_outside; intros c' Hc'; apply Hsep2; lia).
             destruct (Hcnt (A k) HAk) as [Hb _].
             rewrite Hb in Hv. injection Hv as <-.
             rewrite u64_add_l. f_equal. lia.
          -- rewrite Hfr3 by (right; lia).
             rewrite Hfr2
               by (apply apart_outside; intros c' Hc'; apply Hsep2; lia).
             destruct (Hcnt c Hc) as [Hb _]. rewrite Hb. f_equal.
        * rewrite Hfr3; [apply Esf; exact Hc|].
          destruct (Hsep2 (A k) c HAk Hc) as [H|H];
            [left; intros E; apply H; symmetry; exact E|right; lia].
      + intros i Hi. rewrite Hfr3 by (apply Hsep1; lia).
        rewrite Hfr2; [apply Harr; exact Hi|].
        apply apart_outside. intros c' Hc'. apply Hsep1; lia.
    - unfold I.
      replace (tl - 1 + 1 <? tl) with false by (symmetry; apply Z.ltb_ge; lia).
      split; [reflexivity|]. split.
      + intros c Hc. destruct (Hinit c Hc) as (Hb & Hf & HB & HF).
        replace (tl - 1 + 1) with (Z.of_nat (length l)) by lia.
        rewrite suffix_end. unfold Sstar_with.
        rewrite Sstar_above_last by lia. cbn [count_occ filter length].
        rewrite !Z.add_0_r, !u64_small by assumption. split; assumption.
      + intros i Hi. apply HA. exact Hi. }
  destruct HI as (_ & Hcnt & _).
  replace (tl - 1 - Z.of_nat (Z.to_nat tl) + 1) with 0 in Hcnt by lia.
  intros c Hc. destruct (Hcnt c Hc) as [Hb Hf]. split; [exact Hb|exact Hf].
Qed.

End ArrayCounts.

(** ** Moving the Sstar suffixes to the front *)

Lemma negative_below_step V r :
  0 <= r ->
  negative_below V (r + 1)
  = negative_below V r ++ (if s64 (V r) <? 0 then [r] else []).
Proof.
  intros Hr. unfold negative_below.
  replace (Z.to_nat (r + 1)) with (S (Z.to_nat r)) by lia.
  rewrite seq_S, map_app, filter_app. cbn [Nat.add map filter].
  rewrite Z2Nat.id by lia. destruct (s64 (V r) <? 0); reflexivity.
Qed.

Lemma negative_below_prefix V r d :
  0 <= r ->
  exists rest,
    negative_below V (r + Z.of_nat d) = negative_below V r ++ rest.
Proof.
  intros Hr. induction d as [|d [rest IH]].
  - exists []. rewrite Z.add_0_r, app_nil_r. reflexivity.
  - replace (r + Z.of_nat (S d)) with (r + Z.of_nat d + 1) by lia.
    rewrite negative_below_step by lia. rewrite IH, <- app_assoc. eauto.
Qed.

Lemma negative_below_length V r :
  0 <= r -> Z.of_nat (length (negative_below V r)) <= r.
Proof.
  intros Hr. unfold negative_below.
  pose proof (filter_length_le (fun i => s64 (V i) <? 0)
                (map Z.of_nat (List.seq 0 (Z.to_nat r)))) as H.
  rewrite length_map, length_seq in H. lia.
Qed.

Lemma filter_length_eq {A} (f : A -> bool) (l : list A) :
  length (filter f l) = length l -> filter f l = l.
Proof.
  induction l as [|h t IH]; cbn [filter length]; [reflexivity|].
  pose proof (filter_length_le f t) as Hle.
  destruct (f h); cbn [length]; intros H; [f_equal; apply IH|]; lia.
Qed.

Lemma negative_below_all V r :
  0 < r -> Z.of_nat (length (negative_below V r)) = r ->
  last (negative_below V r) 0 = r - 1.
Proof.
  intros Hr H. unfold negative_below in *.
  rewrite filter_length_eq by (rewrite length_map, length_seq; lia).
  replace (Z.to_nat r) with (S (Z.to_nat (r - 1))) by lia.
  rewrite seq_S, map_app. cbn [Nat.add map]. rewrite last_last. lia.
Qed.

Lemma s64_small v : 0 <= v < wordsize -> - 2 ^ 63 <= s64 v < 2 ^ 63.
Proof.
  intros H. unfold s64. rewrite u64_small by exact H.
  change wordsize with (2 ^ 64) in *.
  destruct (Z.ltb_spec v (2 ^ 63)); lia.
Qed.

Section MoveSstar.

Variables (suftab : ptr) (tagged : Z -> bool) (V : Z -> Z) (count n : Z)
  (m : mem).

Hypothesis Hn : 0 < n < wordsize.
Hypothesis HV : forall i, 0 <= i < n -> 0 <= V i < wordsize.

Lemma moved_negative r w nc mk mk' :
  0 <= w < r + 1 -> r < n ->
  moved suftab tagged V n m r w nc mk ->
  s64 (V r) < 0 ->
  cell mk' suftab w = Some (lnot (s64 (V r))) ->
  (forall q j, pblk q <> pblk suftab \/
               (poff q + j <> poff suftab + w /\
                poff q + j <> poff suftab + r) ->
               cell mk' q j = cell mk q j) ->
  moved suftab tagged V n m (r + 1) (w + 1)
    (if tagged (lnot (s64 (V r))) then u64 (nc + 1) else nc) mk'.
Proof.
  intros Hw Hr (Hlen & Hcells & Hnc & Hrest & Hfr) Hneg Hcw Hfr'.
  unfold moved. rewrite negative_below_step by lia.
  replace (s64 (V r) <? 0) with true by (symmetry; apply Z.ltb_lt; exact Hneg).
  rewrite length_app, filter_app, length_app. cbn [length filter].
  split; [lia|]. split; [|split; [|split]].
  - intros k Hk.
    destruct (Nat.eq_dec k (length (negative_below V r))) as [->|Hne].
    + rewrite nth_middle, Hlen. exact Hcw.
    + rewrite app_nth1 by lia. rewrite Hfr' by (right; lia).
      apply Hcells. lia.
  - pose proof (filter_length_le (fun i => tagged (lnot (s64 (V i))))
                  (negative_below V r)) as Hle.
    destruct (tagged (lnot (s64 (V r)))); cbn [length]; [|lia].
    rewrite u64_small by lia. lia.
  - intros i Hi. rewrite Hfr' by (right; lia). apply Hrest. lia.
  - intros q j Hq. rewrite Hfr'; [apply Hfr|];
      (destruct Hq as [Hq|Hq]; [left; exact Hq|right; lia]).
Qed.

Lemma lead_moves fuel :
  forall r nc mk r' nc' m',
    0 <= r < n ->
    moved suftab tagged V n m r r nc mk ->
    moveSstar_lead fuel suftab tagged n r nc mk = Ok (r', nc') m' ->
    moved suftab tagged V n m r' r' nc' m' /\ r <= r' < n /\
    0 <= s64 (V r').
Proof.
  induction fuel as [|fuel IH]; intros r nc mk r' nc' m' Hr Hm Hrun;
    [discriminate|].
  cbn [moveSstar_lead] in Hrun.
  apply bind_ok in Hrun. destruct Hrun as (v & m1 & Hl & Hrun).
  apply load_ok in Hl. destruct Hl as (-> & Hv & _).
  pose proof Hm as (_ & _ & _ & Hrest & _).
  rewrite (Hrest r) in Hv by lia. injection Hv as <-.
  destruct (Z.ltb_spec (s64 (V r)) 0) as [Hneg|Hpos].
  - apply bind_ok in Hrun. destruct Hrun as ([] & m2 & Hst & Hrun).
    apply bind_ok in Hrun. destruct Hrun as (u2 & m3 & Ha & Hrun).
    apply gt_assert_ok in Ha. destruct Ha as [Ha <-].
    apply Z.ltb_lt in Ha.
    pose proof (s64_small (V r) (HV r Hr)) as Hs.
    assert (Hm2 : moved suftab tagged V n m (r + 1) (r + 1)
                    (if tagged (lnot (s64 (V r))) then u64 (nc + 1) else nc)
                    m2).
    { apply (moved_negative r r nc mk m2); [lia|lia|exact Hm|exact Hneg| |].
      - rewrite (store_cell_same _ _ _ _ _ _ Hst). f_equal.
        apply u64_small. unfold lnot. change wordsize with (2 ^ 64). lia.
      - intros q j Hq. eapply store_cell_other; [exact Hst|].
        destruct Hq as [Hq|Hq]; [left; exact Hq|right; lia]. }
    assert (H1 : 0 <= r + 1 < n) by lia.
    destruct (IH _ _ _ _ _ _ H1 Hm2 Hrun) as (Hm' & Hr' & Hp').
    split; [exact Hm'|]. split; [lia|exact Hp'].
  - apply ret_ok in Hrun. destruct Hrun as [E <-]. injection E as <- <-.
    split; [exact Hm|]. split; [lia|exact Hpos].
Qed.

Lemma rest_moves fuel r0 :
  forall r w nc mk w' nc' m',
    0 <= r0 <= w -> w < r -> w < count ->
    moved suftab tagged V n m r w nc mk ->
    (forall i, w <= i < r -> i <> r0 -> cell mk suftab i = Some 0) ->
    moveSstar_rest fuel suftab tagged count n r w nc mk = Ok (w', nc') m' ->
    exists r', r <= r' < n /\ s64 (V r') < 0 /\
      moved suftab tagged V n m (r' + 1) count nc' m' /\ w' = count /\
      (forall i, count <= i <= r' -> cell m' suftab i = Some 0).
Proof.
  induction fuel as [|fuel IH]; intros r w nc mk w' nc' m' Hw Hwr Hwc Hm Hz
    Hrun; [discriminate|].
  cbn [moveSstar_rest] in Hrun.
  apply bind_ok in Hrun. destruct Hrun as (u0 & m0 & Ha & Hrun).
  apply gt_assert_ok in Ha. destruct Ha as [Ha <-]. apply Z.ltb_lt in Ha.
  apply bind_ok in Hrun. destruct Hrun as (v & m1 & Hl & Hrun).
  apply load_ok in Hl. destruct Hl as (-> & Hv & _).
  pose proof Hm as (Hlen & Hcells & Hnc & Hrest & Hfr).
  rewrite (Hrest r) in Hv by lia. injection Hv as <-.
  assert (Hr : 0 <= r < n) by lia.
  destruct (Z.ltb_spec (s64 (V r)) 0) as [Hneg|Hpos].
  - apply bind_ok in Hrun. destruct Hrun as (u1 & m2 & Ha1 & Hrun).
    apply gt_assert_ok in Ha1. destruct Ha1 as [_ <-].
    apply bind_ok in Hrun. destruct Hrun as ([] & m3 & Hst1 & Hrun).
    apply bind_ok in Hrun. destruct Hrun as ([] & m4 & Hst2 & Hrun).
    pose proof (s64_small (V r) (HV r Hr)) as Hs.
    assert (Hm4 : moved suftab tagged V n m (r + 1) (w + 1)
                    (if tagged (lnot (s64 (V r))) then u64 (nc + 1) else nc)
                    m4).
    { apply (moved_negative r w nc mk m4); [lia|lia|exact Hm|exact Hneg| |].
      - rewrite (store_cell_other _ _ _ _ _ _ _ _ Hst2) by (right; lia).
        rewrite (store_cell_same _ _ _ _ _ _ Hst1). f_equal.
        apply u64_small. unfold lnot. change wordsize with (2 ^ 64). lia.
      - intros q j Hq.
        rewrite (store_cell_other _ _ _ _ _ _ _ _ Hst2)
          by (destruct Hq as [Hq|Hq]; [left; exact Hq|right; lia]).
        eapply store_cell_other; [exact Hst1|].
        destruct Hq as [Hq|Hq]; [left; exact Hq|right; lia]. }
    assert (Hz4 : forall i, w + 1 <= i < r + 1 -> i <> r0 ->
                    cell m4 suftab i = Some 0).
    { intros i Hi Hne. destruct (Z.eq_dec i r) as [->|Hir].
      - rewrite (store_cell_same _ _ _ _ _ _ Hst2). reflexivity.
      - rewrite (store_cell_other _ _ _ _ _ _ _ _ Hst2) by (right; lia).
        rewrite (store_cell_other _ _ _ _ _ _ _ _ Hst1) by (right; lia).
        apply Hz; [lia|exact Hne]. }
    destruct (Z.eqb_spec (w + 1) count) as [Ec|Nc].
    + apply ret_ok in Hrun. destruct Hrun as [E <-]. injection E as <- <-.
      exists r. split; [lia|]. split; [exact Hneg|].
      rewrite <- Ec. split; [exact Hm4|]. split; [reflexivity|].
      intros i Hi. apply Hz4; lia.
    + assert (H1 : 0 <= r0 <= w + 1) by lia.
      assert (H2 : w + 1 < r + 1) by lia.
      assert (H3 : w + 1 < count) by lia.
      destruct (IH _ _ _ _ _ _ _ H1 H2 H3 Hm4 Hz4 Hrun)
        as (r' & Hr' & Hn' & Hm' & Hw' & Hz').
      exists r'. split; [lia|]. auto.
  - apply bind_ok in Hrun. destruct Hrun as ([] & m2 & Hst & Hrun).
    assert (Hm2 : moved suftab tagged V n m (r + 1) w nc m2).
    { unfold moved. rewrite negative_below_step by lia.
      replace (s64 (V r) <? 0) with false
        by (symmetry; apply Z.ltb_ge; exact Hpos).
      rewrite app_nil_r. split; [exact Hlen|]. split; [|split; [|split]].
      - intros k Hk.
        rewrite (store_cell_other _ _ _ _ _ _ _ _ Hst) by (right; lia).
        apply Hcells. exact Hk.
      - exact Hnc.
      - intros i Hi.
        rewrite (store_cell_other _ _ _ _ _ _ _ _ Hst) by (right; lia).
        apply Hrest. lia.
      - intros q j Hq.
        rewrite (store_cell_other _ _ _ _ _ _ _ _ Hst);
          [apply Hfr|];
          (destruct Hq as [Hq|Hq]; [left; exact Hq|right; lia]). }
    assert (Hz2 : forall i, w <= i < r + 1 -> i <> r0 ->
                    cell m2 suftab i = Some 0).
    { intros i Hi Hne. destruct (Z.eq_dec i r) as [->|Hir].
      - rewrite (store_cell_same _ _ _ _ _ _ Hst). reflexivity.
      - rewrite (store_cell_other _ _ _ _ _ _ _ _ Hst) by (right; lia).
        apply Hz; [lia|exact Hne]. }
    assert (H2 : w < r + 1) by lia.
    destruct (IH _ _ _ _ _ _ _ Hw H2 Hwc Hm2 Hz2 Hrun)
      as (r' & Hr' & Hn' & Hm' & Hw' & Hz').
    exists r'. split; [lia|]. auto.
Qed.

Lemma moved_last r nc mk :
  0 <= r -> s64 (V r) < 0 ->
  moved suftab tagged V n m (r + 1) count nc mk ->
  last (negative_below V (r + 1)) 0 = r.
Proof.
  intros Hr Hneg _. rewrite negative_below_step by exact Hr.
  replace (s64 (V r) <? 0) with true by (symmetry; apply Z.ltb_lt; exact Hneg).
  apply last_last.
Qed.

Lemma moved_first r nc mk :
  0 <= r <= n ->
  moved suftab tagged V n m r count nc mk ->
  firstn (Z.to_nat count) (negative_below V n) = negative_below V r.
Proof.
  intros Hr (Hlen & _).
  destruct (negative_below_prefix V r (Z.to_nat (n - r)) (proj1 Hr))
    as [rest E].
  replace (r + Z.of_nat (Z.to_nat (n - r))) with n in E by lia.
  rewrite E. replace (Z.to_nat count) with (length (negative_below V r) + 0)%nat
    by lia.
  rewrite firstn_app_2. cbn [firstn]. apply app_nil_r.
Qed.

End MoveSstar.

(** The two loops, for both variants of the function. *)
Lemma moveSstar2front_gen_moves suftab tagged count n (V : Z -> Z) m
    namecount m' :
  0 < count -> 0 < n < wordsize ->
  (forall i, 0 <= i < n ->
     cell m suftab i = Some (V i) /\ 0 <= V i < wordsize) ->
  moveSstar2front_gen suftab tagged count n m = Ok namecount m' ->
  Sstar_at_front suftab tagged count n V m namecount m'.
Proof.
  intros Hc Hn HV Hrun. unfold Sstar_at_front.
  assert (HVr : forall i, 0 <= i < n -> 0 <= V i < wordsize)
    by (intros i Hi; apply HV; exact Hi).
  unfold moveSstar2front_gen in Hrun.
  apply bind_ok in Hrun. destruct Hrun as ([r0 nc0] & m1 & Hlead & Hrun).
  apply bind_ok in Hrun. destruct Hrun as ([w nc1] & m2 & Hrest & Hrun).
  apply bind_ok in Hrun. destruct Hrun as (u & m3 & Ha & Hrun).
  apply gt_assert_ok in Ha. destruct Ha as [Ha <-]. apply Z.eqb_eq in Ha.
  apply ret_ok in Hrun. destruct Hrun as [<- <-]. subst w.
  assert (Hm0 : moved suftab tagged V n m 0 0 0 m).
  { unfold moved. cbn [negative_below Z.to_nat List.seq map filter length].
    split; [reflexivity|]. split; [intros k Hk; lia|].
    split; [reflexivity|]. split; [intros i Hi; apply HV; lia|].
    intros; reflexivity. }
  assert (H0 : 0 <= 0 < n) by lia.
  destruct (lead_moves suftab tagged V n m Hn HVr _ _ _ _ _ _ _ H0 Hm0 Hlead)
    as (Hm1 & Hr0 & Hp0).
  assert (Hend : exists r, 0 <= r <= n /\
            moved suftab tagged V n m r count nc1 m2 /\
            last (negative_below V r) 0 = r - 1 /\
            (forall i, count <= i <= r - 1 -> cell m2 suftab i = Some 0)).
  { destruct (Z.ltb_spec r0 count) as [Hlt|Hge].
    - assert (Hm1' : moved suftab tagged V n m (r0 + 1) r0 nc0 m1).
      { destruct Hm1 as (Hlen & Hcells & Hnc & Hrs & Hfr).
        unfold moved. rewrite negative_below_step by lia.
        replace (s64 (V r0) <? 0) with false
          by (symmetry; apply Z.ltb_ge; exact Hp0).
        rewrite app_nil_r. split; [exact Hlen|]. split; [exact Hcells|].
        split; [exact Hnc|]. split; [intros i Hi; apply Hrs; lia|].
        intros q j Hq. apply Hfr.
        destruct Hq as [Hq|Hq]; [left; exact Hq|right; lia]. }
      assert (H1 : 0 <= r0 <= r0) by lia.
      assert (H2 : r0 < r0 + 1) by lia.
      assert (Hz1 : forall i, r0 <= i < r0 + 1 -> i <> r0 ->
                      cell m1 suftab i = Some 0) by (intros i Hi Hne; lia).
      destruct (rest_moves suftab tagged V count n m Hn HVr _ r0 _ _ _ _ _ _ _
                  H1 H2 Hlt Hm1' Hz1 Hrest)
        as (r' & Hr' & Hneg & Hm' & _ & Hz').
      exists (r' + 1). split; [lia|]. split; [exact Hm'|]. split.
      + rewrite (moved_last suftab tagged V count n m r' nc1 m2);
          [lia|lia|exact Hneg|exact Hm'].
      + intros i Hi. apply Hz'. lia.
    - apply ret_ok in Hrest. destruct Hrest as [E <-]. injection E as E <-.
      exists r0. subst r0. split; [lia|]. split; [exact Hm1|]. split.
      + apply negative_below_all; [lia|]. apply Hm1.
      + intros i Hi. lia. }
  destruct Hend as (r & Hr & Hm & Hlast & Hz).
  pose proof (moved_first suftab tagged V count n m r nc1 m2 Hr Hm) as Ef.
  rewrite Ef, Hlast.
  destruct Hm as (Hlen & Hcells & Hnc & _ & Hfr).
  split; [exact Hlen|]. split; [exact Hcells|]. split; [exact Hnc|].
  split; [exact Hz|].
  intros q j Hq. apply Hfr.
  destruct Hq as [Hq|Hq]; [left; exact Hq|right; lia].
Qed.

(** X18. [gt_sain_moveSstar2front] and [gt_sain_simple_moveSstar2front]
    move the marked suffixes to the front: when they return on a table of
    [n] entries with [count > 0], at least [count] entries were negative,
    the complements of the first [count] of them fill the entries
    [0..count) in their order, the entries behind them are zero up to the
    place of the last one moved, and no other cell changes.  The simple
    variant needs a round table and returns the number of moved values that
    are at least [totallength]. *)
Theorem moveSstar2front_moves s suftab count n (V : Z -> Z) m :
  0 < count -> 0 < n < wordsize ->
  (forall i, 0 <= i < n ->
     cell m suftab i = Some (V i) /\ 0 <= V i < wordsize) ->
  (forall u m',
     gt_sain_moveSstar2front count suftab n m = Ok u m' ->
     Sstar_at_front suftab (fun _ => false) count n V m 0 m') /\
  (forall namecount m',
     gt_sain_simple_moveSstar2front s count suftab n m = Ok namecount m' ->
     roundtable s <> None /\
     Sstar_at_front suftab (fun position => s64 (totallength s) <=? position)
       count n V m namecount m').
Proof.
  intros Hc Hn HV. split.
  - intros u m' Hrun. unfold gt_sain_moveSstar2front in Hrun.
    apply bind_ok in Hrun. destruct Hrun as (nc & m1 & Hrun & Hret).
    apply ret_ok in Hret. destruct Hret as [_ <-].
    pose proof (moveSstar2front_gen_moves _ _ _ _ _ _ _ _ Hc Hn HV Hrun) as H.
    replace nc with 0 in H; [exact H|].
    destruct H as (_ & _ & -> & _). clear.
    induction (firstn (Z.to_nat count) (negative_below V n)) as [|h t IH];
      [reflexivity|exact IH].
  - intros namecount m' Hrun. unfold gt_sain_simple_moveSstar2front in Hrun.
    apply bind_ok in Hrun. destruct Hrun as (u & m1 & Ha & Hrun).
    apply gt_assert_ok in Ha. destruct Ha as [Ha <-]. split.
    + destruct (roundtable s); [discriminate|discriminate Ha].
    + exact (moveSstar2front_gen_moves _ _ _ _ _ _ _ _ Hc Hn HV Hrun).
Qed.

(** ** Naming the sorted Sstar substrings *)

Lemma window_eqb_spec l a b len :
  0 <= len ->
  window_eqb l a b len = true <->
  a + len <= Z.of_nat (length l) /\ b + len <= Z.of_nat (length l) /\
  forall k, 0 <= k < len ->
    nth (Z.to_nat (a + k)) l 0 = nth (Z.to_nat (b + k)) l 0.
Proof.
  intros Hlen. unfold window_eqb.
  rewrite !andb_true_iff, !Z.leb_le, forallb_forall. split.
  - intros [[Ha Hb] Hk]. split; [exact Ha|]. split; [exact Hb|].
    intros k Hkr. apply Z.eqb_eq. apply Hk.
    apply in_map_iff. exists (Z.to_nat k). split; [lia|].
    apply in_seq. lia.
  - intros (Ha & Hb & Hk). split; [split; assumption|].
    intros x Hx. apply in_map_iff in Hx. destruct Hx as (i & <- & Hi).
    apply in_seq in Hi. apply Z.eqb_eq. apply Hk. lia.
Qed.

Lemma name_of_bound l P L i : 1 <= name_of l P L i <= Z.of_nat i + 1.
Proof.
  induction i as [|i IH]; cbn [name_of]; [lia|].
  destruct (_ && _); lia.
Qed.

Section Naming.

Context {hd : GtHeaders}.

(** X19. [gt_sain_assignSstarnames] names the sorted Sstar substrings, for a
    sequence of any of the three kinds, as the view reads it in the memory
    of the call; an integer sequence, which lies in the memory, shares no
    cell with the lengths.  With the start positions [P i] in the first
    [count] entries and the lengths [L i] at half of these positions behind
    them, the first substring gets the name 1, each next one the name of its
    predecessor when both have the same length and the same symbols and one
    more otherwise; the names replace the lengths, the last name is returned
    and no other cell changes. *)
Theorem assignSstarnames_names s l count suftab (P L : Z -> Z) m names m' :
  reads_in m s l ->
  seq_apart s suftab
    (fun j => exists i, 0 <= i < count /\ j = count + GT_DIV2 (P i)) ->
  0 < count < wordsize ->
  (forall i, 0 <= i < count ->
     cell m suftab i = Some (P i) /\ 0 <= P i <= totallength s /\
     cell m suftab (count + GT_DIV2 (P i)) = Some (L i) /\
     0 <= L i /\ P i + L i < wordsize) ->
  (forall i j, 0 <= i < j -> j < count ->
     GT_DIV2 (P i) <> GT_DIV2 (P j)) ->
  gt_sain_assignSstarnames s count suftab m = Ok names m' ->
  names = name_of l P L (Z.to_nat (count - 1)) /\
  (forall i, 0 <= i < count ->
     cell m' suftab (count + GT_DIV2 (P i))
     = Some (name_of l P L (Z.to_nat i))) /\
  (forall q j, pblk q <> pblk suftab \/
               ~ (exists i, 0 <= i < count /\
                            poff q + j = poff suftab + count + GT_DIV2 (P i)) ->
               cell m' q j = cell m q j).
Proof.
  intros Hr Hapart Hc HP Hdiv Hrun. pose proof Hr as [Htl Hget].
  assert (Hdiv0 : forall i, 0 <= i < count -> 0 <= GT_DIV2 (P i)).
  { intros i Hi. destruct (HP i Hi) as (_ & Hp & _).
    unfold GT_DIV2. rewrite Z.shiftr_div_pow2 by lia.
    apply Z.div_pos; lia. }
  unfold gt_sain_assignSstarnames in Hrun.
  apply bind_ok in Hrun. destruct Hrun as (p0 & m0 & Hl0 & Hrun).
  apply load_ok in Hl0. destruct Hl0 as (-> & Hp0 & _).
  destruct (HP 0) as (E0 & HP0 & EL0 & HL0 & HW0); [lia|].
  rewrite E0 in Hp0. injection Hp0 as <-.
  apply bind_ok in Hrun. destruct Hrun as (l0 & m1 & Hl1 & Hrun).
  apply load_ok in Hl1. destruct Hl1 as (-> & Hl1 & _).
  rewrite cell_padd, EL0 in Hl1. injection Hl1 as <-.
  apply bind_ok in Hrun. destruct Hrun as ([] & m2 & Hst & Hrun).
  apply bind_ok in Hrun. destruct Hrun as (st & m3 & Hloop & Hrun).
  apply ret_ok in Hrun. destruct Hrun as [<- <-].
  pose (I := fun (k : Z) (st : Z * Z * Z) (mk : mem) =>
    st = (P (k - 1), L (k - 1), name_of l P L (Z.to_nat (k - 1))) /\
    (forall i, 0 <= i < k ->
       cell mk suftab (count + GT_DIV2 (P i))
       = Some (name_of l P L (Z.to_nat i))) /\
    (forall q j, pblk q <> pblk suftab \/
                 ~ (exists i, 0 <= i < k /\
                      poff q + j = poff suftab + count + GT_DIV2 (P i)) ->
                 cell mk q j = cell m q j)).
  assert (HI : I (1 + Z.of_nat (Z.to_nat (count - 1))) st m3).
  { eapply (for_up_inv _ I); [| |exact Hloop].
    - intros k [[pp pl] cn] mk st' mk' Hk (Est & Hcells & Hfr) Hbody.
      injection Est as -> -> ->.
      unfold assignSstarnames_step in Hbody.
      apply bind_ok in Hbody. destruct Hbody as (pos & ma & Hla & Hbody).
      apply load_ok in Hla. destruct Hla as (-> & Hpos & _).
      destruct (HP k) as (Ek & HPk & ELk & HLk & HWk); [lia|].
      destruct (HP (k - 1)) as (_ & HPk1 & _ & HLk1 & HWk1); [lia|].
      assert (Hunw : forall i, 0 <= i < count ->
                ~ (exists i0, 0 <= i0 < k /\
                     poff suftab + i
                     = poff suftab + count + GT_DIV2 (P i0))).
      { intros i Hi (i0 & Hi0 & E). pose proof (Hdiv0 i0). lia. }
      rewrite Hfr, Ek in Hpos by (right; apply Hunw; lia).
      injection Hpos as <-.
      apply bind_ok in Hbody. destruct Hbody as (cl & mb & Hlb & Hbody).
      apply load_ok in Hlb. destruct Hlb as (-> & Hcl & _).
      rewrite cell_padd, Hfr, ELk in Hcl.
      2:{ right. intros (i0 & Hi0 & E).
          apply (Hdiv i0 k); [lia|lia|lia]. }
      injection Hcl as <-.
      apply bind_ok in Hbody. destruct Hbody as (cmp & mc & Hcmp & Hbody).
      apply bind_ok in Hbody. destruct Hbody as ([] & md & Hstk & Hbody).
      apply ret_ok in Hbody. destruct Hbody as [<- <-].
      assert (Hne : P (k - 1) <> P k).
      { intros E. apply (Hdiv (k - 1) k); [lia|lia|]. rewrite E. reflexivity. }
      assert (Ename : mc = mk /\
                (if cmp =? -1
                 then u64 (name_of l P L (Z.to_nat (k - 1)) + 1)
                 else name_of l P L (Z.to_nat (k - 1)))
                = name_of l P L (Z.to_nat k)).
      { replace (Z.to_nat k) with (S (Z.to_nat (k - 1))) by lia.
        cbn [name_of]. rewrite !Nat2Z.inj_succ, !Z2Nat.id by lia.
        replace (Z.succ (k - 1)) with k by lia.
        pose proof (name_of_bound l P L (Z.to_nat (k - 1))) as Hb.
        destruct (Z.eqb_spec (L (k - 1)) (L k)) as [EL|NL]; cbn [andb].
        - apply bind_ok in Hcmp. destruct Hcmp as (c & me & Hc1 & Hcmp).
          apply bind_ok in Hcmp. destruct Hcmp as (ua & mf & Hassert & Hcmp).
          apply gt_assert_ok in Hassert. destruct Hassert as [Hassert <-].
          apply ret_ok in Hcmp. destruct Hcmp as [<- <-].
          assert (Hrk : reads_in mk s l).
          { apply (reads_in_frame s l m mk Hr). intros a Ea p Hp.
            apply Hfr.
            destruct (Nat.eq_dec (pblk a) (pblk suftab)) as [Eb|Nb];
              [right|left; exact Nb].
            intros (i0 & Hi0 & E).
            destruct (Hapart a Ea p (count + GT_DIV2 (P i0)) Hp) as [N|N];
              [exists i0; split; [lia|reflexivity]|contradiction|lia]. }
          destruct (compare_Sstarstrings_total s l (P (k - 1)) (P k) (L k) mk
                      Hrk HPk1 HPk Hne HLk) as (r & Hrun & H0 & _ & _ & Hcases);
            [lia|].
          rewrite Hrun in Hc1. injection Hc1 as <- <-.
          split; [reflexivity|].
          rewrite Htl in H0.
          destruct Hcases as [->|[->| ->]]; [| |discriminate Hassert].
          + replace (window_eqb l (P (k - 1)) (P k) (L k)) with true.
            * cbn. lia.
            * symmetry. apply window_eqb_spec; [exact HLk|].
              apply H0. reflexivity.
          + replace (window_eqb l (P (k - 1)) (P k) (L k)) with false.
            * cbn [Z.eqb Pos.eqb]. rewrite u64_small by lia. reflexivity.
            * symmetry. apply not_true_is_false. intros Hw.
              apply window_eqb_spec in Hw; [|exact HLk].
              apply H0 in Hw. discriminate Hw.
        - apply ret_ok in Hcmp. destruct Hcmp as [<- <-].
          split; [reflexivity|]. cbn [Z.eqb Pos.eqb].
          rewrite u64_small by lia. reflexivity. }
      destruct Ename as [-> Ename]. rewrite Ename in Hstk.
      unfold I. replace (k + 1 - 1) with k by lia. rewrite Ename.
      split; [reflexivity|]. split.
      + intros i Hi. destruct (Z.eq_dec i k) as [->|Hik].
        * rewrite <- cell_padd.
          rewrite (store_cell_same _ _ _ _ _ _ Hstk). f_equal.
          pose proof (name_of_bound l P L (Z.to_nat k)).
          apply u64_small. lia.
        * rewrite <- cell_padd.
          rewrite (store_cell_other _ _ _ _ _ _ _ _ Hstk).
          -- rewrite cell_padd. apply Hcells. lia.
          -- right. cbn [padd poff].
             assert (GT_DIV2 (P i) <> GT_DIV2 (P k))
               by (apply Hdiv; lia).
             lia.
      + intros q j Hq.
        rewrite (store_cell_other _ _ _ _ _ _ _ _ Hstk).
        * apply Hfr. destruct Hq as [Hq|Hq]; [left; exact Hq|right].
          intros (i0 & Hi0 & E). apply Hq. exists i0. split; [lia|exact E].
        * destruct Hq as [Hq|Hq]; [left; exact Hq|right].
          cbn [padd poff]. intros E. apply Hq. exists k. split; lia.
    - unfold I. replace (1 - 1) with 0 by lia.
      split; [reflexivity|]. split.
      + intros i Hi. assert (i = 0) by lia. subst i.
        rewrite <- cell_padd.
        rewrite (store_cell_same _ _ _ _ _ _ Hst). reflexivity.
      + intros q j Hq.
        apply (store_cell_other _ _ _ _ _ _ _ _ Hst).
        destruct Hq as [Hq|Hq]; [left; exact Hq|right].
        cbn [padd poff]. intros E. apply Hq. exists 0. split; lia. }
  destruct HI as (Est & Hcells & Hfr).
  replace (1 + Z.of_nat (Z.to_nat (count - 1))) with count in * by lia.
  subst st. cbn [snd]. split; [reflexivity|]. split; [exact Hcells|exact Hfr].
Qed.

End Naming.

(** ** The entries of a checked suffix table *)

Lemma lex_lt_endmax_trans a :
  forall b c, lex_lt_endmax a b -> lex_lt_endmax b c -> lex_lt_endmax a c.
Proof.
  induction a as [|x xs IH]; intros b c Hab Hbc; [inversion Hab|].
  inversion Hab; subst.
  - inversion Hbc.
  - inversion Hbc; subst.
    + constructor.
    + apply lt_endmax_head. lia.
    + apply lt_endmax_head. assumption.
  - inversion Hbc; subst.
    + constructor.
    + apply lt_endmax_head. assumption.
    + apply lt_endmax_tail. eapply IH; eassumption.
Qed.

(** A chain of neighbours in the order is increasing throughout. *)
Lemma increasing_chain (f : Z -> list Z) n :
  (forall i, 0 <= i -> i + 1 < n -> lex_lt_endmax (f i) (f (i + 1))) ->
  forall d i, 0 <= i -> i + 1 + Z.of_nat d < n ->
    lex_lt_endmax (f i) (f (i + 1 + Z.of_nat d)).
Proof.
  intros H. induction d as [|d IH]; intros i Hi Hj.
  - rewrite Z.add_0_r. apply H; lia.
  - eapply lex_lt_endmax_trans; [apply (IH i); lia|].
    replace (i + 1 + Z.of_nat (S d)) with (i + 1 + Z.of_nat d + 1) by lia.
    apply H; lia.
Qed.

Section CheckedEntries.

Context {hd : GtHeaders}.

Lemma compare_suffixes_range s a b m r m' :
  gt_sain_compare_suffixes s a b m = Ok r m' ->
  a <= totallength s /\ b <= totallength s.
Proof.
  unfold gt_sain_compare_suffixes. intros H.
  apply bind_ok in H. destruct H as (u & m1 & Ha & _).
  apply gt_assert_ok in Ha. destruct Ha as [Ha _].
  apply andb_prop in Ha. destruct Ha as [Ha _].
  apply andb_prop in Ha. destruct Ha as [H1 H2].
  split; apply Z.leb_le; assumption.
Qed.

(** After a checked sort of [n] entries and the deletion of the sequence
    view, two neighbours among the first [n] entries of the suffix table are
    positions of the sequence, in the order of the sorter. *)
Lemma checked_sort_entries s l fuel fu n se fc verbose timer m ev s' m3 u m4 :
  (forall s1, view_rel s s1 -> reads s1 l) ->
  pblk (bucketfillptr s) <> 0%nat -> pblk (bucketsize s) <> 0%nat ->
  (forall p, roundtable s = Some p -> pblk p <> 0%nat) ->
  (forall p, sstarfirstcharcount s = Some p -> pblk p <> 0%nat) ->
  (forall a, seq s <> SeqArray a) ->
  gt_sain_rec_sortsuffixes (S fuel) 0 s suftab0 fu n se true fc verbose
    timer m = (ev, Ok s' m3) ->
  gt_sainseq_delete s' m3 = Ok u m4 ->
  forall i, 0 <= i -> i + 1 < n ->
    let a := nth (Z.to_nat i) (nth 0 m4 []) 0 in
    let b := nth (Z.to_nat (i + 1)) (nth 0 m4 []) 0 in
    0 <= a <= Z.of_nat (length l) /\ 0 <= b <= Z.of_nat (length l) /\
    lex_lt_endmax (suffix l a) (suffix l b).
Proof.
  intros Hreads Hf Hs Hr Hc Hna Hrec Hdel i Hi Hin.
  apply rec_view in Hrec. destruct Hrec as (Hview & c & mf & evf & Hfin).
  apply finish_level_checked in Hfin; [|lia].
  destruct Hfin as (mc & Hcheck & Hcells).
  apply checkorder_ok in Hcheck. destruct Hcheck as [_ Hcheck].
  destruct (Hcheck (i + 1) ltac:(lia)) as (a & b & Ha & Ha0 & Hb & Hb0 & Hcmp).
  replace (i + 1 - 1) with i in Ha by lia.
  assert (Hblock : nth 0 m4 [] = nth 0 m3 []).
  { eapply (preserves_sainseq_delete 0 s'); [| | | |exact Hdel];
      destruct Hview as (_ & _ & Vq & _ & V5 & V6 & _ & _ & _ & V10 & V11).
    - rewrite V6. exact Hf.
    - rewrite V5. exact Hs.
    - intros p Hp. destruct V10 as [V10|V10]; [|congruence].
      apply Hr. congruence.
    - intros p Hp. destruct V11 as [[arr V11]|V11];
        [exfalso; eapply Hna; exact V11|].
      apply Hc. congruence. }
  rewrite <- (Hcells i) in Ha by lia.
  rewrite <- (Hcells (i + 1)) in Hb by lia.
  apply cell_nth in Ha, Hb. cbn [suftab0 pblk poff] in Ha, Hb.
  rewrite Hblock.
  replace (Z.to_nat (0 + i)) with (Z.to_nat i) in Ha by lia.
  replace (Z.to_nat (0 + (i + 1))) with (Z.to_nat (i + 1)) in Hb by lia.
  cbv zeta. rewrite Ha, Hb.
  pose proof (Hreads s' Hview) as Hrd.
  pose proof (compare_suffixes_range _ _ _ _ _ _ Hcmp) as [Hra Hrb].
  rewrite (proj1 Hrd) in Hra, Hrb.
  split; [lia|]. split; [lia|].
  eapply compare_suffixes_lt; [exact Hrd| | |exact Hcmp]; assumption.
Qed.

(** From neighbours to any two entries. *)
Lemma entries_distinct l (suf : list Z) n :
  (forall i, 0 <= i -> i + 1 < n ->
     let a := nth (Z.to_nat i) suf 0 in
     let b := nth (Z.to_nat (i + 1)) suf 0 in
     0 <= a <= Z.of_nat (length l) /\ 0 <= b <= Z.of_nat (length l) /\
     lex_lt_endmax (suffix l a) (suffix l b)) ->
  forall i j, 0 <= i < j -> j < n ->
    0 <= nth (Z.to_nat i) suf 0 <= Z.of_nat (length l) /\
    0 <= nth (Z.to_nat j) suf 0 <= Z.of_nat (length l) /\
    nth (Z.to_nat i) suf 0 <> nth (Z.to_nat j) suf 0.
Proof.
  intros H i j Hij Hj.
  destruct (H i) as (Hai & _ & _); [lia|lia|].
  destruct (H (j - 1)) as (_ & Hbj & _); [lia|lia|].
  replace (j - 1 + 1) with j in Hbj by lia.
  split; [exact Hai|]. split; [exact Hbj|].
  intros E.
  pose proof (increasing_chain
                (fun k => suffix l (nth (Z.to_nat k) suf 0)) n) as Hch.
  cbv beta in Hch.
  specialize (Hch (fun k Hk0 Hk1 => proj2 (proj2 (H k Hk0 Hk1)))
                (Z.to_nat (j - i - 1)) i).
  replace (i + 1 + Z.of_nat (Z.to_nat (j - i - 1))) with j in Hch by lia.
  specialize (Hch ltac:(lia) Hj). rewrite E in Hch.
  exact (lex_lt_endmax_irrefl _ Hch).
Qed.

(** X20. A checked table holds distinct positions: for both entry points,
    when the sort with [intermediatecheck] returns, any two of the first
    [nonspecial] entries of the suffix table lie in [0, totallength] and
    differ. *)
Theorem checked_sort_distinct :
  (forall plainseq verbose timer ev suf m i j,
     gt_sain_plain_sortsuffixes plainseq (Z.of_nat (length plainseq)) true
       verbose timer = (ev, Ok suf m) ->
     0 <= i < j -> j < Z.of_nat (length plainseq) ->
     0 <= nth (Z.to_nat i) suf 0 <= Z.of_nat (length plainseq) /\
     0 <= nth (Z.to_nat j) suf 0 <= Z.of_nat (length plainseq) /\
     nth (Z.to_nat i) suf 0 <> nth (Z.to_nat j) suf 0) /\
  (forall encseq rm finalcheck verbose timer ev suf m i j,
     gt_encseq_total_length encseq < wordsize ->
     gt_sain_encseq_sortsuffixes encseq rm true finalcheck verbose timer
     = (ev, Ok suf m) ->
     0 <= i < j ->
     j < gt_encseq_total_length encseq
         - gt_encseq_specialcharacters encseq ->
     0 <= nth (Z.to_nat i) suf 0 <= gt_encseq_total_length encseq /\
     0 <= nth (Z.to_nat j) suf 0 <= gt_encseq_total_length encseq /\
     nth (Z.to_nat i) suf 0 <> nth (Z.to_nat j) suf 0).
Proof.
  split.
  - intros plainseq verbose timer ev suf m i j Hrun Hij Hj.
    unfold gt_sain_plain_sortsuffixes in Hrun.
    apply bindT_ok in Hrun. destruct Hrun as (e1 & suftab & m1 & e2 & Hc & Hrun & _).
    apply lift_ok in Hc. destruct Hc as [_ Hc].
    apply gt_calloc_ok in Hc. destruct Hc as [-> ->].
    apply bindT_ok in Hrun. destruct Hrun as (e3 & s & m2 & e4 & Hn & Hrun & _).
    apply lift_ok in Hn. destruct Hn as [_ Hn].
    apply new_from_plainseq_fields in Hn.
    destruct Hn as (Htl & _ & Hseq & Hbs & Hbf & _ & _ & _ & Hrt & Hsfc & _).
    cbn [length app] in Hbs, Hbf, Hrt, Hsfc.
    apply bindT_ok in Hrun. destruct Hrun as (e5 & s' & m3 & e6 & Hrec & Hrun & _).
    apply bindT_ok in Hrun. destruct Hrun as (e7 & u & m4 & e8 & Hdel & Hrun & _).
    apply lift_ok in Hdel. destruct Hdel as [_ Hdel].
    apply bindT_ok in Hrun. destruct Hrun as (e9 & res & m5 & e10 & Hrd & Hrun & _).
    apply lift_ok in Hrd. destruct Hrd as [_ Hrd].
    unfold read_suftab in Hrd. injection Hrd as <- <-.
    apply bindT_ok in Hrun. destruct Hrun as (e11 & u' & m6 & e12 & _ & Hrun & _).
    apply retT_ok in Hrun. destruct Hrun as (_ & <- & _).
    cbn [pblk]. unfold levels in Hrec.
    apply (entries_distinct plainseq (nth 0 m4 []) (Z.of_nat (length plainseq)));
      [|exact Hij|exact Hj].
    intros k Hk0 Hk1.
    eapply (checked_sort_entries s plainseq);
      [| | | | | |exact Hrec|exact Hdel|exact Hk0|].
    + intros s1 (V1 & _ & V3 & _). apply reads_plain; congruence.
    + rewrite Hbf. cbn. lia.
    + rewrite Hbs. cbn. lia.
    + intros p Hp. specialize (Hrt p Hp). lia.
    + intros p Hp. specialize (Hsfc p Hp). lia.
    + intros a Ha. congruence.
    + lia.
  - intros encseq rm finalcheck verbose timer ev suf m i j Hlen Hrun Hij Hj.
    unfold gt_sain_encseq_sortsuffixes in Hrun.
    apply bindT_ok in Hrun. destruct Hrun as (e1 & suftab & m1 & e2 & Hc & Hrun & _).
    apply lift_ok in Hc. destruct Hc as [_ Hc].
    apply gt_calloc_ok in Hc. destruct Hc as [-> ->].
    apply bindT_ok in Hrun. destruct Hrun as (e3 & s & m2 & e4 & Hn & Hrun & _).
    apply lift_ok in Hn. destruct Hn as [_ Hn].
    apply new_from_encseq_fields in Hn.
    destruct Hn as (Htl & _ & Hseq & Hrm & Hbs & Hbf & _ & _ & _ & Hrt
                    & Hsfc & _).
    cbn [length app] in Hbs, Hbf, Hrt, Hsfc.
    apply bindT_ok in Hrun. destruct Hrun as (e5 & s' & m3 & e6 & Hrec & Hrun & _).
    apply bindT_ok in Hrun. destruct Hrun as (e7 & u & m4 & e8 & Hdel & Hrun & _).
    apply lift_ok in Hdel. destruct Hdel as [_ Hdel].
    apply bindT_ok in Hrun. destruct Hrun as (e9 & res & m5 & e10 & Hrd & Hrun & _).
    apply lift_ok in Hrd. destruct Hrd as [_ Hrd].
    unfold read_suftab in Hrd. injection Hrd as <- <-.
    apply bindT_ok in Hrun. destruct Hrun as (e11 & u' & m6 & e12 & _ & Hrun & _).
    apply retT_ok in Hrun. destruct Hrun as (_ & <- & _).
    cbn [pblk]. unfold levels in Hrec.
    pose proof (specialcharacters_le encseq) as Hsc.
    assert (El : Z.of_nat (length (encseq_symbols encseq (readmode s)))
                 = gt_encseq_total_length encseq).
    { unfold encseq_symbols, gt_encseq_total_length.
      rewrite length_map, length_seq. reflexivity. }
    rewrite <- El.
    apply (entries_distinct (encseq_symbols encseq (readmode s))
             (nth 0 m4 [])
             (gt_encseq_total_length encseq
              - gt_encseq_specialcharacters encseq));
      [|exact Hij|exact Hj].
    intros k Hk0 Hk1.
    eapply (checked_sort_entries s (encseq_symbols encseq (readmode s)));
      [| | | | | |exact Hrec|exact Hdel|exact Hk0|].
    + intros s1 (V1 & _ & V3 & V4 & _). rewrite <- V4.
      apply reads_encseq; congruence.
    + rewrite Hbf. cbn. lia.
    + rewrite Hbs. cbn. lia.
    + intros p Hp. specialize (Hrt p Hp). lia.
    + intros p Hp. specialize (Hsfc p Hp). lia.
    + intros a Ha. congruence.
    + unfold u64. rewrite Z.mod_small by lia. lia.
Qed.

End CheckedEntries.

(** ** Putting the sorted Sstar suffixes into their buckets *)

Lemma u64_sub_l a b : u64 (u64 a - b) = u64 (a - b).
Proof. unfold u64. apply Zminus_mod_idemp_l. Qed.

Lemma for_down_store p (f : Z -> Z) n :
  forall i m u m',
    for_down n i (fun idx (_ : unit) => store p idx (f idx)) tt m = Ok u m' ->
    (forall k, i - Z.of_nat n < k <= i -> cell m' p k = Some (u64 (f k))) /\
    (forall q j, pblk q <> pblk p \/
                 ~ (i - Z.of_nat n < poff q + j - poff p <= i) ->
                 cell m' q j = cell m q j).
Proof.
  induction n as [|n IH]; intros i m u m' H; cbn [for_down] in H.
  - apply ret_ok in H. destruct H as [_ <-].
    split; [intros; lia|intros; reflexivity].
  - apply bind_ok in H. destruct H as ([] & m1 & Hst & H).
    apply IH in H. destruct H as [Hc Hf]. split.
    + intros k Hk. destruct (Z.eq_dec k i) as [->|Hne].
      * rewrite Hf by (right; lia). eapply store_cell_same. exact Hst.
      * apply Hc. lia.
    + intros q j Hq. rewrite Hf.
      * eapply store_cell_other; [exact Hst|].
        destruct Hq as [Hq|Hq]; [left; exact Hq|right; lia].
      * destruct Hq as [Hq|Hq]; [left; exact Hq|right; lia].
Qed.

Lemma sum_below_S f c :
  0 <= c -> sum_below f (Z.to_nat (c + 1)) = sum_below f (Z.to_nat c) + f c.
Proof.
  intros Hc. replace (Z.to_nat (c + 1)) with (S (Z.to_nat c)) by lia.
  cbn [sum_below]. rewrite Z2Nat.id by lia. reflexivity.
Qed.

Lemma sum_below_le f g n :
  (forall c, 0 <= c < Z.of_nat n -> f c <= g c) ->
  sum_below f n <= sum_below g n.
Proof.
  induction n as [|n IH]; intros H; cbn [sum_below]; [lia|].
  pose proof (H (Z.of_nat n) ltac:(lia)).
  assert (sum_below f n <= sum_below g n) by (apply IH; intros; apply H; lia).
  lia.
Qed.

Lemma sum_below_mono f a b :
  (forall c, 0 <= c < Z.of_nat b -> 0 <= f c) ->
  (a <= b)%nat -> sum_below f a <= sum_below f b.
Proof.
  intros H Hab. induction Hab as [|b Hab IH]; [lia|].
  cbn [sum_below]. pose proof (H (Z.of_nat b) ltac:(lia)).
  assert (sum_below f a <= sum_below f b) by (apply IH; intros; apply H; lia).
  lia.
Qed.

Section InsertSorted.

Variables (suftab sfc : ptr) (n cc cnt : Z) (C : Z -> Z) (m : mem).
Variables (putidx readidx : Z).

Hypothesis Hn : 0 <= n < wordsize.
Hypothesis HC : forall j, 0 <= j < n -> 0 <= C j < wordsize.
Hypothesis Hsfc : pblk sfc <> pblk suftab \/
                  ~ (0 <= poff sfc + cc - poff suftab < n).
Hypothesis Hcnt : cell m sfc cc = Some cnt.
Hypothesis Hidx : 0 <= readidx - cnt + 1 /\ readidx < putidx < n.

Lemma insertsorted_move_moves fuel :
  forall offset mk u m',
    0 <= offset <= cnt ->
    moving suftab n C m putidx readidx offset mk ->
    insertsorted_move fuel suftab sfc cc putidx readidx offset mk = Ok u m' ->
    moving suftab n C m putidx readidx cnt m'.
Proof.
  induction fuel as [|fuel IH]; intros offset mk u m' Ho Hm Hrun;
    [discriminate|].
  cbn [insertsorted_move] in Hrun.
  destruct Hm as [Hcells Hfr].
  apply bind_ok in Hrun. destruct Hrun as (c & m0 & Hl & Hrun).
  apply load_ok in Hl. destruct Hl as (-> & Hc & _).
  rewrite Hfr, Hcnt in Hc by exact Hsfc. injection Hc as <-.
  destruct (Z.ltb_spec offset cnt) as [Hlt|Hge].
  - apply bind_ok in Hrun. destruct Hrun as (v & m1 & Hv & Hrun).
    apply load_ok in Hv. destruct Hv as (-> & Hv & _).
    rewrite (u64_small (readidx - offset)) in * by lia.
    rewrite (u64_small (putidx - offset)) in * by lia.
    destruct (Hcells (readidx - offset)) as (_ & _ & Hsrc); [lia|].
    rewrite Hsrc in Hv by lia. injection Hv as <-.
    apply bind_ok in Hrun. destruct Hrun as ([] & m2 & Hst1 & Hrun).
    apply bind_ok in Hrun. destruct Hrun as ([] & m3 & Hst2 & Hrun).
    apply (IH (offset + 1) m3 u m'); [lia| |exact Hrun].
    split.
    + intros j Hj. destruct (Hcells j Hj) as (Hd & Hz & Ho').
      destruct (Z.eq_dec j (readidx - offset)) as [->|Nr].
      { split; [intros; lia|]. split; [|intros; lia].
        intros _ _. rewrite (store_cell_same _ _ _ _ _ _ Hst2). reflexivity. }
      rewrite (store_cell_other _ _ _ _ _ _ _ _ Hst2) by (right; lia).
      destruct (Z.eq_dec j (putidx - offset)) as [->|Np].
      { split; [|split; intros; lia].
        intros _. rewrite (store_cell_same _ _ _ _ _ _ Hst1).
        rewrite u64_small by (apply HC; lia). f_equal. f_equal. lia. }
      rewrite (store_cell_other _ _ _ _ _ _ _ _ Hst1) by (right; lia).
      split; [intros H; apply Hd; lia|].
      split; [intros H1 H2; apply Hz; lia|intros H1 H2; apply Ho'; lia].
    + intros q j Hq.
      rewrite (store_cell_other _ _ _ _ _ _ _ _ Hst2)
        by (destruct Hq as [Hq|Hq]; [left; exact Hq|right; lia]).
      rewrite (store_cell_other _ _ _ _ _ _ _ _ Hst1)
        by (destruct Hq as [Hq|Hq]; [left; exact Hq|right; lia]).
      apply Hfr. exact Hq.
  - apply ret_ok in Hrun. destruct Hrun as [_ <-].
    assert (offset = cnt) by lia. subst offset. split; assumption.
Qed.

End InsertSorted.

Section InsertLoop.

Variables (s : GtSainseq) (suftab sfc : ptr) (n nc : Z) (F B Q : Z -> Z)
  (m : mem).

Hypothesis Hn : 0 <= n < wordsize.
Hypothesis Hnc : 0 < nc.
Hypothesis HFB : forall c, 0 <= c < nc -> 0 <= F c <= B c.
Hypothesis Hlo : sum_below B (Z.to_nat nc) <= n.
Hypothesis Hcnts : forall c, 0 <= c < nc ->
  cell m sfc c = Some (F c) /\ cell m (bucketsize s) c = Some (B c).
Hypothesis Hsep : forall c, 0 <= c < nc ->
  (pblk sfc <> pblk suftab \/ ~ (0 <= poff sfc + c - poff suftab < n)) /\
  (pblk (bucketsize s) <> pblk suftab \/
   ~ (0 <= poff (bucketsize s) + c - poff suftab < n)).

Let lo := n - sum_below B (Z.to_nat nc).
Let SF (c : Z) := sum_below F (Z.to_nat c).
Let SB (c : Z) := sum_below B (Z.to_nat c).

Lemma sums_facts c :
  0 <= c < nc ->
  SF (c + 1) = SF c + F c /\ SB (c + 1) = SB c + B c /\
  0 <= SF c <= SB c /\ SB (c + 1) <= SB nc /\ 0 <= lo.
Proof.
  intros Hc. unfold SF, SB, lo.
  rewrite !sum_below_S by lia.
  split; [reflexivity|]. split; [reflexivity|].
  assert (H0 : forall f, (forall c, 0 <= c < nc -> 0 <= f c) ->
                 0 <= sum_below f (Z.to_nat c)).
  { intros f Hf.
    change 0 with (sum_below f 0) at 1.
    apply sum_below_mono; [intros k Hk; apply Hf; lia|lia]. }
  split; [split|].
  - apply H0. intros k Hk. apply HFB. exact Hk.
  - apply sum_below_le. intros k Hk. apply HFB. lia.
  - split; [|lia].
    rewrite <- (sum_below_S B c) by lia.
    apply sum_below_mono; [|lia].
    intros k Hk. pose proof (HFB k ltac:(lia)). lia.
Qed.

Lemma counts_kept cc mk :
  0 <= cc < nc ->
  inserted suftab n nc F B Q m cc mk ->
  cell mk sfc cc = Some (F cc) /\ cell mk (bucketsize s) cc = Some (B cc).
Proof.
  intros Hcc (_ & _ & _ & _ & Hfr).
  destruct (Hsep cc Hcc) as [H1 H2]. destruct (Hcnts cc Hcc) as [E1 E2].
  rewrite !Hfr by assumption. split; assumption.
Qed.

(** The Sstar suffixes of the symbol [cc] are moved to the end of their
    bucket. *)
Lemma bucket_moved cc mk u ma :
  0 <= cc < nc ->
  inserted suftab n nc F B Q m cc mk ->
  (if 0 <? F cc then
     gt_assert (u64 (SF (cc + 1) - 1) <=? u64 (lo + SB (cc + 1) - 1)) ;;
     if u64 (SF (cc + 1) - 1) <? u64 (lo + SB (cc + 1) - 1)
     then insertsorted_move (S (Z.to_nat n)) suftab sfc cc
            (u64 (lo + SB (cc + 1) - 1)) (u64 (SF (cc + 1) - 1)) 0
     else ret tt
   else ret tt) mk = Ok u ma ->
  (forall k, 0 <= k < SF cc -> cell ma suftab k = Some (Q k)) /\
  (forall k, 0 <= k < F cc ->
     cell ma suftab (lo + SB (cc + 1) - 1 - k)
     = Some (Q (SF (cc + 1) - 1 - k))) /\
  (forall j, lo + SB (cc + 1) <= j < n ->
     cell ma suftab j = cell mk suftab j) /\
  (forall j, 0 <= j < n ->
     exists v, cell ma suftab j = Some v /\ 0 <= v < wordsize) /\
  (forall q j, pblk q <> pblk suftab \/
               ~ (0 <= poff q + j - poff suftab < n) ->
               cell ma q j = cell mk q j).
Proof.
  intros Hcc Hinv Hrun.
  pose proof (counts_kept cc mk Hcc Hinv) as [Ecnt _].
  destruct Hinv as (I1 & I2 & I3 & I6 & Hfr).
  destruct (sums_facts cc Hcc) as (EF & EB & HSF & HSB & Hlo0).
  pose proof (HFB cc Hcc) as HFBc.
  fold lo in I2, I3. fold (SF (cc + 1)) in I1.
  assert (Hsame : ma = mk ->
    (F cc = 0 \/ SF (cc + 1) = lo + SB (cc + 1)) ->
    (forall k, 0 <= k < SF cc -> cell ma suftab k = Some (Q k)) /\
    (forall k, 0 <= k < F cc ->
       cell ma suftab (lo + SB (cc + 1) - 1 - k)
       = Some (Q (SF (cc + 1) - 1 - k))) /\
    (forall j, lo + SB (cc + 1) <= j < n ->
       cell ma suftab j = cell mk suftab j) /\
    (forall j, 0 <= j < n ->
       exists v, cell ma suftab j = Some v /\ 0 <= v < wordsize) /\
    (forall q j, pblk q <> pblk suftab \/
                 ~ (0 <= poff q + j - poff suftab < n) ->
                 cell ma q j = cell mk q j)).
  { intros -> Hcase. split; [intros k Hk; apply I1; lia|].
    split; [|split; [intros; reflexivity|split; [exact I6|intros; reflexivity]]].
    intros k Hk. destruct Hcase as [H0|Heq]; [lia|].
    rewrite <- Heq. apply I1. lia. }
  destruct (Z.ltb_spec 0 (F cc)) as [Hpos|Hzero].
  2:{ apply ret_ok in Hrun. destruct Hrun as [_ <-].
      apply Hsame; [reflexivity|left; lia]. }
  assert (HE : lo + SB (cc + 1) <= n) by (unfold lo, SB in *; lia).
  rewrite (u64_small (SF (cc + 1) - 1)) in Hrun by lia.
  rewrite (u64_small (lo + SB (cc + 1) - 1)) in Hrun by lia.
  apply bind_ok in Hrun. destruct Hrun as (u0 & m0 & Ha & Hrun).
  apply gt_assert_ok in Ha. destruct Ha as [_ <-].
  destruct (Z.ltb_spec (SF (cc + 1) - 1) (lo + SB (cc + 1) - 1)) as [Hlt|Hge].
  2:{ apply ret_ok in Hrun. destruct Hrun as [_ <-].
      apply Hsame; [reflexivity|right; lia]. }
  pose (C := fun j => match cell mk suftab j with Some v => v | None => 0 end).
  assert (HC : forall j, 0 <= j < n ->
                 cell mk suftab j = Some (C j) /\ 0 <= C j < wordsize).
  { intros j Hj. destruct (I6 j Hj) as (v & E & Hv). unfold C. rewrite E.
    split; [reflexivity|exact Hv]. }
  assert (Hmv : moving suftab n C mk (lo + SB (cc + 1) - 1)
                  (SF (cc + 1) - 1) (F cc) ma).
  { eapply (insertsorted_move_moves suftab sfc n cc (F cc) C mk
              (lo + SB (cc + 1) - 1) (SF (cc + 1) - 1) Hn
              (fun j Hj => proj2 (HC j Hj)) (proj1 (Hsep cc Hcc)) Ecnt);
      [| |split|exact Hrun]; try lia.
    - intros j Hj. split; [intros; lia|]. split; [intros; lia|].
      intros _ _. apply HC. exact Hj.
    - intros; reflexivity. }
  destruct Hmv as [Hcells Hfr'].
  split; [|split; [|split; [|split]]].
  - intros k Hk. destruct (Hcells k) as (_ & _ & Ho); [lia|].
    rewrite Ho by lia. rewrite <- (proj1 (HC k ltac:(lia))). apply I1. lia.
  - intros k Hk. destruct (Hcells (lo + SB (cc + 1) - 1 - k)) as (Hd & _ & _);
      [lia|].
    rewrite Hd by lia.
    replace (lo + SB (cc + 1) - 1 - k
             - (lo + SB (cc + 1) - 1 - (SF (cc + 1) - 1)))
      with (SF (cc + 1) - 1 - k) by lia.
    rewrite <- (proj1 (HC (SF (cc + 1) - 1 - k) ltac:(lia))). apply I1. lia.
  - intros j Hj. destruct (Hcells j) as (_ & _ & Ho); [lia|].
    rewrite Ho by lia. symmetry. apply HC. lia.
  - intros j Hj. destruct (Hcells j Hj) as (Hd & Hz & Ho).
    destruct (Z_lt_le_dec (lo + SB (cc + 1) - 1 - F cc) j) as [H1|H1];
      [destruct (Z_le_gt_dec j (lo + SB (cc + 1) - 1)) as [H2|H2]|].
    + eexists. split; [apply Hd; lia|]. apply HC. lia.
    + eexists. split; [apply Ho; lia|]. apply HC. lia.
    + destruct (Z_lt_le_dec (SF (cc + 1) - 1 - F cc) j) as [H3|H3];
        [destruct (Z_le_gt_dec j (SF (cc + 1) - 1)) as [H4|H4]|].
      * exists 0. split; [apply Hz; lia|]. change wordsize with (2 ^ 64). lia.
      * eexists. split; [apply Ho; lia|]. apply HC. lia.
      * eexists. split; [apply Ho; lia|]. apply HC. lia.
  - exact Hfr'.
Qed.

Lemma SB_mono c c' : 0 <= c <= c' -> c' <= nc -> SB c <= SB c'.
Proof.
  intros Hc Hc'. unfold SB. apply sum_below_mono; [|lia].
  intros k Hk. pose proof (HFB k ltac:(lia)). lia.
Qed.

Lemma insertsorted_loop_inserts fuel :
  forall cc readidx fillidx mk u m',
    0 <= cc < nc ->
    readidx = u64 (SF (cc + 1) - 1) -> fillidx = lo + SB (cc + 1) ->
    inserted suftab n nc F B Q m cc mk ->
    insertsorted_loop fuel s suftab sfc n cc readidx fillidx mk = Ok u m' ->
    inserted suftab n nc F B Q m (-1) m'.
Proof.
  induction fuel as [|fuel IH]; intros cc readidx fillidx mk u m' Hcc -> ->
    Hinv Hrun; [discriminate|].
  cbn [insertsorted_loop] in Hrun.
  pose proof (counts_kept cc mk Hcc Hinv) as [Ecnt Ebs].
  destruct (sums_facts cc Hcc) as (EF & EB & HSF & HSB & Hlo0).
  pose proof (HFB cc Hcc) as HFBc.
  destruct (Hsep cc Hcc) as [Hs1 Hs2].
  apply bind_ok in Hrun. destruct Hrun as (c & m0 & Hl & Hrun).
  apply load_ok in Hl. destruct Hl as (-> & Hl & _).
  rewrite Ecnt in Hl. injection Hl as <-.
  apply bind_ok in Hrun. destruct Hrun as (u1 & ma & HA & Hrun).
  apply (bucket_moved cc mk u1 ma Hcc Hinv) in HA.
  destruct HA as (A1 & A2 & A3 & A4 & A5).
  destruct Hinv as (I1 & I2 & I3 & I6 & Hfr).
  fold lo in I2, I3. fold (SF (cc + 1)) in I1.
  apply bind_ok in Hrun. destruct Hrun as (b & m1 & Hl & Hrun).
  apply load_ok in Hl. destruct Hl as (-> & Hl & _).
  rewrite A5, Ebs in Hl by exact Hs2. injection Hl as <-.
  apply bind_ok in Hrun. destruct Hrun as (u2 & m2 & Ha & Hrun).
  apply gt_assert_ok in Ha. destruct Ha as [_ <-].
  apply bind_ok in Hrun. destruct Hrun as (b & m3 & Hl & Hrun).
  apply load_ok in Hl. destruct Hl as (-> & Hl & _).
  rewrite A5, Ebs in Hl by exact Hs2. injection Hl as <-.
  apply bind_ok in Hrun. destruct Hrun as (c & m4 & Hl & Hrun).
  apply load_ok in Hl. destruct Hl as (-> & Hl & _).
  rewrite A5, Ecnt in Hl by exact Hs1. injection Hl as <-.
  apply bind_ok in Hrun. destruct Hrun as (u3 & m5 & Ha & Hrun).
  apply gt_assert_ok in Ha. destruct Ha as [_ <-].
  apply bind_ok in Hrun. destruct Hrun as (u4 & mb & HB & Hrun).
  assert (HE : lo + SB (cc + 1) <= n) by (unfold lo, SB in *; lia).
  assert (Hzero :
    (forall j, lo + SB cc <= j < lo + SB (cc + 1) - F cc ->
       cell mb suftab j = Some 0) /\
    (forall q j, pblk q <> pblk suftab \/
                 ~ (lo + SB cc <= poff q + j - poff suftab
                    < lo + SB (cc + 1) - F cc) ->
                 cell mb q j = cell ma q j)).
  { destruct (Z.ltb_spec (F cc) (B cc)) as [Hlt|Hge].
    - unfold gt_sain_setundefined in HB.
      rewrite (u64_small (lo + SB (cc + 1) - B cc + B cc - F cc - 1)) in HB
        by lia.
      apply for_down_store in HB. destruct HB as [Hz Hf].
      replace (Z.of_nat (Z.to_nat (lo + SB (cc + 1) - B cc + B cc - F cc - 1
                                   - (lo + SB (cc + 1) - B cc) + 1)))
        with (B cc - F cc) in Hz, Hf by lia.
      split.
      + intros j Hj. apply Hz. lia.
      + intros q j Hq. apply Hf.
        destruct Hq as [Hq|Hq]; [left; exact Hq|right; lia].
    - apply ret_ok in HB. destruct HB as [_ <-].
      split; [intros; lia|intros; reflexivity]. }
  destruct Hzero as [Hz Hzf].
  assert (Hinv' : inserted suftab n nc F B Q m (cc - 1) mb).
  { unfold inserted. fold lo. replace (cc - 1 + 1) with cc by lia.
    fold (SF cc).
    split; [|split; [|split; [|split]]].
    - intros k Hk. rewrite Hzf by (right; cbn [poff]; lia).
      apply A1. exact Hk.
    - intros c k Hc Hk. fold (SB (c + 1)) (SF (c + 1)).
      destruct (Z.eq_dec c cc) as [->|Hne].
      + rewrite Hzf by (right; lia). apply A2. exact Hk.
      + pose proof (SB_mono (cc + 1) c ltac:(lia) ltac:(lia)).
        destruct (sums_facts c ltac:(lia)) as (_ & EBc & _ & _ & _).
        pose proof (HFB c ltac:(lia)).
        assert (HEc : lo + SB (c + 1) <= n).
        { pose proof (SB_mono (c + 1) nc ltac:(lia) ltac:(lia)).
          unfold lo, SB in *. lia. }
        rewrite Hzf by (right; lia). rewrite A3 by lia.
        apply I2; [lia|exact Hk].
    - intros c j Hc Hj. fold (SB c) (SB (c + 1)) in Hj.
      destruct (Z.eq_dec c cc) as [->|Hne]; [apply Hz; exact Hj|].
      pose proof (SB_mono (cc + 1) c ltac:(lia) ltac:(lia)).
      destruct (sums_facts c ltac:(lia)) as (_ & EBc & _ & _ & _).
      pose proof (HFB c ltac:(lia)).
      assert (HEc : lo + SB (c + 1) <= n).
      { pose proof (SB_mono (c + 1) nc ltac:(lia) ltac:(lia)).
        unfold lo, SB in *. lia. }
      rewrite Hzf by (right; lia). rewrite A3 by lia.
      apply (I3 c); [lia|]. exact Hj.
    - intros j Hj.
      destruct (Z_le_gt_dec (lo + SB cc) j) as [H1|H1];
        [destruct (Z_lt_le_dec j (lo + SB (cc + 1) - F cc)) as [H2|H2]|].
      + exists 0. split; [apply Hz; lia|]. change wordsize with (2 ^ 64). lia.
      + rewrite Hzf by (right; lia). apply A4. exact Hj.
      + rewrite Hzf by (right; lia). apply A4. exact Hj.
    - intros q j Hq.
      rewrite Hzf by (destruct Hq as [Hq|Hq]; [left; exact Hq|right; lia]).
      rewrite A5 by exact Hq. apply Hfr. exact Hq. }
  apply bind_ok in Hrun. destruct Hrun as (c & m6 & Hl & Hrun).
  apply load_ok in Hl. destruct Hl as (-> & Hl & _).
  rewrite (proj2 (proj2 (proj2 (proj2 Hinv')))) in Hl by exact Hs1.
  rewrite (proj1 (Hcnts cc Hcc)) in Hl. injection Hl as <-.
  destruct (Z.eqb_spec cc 0) as [E0|N0].
  - apply ret_ok in Hrun. destruct Hrun as [_ <-].
    replace (-1) with (cc - 1) by lia. exact Hinv'.
  - eapply (IH (cc - 1)); [| | |exact Hinv'|exact Hrun].
    + lia.
    + rewrite u64_sub_l. replace (cc - 1 + 1) with cc by lia.
      f_equal. lia.
    + replace (cc - 1 + 1) with cc by lia. lia.
Qed.

End InsertLoop.

(** X21. [gt_sain_insertsortedSstarsuffixes] puts the sorted Sstar suffixes
    into their buckets: with the bucket sizes [B], the numbers [F] of Sstar
    suffixes per first symbol ([F c <= B c]) and the sorted Sstar suffixes
    [Q] in the first entries of the table, the suffixes of each symbol [c]
    end up, in their order, in the last [F c] entries of the bucket of [c],
    the first [B c - F c] entries of that bucket are zero, and no cell
    outside of the first [n] entries changes. *)
Theorem insertsortedSstarsuffixes_inserts s suftab sfc n (F B Q : Z -> Z)
    m u m' :
  let nc := numofchars s in
  let count := sum_below F (Z.to_nat nc) in
  let lo := n - sum_below B (Z.to_nat nc) in
  sstarfirstcharcount s = Some sfc ->
  0 <= n < wordsize -> 0 < nc < wordsize -> 0 < count ->
  (forall c, 0 <= c < nc -> 0 <= F c <= B c) -> 0 <= lo ->
  (forall c, 0 <= c < nc ->
     cell m sfc c = Some (F c) /\ cell m (bucketsize s) c = Some (B c)) ->
  (forall c, 0 <= c < nc ->
     (pblk sfc <> pblk suftab \/ ~ (0 <= poff sfc + c - poff suftab < n)) /\
     (pblk (bucketsize s) <> pblk suftab \/
      ~ (0 <= poff (bucketsize s) + c - poff suftab < n))) ->
  (forall j, 0 <= j < n ->
     exists v, cell m suftab j = Some v /\ 0 <= v < wordsize) ->
  (forall k, 0 <= k < count -> cell m suftab k = Some (Q k)) ->
  gt_sain_insertsortedSstarsuffixes s suftab (count - 1) n m = Ok u m' ->
  (forall c k, 0 <= c < nc -> 0 <= k < F c ->
     cell m' suftab (lo + sum_below B (Z.to_nat (c + 1)) - 1 - k)
     = Some (Q (sum_below F (Z.to_nat (c + 1)) - 1 - k))) /\
  (forall c j, 0 <= c < nc ->
     lo + sum_below B (Z.to_nat c) <= j
     < lo + sum_below B (Z.to_nat (c + 1)) - F c ->
     cell m' suftab j = Some 0) /\
  (forall q j, pblk q <> pblk suftab \/
               ~ (0 <= poff q + j - poff suftab < n) ->
               cell m' q j = cell m q j).
Proof.
  intros nc count lo Hsfc Hn Hnc Hcount HFB Hlo Hcnts Hsep Hall Hfront Hrun.
  unfold gt_sain_insertsortedSstarsuffixes in Hrun. rewrite Hsfc in Hrun.
  fold nc in Hrun. rewrite (u64_small (nc - 1)) in Hrun by lia.
  assert (Hlo' : sum_below B (Z.to_nat nc) <= n) by (unfold lo in Hlo; lia).
  assert (Hinv : inserted suftab n nc F B Q m (nc - 1) m).
  { unfold inserted. replace (nc - 1 + 1) with nc by lia.
    split; [exact Hfront|]. split; [intros c k Hc; lia|].
    split; [intros c j Hc; lia|]. split; [exact Hall|intros; reflexivity]. }
  assert (Hle : count <= sum_below B (Z.to_nat nc)).
  { unfold count. apply sum_below_le. intros c Hc. apply HFB. lia. }
  assert (Hend : inserted suftab n nc F B Q m (-1) m').
  { eapply (insertsorted_loop_inserts s suftab sfc n nc F B Q m Hn
              (proj1 Hnc) HFB Hlo' Hcnts Hsep);
      [| | |exact Hinv|exact Hrun].
    - lia.
    - replace (nc - 1 + 1) with nc by lia. fold count.
      symmetry. apply u64_small. lia.
    - replace (nc - 1 + 1) with nc by lia. lia. }
  destruct Hend as (_ & I2 & I3 & _ & Hfr). fold lo in I2, I3.
  split; [|split; [|exact Hfr]].
  - intros c k Hc Hk. apply I2; [lia|exact Hk].
  - intros c j Hc Hj. apply (I3 c); [lia|exact Hj].
Qed.

(** ** The seeds of the Sstar suffixes *)

Lemma Sstar_with_In l c p q :
  In q (Sstar_with l c p) <->
  In q (Sstar_above l p) /\ nth (Z.to_nat q) l 0 = c.
Proof.
  unfold Sstar_with. rewrite filter_In, Z.eqb_eq. reflexivity.
Qed.

Lemma Sstar_with_cons l c p :
  (S p < length l)%nat ->
  Sstar_with l c p
  = (if is_Sstar l (Z.of_nat (S p)) && (nth (S p) l 0 =? c)
     then [Z.of_nat (S p)] else [])
    ++ Sstar_with l c (S p).
Proof.
  intros Hp. unfold Sstar_with. rewrite (Sstar_above_step l p Hp).
  destruct (is_Sstar l (Z.of_nat (S p))); cbn [app andb filter];
    [|reflexivity].
  rewrite Nat2Z.id. destruct (nth (S p) l 0 =? c); reflexivity.
Qed.

Lemma Sstar_with_last l c p :
  (length l <= S p)%nat -> Sstar_with l c p = [].
Proof.
  intros H. unfold Sstar_with. rewrite Sstar_above_last by exact H.
  reflexivity.
Qed.

Lemma Sstar_count_nonneg l c p : 0 <= Sstar_count l c p.
Proof. unfold Sstar_count. lia. Qed.

Lemma Sstar_count_step l c p :
  Sstar_count l c (S p) <= Sstar_count l c p.
Proof.
  unfold Sstar_count.
  destruct (Nat.lt_ge_cases (S p) (length l)) as [Hlt|Hge].
  - rewrite (Sstar_with_cons l c p Hlt), length_app. lia.
  - rewrite (Sstar_with_last l c (S p)) by lia. cbn. lia.
Qed.

Lemma Sstar_count_mono l c p p' :
  (p <= p')%nat -> Sstar_count l c p' <= Sstar_count l c p.
Proof.
  induction 1 as [|p' _ IH]; [lia|].
  pose proof (Sstar_count_step l c p'). lia.
Qed.

(** An Sstar position counts itself among those above the position before
    it, and not among those above itself. *)
Lemma Sstar_count_above l c p q :
  In q (Sstar_with l c p) ->
  Sstar_count l c (Z.to_nat q) + 1 <= Sstar_count l c p.
Proof.
  intros Hin. apply Sstar_with_In in Hin. destruct Hin as [Hin Hc].
  apply Sstar_above_In in Hin. destruct Hin as [Hq Hs].
  assert (Hp : (p <= Z.to_nat q - 1)%nat) by lia.
  pose proof (Sstar_count_mono l c p (Z.to_nat q - 1) Hp) as Hm.
  assert (E : Sstar_count l c (Z.to_nat q - 1)
              = 1 + Sstar_count l c (Z.to_nat q)).
  { unfold Sstar_count.
    rewrite (Sstar_with_cons l c (Z.to_nat q - 1)) by lia.
    replace (S (Z.to_nat q - 1)) with (Z.to_nat q) by lia.
    rewrite Z2Nat.id by lia. rewrite Hs, Hc, Z.eqb_refl. cbn [andb app length].
    lia. }
  lia.
Qed.

Lemma Sstar_positions_above l : Sstar_positions l = Sstar_above l 0.
Proof. reflexivity. Qed.

Lemma Sstar_above_sub l p q :
  In q (Sstar_above l p) -> In q (Sstar_positions l).
Proof.
  unfold Sstar_above, Sstar_positions, positions_above.
  rewrite !filter_In, !in_map_iff.
  intros [(i & <- & Hi) Hs]. split; [|exact Hs].
  exists i. split; [reflexivity|]. apply in_seq in Hi. apply in_seq. lia.
Qed.

Lemma bucket_end_step B c :
  0 <= c -> bucket_end B c = sum_below B (Z.to_nat c) + B c.
Proof.
  intros Hc. unfold bucket_end. cbn [sum_below]. rewrite Z2Nat.id by lia.
  reflexivity.
Qed.

Lemma at_cell_dec (p : ptr) (i : Z) (q : ptr) (j : Z) :
  (pblk q = pblk p /\ poff q + j = poff p + i) \/
  (pblk q <> pblk p \/ poff q + j <> poff p + i).
Proof.
  destruct (Nat.eq_dec (pblk q) (pblk p)) as [E|N]; [|right; left; exact N].
  destruct (Z.eq_dec (poff q + j) (poff p + i)) as [E'|N'];
    [left; split; assumption|right; right; exact N'].
Qed.

Lemma apart_sym p a q b : apart p a q b -> apart q b p a.
Proof.
  intros H j i Hj Hi. destruct (H i j Hi Hj) as [N|N];
    [left; congruence|right; congruence].
Qed.

Lemma apart_cell p a q b i j :
  apart p a q b -> 0 <= i < a -> 0 <= j < b ->
  pblk q <> pblk p \/ poff q + j <> poff p + i.
Proof.
  intros H Hi Hj. destruct (H i j Hi Hj) as [N|N];
    [left; congruence|right; congruence].
Qed.

Lemma gt_free_cell p mk u mk' q j :
  gt_free p mk = Ok u mk' -> pblk q <> pblk p -> cell mk' q j = cell mk q j.
Proof.
  unfold gt_free. intros H Hne. injection H as _ <-.
  unfold cell. rewrite updblk_nth_other by congruence. reflexivity.
Qed.

Lemma cell_repeat m v k i :
  0 <= i < k ->
  cell (m ++ [repeat v (Z.to_nat k)]) (Ptr (length m) 0) i = Some v.
Proof.
  intros Hi. rewrite cell_app_new.
  replace (inbounds (repeat v (Z.to_nat k)) i) with true.
  - f_equal. apply nth_repeat_lt. lia.
  - symmetry. apply inbounds_spec. rewrite repeat_length. lia.
Qed.

(** The write buffer as [gt_sainbuffer_new] makes it: there is one exactly
    for an alphabet of at most [UCHAR_MAX + 1] symbols; its rings lie in two
    new blocks, they have as many slots as [buf_size] says, a positive power
    of two, and they are empty. *)
Lemma sainbuffer_new_ok {hd : GtHeaders} suftab fillptr nc m ev b m1 :
  0 < nc ->
  gt_sainbuffer_new suftab fillptr nc m = (ev, Ok b m1) ->
  (UCHAR_MAX + 1 < nc /\ b = None /\ m1 = m) \/
  (nc <= UCHAR_MAX + 1 /\
   exists buf, b = Some buf /\
     values buf = Ptr (length m) 0 /\
     nextidx buf = Ptr (S (length m)) 0 /\
     buf_fillptr buf = fillptr /\ buf_suftab buf = suftab /\
     buf_numofchars buf = nc /\
     0 < buf_size buf < wordsize /\
     (forall c, 0 <= c < nc ->
        u64 (Z.shiftl c (log_bufsize buf)) = c * buf_size buf) /\
     length m1 = S (S (length m)) /\
     (forall q j, (pblk q < length m)%nat -> cell m1 q j = cell m q j) /\
     (forall c, 0 <= c < nc -> cell m1 (Ptr (S (length m)) 0) c = Some 0)).
Proof.
  intros Hnc. unfold gt_sainbuffer_new.
  destruct (Z.leb_spec nc (UCHAR_MAX + 1)) as [Hle|Hgt]; intros H.
  2:{ apply retT_ok in H. destruct H as (_ & <- & <-). left. auto. }
  right. split; [exact Hle|].
  apply bindT_ok in H. destruct H as (e1 & u & m0 & e2 & H1 & H & _).
  apply lift_ok in H1. destruct H1 as [_ H1].
  apply gt_assert_ok in H1. destruct H1 as [_ <-].
  apply bindT_ok in H. destruct H as (e3 & vals & m2 & e4 & H2 & H & _).
  apply lift_ok in H2. destruct H2 as [_ H2].
  apply gt_malloc_ok in H2. destruct H2 as [-> ->].
  apply bindT_ok in H. destruct H as (e5 & nidx & m3 & e6 & H3 & H & _).
  apply lift_ok in H3. destruct H3 as [_ H3].
  apply gt_calloc_ok in H3. destruct H3 as [-> ->].
  apply bindT_ok in H. destruct H as (e7 & u' & m4 & e8 & H4 & H & _).
  unfold emit in H4. injection H4 as _ _ <-.
  apply retT_ok in H. destruct H as (_ & <- & <-).
  eexists. split; [reflexivity|].
  cbn [values nextidx buf_fillptr buf_suftab buf_numofchars buf_size
       log_bufsize].
  rewrite !length_app. cbn [length].
  replace (length m + 1)%nat with (S (length m)) by lia.
  replace (S (length m) + 1)%nat with (S (S (length m))) by lia.
  assert (Hbits : 1 <= gt_determinebitspervalue nc <= 9).
  { unfold gt_determinebitspervalue.
    destruct (Z.leb_spec nc 0) as [H0|H0]; [lia|].
    pose proof (Z.log2_nonneg nc).
    assert (Z.log2 nc <= Z.log2 256) by (apply Z.log2_le_mono; unfold UCHAR_MAX in Hle; lia).
    change (Z.log2 256) with 8 in *. lia. }
  set (lb := 18 - 2 - gt_determinebitspervalue nc) in *.
  assert (Hlb : 7 <= lb <= 15) by (unfold lb; lia).
  assert (Hpow : 2 ^ 7 <= 2 ^ lb <= 2 ^ 15)
    by (split; apply Z.pow_le_mono_r; lia).
  assert (Esz : u64 (Z.shiftl 1 lb) = 2 ^ lb).
  { rewrite Z.shiftl_1_l. apply u64_small.
    change wordsize with (2 ^ 64). change (2 ^ 7) with 128 in Hpow.
    change (2 ^ 15) with 32768 in Hpow. change (2 ^ 64) with 18446744073709551616.
    lia. }
  rewrite Esz.
  change (2 ^ 7) with 128 in Hpow. change (2 ^ 15) with 32768 in Hpow.
  repeat (split; [reflexivity|]).
  split; [change wordsize with 18446744073709551616; lia|].
  split; [|split; [reflexivity|split]].
  - intros c Hc. rewrite Z.shiftl_mul_pow2 by lia. apply u64_small.
    change wordsize with 18446744073709551616. unfold UCHAR_MAX in Hle. nia.
  - intros q j Hq. rewrite cell_app_old by (rewrite length_app; cbn; lia).
    apply cell_app_old. exact Hq.
  - intros c Hc.
    replace (S (length m)) with (length (m ++ [repeat poison
               (Z.to_nat (u64 (Z.shiftl nc lb)))]))
      by (rewrite length_app; cbn [length]; lia).
    apply cell_repeat. exact Hc.
Qed.

Section Seeds.

Context {hd : GtHeaders}.

Variables (s : GtSainseq) (suftab : ptr) (l : list Z) (B F0 : Z -> Z)
  (n : Z) (m : mem).

Hypothesis Hreads : reads_in m s l.
Hypothesis Htl : 0 < (totallength s) < wordsize.
Hypothesis Hnc : 0 < (numofchars s).
Hypothesis Hlast : nth (length l - 1) l 0 <= GT_UNIQUEINT (totallength s).
Hypothesis Hsym :
  forall q, In q (Sstar_positions l) -> 0 <= nth (Z.to_nat q) l 0 < (numofchars s).
Hypothesis HB :
  forall c, 0 <= c < (numofchars s) ->
    cell m (bucketsize s) c = Some (B c) /\ Sstar_count l c 0 <= B c.
Hypothesis Hn : sum_below B (Z.to_nat (numofchars s)) <= n < wordsize.
Hypothesis Htab : forall j, 0 <= j < n -> cell m suftab j <> None.
Hypothesis Hfp : forall c, 0 <= c < (numofchars s) -> cell m (bucketfillptr s) c <> None.
Hypothesis Hsfc :
  forall sfc, sstarfirstcharcount s = Some sfc ->
  forall c, 0 <= c < (numofchars s) -> cell m sfc c = Some (F0 c) /\ 0 <= F0 c < wordsize.
Hypothesis Hapart : scan_apart s suftab n.

Lemma seeds_length : (totallength s) = Z.of_nat (length l).
Proof. exact (proj1 Hreads). Qed.

Lemma B_nonneg c : 0 <= c < (numofchars s) -> 0 <= B c.
Proof.
  intros Hc. destruct (HB c Hc) as [_ H].
  pose proof (Sstar_count_nonneg l c 0). lia.
Qed.

Lemma bucket_start_nonneg c : 0 <= c <= (numofchars s) -> 0 <= sum_below B (Z.to_nat c).
Proof.
  intros Hc. change 0 with (sum_below B 0).
  apply sum_below_mono; [|lia]. intros c' Hc'. apply B_nonneg. lia.
Qed.

Lemma bucket_end_le c : 0 <= c < (numofchars s) -> bucket_end B c <= n.
Proof.
  intros Hc. unfold bucket_end.
  assert (sum_below B (S (Z.to_nat c)) <= sum_below B (Z.to_nat (numofchars s))).
  { apply sum_below_mono; [|lia]. intros c' Hc'. apply B_nonneg. lia. }
  lia.
Qed.

Lemma bucket_order c c' :
  0 <= c -> c < c' -> c' < (numofchars s) -> bucket_end B c <= sum_below B (Z.to_nat c').
Proof.
  intros H0 Hlt Hc'. unfold bucket_end.
  apply sum_below_mono; [|lia]. intros x Hx. apply B_nonneg. lia.
Qed.

(** The place of a seed of [c] lies in the bucket of [c]. *)
Lemma seed_place c r :
  0 <= c < (numofchars s) -> 0 <= r < Sstar_count l c 0 ->
  sum_below B (Z.to_nat c) <= bucket_end B c - 1 - r < bucket_end B c /\
  0 <= bucket_end B c - 1 - r < n.
Proof.
  intros Hc Hr. destruct (HB c Hc) as [_ Hroom].
  pose proof (bucket_end_step B c (proj1 Hc)).
  pose proof (bucket_start_nonneg c ltac:(lia)).
  pose proof (bucket_end_le c Hc). lia.
Qed.

(** Seeds of two symbols have two places. *)
Lemma seed_places_differ c r c' r' :
  0 <= c < (numofchars s) -> 0 <= c' < (numofchars s) -> c <> c' ->
  0 <= r < Sstar_count l c 0 -> 0 <= r' < Sstar_count l c' 0 ->
  bucket_end B c - 1 - r <> bucket_end B c' - 1 - r'.
Proof.
  intros Hc Hc' Hne Hr Hr'.
  pose proof (seed_place c r Hc Hr) as [H1 _].
  pose proof (seed_place c' r' Hc' Hr') as [H2 _].
  destruct (Z.lt_ge_cases c c') as [Hlt|Hge].
  - pose proof (bucket_order c c' (proj1 Hc) Hlt (proj2 Hc')). lia.
  - pose proof (bucket_order c' c (proj1 Hc') ltac:(lia) (proj2 Hc)). lia.
Qed.

Lemma old_fp c : 0 <= c < (numofchars s) -> (pblk (bucketfillptr s) < length m)%nat.
Proof.
  intros Hc. pose proof (Hfp c Hc) as H.
  destruct (cell m (bucketfillptr s) c) as [v|] eqn:E; [|contradiction].
  eapply cell_block_lt. exact E.
Qed.

Lemma old_suftab : 0 < n -> (pblk suftab < length m)%nat.
Proof.
  intros H0. pose proof (Htab 0 ltac:(lia)) as H.
  destruct (cell m suftab 0) as [v|] eqn:E; [|contradiction].
  eapply cell_block_lt. exact E.
Qed.

Lemma old_sfc sfc : sstarfirstcharcount s = Some sfc -> (pblk sfc < length m)%nat.
Proof.
  intros Es. destruct (Hsfc sfc Es 0 ltac:(lia)) as [E _].
  eapply cell_block_lt. exact E.
Qed.

Lemma outside_of (p q : ptr) a b i :
  apart p a q b -> 0 <= i < a ->
  pblk p <> pblk q \/ ~ (0 <= poff p + i - poff q < b).
Proof.
  intros H Hi. apply apart_outside. intros c Hc. apply H; assumption.
Qed.

(** The sequence is read as before as long as the frame holds. *)
Lemma frame_reads mk : scan_frame s suftab n m mk -> reads_in mk s l.
Proof.
  intros Hfr. apply (reads_in_frame s l m mk Hreads).
  intros a Ea p Hp.
  destruct Hapart as (_ & _ & _ & Hseq).
  destruct (Hseq a Ea) as (Ht & Hf & Hs).
  destruct Hreads as [Hlen Hget].
  assert (Hold : (pblk a < length m)%nat).
  { specialize (Hget p ltac:(lia)). unfold gt_sainseq_getchar in Hget.
    rewrite Ea in Hget. apply load_ok in Hget.
    destruct Hget as (_ & Hc & _). eapply cell_block_lt. exact Hc. }
  apply Hfr.
  - exact Hold.
  - apply (outside_of a (bucketfillptr s) (totallength s) (numofchars s)); assumption.
  - apply (outside_of a suftab (totallength s) n); assumption.
  - intros sfc Es. apply (outside_of a sfc (totallength s) (numofchars s)); [apply Hs; exact Es|exact Hp].
Qed.

Section Rings.

Variables (vals : ptr) (bsz : Z).

(** A symbol whose cells stay and that gets no seed keeps its state. *)
Lemma ring_state_stays c p cnt mk mk' :
  Sstar_with l c p = Sstar_with l c (S p) ->
  ring_state s suftab vals bsz l B c (S p) cnt mk ->
  cell mk' (bucketfillptr s) c = cell mk (bucketfillptr s) c ->
  (forall r, 0 <= r < Sstar_count l c (S p) - cnt ->
     cell mk' suftab (bucket_end B c - 1 - r)
     = cell mk suftab (bucket_end B c - 1 - r)) ->
  (forall j, 0 <= j < cnt ->
     cell mk' vals (c * bsz + j) = cell mk vals (c * bsz + j)) ->
  ring_state s suftab vals bsz l B c p cnt mk'.
Proof.
  intros Eq (Hcnt & Hfill & Hseeds) Efp Etab Evals.
  unfold ring_state, Sstar_count in *. rewrite Eq.
  split; [exact Hcnt|]. split; [rewrite Efp; exact Hfill|].
  intros q Hq. destruct (Hseeds q Hq) as [H1 H2].
  pose proof (Sstar_count_above l c (S p) q Hq) as Hr.
  unfold Sstar_count in Hr.
  split.
  - intros Hlt. rewrite Etab by lia. apply H1. exact Hlt.
  - intros Hge. rewrite Evals by lia. apply H2. exact Hge.
Qed.

(** The seed of a new Sstar position, put into the suffix table. *)
Lemma ring_state_seed c p mk mk' :
  Sstar_with l c p = Z.of_nat (S p) :: Sstar_with l c (S p) ->
  ring_state s suftab vals bsz l B c (S p) 0 mk ->
  cell mk' (bucketfillptr s) c = Some (bucket_end B c - Sstar_count l c (S p) - 1) ->
  cell mk' suftab (bucket_end B c - 1 - Sstar_count l c (S p))
  = Some (Z.of_nat p) ->
  (forall r, 0 <= r < Sstar_count l c (S p) ->
     cell mk' suftab (bucket_end B c - 1 - r)
     = cell mk suftab (bucket_end B c - 1 - r)) ->
  ring_state s suftab vals bsz l B c p 0 mk'.
Proof.
  intros Eq (Hcnt & Hfill & Hseeds) Efp Enew Etab.
  assert (Ec : Sstar_count l c p = Sstar_count l c (S p) + 1).
  { unfold Sstar_count. rewrite Eq. cbn [length]. lia. }
  unfold ring_state. rewrite Ec.
  pose proof (Sstar_count_nonneg l c (S p)).
  split; [lia|]. split.
  - rewrite Efp. f_equal. lia.
  - intros q Hq. rewrite Eq in Hq. destruct Hq as [<-|Hq].
    + rewrite Nat2Z.id. split; [|lia]. intros _.
      rewrite Enew. f_equal. lia.
    + pose proof (Sstar_count_above l c (S p) q Hq) as Hr.
      pose proof (Sstar_count_nonneg l c (Z.to_nat q)).
      split; [|lia]. intros _.
      rewrite Etab by lia. apply (Hseeds q Hq). lia.
Qed.

(** The seed of a new Sstar position, put into the ring. *)
Lemma ring_state_push c p cnt mk mk' :
  Sstar_with l c p = Z.of_nat (S p) :: Sstar_with l c (S p) ->
  ring_state s suftab vals bsz l B c (S p) cnt mk ->
  cell mk' (bucketfillptr s) c = cell mk (bucketfillptr s) c ->
  cell mk' vals (c * bsz + cnt) = Some (Z.of_nat p) ->
  (forall r, 0 <= r < Sstar_count l c (S p) - cnt ->
     cell mk' suftab (bucket_end B c - 1 - r)
     = cell mk suftab (bucket_end B c - 1 - r)) ->
  (forall j, 0 <= j < cnt ->
     cell mk' vals (c * bsz + j) = cell mk vals (c * bsz + j)) ->
  ring_state s suftab vals bsz l B c p (cnt + 1) mk'.
Proof.
  intros Eq (Hcnt & Hfill & Hseeds) Efp Enew Etab Evals.
  assert (Ec : Sstar_count l c p = Sstar_count l c (S p) + 1).
  { unfold Sstar_count. rewrite Eq. cbn [length]. lia. }
  unfold ring_state. rewrite Ec.
  replace (Sstar_count l c (S p) + 1 - (cnt + 1))
    with (Sstar_count l c (S p) - cnt) by lia.
  split; [lia|]. split; [rewrite Efp; exact Hfill|].
  intros q Hq. rewrite Eq in Hq. destruct Hq as [<-|Hq].
  - rewrite Nat2Z.id. split; [lia|]. intros _.
    replace (Sstar_count l c (S p) - (Sstar_count l c (S p) - cnt))
      with cnt by lia.
    rewrite Enew. f_equal. lia.
  - pose proof (Sstar_count_above l c (S p) q Hq) as Hr.
    pose proof (Sstar_count_nonneg l c (Z.to_nat q)).
    destruct (Hseeds q Hq) as [H1 H2]. split.
    + intros Hlt. rewrite Etab by lia. apply H1. exact Hlt.
    + intros Hge. rewrite Evals by lia. apply H2. exact Hge.
Qed.

(** The ring of a symbol, written out to the suffix table. *)
Lemma ring_state_flush c p cnt mk mk' :
  ring_state s suftab vals bsz l B c p cnt mk ->
  cell mk' (bucketfillptr s) c = Some (bucket_end B c - Sstar_count l c p) ->
  (forall j, 0 <= j < cnt ->
     exists v, cell mk vals (c * bsz + j) = Some v /\
       cell mk' suftab
         (bucket_end B c - (Sstar_count l c p - cnt) - 1 - j)
       = Some (u64 v)) ->
  (forall r, 0 <= r < Sstar_count l c p - cnt ->
     cell mk' suftab (bucket_end B c - 1 - r)
     = cell mk suftab (bucket_end B c - 1 - r)) ->
  ring_state s suftab vals bsz l B c p 0 mk'.
Proof.
  intros (Hcnt & Hfill & Hseeds) Efp Ecopy Etab.
  unfold ring_state. rewrite Z.sub_0_r.
  split; [lia|]. split; [exact Efp|].
  intros q Hq. split; [|pose proof (Sstar_count_above l c p q Hq); lia].
  intros Hlt. destruct (Hseeds q Hq) as [H1 H2].
  pose proof (Sstar_count_nonneg l c (Z.to_nat q)).
  destruct (Z.lt_ge_cases (Sstar_count l c (Z.to_nat q))
              (Sstar_count l c p - cnt)) as [Hf|Hr].
  - rewrite Etab by lia. apply H1. exact Hf.
  - destruct (Ecopy (Sstar_count l c (Z.to_nat q) - (Sstar_count l c p - cnt)))
      as (v & Hv & Hw); [lia|].
    rewrite H2 in Hv by exact Hr. injection Hv as <-.
    replace (bucket_end B c - (Sstar_count l c p - cnt) - 1
             - (Sstar_count l c (Z.to_nat q) - (Sstar_count l c p - cnt)))
      with (bucket_end B c - 1 - Sstar_count l c (Z.to_nat q)) in Hw by lia.
    rewrite Hw. f_equal. apply u64_small.
    apply Sstar_with_In in Hq. destruct Hq as [Hq _].
    apply Sstar_above_In in Hq. rewrite <- seeds_length in Hq. lia.
Qed.

End Rings.

Lemma outside_cell (q p0 : ptr) j i k :
  0 <= i < k ->
  pblk q <> pblk p0 \/ ~ (0 <= poff q + j - poff p0 < k) ->
  pblk q <> pblk p0 \/ poff q + j <> poff p0 + i.
Proof. intros Hi [H|H]; [left; exact H|right; lia]. Qed.

Lemma fresh_cell (q p0 : ptr) j i :
  (pblk q < length m)%nat -> (length m <= pblk p0)%nat ->
  pblk q <> pblk p0 \/ poff q + j <> poff p0 + i.
Proof. intros H1 H2. left. lia. Qed.

Lemma frame_step mk mk' :
  scan_frame s suftab n m mk ->
  (forall q j, (pblk q < length m)%nat ->
     (pblk q <> pblk (bucketfillptr s) \/
      ~ (0 <= poff q + j - poff (bucketfillptr s) < numofchars s)) ->
     (pblk q <> pblk suftab \/ ~ (0 <= poff q + j - poff suftab < n)) ->
     (forall sfc, sstarfirstcharcount s = Some sfc ->
        pblk q <> pblk sfc \/
        ~ (0 <= poff q + j - poff sfc < numofchars s)) ->
     cell mk' q j = cell mk q j) ->
  scan_frame s suftab n m mk'.
Proof.
  intros Hfr Hstep q j Hold H1 H2 H3.
  rewrite (Hstep q j Hold H1 H2 H3). apply Hfr; assumption.
Qed.

Lemma ring_state_frame vals bsz c p cnt mk mk' :
  ring_state s suftab vals bsz l B c p cnt mk ->
  cell mk' (bucketfillptr s) c = cell mk (bucketfillptr s) c ->
  (forall r, 0 <= r < Sstar_count l c p - cnt ->
     cell mk' suftab (bucket_end B c - 1 - r)
     = cell mk suftab (bucket_end B c - 1 - r)) ->
  (forall j, 0 <= j < cnt ->
     cell mk' vals (c * bsz + j) = cell mk vals (c * bsz + j)) ->
  ring_state s suftab vals bsz l B c p cnt mk'.
Proof.
  intros (Hcnt & Hfill & Hseeds) Efp Etab Evals.
  split; [exact Hcnt|]. split; [rewrite Efp; exact Hfill|].
  intros q Hq. destruct (Hseeds q Hq) as [H1 H2].
  pose proof (Sstar_count_above l c p q Hq) as Hr.
  pose proof (Sstar_count_nonneg l c (Z.to_nat q)).
  split.
  - intros Hlt. rewrite Etab by lia. apply H1. exact Hlt.
  - intros Hge. rewrite Evals by lia. apply H2. exact Hge.
Qed.

Section Scan.

(** The write buffer, if there is one, lies in two blocks that are new. *)
Variables (vals nidx : ptr) (bsz : Z).

Hypothesis Hvals : (length m <= pblk vals)%nat.
Hypothesis Hnidx : (length m <= pblk nidx)%nat.
Hypothesis Hvn : pblk vals <> pblk nidx.
Hypothesis Hbsz : 0 < bsz.

(** The state of the rings stays when the fill pointers, the first [n]
    entries of the suffix table and the write buffer stay. *)
Lemma rings_at_frame buffered p mk mk' :
  rings_at s suftab vals nidx bsz buffered l B p mk ->
  (forall c, 0 <= c < numofchars s ->
     cell mk' (bucketfillptr s) c = cell mk (bucketfillptr s) c) ->
  (forall j, 0 <= j < n -> cell mk' suftab j = cell mk suftab j) ->
  (forall q j, pblk q = pblk vals \/ pblk q = pblk nidx ->
     cell mk' q j = cell mk q j) ->
  rings_at s suftab vals nidx bsz buffered l B p mk'.
Proof.
  intros Hrings Efp Etab Ebuf c Hc.
  destruct (Hrings c Hc) as (cnt & Hring & Hb).
  exists cnt. split.
  - apply (ring_state_frame vals bsz c p cnt mk mk' Hring).
    + apply Efp. exact Hc.
    + intros r Hr. apply Etab.
      destruct Hring as (Hcnt & _).
      pose proof (Sstar_count_mono l c 0 p ltac:(lia)).
      apply (seed_place c r Hc). lia.
    + intros j Hj. apply Ebuf. left. reflexivity.
  - destruct buffered; [|exact Hb].
    rewrite Ebuf by (right; reflexivity). exact Hb.
Qed.

(** When the step at [p] finds no Sstar position, nothing changes. *)
Lemma rings_at_pass buffered p mk :
  (S p < length l)%nat ->
  is_Sstar l (Z.of_nat (S p)) = false ->
  rings_at s suftab vals nidx bsz buffered l B (S p) mk ->
  rings_at s suftab vals nidx bsz buffered l B p mk.
Proof.
  intros Hp Hs Hrings c Hc.
  destruct (Hrings c Hc) as (cnt & Hring & Hb).
  exists cnt. split; [|exact Hb].
  apply (ring_state_stays vals bsz c p cnt mk mk); try reflexivity;
    [|exact Hring].
  rewrite (Sstar_with_cons l c p Hp), Hs. reflexivity.
Qed.

Lemma counted_at_pass p mk :
  (S p < length l)%nat ->
  is_Sstar l (Z.of_nat (S p)) = false ->
  counted_at s l F0 (S p) mk -> counted_at s l F0 p mk.
Proof.
  intros Hp Hs Hcnt sfc Es c Hc. rewrite (Hcnt sfc Es c Hc).
  unfold Sstar_count. rewrite (Sstar_with_cons l c p Hp), Hs. reflexivity.
Qed.

Lemma Sstar_here p :
  (S p < length l)%nat ->
  is_Sstar l (Z.of_nat (S p)) = true ->
  0 <= nth (S p) l 0 < numofchars s /\
  (forall c, c <> nth (S p) l 0 -> Sstar_with l c p = Sstar_with l c (S p)) /\
  Sstar_with l (nth (S p) l 0) p
  = Z.of_nat (S p) :: Sstar_with l (nth (S p) l 0) (S p) /\
  0 < n.
Proof.
  intros Hp Hs.
  assert (Hin : In (Z.of_nat (S p)) (Sstar_positions l)).
  { unfold Sstar_positions, positions_above. apply filter_In.
    split; [|exact Hs]. apply in_map. apply in_seq. lia. }
  pose proof (Hsym _ Hin) as Hc0. rewrite Nat2Z.id in Hc0.
  split; [exact Hc0|]. split; [|split].
  - intros c Hne. rewrite (Sstar_with_cons l c p Hp), Hs. cbn [andb].
    destruct (Z.eqb_spec (nth (S p) l 0) c) as [E|_]; [congruence|reflexivity].
  - rewrite (Sstar_with_cons l _ p Hp), Hs, Z.eqb_refl. reflexivity.
  - assert (Hk : 0 < Sstar_count l (nth (S p) l 0) 0).
    { assert (In (Z.of_nat (S p)) (Sstar_with l (nth (S p) l 0) 0)).
      { apply Sstar_with_In. split; [exact Hin|].
        rewrite Nat2Z.id. reflexivity. }
      pose proof (Sstar_count_above l _ 0 _ H).
      pose proof (Sstar_count_nonneg l (nth (S p) l 0)
                    (Z.to_nat (Z.of_nat (S p)))).
      lia. }
    pose proof (seed_place _ 0 Hc0 ltac:(lia)). lia.
Qed.

(** The counter of the symbol of a new Sstar position goes up by one. *)
Lemma count_Sstar buffered p mk u mk' :
  (S p < length l)%nat ->
  is_Sstar l (Z.of_nat (S p)) = true ->
  rings_at s suftab vals nidx bsz buffered l B (S p) mk ->
  counted_at s l F0 (S p) mk ->
  scan_frame s suftab n m mk ->
  match sstarfirstcharcount s with
  | Some sfc => incr sfc (nth (S p) l 0)
  | None => ret tt
  end mk = Ok u mk' ->
  rings_at s suftab vals nidx bsz buffered l B (S p) mk' /\
  counted_at s l F0 p mk' /\
  scan_frame s suftab n m mk'.
Proof.
  intros Hp Hs Hrings Hcnt Hfr Hrun.
  destruct (Sstar_here p Hp Hs) as (Hc0 & Hother & Hthis & Hn0).
  assert (Hcase : (exists sfc, sstarfirstcharcount s = Some sfc) \/
                  sstarfirstcharcount s = None)
    by (destruct (sstarfirstcharcount s); eauto).
  destruct Hcase as [[sfc Es]|Es]; rewrite Es in Hrun.
  2:{ apply ret_ok in Hrun. destruct Hrun as [_ <-].
      split; [exact Hrings|]. split; [|exact Hfr].
      intros sfc Es'. congruence. }
  apply incr_ok in Hrun. destruct Hrun as (v & Hv & Hv' & Hrest).
  destruct Hapart as (_ & _ & Hsa & _).
  destruct (Hsa sfc Es) as (Hst & Hsf).
  pose proof (old_sfc sfc Es) as Hold.
  split; [|split].
  - apply (rings_at_frame buffered (S p) mk mk' Hrings).
    + intros c Hc. apply Hrest.
      apply (apart_cell sfc (numofchars s)  (bucketfillptr s) (numofchars s));
        assumption.
    + intros j Hj. apply Hrest.
      apply (apart_cell sfc (numofchars s) suftab n); assumption.
    + intros q j [E|E]; apply Hrest; left; rewrite E; lia.
  - intros sfc' Es' c Hc. assert (sfc' = sfc) by congruence. subst sfc'.
    destruct (Z.eq_dec c (nth (S p) l 0)) as [->|Hne].
    + rewrite Hv'. rewrite (Hcnt sfc Es _ Hc0) in Hv.
      injection Hv as <-. f_equal. rewrite u64_add_l. f_equal.
      unfold Sstar_count. rewrite Hthis. cbn [length]. lia.
    + rewrite Hrest by (right; lia). rewrite (Hcnt sfc Es c Hc).
      unfold Sstar_count. rewrite (Hother c Hne). reflexivity.
  - apply (frame_step mk mk' Hfr). intros q j _ _ _ H3. apply Hrest.
    apply (outside_cell q sfc j _ (numofchars s) Hc0). apply H3. exact Es.
Qed.

(** Without a write buffer the seed of a new Sstar position goes into the
    suffix table at the decremented fill pointer. *)
Lemma seed_direct p mk u mk' :
  (S p < length l)%nat ->
  is_Sstar l (Z.of_nat (S p)) = true ->
  rings_at s suftab vals nidx bsz false l B (S p) mk ->
  counted_at s l F0 p mk ->
  scan_frame s suftab n m mk ->
  (fill <- load (bucketfillptr s) (nth (S p) l 0) ;;
   store (bucketfillptr s) (nth (S p) l 0) (fill - 1) ;;
   store suftab (u64 (fill - 1)) (Z.of_nat p)) mk = Ok u mk' ->
  rings_at s suftab vals nidx bsz false l B p mk' /\
  counted_at s l F0 p mk' /\
  scan_frame s suftab n m mk'.
Proof.
  intros Hp Hs Hrings Hcnt Hfr Hrun.
  destruct (Sstar_here p Hp Hs) as (Hc0 & Hother & Hthis & Hn0).
  set (c0 := nth (S p) l 0) in *.
  apply bind_ok in Hrun. destruct Hrun as (fill & m0 & Hload & Hrun).
  apply load_ok in Hload. destruct Hload as (-> & Hfill & _).
  apply bind_ok in Hrun. destruct Hrun as (u1 & m1 & Hst1 & Hst2).
  destruct (Hrings c0 Hc0) as (cnt & Hring0 & ->).
  pose proof Hring0 as (_ & Hfill0 & _).
  rewrite Hfill0 in Hfill. injection Hfill as <-.
  rewrite Z.sub_0_r in *.
  assert (Ec : Sstar_count l c0 p = Sstar_count l c0 (S p) + 1).
  { unfold Sstar_count. rewrite Hthis. cbn [length]. lia. }
  pose proof (Sstar_count_nonneg l c0 (S p)) as Hr0.
  pose proof (Sstar_count_mono l c0 0 p ltac:(lia)) as Hm0.
  destruct (seed_place c0 (Sstar_count l c0 (S p)) Hc0 ltac:(lia))
    as [_ Hplace].
  replace (bucket_end B c0 - Sstar_count l c0 (S p) - 1)
    with (bucket_end B c0 - 1 - Sstar_count l c0 (S p)) in * by lia.
  rewrite u64_small in Hst2 by lia.
  destruct Hapart as (_ & Hft & Hsa & _).
  assert (Hchg : forall q j,
            pblk q <> pblk (bucketfillptr s) \/
            poff q + j <> poff (bucketfillptr s) + c0 ->
            pblk q <> pblk suftab \/
            poff q + j
            <> poff suftab + (bucket_end B c0 - 1 - Sstar_count l c0 (S p)) ->
            cell mk' q j = cell mk q j).
  { intros q j H1 H2.
    rewrite (store_cell_other _ _ _ _ _ _ _ _ Hst2 H2).
    apply (store_cell_other _ _ _ _ _ _ _ _ Hst1 H1). }
  assert (Efp : cell mk' (bucketfillptr s) c0
                = Some (bucket_end B c0 - 1 - Sstar_count l c0 (S p))).
  { rewrite (store_cell_other _ _ _ _ _ _ _ _ Hst2)
      by (apply Hft; [exact Hc0|exact Hplace]).
    rewrite (store_cell_same _ _ _ _ _ _ Hst1). f_equal.
    apply u64_small. lia. }
  assert (Enew : cell mk' suftab
                   (bucket_end B c0 - 1 - Sstar_count l c0 (S p))
                 = Some (Z.of_nat p)).
  { rewrite (store_cell_same _ _ _ _ _ _ Hst2). f_equal.
    apply u64_small. pose proof seeds_length. lia. }
  split; [|split].
  - intros c Hc. exists 0. split; [|reflexivity].
    destruct (Hrings c Hc) as (cnt & Hring & ->).
    destruct (Z.eq_dec c c0) as [->|Hne].
    + apply (ring_state_seed vals bsz c0 p mk mk' Hthis Hring0).
      * rewrite Efp. f_equal. lia.
      * exact Enew.
      * intros r Hr. apply Hchg.
        -- apply (apart_cell _ _ _ _ _ _ Hft Hc0).
           apply (seed_place c0 r Hc0). lia.
        -- right. lia.
    + apply (ring_state_stays vals bsz c p 0 mk mk' (Hother c Hne) Hring).
      * apply Hchg; [right; lia|]. apply Hft; [exact Hc|exact Hplace].
      * intros r Hr. rewrite Z.sub_0_r in Hr.
        pose proof (Sstar_count_mono l c 0 (S p) ltac:(lia)).
        apply Hchg.
        -- apply (apart_cell _ _ _ _ _ _ Hft Hc0).
           apply (seed_place c r Hc). lia.
        -- right.
           pose proof (seed_places_differ c r c0 (Sstar_count l c0 (S p))
                         Hc Hc0 Hne ltac:(lia) ltac:(lia)).
           lia.
      * intros j Hj. lia.
  - intros sfc Es c Hc. rewrite <- (Hcnt sfc Es c Hc).
    destruct (Hsa sfc Es) as (Hst & Hsf). apply Hchg.
    + apply Hsf; assumption.
    + apply Hst; assumption.
  - apply (frame_step mk mk' Hfr). intros q j _ H1 H2 _. apply Hchg.
    + apply (outside_cell q _ j c0 _ Hc0 H1).
    + apply (outside_cell q _ j _ _ Hplace H2).
Qed.

(** What a step of the scan does to the seeds: nothing where it finds no
    Sstar position, and else it counts the position and runs [seed], which
    is the store at the decremented fill pointer or the update of the write
    buffer. *)
Lemma seeds_step buffered (b : option GtSainbuffer) p st mk st' mk' :
  (forall u mk1 mk2,
     is_Sstar l (Z.of_nat (S p)) = true ->
     rings_at s suftab vals nidx bsz buffered l B (S p) mk1 ->
     counted_at s l F0 p mk1 ->
     scan_frame s suftab n m mk1 ->
     match b with
     | Some buf => gt_sainbuffer_update buf (nth (S p) l 0) (Z.of_nat p)
     | None =>
         fill <- load (bucketfillptr s) (nth (S p) l 0) ;;
         store (bucketfillptr s) (nth (S p) l 0) (fill - 1) ;;
         store suftab (u64 (fill - 1)) (Z.of_nat p)
     end mk1 = Ok u mk2 ->
     rings_at s suftab vals nidx bsz buffered l B p mk2 /\
     counted_at s l F0 p mk2 /\
     scan_frame s suftab n m mk2) ->
  (S p < length l)%nat ->
  seeds_inv s suftab vals nidx bsz buffered l B F0 n m (S p) st mk ->
  saininfo_step s suftab b (Z.of_nat p) st mk = Ok st' mk' ->
  seeds_inv s suftab vals nidx bsz buffered l B F0 n m p st' mk'.
Proof.
  intros Hseed Hp (Hk & Hrings & Hcnt & Hfr) Hstep.
  pose proof (frame_reads mk Hfr) as [Hlen Hget].
  destruct Hk as (Hcc & Hty & Hcount).
  unfold saininfo_step in Hstep.
  apply bind_ok in Hstep. destruct Hstep as (cc & m0 & Hg & Hstep).
  rewrite Hget in Hg by lia. injection Hg as <- <-.
  rewrite Nat2Z.id in Hstep.
  assert (Est : isStype (nth p l 0) (sc_nextcc st) (sc_nextisStype st)
                = is_Stype l (Z.of_nat p)).
  { rewrite is_Stype_step by lia. rewrite Nat2Z.id, Hcc, Hty.
    replace (Z.to_nat (Z.of_nat p + 1)) with (S p) by lia.
    replace (Z.of_nat p + 1) with (Z.of_nat (S p)) by lia. reflexivity. }
  rewrite Est in Hstep.
  assert (Ess : negb (is_Stype l (Z.of_nat p)) && sc_nextisStype st
                = is_Sstar l (Z.of_nat (S p))).
  { unfold is_Sstar. rewrite Hty.
    replace (Z.of_nat (S p) - 1) with (Z.of_nat p) by lia.
    apply andb_comm. }
  rewrite Ess, Hcc in Hstep.
  apply bind_ok in Hstep. destruct Hstep as (count & m1 & Hcnt1 & Hstep).
  apply ret_ok in Hstep. destruct Hstep as [<- <-].
  assert (Hknows : forall count',
            count' = (if is_Sstar l (Z.of_nat (S p))
                      then u64 (sc_countSstartype st + 1)
                      else sc_countSstartype st) ->
            scan_knows l p
              {| sc_nextcc := nth p l 0;
                 sc_nextisStype := is_Stype l (Z.of_nat p);
                 sc_countSstartype := count' |}).
  { intros count' ->. split; [reflexivity|]. split; [reflexivity|].
    cbn [sc_countSstartype].
    rewrite positions_above_step by exact Hp. cbn [filter].
    destruct (is_Sstar l (Z.of_nat (S p))); cbn [length]; [|exact Hcount].
    rewrite Hcount, u64_small; [lia|].
    pose proof (filter_length_le' (is_Sstar l) (positions_above l (S p)))
      as Hle.
    unfold positions_above in Hle at 2.
    rewrite length_map, length_seq in Hle. pose proof seeds_length. lia. }
  destruct (is_Sstar l (Z.of_nat (S p))) eqn:Hs.
  - apply bind_ok in Hcnt1. destruct Hcnt1 as (u1 & m2 & Hincr & Hcnt1).
    apply bind_ok in Hcnt1. destruct Hcnt1 as (u2 & m3 & Hop & Hcnt1).
    apply ret_ok in Hcnt1. destruct Hcnt1 as [<- <-].
    destruct (count_Sstar buffered p mk u1 m2 Hp Hs Hrings Hcnt Hfr Hincr)
      as (Hrings2 & Hcnt2 & Hfr2).
    destruct (Hseed u2 m2 m3 eq_refl Hrings2 Hcnt2 Hfr2 Hop)
      as (Hrings3 & Hcnt3 & Hfr3).
    split; [apply Hknows; reflexivity|]. auto.
  - apply ret_ok in Hcnt1. destruct Hcnt1 as [<- <-].
    split; [apply Hknows; reflexivity|]. split; [|split].
    + apply rings_at_pass; assumption.
    + apply counted_at_pass; assumption.
    + exact Hfr.
Qed.

Section Buffered.

Variable buf : GtSainbuffer.

Hypothesis Hbv : values buf = vals.
Hypothesis Hbn : nextidx buf = nidx.
Hypothesis Hbs : buf_size buf = bsz.
Hypothesis Hbf : buf_fillptr buf = bucketfillptr s.
Hypothesis Hbt : buf_suftab buf = suftab.
Hypothesis Hbc : buf_numofchars buf = numofchars s.
Hypothesis Hoff :
  forall c, 0 <= c < numofchars s ->
    u64 (Z.shiftl c (log_bufsize buf)) = c * bsz.
Hypothesis Hbw : bsz < wordsize.

(** The copy loop of the write buffer: [cnt] values go from the ring at
    [offset] to the entries below [fill], in descending order. *)
Lemma sainbuffer_copy_ok offset fill cnt mk u mk' :
  pblk suftab <> pblk vals ->
  sainbuffer_copy buf offset fill cnt mk = Ok u mk' ->
  (forall j, 0 <= j < Z.of_nat (Z.to_nat cnt) ->
     exists v, cell mk vals (offset + j) = Some v /\
               cell mk' suftab (fill - 1 - j) = Some (u64 v)) /\
  (forall q j, pblk q <> pblk suftab \/
               ~ (fill - Z.of_nat (Z.to_nat cnt) <= poff q + j - poff suftab
                  < fill) ->
               cell mk' q j = cell mk q j).
Proof.
  intros Hsv Hrun. unfold sainbuffer_copy in Hrun. rewrite Hbv, Hbt in Hrun.
  pose (I := fun (k : Z) (_ : unit) (mx : mem) =>
    (forall j, 0 <= j < k ->
       exists v, cell mk vals (offset + j) = Some v /\
                 cell mx suftab (fill - 1 - j) = Some (u64 v)) /\
    (forall q j, pblk q <> pblk suftab \/
                 ~ (fill - k <= poff q + j - poff suftab < fill) ->
                 cell mx q j = cell mk q j)).
  assert (HI : I (0 + Z.of_nat (Z.to_nat cnt)) u mk').
  { eapply (for_up_inv _ I); [| |exact Hrun].
    - intros k [] mx [] mx' Hk (Hdone & Hfr) Hbody.
      apply bind_ok in Hbody. destruct Hbody as (v & m0 & Hl & Hst).
      apply load_ok in Hl. destruct Hl as (-> & Hv & _).
      rewrite Hfr in Hv by (left; congruence).
      split.
      + intros j Hj. destruct (Z.eq_dec j k) as [->|Hne].
        * exists v. split; [exact Hv|].
          apply (store_cell_same _ _ _ _ _ _ Hst).
        * destruct (Hdone j ltac:(lia)) as (w & Hw & Hw').
          exists w. split; [exact Hw|].
          rewrite (store_cell_other _ _ _ _ _ _ _ _ Hst) by (right; lia).
          exact Hw'.
      + intros q j Hq.
        rewrite (store_cell_other _ _ _ _ _ _ _ _ Hst).
        * apply Hfr. destruct Hq as [Hq|Hq]; [left; exact Hq|right; lia].
        * destruct Hq as [Hq|Hq]; [left; exact Hq|right; lia].
    - split; [intros j Hj; lia|]. intros q j _. reflexivity. }
  destruct HI as [H1 H2]. split.
  - intros j Hj. apply H1. lia.
  - intros q j Hq. apply H2.
    destruct Hq as [Hq|Hq]; [left; exact Hq|right; lia].
Qed.

Lemma suftab_not_vals : 0 < n -> pblk suftab <> pblk vals.
Proof. intros H0. pose proof (old_suftab H0). lia. Qed.

Lemma suftab_not_nidx : 0 < n -> pblk suftab <> pblk nidx.
Proof. intros H0. pose proof (old_suftab H0). lia. Qed.

(** The ring of a symbol is written out and emptied. *)
Lemma flush_symbol c p cnt mk u mk' :
  0 <= c < numofchars s -> 0 < cnt ->
  ring_state s suftab vals bsz l B c p cnt mk ->
  (fill <- load (bucketfillptr s) c ;;
   sainbuffer_copy buf (c * bsz) fill cnt ;;
   store nidx c 0 ;;
   store (bucketfillptr s) c (fill - cnt)) mk = Ok u mk' ->
  ring_state s suftab vals bsz l B c p 0 mk' /\
  cell mk' nidx c = Some 0 /\
  (forall q j,
     pblk q <> pblk nidx \/ poff q + j <> poff nidx + c ->
     pblk q <> pblk (bucketfillptr s) \/
     poff q + j <> poff (bucketfillptr s) + c ->
     pblk q <> pblk suftab \/
     ~ (bucket_end B c - Sstar_count l c p <= poff q + j - poff suftab
        < bucket_end B c - (Sstar_count l c p - cnt)) ->
     cell mk' q j = cell mk q j).
Proof.
  intros Hc Hpos Hring Hrun.
  pose proof Hring as (Hcnt & Hfill & _).
  apply bind_ok in Hrun. destruct Hrun as (fill & m0 & Hload & Hrun).
  apply load_ok in Hload. destruct Hload as (-> & Hf & _).
  rewrite Hfill in Hf. injection Hf as <-.
  apply bind_ok in Hrun. destruct Hrun as (u1 & m1 & Hcopy & Hrun).
  apply bind_ok in Hrun. destruct Hrun as (u2 & m2 & Hst1 & Hst2).
  pose proof (Sstar_count_mono l c 0 p ltac:(lia)) as Hm0.
  assert (Hn0 : 0 < n).
  { pose proof (seed_place c 0 Hc ltac:(lia)). lia. }
  pose proof (suftab_not_vals Hn0) as Hsv.
  pose proof (suftab_not_nidx Hn0) as Hsn.
  destruct (sainbuffer_copy_ok _ _ _ _ _ _ Hsv Hcopy) as [Hcp Hcf].
  rewrite Z2Nat.id in Hcp, Hcf by lia.
  destruct Hapart as (_ & Hft & _).
  assert (Hchg : forall q j,
     pblk q <> pblk nidx \/ poff q + j <> poff nidx + c ->
     pblk q <> pblk (bucketfillptr s) \/
     poff q + j <> poff (bucketfillptr s) + c ->
     pblk q <> pblk suftab \/
     ~ (bucket_end B c - Sstar_count l c p <= poff q + j - poff suftab
        < bucket_end B c - (Sstar_count l c p - cnt)) ->
     cell mk' q j = cell mk q j).
  { intros q j H1 H2 H3.
    rewrite (store_cell_other _ _ _ _ _ _ _ _ Hst2 H2).
    rewrite (store_cell_other _ _ _ _ _ _ _ _ Hst1 H1).
    apply Hcf. destruct H3 as [H3|H3]; [left; exact H3|right; lia]. }
  split; [|split; [|exact Hchg]].
  - apply (ring_state_flush vals bsz c p cnt mk mk' Hring).
    + rewrite (store_cell_same _ _ _ _ _ _ Hst2). f_equal.
      pose proof (seed_place c (Sstar_count l c p - 1) Hc ltac:(lia)).
      rewrite u64_small by lia. lia.
    + intros j Hj. destruct (Hcp j Hj) as (v & Hv & Hw).
      exists v. split; [exact Hv|].
      pose proof (seed_place c (Sstar_count l c p - cnt + j) Hc ltac:(lia))
        as [_ Hpl].
      rewrite (store_cell_other _ _ _ _ _ _ _ _ Hst2).
      * rewrite (store_cell_other _ _ _ _ _ _ _ _ Hst1) by (left; exact Hsn).
        exact Hw.
      * apply (apart_cell _ _ _ _ _ _ Hft Hc). lia.
    + intros r Hr.
      pose proof (seed_place c r Hc ltac:(lia)) as [_ Hpl].
      apply Hchg.
      * left. exact Hsn.
      * apply (apart_cell _ _ _ _ _ _ Hft Hc). exact Hpl.
      * right. lia.
  - rewrite (store_cell_other _ _ _ _ _ _ _ _ Hst2)
      by (left; pose proof (old_fp c Hc); lia).
    apply (store_cell_same _ _ _ _ _ _ Hst1).
Qed.

Lemma outside_sub (q p0 : ptr) j a b a' b' :
  a <= a' -> b' <= b ->
  pblk q <> pblk p0 \/ ~ (a <= poff q + j - poff p0 < b) ->
  pblk q <> pblk p0 \/ ~ (a' <= poff q + j - poff p0 < b').
Proof. intros Ha Hb [H|H]; [left; exact H|right; lia]. Qed.

Lemma rings_differ c c0 j :
  c <> c0 -> 0 <= j < bsz ->
  ~ (c0 * bsz <= c * bsz + j < c0 * bsz + bsz).
Proof.
  intros Hne Hj H.
  destruct (Z.lt_ge_cases c c0) as [Hlt|Hge].
  - assert (c * bsz + bsz <= c0 * bsz) by nia. lia.
  - assert (c0 * bsz + bsz <= c * bsz) by nia. lia.
Qed.

(** The update of the write buffer for a new Sstar position: its seed is in
    the ring of its symbol, or the full ring has been written out. *)
Lemma update_effect p mk u mk' :
  (S p < length l)%nat ->
  is_Sstar l (Z.of_nat (S p)) = true ->
  rings_at s suftab vals nidx bsz true l B (S p) mk ->
  gt_sainbuffer_update buf (nth (S p) l 0) (Z.of_nat p) mk = Ok u mk' ->
  let c0 := nth (S p) l 0 in
  exists cnt',
    ring_state s suftab vals bsz l B c0 p cnt' mk' /\
    cell mk' nidx c0 = Some cnt' /\ cnt' < bsz /\
    (forall q j,
       pblk q <> pblk vals \/
       ~ (c0 * bsz <= poff q + j - poff vals < c0 * bsz + bsz) ->
       pblk q <> pblk nidx \/ poff q + j <> poff nidx + c0 ->
       pblk q <> pblk (bucketfillptr s) \/
       poff q + j <> poff (bucketfillptr s) + c0 ->
       pblk q <> pblk suftab \/
       ~ (bucket_end B c0 - Sstar_count l c0 p <= poff q + j - poff suftab
          < bucket_end B c0) ->
       cell mk' q j = cell mk q j).
Proof.
  intros Hp Hs Hrings Hrun c0.
  destruct (Sstar_here p Hp Hs) as (Hc0 & Hother & Hthis & Hn0).
  fold c0 in Hc0, Hthis, Hrun.
  destruct (Hrings c0 Hc0) as (cnt0 & Hring0 & Hni & Hlt).
  pose proof Hring0 as (Hcnt0 & _).
  assert (Ec : Sstar_count l c0 p = Sstar_count l c0 (S p) + 1).
  { unfold Sstar_count. rewrite Hthis. cbn [length]. lia. }
  pose proof (Sstar_count_mono l c0 0 p ltac:(lia)) as Hm0.
  pose proof (suftab_not_vals Hn0) as Hsv.
  pose proof (suftab_not_nidx Hn0) as Hsn.
  pose proof (old_fp c0 Hc0) as Holdfp.
  unfold gt_sainbuffer_update in Hrun.
  rewrite Hbv, Hbn, Hbs, Hbf, (Hoff c0 Hc0) in Hrun.
  apply bind_ok in Hrun. destruct Hrun as (ni & m0 & Hload & Hrun).
  apply load_ok in Hload. destruct Hload as (-> & Hni' & _).
  rewrite Hni in Hni'. injection Hni' as <-.
  apply bind_ok in Hrun. destruct Hrun as (u1 & m1 & Hst & Hrun).
  assert (Hring1 : ring_state s suftab vals bsz l B c0 p (cnt0 + 1) m1).
  { apply (ring_state_push vals bsz c0 p cnt0 mk m1 Hthis Hring0).
    - apply (store_cell_other _ _ _ _ _ _ _ _ Hst). left. lia.
    - rewrite (store_cell_same _ _ _ _ _ _ Hst). f_equal.
      apply u64_small. pose proof seeds_length. lia.
    - intros r Hr. apply (store_cell_other _ _ _ _ _ _ _ _ Hst).
      left. exact Hsv.
    - intros j Hj. apply (store_cell_other _ _ _ _ _ _ _ _ Hst).
      right. lia. }
  assert (Hchg1 : forall q j,
            pblk q <> pblk vals \/
            ~ (c0 * bsz <= poff q + j - poff vals < c0 * bsz + bsz) ->
            cell m1 q j = cell mk q j).
  { intros q j H. apply (store_cell_other _ _ _ _ _ _ _ _ Hst).
    destruct H as [H|H]; [left; exact H|right; lia]. }
  destruct (Z.ltb_spec cnt0 (bsz - 1)) as [Hroom|Hfull].
  - exists (cnt0 + 1). split; [|split; [|split; [lia|]]].
    + apply (ring_state_frame vals bsz c0 p (cnt0 + 1) m1 mk' Hring1).
      * apply (store_cell_other _ _ _ _ _ _ _ _ Hrun). left. lia.
      * intros r Hr. apply (store_cell_other _ _ _ _ _ _ _ _ Hrun).
        left. exact Hsn.
      * intros j Hj. apply (store_cell_other _ _ _ _ _ _ _ _ Hrun).
        left. exact Hvn.
    + rewrite (store_cell_same _ _ _ _ _ _ Hrun). f_equal.
      apply u64_small. lia.
    + intros q j H1 H2 _ _.
      rewrite (store_cell_other _ _ _ _ _ _ _ _ Hrun H2).
      apply Hchg1. exact H1.
  - assert (Efull : cnt0 + 1 = bsz) by lia. rewrite Efull in Hring1.
    destruct (flush_symbol c0 p bsz m1 u mk' Hc0 Hbsz Hring1 Hrun)
      as (Hring2 & Hn2 & Hchg2).
    exists 0. split; [exact Hring2|]. split; [exact Hn2|].
    split; [exact Hbsz|].
    intros q j H1 H2 H3 H4. rewrite Hchg2.
    + apply Hchg1. exact H1.
    + exact H2.
    + exact H3.
    + destruct H4 as [H4|H4]; [left; exact H4|right; lia].
Qed.

(** With a write buffer the seed of a new Sstar position goes through the
    buffer. *)
Lemma seed_buffered p mk u mk' :
  (S p < length l)%nat ->
  is_Sstar l (Z.of_nat (S p)) = true ->
  rings_at s suftab vals nidx bsz true l B (S p) mk ->
  counted_at s l F0 p mk ->
  scan_frame s suftab n m mk ->
  gt_sainbuffer_update buf (nth (S p) l 0) (Z.of_nat p) mk = Ok u mk' ->
  rings_at s suftab vals nidx bsz true l B p mk' /\
  counted_at s l F0 p mk' /\
  scan_frame s suftab n m mk'.
Proof.
  intros Hp Hs Hrings Hcnt Hfr Hrun.
  destruct (Sstar_here p Hp Hs) as (Hc0 & Hother & Hthis & Hn0).
  destruct (update_effect p mk u mk' Hp Hs Hrings Hrun)
    as (cnt' & Hring' & Hn' & Hlt' & Hchg).
  set (c0 := nth (S p) l 0) in *.
  pose proof (Sstar_count_mono l c0 0 p ltac:(lia)) as Hm0.
  pose proof (Sstar_count_nonneg l c0 p) as Hk0.
  pose proof (old_suftab Hn0) as Holdt.
  pose proof (old_fp c0 Hc0) as Holdfp.
  destruct Hapart as (_ & Hft & Hsa & _).
  assert (Hrange : forall x,
            bucket_end B c0 - Sstar_count l c0 p <= x < bucket_end B c0 ->
            0 <= x < n).
  { intros x Hx.
    pose proof (seed_place c0 (Sstar_count l c0 p - 1) Hc0 ltac:(lia)).
    pose proof (bucket_end_le c0 Hc0). lia. }
  assert (Hold : forall q j,
            (pblk q < length m)%nat ->
            pblk q <> pblk (bucketfillptr s) \/
            poff q + j <> poff (bucketfillptr s) + c0 ->
            pblk q <> pblk suftab \/
            ~ (bucket_end B c0 - Sstar_count l c0 p
               <= poff q + j - poff suftab < bucket_end B c0) ->
            cell mk' q j = cell mk q j).
  { intros q j Hq H1 H2. apply Hchg; [left; lia|left; lia|exact H1|exact H2]. }
  split; [|split].
  - intros c Hc. destruct (Z.eq_dec c c0) as [->|Hne].
    { exists cnt'. split; [exact Hring'|]. split; assumption. }
    destruct (Hrings c Hc) as (cnt & Hring & Hni & Hlt).
    pose proof Hring as (Hcnt0 & _).
    pose proof (Sstar_count_mono l c 0 (S p) ltac:(lia)) as Hmc.
    exists cnt. split; [|split; [|exact Hlt]].
    + apply (ring_state_stays vals bsz c p cnt mk mk' (Hother c Hne) Hring).
      * apply Hold; [exact Holdfp|right; lia|].
        destruct (Hft c 0 Hc ltac:(lia)) as [N|_]; [left; exact N|].
        destruct (Nat.eq_dec (pblk (bucketfillptr s)) (pblk suftab))
          as [E|N]; [right|left; exact N].
        intros Hx. apply Hrange in Hx.
        destruct (Hft c (poff (bucketfillptr s) + c - poff suftab) Hc Hx)
          as [N|N]; [contradiction|lia].
      * intros r Hr.
        pose proof (seed_place c r Hc ltac:(lia)) as [_ Hpl].
        apply Hold; [exact Holdt| |].
        -- apply (apart_cell _ _ _ _ _ _ Hft Hc0 Hpl).
        -- right. intros Hx.
           pose proof (seed_places_differ c r c0
                         (bucket_end B c0 - 1 - (bucket_end B c - 1 - r))
                         Hc Hc0 Hne ltac:(lia) ltac:(lia)).
           lia.
      * intros j Hj. apply Hchg.
        -- right. pose proof (rings_differ c c0 j Hne ltac:(lia)). lia.
        -- left. exact Hvn.
        -- left. lia.
        -- left. lia.
    + rewrite <- Hni. apply Hchg.
      * left. congruence.
      * right. lia.
      * left. lia.
      * left. lia.
  - intros sfc Es c Hc. rewrite <- (Hcnt sfc Es c Hc).
    destruct (Hsa sfc Es) as (Hst & Hsf).
    apply Hold; [exact (old_sfc sfc Es)| |].
    + apply Hsf; assumption.
    + destruct (Nat.eq_dec (pblk sfc) (pblk suftab)) as [E|N];
        [right|left; exact N].
      intros Hx. apply Hrange in Hx.
      destruct (Hst c (poff sfc + c - poff suftab) Hc Hx) as [N|N];
        [contradiction|lia].
  - apply (frame_step mk mk' Hfr). intros q j Hq H1 H2 _.
    apply Hold; [exact Hq| |].
    + apply (outside_cell q _ j c0 _ Hc0 H1).
    + destruct H2 as [H2|H2]; [left; exact H2|right].
      intros Hx. apply Hrange in Hx. contradiction.
Qed.

(** What is kept when the cells of one symbol change: its ring, its entry
    of [nextidx], its fill pointer and the places of its seeds. *)
Lemma symbol_change_keeps c0 p mk mk' :
  0 <= c0 < numofchars s -> 0 < Sstar_count l c0 0 ->
  (forall q j,
     pblk q <> pblk vals \/
     ~ (c0 * bsz <= poff q + j - poff vals < c0 * bsz + bsz) ->
     pblk q <> pblk nidx \/ poff q + j <> poff nidx + c0 ->
     pblk q <> pblk (bucketfillptr s) \/
     poff q + j <> poff (bucketfillptr s) + c0 ->
     pblk q <> pblk suftab \/
     ~ (bucket_end B c0 - Sstar_count l c0 0 <= poff q + j - poff suftab
        < bucket_end B c0) ->
     cell mk' q j = cell mk q j) ->
  (forall c cnt, 0 <= c < numofchars s -> c <> c0 -> cnt < bsz ->
     ring_state s suftab vals bsz l B c p cnt mk ->
     ring_state s suftab vals bsz l B c p cnt mk' /\
     cell mk' nidx c = cell mk nidx c) /\
  (counted_at s l F0 p mk -> counted_at s l F0 p mk') /\
  (scan_frame s suftab n m mk -> scan_frame s suftab n m mk').
Proof.
  intros Hc0 Hk0 Hchg.
  assert (Hrange : forall x,
            bucket_end B c0 - Sstar_count l c0 0 <= x < bucket_end B c0 ->
            0 <= x < n).
  { intros x Hx.
    pose proof (seed_place c0 (Sstar_count l c0 0 - 1) Hc0 ltac:(lia)).
    pose proof (bucket_end_le c0 Hc0). lia. }
  assert (Hn0 : 0 < n).
  { pose proof (seed_place c0 0 Hc0 ltac:(lia)). lia. }
  pose proof (old_suftab Hn0) as Holdt.
  pose proof (old_fp c0 Hc0) as Holdfp.
  destruct Hapart as (_ & Hft & Hsa & _).
  assert (Hold : forall q j,
            (pblk q < length m)%nat ->
            pblk q <> pblk (bucketfillptr s) \/
            poff q + j <> poff (bucketfillptr s) + c0 ->
            pblk q <> pblk suftab \/
            ~ (bucket_end B c0 - Sstar_count l c0 0
               <= poff q + j - poff suftab < bucket_end B c0) ->
            cell mk' q j = cell mk q j).
  { intros q j Hq H1 H2. apply Hchg; [left; lia|left; lia|exact H1|exact H2]. }
  split; [|split].
  - intros c cnt Hc Hne Hlt Hring.
    pose proof Hring as (Hcnt0 & _).
    pose proof (Sstar_count_mono l c 0 p ltac:(lia)) as Hmc.
    split.
    + apply (ring_state_frame vals bsz c p cnt mk mk' Hring).
      * apply Hold; [exact Holdfp|right; lia|].
        destruct (Nat.eq_dec (pblk (bucketfillptr s)) (pblk suftab))
          as [E|N]; [right|left; exact N].
        intros Hx. apply Hrange in Hx.
        destruct (Hft c (poff (bucketfillptr s) + c - poff suftab) Hc Hx)
          as [N|N]; [contradiction|lia].
      * intros r Hr.
        pose proof (seed_place c r Hc ltac:(lia)) as [_ Hpl].
        apply Hold; [exact Holdt| |].
        -- apply (apart_cell _ _ _ _ _ _ Hft Hc0 Hpl).
        -- right. intros Hx.
           pose proof (seed_places_differ c r c0
                         (bucket_end B c0 - 1 - (bucket_end B c - 1 - r))
                         Hc Hc0 Hne ltac:(lia) ltac:(lia)).
           lia.
      * intros j Hj. apply Hchg.
        -- right. pose proof (rings_differ c c0 j Hne ltac:(lia)). lia.
        -- left. exact Hvn.
        -- left. lia.
        -- left. lia.
    + apply Hchg.
      * left. congruence.
      * right. lia.
      * left. lia.
      * left. lia.
  - intros Hcnt sfc Es c Hc. rewrite <- (Hcnt sfc Es c Hc).
    destruct (Hsa sfc Es) as (Hst & Hsf).
    apply Hold; [exact (old_sfc sfc Es)| |].
    + apply Hsf; assumption.
    + destruct (Nat.eq_dec (pblk sfc) (pblk suftab)) as [E|N];
        [right|left; exact N].
      intros Hx. apply Hrange in Hx.
      destruct (Hst c (poff sfc + c - poff suftab) Hc Hx) as [N|N];
        [contradiction|lia].
  - intros Hfr. apply (frame_step mk mk' Hfr). intros q j Hq H1 H2 _.
    apply Hold; [exact Hq| |].
    + apply (outside_cell q _ j c0 _ Hc0 H1).
    + destruct H2 as [H2|H2]; [left; exact H2|right].
      intros Hx. apply Hrange in Hx. contradiction.
Qed.

(** At the end of the scan the rings are written out: every seed is then at
    its place in the suffix table. *)
Lemma flushall_ok mk u mk' :
  rings_at s suftab vals nidx bsz true l B 0 mk ->
  counted_at s l F0 0 mk ->
  scan_frame s suftab n m mk ->
  gt_sainbuffer_flushall (Some buf) mk = Ok u mk' ->
  rings_at s suftab vals nidx bsz false l B 0 mk' /\
  counted_at s l F0 0 mk' /\
  scan_frame s suftab n m mk'.
Proof.
  intros Hrings Hcnt Hfr Hrun. unfold gt_sainbuffer_flushall in Hrun.
  rewrite Hbc, Hbn, Hbf in Hrun.
  pose (I := fun (k : Z) (_ : unit) (mx : mem) =>
    rings_at s suftab vals nidx bsz true l B 0 mx /\
    (forall c, 0 <= c < k -> cell mx nidx c = Some 0) /\
    counted_at s l F0 0 mx /\
    scan_frame s suftab n m mx).
  assert (HI : I (0 + Z.of_nat (Z.to_nat (numofchars s))) u mk').
  { eapply (for_up_inv _ I); [| |exact Hrun].
    - intros k [] mx [] mx' Hk (Hr & Hz & Hc & Hf) Hbody.
      assert (Hkc : 0 <= k < numofchars s) by lia.
      destruct (Hr k Hkc) as (cnt & Hring & Hni & Hlt).
      apply bind_ok in Hbody. destruct Hbody as (bl & m0 & Hload & Hbody).
      apply load_ok in Hload. destruct Hload as (-> & Hbl & _).
      rewrite Hni in Hbl. injection Hbl as <-.
      destruct (Z.ltb_spec 0 cnt) as [Hpos|Hzero].
      + rewrite (Hoff k Hkc) in Hbody.
        destruct (flush_symbol k 0 cnt mx tt mx' Hkc Hpos Hring Hbody)
          as (Hring' & Hn' & Hchg).
        pose proof Hring as (Hcnt0 & _).
        destruct (symbol_change_keeps k 0 mx mx' Hkc ltac:(lia))
          as (Hkeep & Hkc' & Hkf).
        { intros q j _ H2 H3 H4. apply Hchg; [exact H2|exact H3|].
          destruct H4 as [H4|H4]; [left; exact H4|right; lia]. }
        split; [|split; [|split]].
        * intros c Hcc. destruct (Z.eq_dec c k) as [->|Hne].
          -- exists 0. split; [exact Hring'|]. split; [exact Hn'|exact Hbsz].
          -- destruct (Hr c Hcc) as (cntc & Hringc & Hnic & Hltc).
             destruct (Hkeep c cntc Hcc Hne Hltc Hringc) as [Hrc Hnc'].
             exists cntc. split; [exact Hrc|]. split; [|exact Hltc].
             rewrite Hnc'. exact Hnic.
        * intros c Hcc. destruct (Z.eq_dec c k) as [->|Hne]; [exact Hn'|].
          destruct (Hr c ltac:(lia)) as (cntc & Hringc & Hnic & Hltc).
          destruct (Hkeep c cntc ltac:(lia) Hne Hltc Hringc) as [_ Hnc'].
          rewrite Hnc'. apply Hz. lia.
        * apply Hkc'. exact Hc.
        * apply Hkf. exact Hf.
      + apply ret_ok in Hbody. destruct Hbody as [_ <-].
        pose proof Hring as (Hcnt0 & _).
        assert (cnt = 0) by lia. subst cnt.
        split; [exact Hr|]. split; [|split; assumption].
        intros c Hcc. destruct (Z.eq_dec c k) as [->|Hne]; [exact Hni|].
        apply Hz. lia.
    - split; [exact Hrings|]. split; [intros c Hc; lia|]. split; assumption. }
  destruct HI as (Hr & Hz & Hc & Hf).
  split; [|split; assumption].
  intros c Hc'. destruct (Hr c Hc') as (cnt & Hring & Hni & _).
  rewrite Hz in Hni by lia. injection Hni as <-.
  exists 0. split; [exact Hring|reflexivity].
Qed.

End Buffered.

(** The scan from a position on. *)
Lemma seeds_scan_rest buffered (b : option GtSainbuffer) :
  (forall p u mk1 mk2,
     (S p < length l)%nat ->
     is_Sstar l (Z.of_nat (S p)) = true ->
     rings_at s suftab vals nidx bsz buffered l B (S p) mk1 ->
     counted_at s l F0 p mk1 ->
     scan_frame s suftab n m mk1 ->
     match b with
     | Some buf => gt_sainbuffer_update buf (nth (S p) l 0) (Z.of_nat p)
     | None =>
         fill <- load (bucketfillptr s) (nth (S p) l 0) ;;
         store (bucketfillptr s) (nth (S p) l 0) (fill - 1) ;;
         store suftab (u64 (fill - 1)) (Z.of_nat p)
     end mk1 = Ok u mk2 ->
     rings_at s suftab vals nidx bsz buffered l B p mk2 /\
     counted_at s l F0 p mk2 /\
     scan_frame s suftab n m mk2) ->
  forall fuel p st mk st' mk',
    (S p < length l)%nat ->
    seeds_inv s suftab vals nidx bsz buffered l B F0 n m (S p) st mk ->
    saininfo_scan fuel s suftab b (Z.of_nat p) st mk = Ok st' mk' ->
    seeds_inv s suftab vals nidx bsz buffered l B F0 n m 0 st' mk'.
Proof.
  intros Hseed. induction fuel as [|fuel IH];
    intros p st mk st' mk' Hp Hinv Hrun; [discriminate|].
  cbn [saininfo_scan] in Hrun.
  apply bind_ok in Hrun. destruct Hrun as (st1 & m1 & Hstep & Hrun).
  assert (Hinv1 : seeds_inv s suftab vals nidx bsz buffered l B F0 n m p
                    st1 m1).
  { apply (seeds_step buffered b p st mk st1 m1); try assumption.
    intros u mk1 mk2. apply Hseed. exact Hp. }
  destruct (Z.eqb_spec (Z.of_nat p) 0) as [E0|N0].
  - apply ret_ok in Hrun. destruct Hrun as [<- <-].
    replace p with 0%nat in Hinv1 by lia. exact Hinv1.
  - destruct p as [|p]; [lia|].
    replace (Z.of_nat (S p) - 1) with (Z.of_nat p) in Hrun by lia.
    apply (IH p st1 m1 st' mk'); [lia|exact Hinv1|exact Hrun].
Qed.

(** The whole scan, from a memory in which the fill pointers are the ends of
    the buckets and the write buffer, if there is one, is empty. *)
Lemma seeds_scan_all buffered (b : option GtSainbuffer) mk st' mk' :
  (forall p u mk1 mk2,
     (S p < length l)%nat ->
     is_Sstar l (Z.of_nat (S p)) = true ->
     rings_at s suftab vals nidx bsz buffered l B (S p) mk1 ->
     counted_at s l F0 p mk1 ->
     scan_frame s suftab n m mk1 ->
     match b with
     | Some buf => gt_sainbuffer_update buf (nth (S p) l 0) (Z.of_nat p)
     | None =>
         fill <- load (bucketfillptr s) (nth (S p) l 0) ;;
         store (bucketfillptr s) (nth (S p) l 0) (fill - 1) ;;
         store suftab (u64 (fill - 1)) (Z.of_nat p)
     end mk1 = Ok u mk2 ->
     rings_at s suftab vals nidx bsz buffered l B p mk2 /\
     counted_at s l F0 p mk2 /\
     scan_frame s suftab n m mk2) ->
  (forall c, 0 <= c < numofchars s ->
     cell mk (bucketfillptr s) c = Some (bucket_end B c)) ->
  (buffered = true ->
   forall c, 0 <= c < numofchars s -> cell mk nidx c = Some 0) ->
  (forall sfc, sstarfirstcharcount s = Some sfc ->
   forall c, 0 <= c < numofchars s -> cell mk sfc c = Some (F0 c)) ->
  scan_frame s suftab n m mk ->
  saininfo_scan (S (Z.to_nat (totallength s))) s suftab b
    (u64 (totallength s - 1))
    {| sc_nextcc := GT_UNIQUEINT (totallength s); sc_nextisStype := true;
       sc_countSstartype := 0 |} mk = Ok st' mk' ->
  seeds_inv s suftab vals nidx bsz buffered l B F0 n m 0 st' mk'.
Proof.
  intros Hseed Hends Hempty Hzero Hfr Hrun.
  pose proof seeds_length as Hlen.
  pose proof (frame_reads mk Hfr) as [_ Hget].
  rewrite u64_small in Hrun by lia.
  cbn [saininfo_scan] in Hrun.
  apply bind_ok in Hrun. destruct Hrun as (st1 & m1 & Hstep & Hrun).
  assert (Hfirst : m1 = mk /\ scan_knows l (length l - 1) st1).
  { unfold saininfo_step in Hstep.
    apply bind_ok in Hstep. destruct Hstep as (cc & m0 & Hg & Hstep).
    rewrite Hget in Hg by lia. injection Hg as <- <-.
    cbn [sc_nextcc sc_nextisStype sc_countSstartype] in Hstep.
    replace (Z.to_nat (totallength s - 1)) with (length l - 1)%nat in Hstep
      by lia.
    assert (E : isStype (nth (length l - 1) l 0)
                  (GT_UNIQUEINT (totallength s)) true = true).
    { unfold isStype. rewrite andb_true_r.
      apply orb_true_iff. rewrite Z.ltb_lt, Z.eqb_eq. lia. }
    rewrite E in Hstep. cbn [negb andb] in Hstep.
    apply bind_ok in Hstep. destruct Hstep as (cnt & m2 & Hr & Hstep).
    apply ret_ok in Hr. destruct Hr as [<- <-].
    apply ret_ok in Hstep. destruct Hstep as [<- <-].
    split; [reflexivity|]. split; [reflexivity|]. split.
    - cbn [sc_nextisStype]. symmetry.
      replace (Z.of_nat (length l - 1)) with (Z.of_nat (length l) - 1) by lia.
      apply is_Stype_last. lia.
    - cbn [sc_countSstartype]. unfold positions_above.
      replace (length l - S (length l - 1))%nat with 0%nat by lia.
      reflexivity. }
  destruct Hfirst as [-> Hk].
  assert (Hinv : seeds_inv s suftab vals nidx bsz buffered l B F0 n m
                   (length l - 1) st1 mk).
  { split; [exact Hk|]. split; [|split; [|exact Hfr]].
    - intros c Hc. exists 0.
      assert (E0 : Sstar_with l c (length l - 1) = [])
        by (apply Sstar_with_last; lia).
      split.
      + unfold ring_state, Sstar_count. rewrite E0. cbn [length].
        split; [lia|]. split.
        * rewrite (Hends c Hc). f_equal. lia.
        * intros q [].
      + destruct buffered; [|reflexivity].
        split; [apply Hempty; [reflexivity|exact Hc]|exact Hbsz].
    - intros sfc Es c Hc. rewrite (Hzero sfc Es c Hc). f_equal.
      unfold Sstar_count. rewrite Sstar_with_last by lia. cbn [length].
      rewrite Z.add_0_r. symmetry. apply u64_small.
      apply (Hsfc sfc Es c Hc). }
  destruct (Z.eqb_spec (totallength s - 1) 0) as [E0|N0].
  - apply ret_ok in Hrun. destruct Hrun as [<- <-].
    replace (length l - 1)%nat with 0%nat in Hinv by lia. exact Hinv.
  - replace (totallength s - 1 - 1) with (Z.of_nat (length l - 2)) in Hrun
      by lia.
    apply (seeds_scan_rest buffered b Hseed (Z.to_nat (totallength s))
             (length l - 2)%nat st1 mk st' mk'); [lia| |exact Hrun].
    replace (S (length l - 2)) with (length l - 1)%nat by lia. exact Hinv.
Qed.

End Scan.

(** Once every seed is in the suffix table the write buffer does not
    matter. *)
Lemma rings_settled vals nidx bsz vals' nidx' bsz' p mk mk' :
  rings_at s suftab vals nidx bsz false l B p mk ->
  (forall c, 0 <= c < numofchars s ->
     cell mk' (bucketfillptr s) c = cell mk (bucketfillptr s) c) ->
  (forall j, 0 <= j < n -> cell mk' suftab j = cell mk suftab j) ->
  rings_at s suftab vals' nidx' bsz' false l B p mk'.
Proof.
  intros Hrings Efp Etab c Hc.
  destruct (Hrings c Hc) as (cnt & (Hcnt & Hfill & Hseeds) & ->).
  exists 0. split; [|reflexivity].
  split; [exact Hcnt|]. split; [rewrite Efp by exact Hc; exact Hfill|].
  intros q Hq. destruct (Hseeds q Hq) as [H1 _].
  pose proof (Sstar_count_above l c p q Hq) as Hr.
  pose proof (Sstar_count_nonneg l c (Z.to_nat q)).
  pose proof (Sstar_count_mono l c 0 p ltac:(lia)).
  split; [|lia]. intros Hlt. rewrite Etab; [apply H1; exact Hlt|].
  apply (seed_place c _ Hc). lia.
Qed.

(** What [gt_saininfo_new] leaves behind, with the write buffer or without
    it. *)
Lemma saininfo_new_seeds ev count m' :
  gt_saininfo_new s suftab m = (ev, Ok count m') ->
  count = Z.of_nat (length (Sstar_positions l)) /\
  rings_at s suftab suftab suftab 0 false l B 0 m' /\
  counted_at s l F0 0 m' /\
  scan_frame s suftab n m m'.
Proof.
  intros Hrun. unfold gt_saininfo_new in Hrun.
  apply bindT_ok in Hrun. destruct Hrun as (e1 & b & m1 & e2 & Hnew & Hrun & _).
  apply lift_ok in Hrun. destruct Hrun as [_ Hrun].
  apply bind_ok in Hrun. destruct Hrun as (u1 & m2 & Hends & Hrun).
  apply bind_ok in Hrun. destruct Hrun as (st & m3 & Hscan & Hrun).
  apply bind_ok in Hrun. destruct Hrun as (u2 & m4 & Hflush & Hrun).
  apply bind_ok in Hrun. destruct Hrun as (u3 & m5 & Hdel & Hrun).
  apply bind_ok in Hrun. destruct Hrun as (u4 & m6 & Hassert & Hrun).
  apply gt_assert_ok in Hassert. destruct Hassert as [_ <-].
  apply ret_ok in Hrun. destruct Hrun as [<- <-].
  pose proof Hapart as (Hfb & Hft & Hsa & _).
  assert (Hold1 : forall q j, (pblk q < length m)%nat ->
            cell m1 q j = cell m q j).
  { destruct (sainbuffer_new_ok _ _ _ _ _ _ _ Hnc Hnew)
      as [(_ & _ & ->)|(_ & buf & _ & _ & _ & _ & _ & _ & _ & _ & _ & H & _)];
      [reflexivity|exact H]. }
  (* the ends of the buckets *)
  assert (Hba : buckets_apart s).
  { intros c c' Hc Hc'. apply (apart_sym _ _ _ _ Hfb); assumption. }
  assert (HB1 : forall c, 0 <= c < numofchars s ->
            cell m1 (bucketsize s) c = Some (B c)).
  { intros c Hc. destruct (HB c Hc) as [E _].
    rewrite Hold1; [exact E|]. eapply cell_block_lt. exact E. }
  destruct (endbuckets_sums s B m1 u1 m2 Hnc Hba HB1 Hends) as [Hfill Hfr2].
  assert (Hfill' : forall c, 0 <= c < numofchars s ->
            cell m2 (bucketfillptr s) c = Some (bucket_end B c)).
  { intros c Hc. rewrite (Hfill c Hc). f_equal. apply u64_small.
    pose proof (bucket_end_le c Hc).
    pose proof (bucket_start_nonneg c ltac:(lia)).
    pose proof (bucket_end_step B c (proj1 Hc)).
    pose proof (B_nonneg c Hc). unfold bucket_end in *. lia. }
  assert (Hzero2 : forall sfc, sstarfirstcharcount s = Some sfc ->
            forall c, 0 <= c < numofchars s -> cell m2 sfc c = Some (F0 c)).
  { intros sfc Es c Hc. destruct (Hsfc sfc Es c Hc) as [E _].
    destruct (Hsa sfc Es) as [_ Hsf].
    rewrite Hfr2 by (apply (outside_of sfc _ _ _ c Hsf Hc)).
    rewrite Hold1; [exact E|]. eapply cell_block_lt. exact E. }
  assert (Hframe2 : scan_frame s suftab n m m2).
  { intros q j Hq H1 _ _. rewrite Hfr2 by exact H1. apply Hold1. exact Hq. }
  destruct (sainbuffer_new_ok _ _ _ _ _ _ _ Hnc Hnew)
    as [(_ & -> & ->)
       |(_ & buf & -> & Hbv & Hbn & Hbf & Hbt & Hbc & Hbsz & Hoff & Hlen1
           & _ & Hnz)].
  - (* no write buffer *)
    apply ret_ok in Hflush. destruct Hflush as [_ <-].
    apply ret_ok in Hdel. destruct Hdel as [_ <-].
    assert (Hinv : seeds_inv s suftab (Ptr (length m) 0)
                     (Ptr (S (length m)) 0) 1 false l B F0 n m 0 st m3).
    { eapply (seeds_scan_all (Ptr (length m) 0) (Ptr (S (length m)) 0) 1);
        [idtac ..|exact Hscan]; cbn [pblk]; try lia; try assumption.
      intros p u mk1 mk2 Hp. eapply seed_direct; cbn [pblk]; try lia;
        try assumption. }
    destruct Hinv as ((_ & _ & Hc) & Hrings & Hcnt & Hfr).
    split; [exact Hc|]. split; [|split; assumption].
    apply (rings_settled _ _ _ _ _ _ 0 m3 m3 Hrings); reflexivity.
  - (* with the write buffer *)
    assert (Hinv : seeds_inv s suftab (Ptr (length m) 0)
                     (Ptr (S (length m)) 0) (buf_size buf) true l B F0 n m
                     0 st m3).
    { eapply (seeds_scan_all (Ptr (length m) 0) (Ptr (S (length m)) 0)
                (buf_size buf));
        [idtac ..|exact Hscan]; cbn [pblk]; try lia; try assumption.
      - intros p u mk1 mk2 Hp.
        eapply (seed_buffered (Ptr (length m) 0) (Ptr (S (length m)) 0)
                  (buf_size buf));
          cbn [pblk]; try lia; try assumption; try reflexivity.
      - intros _ c Hc. rewrite Hfr2; [apply Hnz; exact Hc|].
        left. cbn [pblk]. pose proof (old_fp c Hc). lia. }
    destruct Hinv as ((_ & _ & Hc) & Hrings & Hcnt & Hfr).
    assert (Hfl : rings_at s suftab (Ptr (length m) 0) (Ptr (S (length m)) 0)
                    (buf_size buf) false l B 0 m4 /\
                  counted_at s l F0 0 m4 /\ scan_frame s suftab n m m4).
    { eapply (flushall_ok (Ptr (length m) 0) (Ptr (S (length m)) 0)
                (buf_size buf));
        [idtac ..|exact Hflush];
        cbn [pblk]; try lia; try assumption; try reflexivity. }
    destruct Hfl as (Hrings4 & Hcnt4 & Hfr4).
    unfold gt_sainbuffer_delete in Hdel.
    apply bind_ok in Hdel. destruct Hdel as (u5 & m7 & Hf1 & Hf2).
    rewrite Hbv in Hf1. rewrite Hbn in Hf2.
    assert (Hold5 : forall q j, (pblk q < length m)%nat ->
              cell m5 q j = cell m4 q j).
    { intros q j Hq.
      rewrite (gt_free_cell _ _ _ _ q j Hf2) by (cbn [pblk]; lia).
      apply (gt_free_cell _ _ _ _ q j Hf1). cbn [pblk]. lia. }
    split; [exact Hc|]. split; [|split].
    + apply (rings_settled _ _ _ _ _ _ 0 m4 m5 Hrings4).
      * intros c Hc'. apply Hold5. exact (old_fp c Hc').
      * intros j Hj. apply Hold5. apply old_suftab. lia.
    + intros sfc Es c Hc'. rewrite Hold5 by exact (old_sfc sfc Es).
      apply Hcnt4; assumption.
    + intros q j Hq H1 H2 H3. rewrite Hold5 by exact Hq.
      apply Hfr4; assumption.
Qed.

End Seeds.

(** C4, as the code has it.  [gt_saininfo_new] is run on a sequence [l] of
    any of the three kinds, with the bucket sizes [B] and the counters [F0]
    of the Sstar suffixes in arrays that share no cell with each other, with
    the fill pointers or with the first [n] entries of the suffix table,
    which hold the buckets; each bucket has room for the Sstar suffixes of
    its symbol, the symbols of the Sstar positions are symbols of the
    alphabet and the last symbol is not above the sentinel.  An Sstar
    position is a position [q = p + 1] of type S whose left neighbour [p] is
    of type L.  When the call returns, [countSstartype] is the number of
    these positions; the counter of each symbol, where
    [sstarfirstcharcount] is kept, has gone up by the number of those that
    carry the symbol; and for each of them the suffix table holds [p], the
    position before it, at the fill pointer of its symbol as it is once it
    is decremented for this position, that is for each Sstar position with
    this symbol from [q] on, starting from the end of the bucket.  This is
    so without the write buffer, where every seed is stored at once, and
    with it, where the seeds go through the rings and are written out when
    a ring is full and at the end.  The fill pointers end below the seeds,
    and no other cell of the memory that was there has changed. *)
Theorem Sstar_seeds {hd : GtHeaders} s l suftab n (B F0 : Z -> Z) m ev
    count m' :
  reads_in m s l ->
  0 < totallength s < wordsize ->
  0 < numofchars s ->
  nth (length l - 1) l 0 <= GT_UNIQUEINT (totallength s) ->
  (forall q, In q (Sstar_positions l) ->
     0 <= nth (Z.to_nat q) l 0 < numofchars s) ->
  (forall c, 0 <= c < numofchars s ->
     cell m (bucketsize s) c = Some (B c) /\ Sstar_count l c 0 <= B c) ->
  sum_below B (Z.to_nat (numofchars s)) <= n < wordsize ->
  (forall j, 0 <= j < n -> cell m suftab j <> None) ->
  (forall c, 0 <= c < numofchars s -> cell m (bucketfillptr s) c <> None) ->
  (forall sfc, sstarfirstcharcount s = Some sfc ->
   forall c, 0 <= c < numofchars s ->
     cell m sfc c = Some (F0 c) /\ 0 <= F0 c < wordsize) ->
  scan_apart s suftab n ->
  gt_saininfo_new s suftab m = (ev, Ok count m') ->
  count = Z.of_nat (length (Sstar_positions l)) /\
  (forall sfc, sstarfirstcharcount s = Some sfc ->
   forall c, 0 <= c < numofchars s ->
     cell m' sfc c = Some (u64 (F0 c + Sstar_count l c 0))) /\
  (forall q, In q (Sstar_positions l) ->
     cell m' suftab (seed_index l B q) = Some (q - 1)) /\
  (forall c, 0 <= c < numofchars s ->
     cell m' (bucketfillptr s) c
     = Some (bucket_end B c - Sstar_count l c 0)) /\
  scan_frame s suftab n m m'.
Proof.
  intros Hreads Htl Hnc Hlast Hsym HB Hn Htab Hfp Hsfc Hapart Hrun.
  destruct (saininfo_new_seeds s suftab l B F0 n m Hreads Htl Hnc Hlast Hsym
              HB Hn Htab Hfp Hsfc Hapart ev count m' Hrun)
    as (Hcount & Hrings & Hcnt & Hfr).
  split; [exact Hcount|]. split; [exact Hcnt|]. split; [|split; [|exact Hfr]].
  - intros q Hq. pose proof (Hsym q Hq) as Hc.
    destruct (Hrings _ Hc) as (cnt & (_ & _ & Hseeds) & ->).
    assert (Hin : In q (Sstar_with l (nth (Z.to_nat q) l 0) 0)).
    { apply Sstar_with_In. split; [exact Hq|reflexivity]. }
    destruct (Hseeds q Hin) as [H1 _].
    pose proof (Sstar_count_above l _ 0 q Hin).
    unfold seed_index. apply H1. lia.
  - intros c Hc. destruct (Hrings c Hc) as (cnt & (_ & Hfill & _) & ->).
    rewrite Hfill. f_equal. lia.
Qed.


(** ** The further theorems at given inputs *)

Section FurtherInstances.

Lemma plainseq_bucketsize_witness :
  cell aba_new_mem (bucketsize aba_new_view) 97
  = Some (Z.of_nat (count_occ Z.eq_dec (bytes_of "aba") 97)) /\
  (forall sfc, sstarfirstcharcount aba_new_view = Some sfc ->
     cell aba_new_mem sfc 97 = Some 0) /\
  Forall (fun x => 0 <= x <= UCHAR_MAX) (bytes_of "aba").
Proof.
  refine (@plainseq_bucketsize (spec_headers 3 256) (bytes_of "aba") []
            aba_new_view aba_new_mem 97 _ _ _).
  - vm_compute. reflexivity.
  - vm_compute. reflexivity.
  - vm_compute. split; discriminate.
Defined.

Lemma three_sizes_cells c :
  0 <= c < numofchars three_view ->
  cell three_mem (bucketsize three_view) c = Some (three_sizes c).
Proof.
  intros Hc. change (0 <= c < 3) in Hc.
  assert (E : c = 0 \/ c = 1 \/ c = 2) by lia.
  destruct E as [->|[->| ->]]; reflexivity.
Qed.

Lemma three_view_apart : buckets_apart three_view.
Proof. intros c c' _ _. left. cbn. discriminate. Qed.

Lemma endbuckets_prefix_sums_witness :
  (forall c, 0 <= c < numofchars three_view ->
     cell three_end_mem (bucketfillptr three_view) c
     = Some (u64 (sum_below three_sizes (S (Z.to_nat c))))) /\
  (forall q j, pblk q <> pblk (bucketfillptr three_view) \/
               ~ (0 <= poff q + j - poff (bucketfillptr three_view)
                  < numofchars three_view) ->
               cell three_end_mem q j = cell three_mem q j).
Proof.
  refine (endbuckets_prefix_sums three_view three_sizes three_mem tt
            three_end_mem _ three_view_apart three_sizes_cells _).
  - vm_compute. reflexivity.
  - vm_compute. reflexivity.
Defined.

Lemma startbuckets_prefix_sums_witness :
  (forall c, 0 <= c < numofchars three_view ->
     cell three_start_mem (bucketfillptr three_view) c
     = Some (u64 (sum_below three_sizes (Z.to_nat c)))) /\
  (forall q j, pblk q <> pblk (bucketfillptr three_view) \/
               ~ (0 <= poff q + j - poff (bucketfillptr three_view)
                  < numofchars three_view) ->
               cell three_start_mem q j = cell three_mem q j).
Proof.
  refine (startbuckets_prefix_sums three_view three_sizes three_mem tt
            three_start_mem _ three_view_apart three_sizes_cells _).
  - vm_compute. reflexivity.
  - vm_compute. reflexivity.
Defined.

Lemma aba_view_reads :
  @reads (spec_headers 3 256) aba_view (bytes_of "aba").
Proof. apply reads_plain; reflexivity. Qed.

Lemma deep_view_reads m :
  (forall p, 0 <= p < 4 ->
     cell m (Ptr 0 4) p = Some (nth (Z.to_nat p) deep_symbols 0)) ->
  @reads_in (spec_headers 4 2) m deep_view deep_symbols.
Proof.
  intros H. split; [reflexivity|]. intros p Hp.
  change (load (Ptr 0 4) p m = Ok (nth (Z.to_nat p) deep_symbols 0) m).
  apply cell_load; [apply H; exact Hp|].
  assert (E : p = 0 \/ p = 1 \/ p = 2 \/ p = 3) by (cbn in Hp; lia).
  destruct E as [->|[->|[->| ->]]]; vm_compute; discriminate.
Qed.

Lemma deep_cells m :
  m = deep_mem \/ m = deep_sorted_mem \/ m = deep_named_mem ->
  forall p, 0 <= p < 4 ->
    cell m (Ptr 0 4) p = Some (nth (Z.to_nat p) deep_symbols 0).
Proof.
  intros H p Hp.
  assert (E : p = 0 \/ p = 1 \/ p = 2 \/ p = 3) by lia.
  destruct H as [->|[->| ->]]; destruct E as [->|[->|[->| ->]]]; reflexivity.
Qed.

Lemma compare_suffixes_decides_witness :
  (let hd := spec_headers 3 256 in
   exists r, gt_sain_compare_suffixes aba_view 0 2 aba_mem = Ok r aba_mem /\
     ((r = -1 /\ lex_lt_endmax (suffix (bytes_of "aba") 0)
                   (suffix (bytes_of "aba") 2)) \/
      (r = 1 /\ lex_lt_endmax (suffix (bytes_of "aba") 2)
                  (suffix (bytes_of "aba") 0)))) /\
  (let hd := spec_headers 4 2 in
   exists r, gt_sain_compare_suffixes deep_view 1 3 deep_mem = Ok r deep_mem /\
     ((r = -1 /\ lex_lt_endmax (suffix deep_symbols 1) (suffix deep_symbols 3))
      \/
      (r = 1 /\ lex_lt_endmax (suffix deep_symbols 3) (suffix deep_symbols 1)))).
Proof.
  split; intros hd.
  - refine (proj1 (@compare_suffixes_decides hd aba_view (bytes_of "aba") 0 2
                     aba_mem (reads_reads_in _ _ _ aba_view_reads) _ _) _ _ _).
    + lia.
    + lia.
    + vm_compute. discriminate.
    + vm_compute. discriminate.
    + lia.
  - refine (proj1 (@compare_suffixes_decides hd deep_view deep_symbols 1 3
                     deep_mem _ _ _) _ _ _).
    + apply deep_view_reads, deep_cells. left. reflexivity.
    + lia.
    + lia.
    + vm_compute. discriminate.
    + vm_compute. discriminate.
    + lia.
Defined.

Lemma checkorder_iff_increasing_witness :
  (let hd := spec_headers 3 256 in
   gt_sain_checkorder aba_view suftab0 0 3 aba_sorted_mem
   = Ok tt aba_sorted_mem <->
   forall idx, 0 < idx <= 3 ->
     lex_lt_endmax (suffix (bytes_of "aba") (aba_sorted (idx - 1)))
                   (suffix (bytes_of "aba") (aba_sorted idx))) /\
  (let hd := spec_headers 4 2 in
   gt_sain_checkorder deep_view suftab0 0 3 deep_sorted_mem
   = Ok tt deep_sorted_mem <->
   forall idx, 0 < idx <= 3 ->
     lex_lt_endmax (suffix deep_symbols (deep_sorted (idx - 1)))
                   (suffix deep_symbols (deep_sorted idx))).
Proof.
  split; intros hd.
  - refine (@checkorder_iff_increasing hd aba_view (bytes_of "aba") suftab0 0
              3 aba_sorted aba_sorted_mem
              (reads_reads_in _ _ _ aba_view_reads) _).
    intros idx Hidx.
    assert (E : idx = 0 \/ idx = 1 \/ idx = 2 \/ idx = 3) by lia.
    destruct E as [->|[->|[->| ->]]];
      (split; [reflexivity|vm_compute; split; discriminate]).
  - refine (@checkorder_iff_increasing hd deep_view deep_symbols suftab0 0 3
              deep_sorted deep_sorted_mem _ _).
    + apply deep_view_reads, deep_cells. right. left. reflexivity.
    + intros idx Hidx.
      assert (E : idx = 0 \/ idx = 1 \/ idx = 2 \/ idx = 3) by lia.
      destruct E as [->|[->|[->| ->]]];
        (split; [reflexivity|vm_compute; split; discriminate]).
Defined.

Lemma compare_Sstarstrings_decides_witness :
  (let hd := spec_headers 3 256 in
   exists r, gt_sain_compare_Sstarstrings aba_view 0 2 1 aba_mem
             = Ok r aba_mem /\
     (r = 0 <->
      0 + 1 <= totallength aba_view /\ 2 + 1 <= totallength aba_view /\
      forall k, 0 <= k < 1 ->
        nth (Z.to_nat (0 + k)) (bytes_of "aba") 0
        = nth (Z.to_nat (2 + k)) (bytes_of "aba") 0) /\
     (r = -1 -> lex_lt_endmax (suffix (bytes_of "aba") 0)
                  (suffix (bytes_of "aba") 2)) /\
     (r = 1 -> lex_lt_endmax (suffix (bytes_of "aba") 2)
                 (suffix (bytes_of "aba") 0)) /\
     (r = 0 \/ r = -1 \/ r = 1)) /\
  (let hd := spec_headers 4 2 in
   exists r, gt_sain_compare_Sstarstrings deep_view 1 3 2 deep_named_mem
             = Ok r deep_named_mem /\
     (r = 0 <->
      1 + 2 <= totallength deep_view /\ 3 + 2 <= totallength deep_view /\
      forall k, 0 <= k < 2 ->
        nth (Z.to_nat (1 + k)) deep_symbols 0
        = nth (Z.to_nat (3 + k)) deep_symbols 0) /\
     (r = -1 -> lex_lt_endmax (suffix deep_symbols 1) (suffix deep_symbols 3))
     /\
     (r = 1 -> lex_lt_endmax (suffix deep_symbols 3) (suffix deep_symbols 1))
     /\
     (r = 0 \/ r = -1 \/ r = 1)).
Proof.
  split; intros hd.
  - refine (@compare_Sstarstrings_decides hd aba_view (bytes_of "aba") 0 2 1
              aba_mem (reads_reads_in _ _ _ aba_view_reads) _ _ _ _ _).
    + vm_compute. split; discriminate.
    + vm_compute. split; discriminate.
    + lia.
    + lia.
    + vm_compute. reflexivity.
  - refine (@compare_Sstarstrings_decides hd deep_view deep_symbols 1 3 2
              deep_named_mem _ _ _ _ _ _).
    + apply deep_view_reads, deep_cells. right. right. reflexivity.
    + vm_compute. split; discriminate.
    + vm_compute. split; discriminate.
    + lia.
    + lia.
    + vm_compute. reflexivity.
Defined.

Lemma scan_counts_Sstar_witness :
  sc_countSstartype aba_end
  = Z.of_nat (length (Sstar_positions (bytes_of "aba"))) /\
  sc_nextisStype aba_end = is_Stype (bytes_of "aba") 0 /\
  sc_nextcc aba_end = nth 0 (bytes_of "aba") 0.
Proof.
  refine (@scan_counts_Sstar (spec_headers 3 256) aba_view (bytes_of "aba")
            suftab0 None aba_mem aba_end aba_mem_end aba_view_reads _ _ _).
  - vm_compute. split; reflexivity.
  - vm_compute. discriminate.
  - vm_compute. reflexivity.
Defined.

Lemma filltail_writes_ranges_witness :
  let hd := spec_headers 5 4 in
  let tl := gt_encseq_total_length acttn in
  let sc := gt_encseq_specialcharacters acttn in
  let ps := flat_map range_positions
              (readranges acttn GT_READMODE_FORWARD tl
                 (negb (GT_ISDIRREVERSE GT_READMODE_FORWARD))) in
  Z.of_nat (length ps) = sc /\
  (forall k, (k < length ps)%nat ->
     cell acttn_tail_mem (Ptr 0 4) (Z.of_nat k) = Some (u64 (nth k ps 0)) /\
     nth k ps 0 < tl) /\
  cell acttn_tail_mem (Ptr 0 4) sc = Some (u64 tl) /\
  (forall q j, pblk q <> pblk (Ptr 0 4) \/
               ~ (0 <= poff q + j - poff (Ptr 0 4) <= sc) ->
               cell acttn_tail_mem q j = cell [[0; 0; 0; 0; 0; 0]] q j).
Proof.
  intros hd.
  refine (@filltail_writes_ranges hd (Ptr 0 4) acttn GT_READMODE_FORWARD
            [[0; 0; 0; 0; 0; 0]] tt acttn_tail_mem _ _).
  - vm_compute. reflexivity.
  - vm_compute. reflexivity.
Defined.

Lemma movenames2front_compacts_witness :
  let idxs := positive_below names_at 2 (2 + 5 / 2 + 1) in
  Z.of_nat (length idxs) = 2 /\
  (forall k, (k < length idxs)%nat ->
     cell names_front_mem suftab0 (2 + Z.of_nat k)
     = Some (u64 (names_at (nth k idxs 0) - 1))) /\
  (forall q j, pblk q <> pblk suftab0 \/
               ~ (2 <= poff q + j - poff suftab0 < 2 * 2) ->
               cell names_front_mem q j = cell names_mem q j).
Proof.
  refine (movenames2front_compacts suftab0 2 5 names_at names_mem tt
            names_front_mem _ _ _ _ _).
  - lia.
  - vm_compute. reflexivity.
  - lia.
  - intros i Hi. change (5 / 2) with 2 in Hi.
    assert (E : i = 2 \/ i = 3 \/ i = 4) by lia.
    destruct E as [->|[->| ->]]; reflexivity.
  - vm_compute. reflexivity.
Defined.

Lemma expandorder_maps_ranks_witness :
  value_of aba_expand no_view = aba_view /\
  (forall i, 0 <= i < 1 ->
     cell aba_expand_mem suftab0 i
     = Some (nth (Z.to_nat 0) (Sstar_positions (bytes_of "aba")) 0)) /\
  (forall k, 0 <= k < 1 ->
     cell aba_expand_mem suftab0 (1 + k)
     = Some (nth (Z.to_nat k) (Sstar_positions (bytes_of "aba")) 0)) /\
  (forall q j, pblk q <> pblk suftab0 \/
               ~ (0 <= poff q + j - poff suftab0 < 2 * 1) ->
               cell aba_expand_mem q j = cell aba_mem q j).
Proof.
  refine (@expandorder_maps_ranks (spec_headers 3 256) aba_view
            (bytes_of "aba") 1 suftab0 (fun _ => 0) aba_mem
            (value_of aba_expand no_view) aba_expand_mem
            aba_view_reads _ _ _ _ _ _).
  - intros a. vm_compute. discriminate.
  - vm_compute. split; reflexivity.
  - vm_compute. discriminate.
  - vm_compute. reflexivity.
  - intros i Hi. assert (E : i = 0) by lia. subst i.
    split; [reflexivity|lia].
  - vm_compute. reflexivity.
Defined.

Lemma new_from_array_reclaims_witness :
  fst sub_new = [] /\ length sub_new_mem = length sub_mem /\
  bucketsize sub_view = padd suftab0 (12 - 2) /\
  bucketfillptr sub_view = padd suftab0 (12 - 2 * 2) /\
  (forall p, roundtable sub_view = Some p -> p = padd suftab0 (12 - 4 * 2)) /\
  bucketsizepoints2suftab sub_view = true /\
  bucketfillptrpoints2suftab sub_view = true /\
  (forall p, roundtable sub_view = Some p ->
     roundtablepoints2suftab sub_view = true) /\
  buckets_apart sub_view.
Proof.
  refine (@new_from_array_reclaims (spec_headers 2 2) (Ptr 0 2) 2 2 suftab0 4
            12 sub_mem (fst sub_new) sub_view sub_new_mem _ _ _ _ _).
  - lia.
  - lia.
  - vm_compute. reflexivity.
  - lia.
  - vm_compute. reflexivity.
Defined.

Lemma new_from_array_bucketsize_witness :
  cell sub_new_mem (bucketsize sub_view) 1
  = Some (Z.of_nat (count_occ Z.eq_dec (symbols_of sub_symbols (Z.to_nat 2))
                      1)).
Proof.
  refine (@new_from_array_bucketsize (spec_headers 2 2) (Ptr 0 2) 2 2 suftab0
            4 12 sub_symbols sub_mem (fst sub_new) sub_view sub_new_mem 1
            _ _ _ _ _ _).
  - lia.
  - vm_compute. split; [discriminate|reflexivity].
  - intros i Hi. assert (E : i = 0 \/ i = 1) by lia.
    destruct E as [->| ->]; (split; [reflexivity|vm_compute]);
      split; [discriminate|reflexivity|discriminate|reflexivity].
  - right. vm_compute. discriminate.
  - vm_compute. reflexivity.
  - lia.
Defined.

Lemma check_keeps_table_witness :
  snd (@gt_sain_plain_sortsuffixes (spec_headers 6 256) (bytes_of "banana")
         6 false false false)
  = Ok (value_of (snd banana_run) []) (mem_of (snd banana_run)).
Proof.
  refine (proj1 (@check_keeps_table (spec_headers 6 256) (bytes_of "banana")
                   6 acttn GT_READMODE_FORWARD false false false)
            (value_of (snd banana_run) []) (mem_of (snd banana_run)) _).
  vm_compute. reflexivity.
Defined.

Lemma sortsuffixes_releases_memory_witness :
  length (value_of (snd banana_run) []) = Z.to_nat (u64 (6 + 1)) /\
  Forall (fun b => b = []) (mem_of (snd banana_run)).
Proof.
  refine (proj1 (@sortsuffixes_releases_memory (spec_headers 6 256)
                   (bytes_of "banana") 6 acttn GT_READMODE_FORWARD true false
                   false false)
            (value_of (snd banana_run) []) (mem_of (snd banana_run)) _).
  vm_compute. reflexivity.
Defined.

Lemma assignSstarlength_distances_witness :
  let sp := Sstar_positions (bytes_of "aba") in
  (forall k, (k < length sp)%nat ->
     cell aba_lengths_mem (Ptr 0 1) (GT_DIV2 (nth k sp 0))
     = Some (nth (S k) sp (totallength aba_view) - nth k sp 0 + 1)) /\
  (forall q j, pblk q <> pblk (Ptr 0 1) \/
               ~ (exists x, In x sp /\
                            poff q + j = poff (Ptr 0 1) + GT_DIV2 x) ->
               cell aba_lengths_mem q j = cell aba_mem q j).
Proof.
  refine (@assignSstarlength_distances (spec_headers 3 256) aba_view
            (bytes_of "aba") (Ptr 0 1) aba_mem tt aba_lengths_mem
            aba_view_reads _ _ _).
  - vm_compute. split; reflexivity.
  - vm_compute. discriminate.
  - vm_compute. reflexivity.
Defined.

Lemma determineSstarfirstchardist_counts_witness :
  cell int_counts_mem (Ptr 1 0) 0
  = Some (u64 (0 + Z.of_nat (count_occ Z.eq_dec
                               (symbols_of int_symbols 4) 0))) /\
  cell int_counts_mem (Ptr 2 0) 0
  = Some (u64 (0 + Z.of_nat (length (Sstar_with
                                       (symbols_of int_symbols 4) 0 0)))).
Proof.
  refine (@determineSstarfirstchardist_counts (spec_headers 4 2) int_view
            suftab0 (Ptr 2 0) int_symbols (fun _ => 0) (fun _ => 0) int_mem
            tt int_counts_mem _ _ _ _ _ _ _ _ _ 0 _); [..|vm_compute; split; [discriminate|reflexivity]].
  - reflexivity.
  - reflexivity.
  - vm_compute. split; reflexivity.
  - intros i Hi. change (0 <= i < 4) in Hi.
    assert (E : i = 0 \/ i = 1 \/ i = 2 \/ i = 3) by lia.
    destruct E as [->|[->|[->| ->]]];
      (split; [reflexivity|vm_compute; split; [discriminate|reflexivity]]).
  - vm_compute. discriminate.
  - intros c Hc. change (0 <= c < 2) in Hc.
    assert (E : c = 0 \/ c = 1) by lia.
    destruct E as [->| ->];
      (split; [reflexivity|split; [reflexivity|]]);
      vm_compute; repeat split; discriminate || reflexivity.
  - intros i c _ _. split; left; cbn; discriminate.
  - intros c c' _ _. left. cbn. discriminate.
  - vm_compute. reflexivity.
Defined.

Lemma moveSstar2front_moves_witness :
  Sstar_at_front suftab0 (fun _ => false) 2 6 front_at front_mem 0
    front_moved_mem.
Proof.
  refine (proj1 (moveSstar2front_moves no_view suftab0 2 6 front_at
                   front_mem _ _ _) tt front_moved_mem _).
  - lia.
  - vm_compute. split; reflexivity.
  - intros i Hi.
    assert (E : i = 0 \/ i = 1 \/ i = 2 \/ i = 3 \/ i = 4 \/ i = 5) by lia.
    destruct E as [->|[->|[->|[->|[->| ->]]]]];
      (split; [reflexivity|vm_compute; split; [discriminate|reflexivity]]).
  - vm_compute. reflexivity.
Defined.

Lemma assignSstarnames_names_witness :
  (value_of banana_names 0
   = name_of (bytes_of "banana") banana_Sstar banana_lengths
       (Z.to_nat (3 - 1)) /\
   (forall i, 0 <= i < 3 ->
      cell banana_names_mem suftab0 (3 + GT_DIV2 (banana_Sstar i))
      = Some (name_of (bytes_of "banana") banana_Sstar banana_lengths
                (Z.to_nat i))) /\
   (forall q j, pblk q <> pblk suftab0 \/
                ~ (exists i, 0 <= i < 3 /\
                     poff q + j
                     = poff suftab0 + 3 + GT_DIV2 (banana_Sstar i)) ->
                cell banana_names_mem q j = cell banana_named_mem q j)) /\
  (value_of deep_names 0
   = name_of deep_symbols deep_Sstar deep_lengths (Z.to_nat (2 - 1)) /\
   (forall i, 0 <= i < 2 ->
      cell deep_names_mem suftab0 (2 + GT_DIV2 (deep_Sstar i))
      = Some (name_of deep_symbols deep_Sstar deep_lengths (Z.to_nat i))) /\
   (forall q j, pblk q <> pblk suftab0 \/
                ~ (exists i, 0 <= i < 2 /\
                     poff q + j = poff suftab0 + 2 + GT_DIV2 (deep_Sstar i)) ->
                cell deep_names_mem q j = cell deep_named_mem q j)).
Proof.
  split.
  - refine (@assignSstarnames_names (spec_headers 6 256) banana_view
              (bytes_of "banana") 3 suftab0 banana_Sstar banana_lengths
              banana_named_mem (value_of banana_names 0) banana_names_mem
              _ _ _ _ _ _).
    + apply reads_reads_in, reads_plain; reflexivity.
    + intros a Ea. discriminate Ea.
    + vm_compute. split; reflexivity.
    + intros i Hi. assert (E : i = 0 \/ i = 1 \/ i = 2) by lia.
      destruct E as [->|[->| ->]]; vm_compute;
        repeat split; reflexivity || discriminate.
    + intros i j Hi Hj.
      assert (E : (i = 0 /\ j = 1) \/ (i = 0 /\ j = 2) \/ (i = 1 /\ j = 2))
        by lia.
      destruct E as [[-> ->]|[[-> ->]|[-> ->]]]; vm_compute; discriminate.
    + vm_compute. reflexivity.
  - refine (@assignSstarnames_names (spec_headers 4 2) deep_view deep_symbols
              2 suftab0 deep_Sstar deep_lengths deep_named_mem
              (value_of deep_names 0) deep_names_mem _ _ _ _ _ _).
    + apply deep_view_reads, deep_cells. right. right. reflexivity.
    + intros a Ea p j Hp (i & Hi & ->). injection Ea as <-. right.
      assert (E : i = 0 \/ i = 1) by lia.
      change (totallength deep_view) with 4 in Hp.
      destruct E as [->| ->];
        [change (GT_DIV2 (deep_Sstar 0)) with 0
        |change (GT_DIV2 (deep_Sstar 1)) with 1];
        unfold suftab0; cbn [poff]; lia.
    + vm_compute. split; reflexivity.
    + intros i Hi. assert (E : i = 0 \/ i = 1) by lia.
      destruct E as [->| ->]; vm_compute;
        repeat split; reflexivity || discriminate.
    + intros i j Hi Hj. assert (E : i = 0 /\ j = 1) by lia.
      destruct E as [-> ->]. vm_compute. discriminate.
    + vm_compute. reflexivity.
Defined.

Lemma checked_sort_distinct_witness :
  0 <= nth (Z.to_nat 0) (value_of (snd banana_run) []) 0
    <= Z.of_nat (length (bytes_of "banana")) /\
  0 <= nth (Z.to_nat 1) (value_of (snd banana_run) []) 0
    <= Z.of_nat (length (bytes_of "banana")) /\
  nth (Z.to_nat 0) (value_of (snd banana_run) []) 0
  <> nth (Z.to_nat 1) (value_of (snd banana_run) []) 0.
Proof.
  refine (proj1 (@checked_sort_distinct (spec_headers 6 256))
            (bytes_of "banana") false false (fst banana_run)
            (value_of (snd banana_run) []) (mem_of (snd banana_run)) 0 1
            _ _ _).
  - vm_compute. reflexivity.
  - lia.
  - vm_compute. reflexivity.
Defined.

Lemma insertsortedSstarsuffixes_inserts_witness :
  (forall c k, 0 <= c < 2 -> 0 <= k < ins_counts c ->
     cell ins_done_mem suftab0
       (5 - sum_below ins_sizes (Z.to_nat 2)
        + sum_below ins_sizes (Z.to_nat (c + 1)) - 1 - k)
     = Some (ins_sorted (sum_below ins_counts (Z.to_nat (c + 1)) - 1 - k))) /\
  (forall c j, 0 <= c < 2 ->
     5 - sum_below ins_sizes (Z.to_nat 2) + sum_below ins_sizes (Z.to_nat c)
     <= j
     < 5 - sum_below ins_sizes (Z.to_nat 2)
       + sum_below ins_sizes (Z.to_nat (c + 1)) - ins_counts c ->
     cell ins_done_mem suftab0 j = Some 0) /\
  (forall q j, pblk q <> pblk suftab0 \/
               ~ (0 <= poff q + j - poff suftab0 < 5) ->
               cell ins_done_mem q j = cell ins_mem q j).
Proof.
  refine (insertsortedSstarsuffixes_inserts int_view suftab0 (Ptr 2 0) 5
            ins_counts ins_sizes ins_sorted ins_mem tt ins_done_mem
            _ _ _ _ _ _ _ _ _ _ _).
  - reflexivity.
  - vm_compute. split; [discriminate|reflexivity].
  - vm_compute. split; reflexivity.
  - vm_compute. reflexivity.
  - intros c Hc. change (0 <= c < 2) in Hc.
    assert (E : c = 0 \/ c = 1) by lia.
    destruct E as [->| ->]; vm_compute; split; discriminate.
  - vm_compute. discriminate.
  - intros c Hc. change (0 <= c < 2) in Hc.
    assert (E : c = 0 \/ c = 1) by lia.
    destruct E as [->| ->]; split; reflexivity.
  - intros c _. split; left; cbn; discriminate.
  - intros j Hj.
    assert (E : j = 0 \/ j = 1 \/ j = 2 \/ j = 3 \/ j = 4) by lia.
    destruct E as [->|[->|[->|[->| ->]]]]; eexists;
      (split; [reflexivity|vm_compute; split; [discriminate|reflexivity]]).
  - intros k Hk. change (0 <= k < 2) in Hk.
    assert (E : k = 0 \/ k = 1) by lia.
    destruct E as [->| ->]; reflexivity.
  - vm_compute. reflexivity.
Defined.

Lemma below_all (P : Z -> Prop) (f : Z -> bool) (k : nat) :
  (forall c, f c = true -> P c) ->
  forallb f (map Z.of_nat (List.seq 0 k)) = true ->
  forall c, 0 <= c < Z.of_nat k -> P c.
Proof.
  intros Hf Hall c Hc. apply Hf.
  rewrite forallb_forall in Hall. apply Hall.
  apply in_map_iff. exists (Z.to_nat c). split; [lia|].
  apply in_seq. lia.
Qed.

Lemma Sstar_seeds_witness :
  (let l := bytes_of "aba" in
   value_of (snd aba_seeds) 0 = Z.of_nat (length (Sstar_positions l)) /\
   (forall sfc, sstarfirstcharcount aba_fresh_view = Some sfc ->
    forall c, 0 <= c < numofchars aba_fresh_view ->
      cell aba_seeds_mem sfc c = Some (u64 (0 + Sstar_count l c 0))) /\
   (forall q, In q (Sstar_positions l) ->
      cell aba_seeds_mem suftab0 (seed_index l aba_sizes q) = Some (q - 1)) /\
   (forall c, 0 <= c < numofchars aba_fresh_view ->
      cell aba_seeds_mem (bucketfillptr aba_fresh_view) c
      = Some (bucket_end aba_sizes c - Sstar_count l c 0)) /\
   scan_frame aba_fresh_view suftab0 3 aba_fresh_mem aba_seeds_mem) /\
  (let l := deep_symbols in
   value_of (snd deep_seeds) 0 = Z.of_nat (length (Sstar_positions l)) /\
   (forall sfc, sstarfirstcharcount deep_view = Some sfc ->
    forall c, 0 <= c < numofchars deep_view ->
      cell deep_seeds_mem sfc c = Some (u64 (0 + Sstar_count l c 0))) /\
   (forall q, In q (Sstar_positions l) ->
      cell deep_seeds_mem suftab0 (seed_index l deep_sizes q) = Some (q - 1))
   /\
   (forall c, 0 <= c < numofchars deep_view ->
      cell deep_seeds_mem (bucketfillptr deep_view) c
      = Some (bucket_end deep_sizes c - Sstar_count l c 0)) /\
   scan_frame deep_view suftab0 4 deep_new_mem deep_seeds_mem).
Proof.
  split; intros l.
  - refine (@Sstar_seeds (spec_headers 3 256) aba_fresh_view l suftab0 3
              aba_sizes (fun _ => 0) aba_fresh_mem (fst aba_seeds)
              (value_of (snd aba_seeds) 0) aba_seeds_mem
              _ _ _ _ _ _ _ _ _ _ _ _).
    + apply reads_reads_in, reads_plain; reflexivity.
    + vm_compute. split; reflexivity.
    + reflexivity.
    + vm_compute. discriminate.
    + intros q Hq. vm_compute in Hq. destruct Hq as [<-|[]].
      vm_compute. split; [discriminate|reflexivity].
    + apply (below_all _
               (fun c => match cell aba_fresh_mem (bucketsize aba_fresh_view) c
                         with
                         | Some v => (v =? aba_sizes c)
                                     && (Sstar_count l c 0 <=? aba_sizes c)
                         | None => false
                         end) 256).
      * intros c. destruct (cell _ _ c) as [v|]; [|discriminate].
        rewrite andb_true_iff, Z.eqb_eq, Z.leb_le. intros [-> H].
        split; [reflexivity|exact H].
      * vm_compute. reflexivity.
    + vm_compute. split; [discriminate|reflexivity].
    + intros j Hj. assert (E : j = 0 \/ j = 1 \/ j = 2) by lia.
      destruct E as [->|[->| ->]]; discriminate.
    + apply (below_all _
               (fun c => match cell aba_fresh_mem
                                 (bucketfillptr aba_fresh_view) c with
                         | Some _ => true
                         | None => false
                         end) 256).
      * intros c. destruct (cell _ _ c); [discriminate|discriminate].
      * vm_compute. reflexivity.
    + intros sfc Es. injection Es as <-.
      apply (below_all _
               (fun c => match cell aba_fresh_mem (Ptr 3 0) c with
                         | Some v => v =? 0
                         | None => false
                         end) 256).
      * intros c. destruct (cell _ _ c) as [v|]; [|discriminate].
        rewrite Z.eqb_eq. intros ->. cbv beta.
        split; [reflexivity|split; [lia|reflexivity]].
      * vm_compute. reflexivity.
    + split; [|split; [|split]].
      * intros i j _ _. left. cbn. discriminate.
      * intros i j _ _. left. cbn. discriminate.
      * intros sfc Es. injection Es as <-.
        split; intros i j _ _; left; cbn; discriminate.
      * intros a Ea. discriminate Ea.
    + vm_compute. reflexivity.
  - refine (@Sstar_seeds (spec_headers 4 2) deep_view l suftab0 4
              deep_sizes (fun _ => 0) deep_new_mem (fst deep_seeds)
              (value_of (snd deep_seeds) 0) deep_seeds_mem
              _ _ _ _ _ _ _ _ _ _ _ _).
    + apply deep_view_reads. intros p Hp.
      assert (E : p = 0 \/ p = 1 \/ p = 2 \/ p = 3) by lia.
      destruct E as [->|[->|[->| ->]]]; reflexivity.
    + vm_compute. split; reflexivity.
    + reflexivity.
    + vm_compute. discriminate.
    + intros q Hq. vm_compute in Hq. destruct Hq as [<-|[<-|[]]];
        vm_compute; split; discriminate || reflexivity.
    + intros c Hc. change (0 <= c < 2) in Hc.
      assert (E : c = 0 \/ c = 1) by lia.
      destruct E as [->| ->]; vm_compute; split; reflexivity || discriminate.
    + vm_compute. split; [discriminate|reflexivity].
    + intros j Hj. assert (E : j = 0 \/ j = 1 \/ j = 2 \/ j = 3) by lia.
      destruct E as [->|[->|[->| ->]]]; discriminate.
    + intros c Hc. change (0 <= c < 2) in Hc.
      assert (E : c = 0 \/ c = 1) by lia.
      destruct E as [->| ->]; discriminate.
    + intros sfc Es. discriminate Es.
    + unfold scan_apart, apart.
      change (numofchars deep_view) with 2.
      change (totallength deep_view) with 4.
      change (bucketfillptr deep_view) with (Ptr 0 8).
      change (bucketsize deep_view) with (Ptr 0 10).
      unfold suftab0. cbn [pblk poff].
      split; [|split; [|split]].
      * intros i j Hi Hj. right. lia.
      * intros i j Hi Hj. right. lia.
      * intros sfc Es. discriminate Es.
      * intros a Ea. injection Ea as <-. cbn [pblk poff]. split; [|split].
        -- intros i j Hi Hj. right. lia.
        -- intros i j Hi Hj. right. lia.
        -- intros sfc Es. discriminate Es.
    + vm_compute. reflexivity.
Defined.

End FurtherInstances.
